(** * A shallow embedding of parts of LevelDB (thydamon/leveldb)

    The definitions follow the layout of the sources:

    - [Coding]        util/coding.cc       fixed and variable length integers
    - [WriteBatch]    db/write_batch.cc    the batch container and its iteration
    - [Comparator]    util/comparator.cc   the bytewise comparator
    - [LogReader]     db/log_reader.cc     the reader of the write-ahead log
    - [TableBuilder]  table/table_builder.cc
    - [LRUHandle], [Cache]  util/cache.cc  the hash table and one shard of
                                           the LRU cache

    Their properties follow, in the modules [CodingFacts],
    [WriteBatchFacts], [ComparatorFacts], [LogReaderFacts],
    [TableBuilderFacts] and [CacheFacts].

    Bytes are integers in the range 0..255 ([Z]); a [std::string] or a
    [Slice] is a [list Z]; fixed width integers are [Z] with the
    wrap-around written where the C++ code has it.  A function that may
    fail to return (a loop given fuel, a failing [assert], a read through
    a pointer that is not allocated) returns an [option]; that it
    returns is proved with its properties. *)

From Stdlib Require Import ZArith List Lia Bool String DecimalString Znumtheory.
From stdpp Require Import list.
Import ListNotations.
Local Open Scope Z_scope.

(** ** Machine integers *)

Definition uint8 (v : Z) : Z := v mod 256.
Definition uint32 (v : Z) : Z := v mod 2 ^ 32.
Definition uint64 (v : Z) : Z := v mod 2 ^ 64.

(** Conversion of a [uint32_t] to [int] (two's complement). *)
Definition int32_of_uint32 (v : Z) : Z :=
  if v <? 2 ^ 31 then v else v - 2 ^ 32.

Definition is_byte (b : Z) : Prop := 0 <= b < 256.
Definition bytes (l : list Z) : Prop := Forall is_byte l.

(** The [Status] values the modelled code produces. *)
Inductive Status : Type :=
| OK
| Corruption (msg : string)
| IOError (msg : string).

Definition Status_ok (s : Status) : bool :=
  match s with OK => true | _ => false end.

(** The bytes of a string literal. *)
Definition bytes_of_string (s : string) : list Z :=
  map (fun a => Z.of_N (Ascii.N_of_ascii a)) (list_ascii_of_string s).

(** [s.size()] *)
Definition slen (l : list Z) : Z := Z.of_nat (length l).

(* ================================================================= *)
(** ** util/coding.cc *)

Module Coding.

(** [EncodeFixed32]: both branches of the source store the value least
    significant byte first. *)
Definition EncodeFixed32 (value : Z) : list Z :=
  [ Z.land value 255;
    Z.land (Z.shiftr value 8) 255;
    Z.land (Z.shiftr value 16) 255;
    Z.land (Z.shiftr value 24) 255 ].

Definition EncodeFixed64 (value : Z) : list Z :=
  [ Z.land value 255;
    Z.land (Z.shiftr value 8) 255;
    Z.land (Z.shiftr value 16) 255;
    Z.land (Z.shiftr value 24) 255;
    Z.land (Z.shiftr value 32) 255;
    Z.land (Z.shiftr value 40) 255;
    Z.land (Z.shiftr value 48) 255;
    Z.land (Z.shiftr value 56) 255 ].

(** Modelled from the spec: util/coding.h, which declares the inline
    decoders, is not among the sources.  "Fixed encodings are
    little-endian u32/u64". *)
Definition DecodeFixed32 (buf : list Z) : Z :=
  nth 0 buf 0 + nth 1 buf 0 * 2 ^ 8 + nth 2 buf 0 * 2 ^ 16 + nth 3 buf 0 * 2 ^ 24.

(** Modelled from the spec: see [DecodeFixed32]. *)
Definition DecodeFixed64 (buf : list Z) : Z :=
  DecodeFixed32 buf + DecodeFixed32 (skipn 4 buf) * 2 ^ 32.

Definition PutFixed32 (dst : list Z) (value : Z) : list Z := dst ++ EncodeFixed32 value.
Definition PutFixed64 (dst : list Z) (value : Z) : list Z := dst ++ EncodeFixed64 value.

(** [EncodeVarint32]: the bytes written at [dst]; every store truncates to
    an [unsigned char]. *)
Definition EncodeVarint32 (v : Z) : list Z :=
  let B := 128 in
  if v <? 2 ^ 7 then
    [ uint8 v ]
  else if v <? 2 ^ 14 then
    [ uint8 (Z.lor v B); uint8 (Z.shiftr v 7) ]
  else if v <? 2 ^ 21 then
    [ uint8 (Z.lor v B); uint8 (Z.lor (Z.shiftr v 7) B); uint8 (Z.shiftr v 14) ]
  else if v <? 2 ^ 28 then
    [ uint8 (Z.lor v B); uint8 (Z.lor (Z.shiftr v 7) B);
      uint8 (Z.lor (Z.shiftr v 14) B); uint8 (Z.shiftr v 21) ]
  else
    [ uint8 (Z.lor v B); uint8 (Z.lor (Z.shiftr v 7) B);
      uint8 (Z.lor (Z.shiftr v 14) B); uint8 (Z.lor (Z.shiftr v 21) B);
      uint8 (Z.shiftr v 28) ].

Definition PutVarint32 (dst : list Z) (v : Z) : list Z := dst ++ EncodeVarint32 v.

(** [PutLengthPrefixedSlice]: [value.size()] is converted to [uint32_t]. *)
Definition PutLengthPrefixedSlice (dst : list Z) (value : list Z) : list Z :=
  PutVarint32 dst (uint32 (slen value)) ++ value.

(** [GetVarint32PtrFallback]: the cursor [p] is the list of the bytes up
    to [limit]; the result is the value and the advanced cursor, [None]
    for [NULL].  The loop runs while [shift <= 28 && p < limit]. *)
Fixpoint GetVarint32PtrFallback_loop (shift result : Z) (p : list Z) {struct p}
  : option (Z * list Z) :=
  if shift <=? 28 then
    match p with
    | [] => None
    | byte :: p' =>
        if negb (Z.land byte 128 =? 0) then
          GetVarint32PtrFallback_loop (shift + 7)
            (Z.lor result (uint32 (Z.shiftl (Z.land byte 127) shift))) p'
        else
          Some (Z.lor result (uint32 (Z.shiftl byte shift)), p')
    end
  else None.

Definition GetVarint32PtrFallback (p : list Z) : option (Z * list Z) :=
  GetVarint32PtrFallback_loop 0 0 p.

(** Modelled from the spec: [GetVarint32Ptr] is an inline function of
    util/coding.h, which is not among the sources.  "Varints encode
    unsigned integers in 7-bit groups, MSB set on all but the terminating
    byte; exceeding the limit or an unterminated varint returns
    failure": this is what the fallback of the source does on every
    input. *)
Definition GetVarint32Ptr (p : list Z) : option (Z * list Z) :=
  GetVarint32PtrFallback p.

(** [GetVarint32 (Slice* input, uint32_t* value)] *)
Definition GetVarint32 (input : list Z) : option (Z * list Z) :=
  GetVarint32Ptr input.

(** [GetLengthPrefixedSlice (Slice* input, Slice* result)]: [Some
    (result, input')] when the function returns [true]. *)
Definition GetLengthPrefixedSlice (input : list Z) : option (list Z * list Z) :=
  match GetVarint32 input with
  | Some (len, input') =>
      if slen input' >=? len then
        Some (firstn (Z.to_nat len) input', skipn (Z.to_nat len) input')
      else None
  | None => None
  end.

(** [VarintLength]: the loop [while (v >= 128)] shifts [v] right by
    seven bits in every turn; nine turns exhaust a [uint64_t]. *)
Fixpoint VarintLength_loop (fuel : nat) (v len : Z) : Z :=
  match fuel with
  | O => len
  | S fuel => if v >=? 128 then VarintLength_loop fuel (Z.shiftr v 7) (len + 1) else len
  end.

Definition VarintLength (v : Z) : Z := VarintLength_loop 10 v 1.

(** [GetVarint64Ptr]: as [GetVarint32PtrFallback], with a [uint64_t]
    result; the loop runs while [shift <= 63 && p < limit]. *)
Fixpoint GetVarint64Ptr_loop (shift result : Z) (p : list Z) {struct p}
  : option (Z * list Z) :=
  if shift <=? 63 then
    match p with
    | [] => None
    | byte :: p' =>
        if negb (Z.land byte 128 =? 0) then
          GetVarint64Ptr_loop (shift + 7)
            (Z.lor result (uint64 (Z.shiftl (Z.land byte 127) shift))) p'
        else
          Some (Z.lor result (uint64 (Z.shiftl byte shift)), p')
    end
  else None.

Definition GetVarint64Ptr (p : list Z) : option (Z * list Z) :=
  GetVarint64Ptr_loop 0 0 p.

(** [GetVarint64 (Slice* input, uint64_t* value)] *)
Definition GetVarint64 (input : list Z) : option (Z * list Z) :=
  GetVarint64Ptr input.

(** [GetLengthPrefixedSlice (const char* p, const char* limit, Slice*
    result)]: [p] is the list of the bytes up to [limit]; the result is
    [*result] and the returned pointer, [None] for [NULL]. *)
Definition GetLengthPrefixedSlice_ptr (p : list Z) : option (list Z * list Z) :=
  match GetVarint32Ptr p with
  | None => None
  | Some (len, p) =>
      if len >? slen p then None
      else Some (firstn (Z.to_nat len) p, skipn (Z.to_nat len) p)
  end.

(** A byte with the bit 128: more bytes of the varint follow. *)
Definition continues (b : Z) : Prop := Z.land b 128 <> 0.

End Coding.

(* ================================================================= *)
(** ** db/write_batch.cc *)

Module WriteBatch.
Import Coding.

(** WriteBatch header has an 8-byte sequence number followed by a
    4-byte count. *)
Definition kHeader : Z := 12.

(** [enum ValueType] of db/dbformat.h *)
Definition kTypeDeletion : Z := 0.
Definition kTypeValue : Z := 1.

(** [WriteBatch::Clear]: [rep_.clear(); rep_.resize(kHeader)] *)
Definition Clear : list Z := repeat 0 (Z.to_nat kHeader).

(** [WriteBatchInternal::Count]: the stored [uint32_t] is returned as an
    [int]. *)
Definition Count (rep_ : list Z) : Z :=
  int32_of_uint32 (DecodeFixed32 (skipn 8 rep_)).

(** [WriteBatchInternal::SetCount]: overwrites [rep_[8..11]]. *)
Definition SetCount (rep_ : list Z) (n : Z) : list Z :=
  firstn 8 rep_ ++ EncodeFixed32 n ++ skipn 12 rep_.

Definition Sequence (rep_ : list Z) : Z := DecodeFixed64 rep_.

(** [WriteBatchInternal::SetSequence]: overwrites [rep_[0..7]]. *)
Definition SetSequence (rep_ : list Z) (seq : Z) : list Z :=
  EncodeFixed64 seq ++ skipn 8 rep_.

Definition Put (rep_ : list Z) (key value : list Z) : list Z :=
  let rep_ := SetCount rep_ (Count rep_ + 1) in
  let rep_ := rep_ ++ [kTypeValue] in
  let rep_ := PutLengthPrefixedSlice rep_ key in
  PutLengthPrefixedSlice rep_ value.

Definition Delete (rep_ : list Z) (key : list Z) : list Z :=
  let rep_ := SetCount rep_ (Count rep_ + 1) in
  let rep_ := rep_ ++ [kTypeDeletion] in
  PutLengthPrefixedSlice rep_ key.

(** [WriteBatch::Handler]: the abstract class, over the state [H] of the
    object that implements it. *)
Record Handler (H : Type) : Type := {
  handler_Put : H -> list Z -> list Z -> H;
  handler_Delete : H -> list Z -> H
}.
Arguments handler_Put {H}.
Arguments handler_Delete {H}.

(** The [while (!input.empty())] loop of [WriteBatch::Iterate].  The
    result is [inl] for a [return] from inside the loop and [inr] with
    [found] when the loop ends.  Every turn removes at least the tag
    byte, so [fuel] may be the length of the input.  [found] is an
    [int]; it counts without overflow on an input of fewer than 2^31
    bytes. *)
Fixpoint Iterate_loop {H : Type} (handler : Handler H) (fuel : nat)
    (input : list Z) (found : Z) (h : H) {struct fuel}
  : option (Status * H + Z * H) :=
  match input with
  | [] => Some (inr (found, h))
  | tag :: input =>
      match fuel with
      | O => None
      | S fuel =>
          let found := found + 1 in
          if tag =? kTypeValue then
            match GetLengthPrefixedSlice input with
            | Some (key, input) =>
                match GetLengthPrefixedSlice input with
                | Some (value, input) =>
                    Iterate_loop handler fuel input found (handler_Put handler h key value)
                | None => Some (inl (Corruption "bad WriteBatch Put", h))
                end
            | None => Some (inl (Corruption "bad WriteBatch Put", h))
            end
          else if tag =? kTypeDeletion then
            match GetLengthPrefixedSlice input with
            | Some (key, input) =>
                Iterate_loop handler fuel input found (handler_Delete handler h key)
            | None => Some (inl (Corruption "bad WriteBatch Delete", h))
            end
          else Some (inl (Corruption "unknown WriteBatch tag", h))
      end
  end.

(** [WriteBatch::Iterate]: the status and the handler after the calls. *)
Definition Iterate {H : Type} (handler : Handler H) (rep_ : list Z) (h : H)
  : option (Status * H) :=
  if slen rep_ <? kHeader then
    Some (Corruption "malformed WriteBatch (too small)", h)
  else
    let input := skipn (Z.to_nat kHeader) rep_ in
    match Iterate_loop handler (length input) input 0 h with
    | None => None
    | Some (inl ret) => Some ret
    | Some (inr (found, h)) =>
        if negb (found =? Count rep_) then
          Some (Corruption "WriteBatch has wrong count", h)
        else Some (OK, h)
    end.

Section InsertInto.

(** db/memtable.h is not among the sources: the memtable is a parameter,
    with its [Add (seq, type, key, value)]. *)
Variable MemTable : Type.
Variable MemTable_Add : MemTable -> Z -> Z -> list Z -> list Z -> MemTable.



End InsertInto.

(** A handler that records the calls it receives, in order. *)
Inductive Call : Type :=
| CallPut (key value : list Z)
| CallDelete (key : list Z).

Definition Recorder : Handler (list Call) := {|
  handler_Put := fun h key value => h ++ [CallPut key value];
  handler_Delete := fun h key => h ++ [CallDelete key]
|}.

(** The batch a client builds: a fresh batch, [SetSequence], then one
    [Put] or [Delete] per call. *)
Definition apply_call (rep_ : list Z) (c : Call) : list Z :=
  match c with
  | CallPut key value => Put rep_ key value
  | CallDelete key => Delete rep_ key
  end.

Definition build (seq : Z) (calls : list Call) : list Z :=
  fold_left apply_call calls (SetSequence Clear seq).

(** The bytes of one record, as the header comment of write_batch.cc
    lays them out. *)
Definition encode_call (c : Call) : list Z :=
  match c with
  | CallPut key value =>
      [kTypeValue] ++ EncodeVarint32 (uint32 (slen key)) ++ key
                   ++ EncodeVarint32 (uint32 (slen value)) ++ value
  | CallDelete key =>
      [kTypeDeletion] ++ EncodeVarint32 (uint32 (slen key)) ++ key
  end.

Definition call_handler {H : Type} (handler : Handler H) (h : H) (c : Call) : H :=
  match c with
  | CallPut key value => handler_Put handler h key value
  | CallDelete key => handler_Delete handler h key
  end.


Definition call_ok (c : Call) : Prop :=
  match c with
  | CallPut key value => bytes key /\ bytes value /\ slen key < 2 ^ 32 /\ slen value < 2 ^ 32
  | CallDelete key => bytes key /\ slen key < 2 ^ 32
  end.

(** The record grammar of the header comment of write_batch.cc, read
    with the decoders: [Record_at input c rest] when [input] starts with
    the record [c] and goes on with [rest]. *)
Inductive Record_at : list Z -> Call -> list Z -> Prop :=
| Record_value input key input1 value input2 :
    GetLengthPrefixedSlice input = Some (key, input1) ->
    GetLengthPrefixedSlice input1 = Some (value, input2) ->
    Record_at (kTypeValue :: input) (CallPut key value) input2
| Record_deletion input key input1 :
    GetLengthPrefixedSlice input = Some (key, input1) ->
    Record_at (kTypeDeletion :: input) (CallDelete key) input1.

Inductive Records : list Z -> list Call -> Prop :=
| Records_nil : Records [] []
| Records_cons input c rest cs :
    Record_at input c rest -> Records rest cs -> Records input (c :: cs).

(** [input] starts with something that is no record. *)
Inductive Bad_record : list Z -> string -> Prop :=
| Bad_tag tag input :
    tag <> kTypeValue -> tag <> kTypeDeletion ->
    Bad_record (tag :: input) "unknown WriteBatch tag"
| Bad_put_key input :
    GetLengthPrefixedSlice input = None ->
    Bad_record (kTypeValue :: input) "bad WriteBatch Put"
| Bad_put_value input key input1 :
    GetLengthPrefixedSlice input = Some (key, input1) ->
    GetLengthPrefixedSlice input1 = None ->
    Bad_record (kTypeValue :: input) "bad WriteBatch Put"
| Bad_delete_key input :
    GetLengthPrefixedSlice input = None ->
    Bad_record (kTypeDeletion :: input) "bad WriteBatch Delete".

(** [input] holds the records [cs] and then something that is no
    record. *)
Inductive Malformed : list Z -> list Call -> string -> Prop :=
| Malformed_here input msg : Bad_record input msg -> Malformed input [] msg
| Malformed_later input c rest cs msg :
    Record_at input c rest -> Malformed rest cs msg -> Malformed input (c :: cs) msg.

(** The batch of scenario S3: [put("k1","v1")], [delete("k2")],
    [put("k3","v3")] on a fresh batch. *)
Definition S3_batch : list Z :=
  let b := Clear in
  let b := Put b (bytes_of_string "k1") (bytes_of_string "v1") in
  let b := Delete b (bytes_of_string "k2") in
  Put b (bytes_of_string "k3") (bytes_of_string "v3").


Definition example_calls : list Call :=
  [ CallPut (bytes_of_string "k1") (bytes_of_string "v1");
    CallDelete (bytes_of_string "k2") ].

(** [WriteBatchInternal::Contents] and [ByteSize] of
    db/write_batch_internal.h are the string [rep_] and its size. *)

(** [WriteBatchInternal::SetContents]: [None] when the [assert]
    fails. *)
Definition SetContents (contents : list Z) : option (list Z) :=
  if slen contents >=? kHeader then Some contents else None.

(** [WriteBatchInternal::Append (dst, src)]: the new [dst->rep_];
    [None] when the [assert] fails.  The sum of the two counts is an
    [int], stored by [SetCount] as a [uint32_t]. *)
Definition Append (dst src : list Z) : option (list Z) :=
  let dst := SetCount dst (Count dst + Count src) in
  if slen src >=? kHeader then Some (dst ++ skipn (Z.to_nat kHeader) src)
  else None.

End WriteBatch.


(* ================================================================= *)
(** ** util/comparator.cc *)

Module Comparator.

(** Modelled from the spec: [Slice::compare] of include/leveldb/slice.h,
    which is not among the sources.  "Bytewise lexicographic order":
    negative, zero or positive as [a] is below, equal to or above [b],
    the bytes compared as unsigned. *)
Fixpoint Slice_compare (a b : list Z) : Z :=
  match a, b with
  | [], [] => 0
  | [], _ :: _ => -1
  | _ :: _, [] => 1
  | x :: a, y :: b =>
      if x <? y then -1 else if y <? x then 1 else Slice_compare a b
  end.

(** [BytewiseComparatorImpl::Compare] *)
Definition Compare (a b : list Z) : Z := Slice_compare a b.

(** The loop
    [while ((diff_index < min_length) &&
            (start[diff_index] == limit[diff_index])) diff_index++;]
    It ends after at most [min_length] turns. *)
Fixpoint diff_index_loop (fuel : nat) (start limit : list Z)
    (min_length diff_index : nat) : nat :=
  match fuel with
  | O => diff_index
  | S fuel =>
      if (diff_index <? min_length)%nat
         && (nth diff_index start 0 =? nth diff_index limit 0)
      then diff_index_loop fuel start limit min_length (S diff_index)
      else diff_index
  end.

(** [BytewiseComparatorImpl::FindShortestSeparator (std::string* start,
    const Slice& limit)]: the new contents of [*start]. *)
Definition FindShortestSeparator (start limit : list Z) : list Z :=
  let min_length := Nat.min (length start) (length limit) in
  let diff_index := diff_index_loop min_length start limit min_length 0 in
  if (min_length <=? diff_index)%nat then
    (* Do not shorten if one string is a prefix of the other *)
    start
  else
    let diff_byte := uint8 (nth diff_index start 0) in
    if (diff_byte <? 255) && (diff_byte + 1 <? uint8 (nth diff_index limit 0)) then
      let start := <[diff_index := uint8 (nth diff_index start 0 + 1)]> start in
      firstn (diff_index + 1) start
    else start.

(** The [for] loop of [FindShortSuccessor], from index [i] on, with
    [fuel = n - i]. *)
Fixpoint FindShortSuccessor_loop (fuel : nat) (i : nat) (key : list Z) : list Z :=
  match fuel with
  | O => key        (* *key is a run of 0xffs.  Leave it alone. *)
  | S fuel =>
      let byte := uint8 (nth i key 0) in
      if negb (byte =? 255) then
        firstn (i + 1) (<[i := uint8 (byte + 1)]> key)
      else FindShortSuccessor_loop fuel (S i) key
  end.

Definition FindShortSuccessor (key : list Z) : list Z :=
  FindShortSuccessor_loop (length key) 0 key.

(** [i] is the first index at which [start] and [limit] differ, both
    having a byte there. *)
Definition first_difference (start limit : list Z) (i : nat) : Prop :=
  (i < length start)%nat /\ (i < length limit)%nat /\
  firstn i start = firstn i limit /\
  nth i start 0 <> nth i limit 0.

(** One of the strings is a prefix of the other. *)
Definition prefix_related (start limit : list Z) : Prop :=
  firstn (length limit) start = firstn (length start) limit.

End Comparator.


(* ================================================================= *)
(** ** db/log_format.h, db/log_reader.h, db/log_reader.cc *)

Module LogReader.
Import Coding.

(** [enum RecordType] *)
Definition kZeroType : Z := 0.
Definition kFullType : Z := 1.
Definition kFirstType : Z := 2.
Definition kMiddleType : Z := 3.
Definition kLastType : Z := 4.
Definition kMaxRecordType : Z := kLastType.

Definition kBlockSize : Z := 32768.

(** Header is checksum (4 bytes), length (2 bytes), type (1 byte). *)
Definition kHeaderSize : Z := 4 + 2 + 1.

(** The special values of log_reader.h that extend the record types. *)
Definition kEof : Z := kMaxRecordType + 1.
Definition kBadRecord : Z := kMaxRecordType + 2.

(** Modelled from the spec: [SequentialFile] is declared in
    include/leveldb/env.h, which is not among the sources.  "Sequential
    file: read(n, &out_slice, scratch), skip(n); returns partial reads
    at EOF", as [PosixSequentialFile] of util/env_posix.cc implements
    it: [data] holds the bytes that [fread] delivers from the file
    position on; [failing] tells that they end with an error of the
    stream and not with the end of the file, and that [fseek] reports
    an error. *)
Record SequentialFile : Type := {
  data : list Z;
  failing : bool
}.

(** [PosixSequentialFile::Read]: [r = fread (scratch, 1, n, file_)]
    bytes are handed back in every case; the status is an error when
    [r < n] and [feof (file_)] does not hold. *)
Definition file_Read (f : SequentialFile) (n : Z)
  : Status * list Z * SequentialFile :=
  let r := Z.min n (slen (data f)) in
  let result := firstn (Z.to_nat r) (data f) in
  let rest := {| data := skipn (Z.to_nat r) (data f); failing := failing f |} in
  if r <? n then
    if negb (failing f) then (OK, result, rest)
    else (IOError "read", result, rest)
  else (OK, result, rest).

(** [PosixSequentialFile::Skip] *)
Definition file_Skip (f : SequentialFile) (n : Z) : Status * SequentialFile :=
  if failing f then (IOError "skip", f)
  else (OK, {| data := skipn (Z.to_nat n) (data f); failing := false |}).

(** The fields of [log::Reader].  [reporter_] is [None] for a NULL
    pointer and otherwise holds the [Corruption (bytes, status)] calls
    the reporter has received, oldest first.  The backing store is not
    modelled: [buffer_] holds its bytes. *)
Record Reader : Type := {
  file_ : SequentialFile;
  reporter_ : option (list (Z * Status));
  checksum_ : bool;
  buffer_ : list Z;
  eof_ : bool;
  last_record_offset_ : Z;
  end_of_buffer_offset_ : Z;
  initial_offset_ : Z;
  resyncing_ : bool
}.

Definition set_file_ (r : Reader) (f : SequentialFile) : Reader :=
  {| file_ := f; reporter_ := reporter_ r; checksum_ := checksum_ r;
     buffer_ := buffer_ r; eof_ := eof_ r;
     last_record_offset_ := last_record_offset_ r;
     end_of_buffer_offset_ := end_of_buffer_offset_ r;
     initial_offset_ := initial_offset_ r; resyncing_ := resyncing_ r |}.

Definition set_reporter_ (r : Reader) (rep : option (list (Z * Status))) : Reader :=
  {| file_ := file_ r; reporter_ := rep; checksum_ := checksum_ r;
     buffer_ := buffer_ r; eof_ := eof_ r;
     last_record_offset_ := last_record_offset_ r;
     end_of_buffer_offset_ := end_of_buffer_offset_ r;
     initial_offset_ := initial_offset_ r; resyncing_ := resyncing_ r |}.

Definition set_buffer_ (r : Reader) (b : list Z) : Reader :=
  {| file_ := file_ r; reporter_ := reporter_ r; checksum_ := checksum_ r;
     buffer_ := b; eof_ := eof_ r;
     last_record_offset_ := last_record_offset_ r;
     end_of_buffer_offset_ := end_of_buffer_offset_ r;
     initial_offset_ := initial_offset_ r; resyncing_ := resyncing_ r |}.

Definition set_eof_ (r : Reader) (e : bool) : Reader :=
  {| file_ := file_ r; reporter_ := reporter_ r; checksum_ := checksum_ r;
     buffer_ := buffer_ r; eof_ := e;
     last_record_offset_ := last_record_offset_ r;
     end_of_buffer_offset_ := end_of_buffer_offset_ r;
     initial_offset_ := initial_offset_ r; resyncing_ := resyncing_ r |}.

Definition set_last_record_offset_ (r : Reader) (o : Z) : Reader :=
  {| file_ := file_ r; reporter_ := reporter_ r; checksum_ := checksum_ r;
     buffer_ := buffer_ r; eof_ := eof_ r;
     last_record_offset_ := o;
     end_of_buffer_offset_ := end_of_buffer_offset_ r;
     initial_offset_ := initial_offset_ r; resyncing_ := resyncing_ r |}.

Definition set_end_of_buffer_offset_ (r : Reader) (o : Z) : Reader :=
  {| file_ := file_ r; reporter_ := reporter_ r; checksum_ := checksum_ r;
     buffer_ := buffer_ r; eof_ := eof_ r;
     last_record_offset_ := last_record_offset_ r;
     end_of_buffer_offset_ := o;
     initial_offset_ := initial_offset_ r; resyncing_ := resyncing_ r |}.

Definition set_resyncing_ (r : Reader) (b : bool) : Reader :=
  {| file_ := file_ r; reporter_ := reporter_ r; checksum_ := checksum_ r;
     buffer_ := buffer_ r; eof_ := eof_ r;
     last_record_offset_ := last_record_offset_ r;
     end_of_buffer_offset_ := end_of_buffer_offset_ r;
     initial_offset_ := initial_offset_ r; resyncing_ := b |}.

(** [Reader::Reader] *)
Definition NewReader (file : SequentialFile) (reporter : option (list (Z * Status)))
    (checksum : bool) (initial_offset : Z) : Reader :=
  {| file_ := file; reporter_ := reporter; checksum_ := checksum;
     buffer_ := []; eof_ := false;
     last_record_offset_ := 0; end_of_buffer_offset_ := 0;
     initial_offset_ := initial_offset;
     resyncing_ := initial_offset >? 0 |}.

(** The calls the reporter has received. *)
Definition reports (r : Reader) : list (Z * Status) :=
  match reporter_ r with Some calls => calls | None => [] end.

(** [Reader::ReportDrop]; the subtraction is on [uint64_t]. *)
Definition ReportDrop (r : Reader) (bytes : Z) (reason : Status) : Reader :=
  match reporter_ r with
  | Some calls =>
      if uint64 (end_of_buffer_offset_ r - slen (buffer_ r) - bytes)
           >=? initial_offset_ r
      then set_reporter_ r (Some (calls ++ [(bytes, reason)]))
      else r
  | None => r
  end.

Definition ReportCorruption (r : Reader) (bytes : Z) (reason : string) : Reader :=
  ReportDrop r bytes (Corruption reason).

(** [Reader::SkipToInitialBlock] *)
Definition SkipToInitialBlock (r : Reader) : bool * Reader :=
  let offset_in_block := initial_offset_ r mod kBlockSize in
  let block_start_location := uint64 (initial_offset_ r - offset_in_block) in
  (* Don't search a block if we'd be in the trailer *)
  let block_start_location :=
    if offset_in_block >? kBlockSize - 6
    then uint64 (block_start_location + kBlockSize)
    else block_start_location in
  let r := set_end_of_buffer_offset_ r block_start_location in
  (* Skip to start of first block that can contain the initial record *)
  if block_start_location >? 0 then
    let '(skip_status, f) := file_Skip (file_ r) block_start_location in
    let r := set_file_ r f in
    if negb (Status_ok skip_status) then
      (false, ReportDrop r block_start_location skip_status)
    else (true, r)
  else (true, r).

(** [const unsigned int type = header[6]]: a [char] (signed on the
    platforms of env_posix.cc) converted to [unsigned int]. *)
Definition uint_of_char (b : Z) : Z :=
  if b <? 128 then b else uint32 (b - 256).

Section Reading.

(** util/crc32c.h is not among the sources: [crc32c::Value] and
    [crc32c::Unmask] are parameters. *)
Variable crc32c_Value : list Z -> Z.
Variable crc32c_Unmask : Z -> Z.

(** The second half of the body of the loop of [ReadPhysicalRecord],
    from "Parse the header" on: it returns in every case. *)
Definition ReadPhysicalRecord_parse (r : Reader) (result : list Z)
  : Z * list Z * Reader :=
  let header := buffer_ r in
  let a := Z.land (nth 4 header 0) 255 in
  let b := Z.land (nth 5 header 0) 255 in
  let type := uint_of_char (nth 6 header 0) in
  let length := Z.lor a (Z.shiftl b 8) in
  if kHeaderSize + length >? slen (buffer_ r) then
    let drop_size := slen (buffer_ r) in
    let r := set_buffer_ r [] in
    if negb (eof_ r) then
      let r := ReportCorruption r drop_size "bad record length" in
      (kBadRecord, result, r)
    else
      (* If the end of the file has been reached without reading |length|
         bytes of payload, assume the writer died in the middle of writing
         the record.  Don't report a corruption. *)
      (kEof, result, r)
  else if (type =? kZeroType) && (length =? 0) then
    (* Skip zero length record without reporting any drops *)
    let r := set_buffer_ r [] in
    (kBadRecord, result, r)
  else if checksum_ r
          && negb (crc32c_Value (firstn (Z.to_nat (1 + length)) (skipn 6 header))
                   =? crc32c_Unmask (DecodeFixed32 header)) then
    (* Drop the rest of the buffer since "length" itself may have been
       corrupted *)
    let drop_size := slen (buffer_ r) in
    let r := set_buffer_ r [] in
    let r := ReportCorruption r drop_size "checksum mismatch" in
    (kBadRecord, result, r)
  else
    let r := set_buffer_ r (skipn (Z.to_nat (kHeaderSize + length)) (buffer_ r)) in
    (* Skip physical record that started before initial_offset_ *)
    if uint64 (end_of_buffer_offset_ r - slen (buffer_ r) - kHeaderSize - length)
         <? initial_offset_ r then
      (kBadRecord, [], r)
    else
      (type, firstn (Z.to_nat length) (skipn (Z.to_nat kHeaderSize) header), r).

(** The read at the head of the loop of [ReadPhysicalRecord]:
    [buffer_.clear(); status = file_->Read (kBlockSize, &buffer_,
    backing_store_); end_of_buffer_offset_ += buffer_.size();] *)
Definition ReadPhysicalRecord_read (r : Reader) : Status * Reader :=
  let r := set_buffer_ r [] in
  let '(status, buf, f) := file_Read (file_ r) kBlockSize in
  let r := set_buffer_ (set_file_ r f) buf in
  let r := set_end_of_buffer_offset_ r
             (uint64 (end_of_buffer_offset_ r + slen (buffer_ r))) in
  (status, r).

(** [Reader::ReadPhysicalRecord (Slice* result)]: the type (or [kEof],
    [kBadRecord]), the new [*result] and the reader.  The [while (true)]
    loop goes round only after a read, and at most twice. *)
Fixpoint ReadPhysicalRecord_loop (fuel : nat) (r : Reader) (result : list Z)
  : option (Z * list Z * Reader) :=
  match fuel with
  | O => None
  | S fuel =>
      if slen (buffer_ r) <? kHeaderSize then
        if negb (eof_ r) then
          (* Last read was a full read, so this is a trailer to skip *)
          let '(status, r) := ReadPhysicalRecord_read r in
          if negb (Status_ok status) then
            let r := set_buffer_ r [] in
            let r := ReportDrop r kBlockSize status in
            let r := set_eof_ r true in
            Some (kEof, result, r)
          else
            let r := if slen (buffer_ r) <? kBlockSize then set_eof_ r true else r in
            ReadPhysicalRecord_loop fuel r result
        else
          (* a truncated header at the end of the file: just report EOF *)
          let r := set_buffer_ r [] in
          Some (kEof, result, r)
      else
        Some (ReadPhysicalRecord_parse r result)
  end.

Definition ReadPhysicalRecord (r : Reader) (result : list Z)
  : option (Z * list Z * Reader) :=
  ReadPhysicalRecord_loop 2 r result.

(** The local variables of [ReadRecord] and its two out parameters. *)
Record Locals : Type := {
  record : list Z;
  scratch : list Z;
  in_fragmented_record : bool;
  prospective_record_offset : Z;
  fragment : list Z
}.

(** [snprintf (buf, sizeof(buf), "unknown record type %u", record_type)] *)
Definition unknown_record_type (record_type : Z) : string :=
  ("unknown record type " ++
   DecimalString.NilZero.string_of_uint (N.to_uint (Z.to_N record_type)))%string.

(** What one turn of the loop of [ReadRecord] does after
    [ReadPhysicalRecord] has returned [record_type] and the resyncing
    test is passed: [inl] for a [return], [inr] to go round again. *)
Definition ReadRecord_switch (r : Reader) (l : Locals)
    (physical_record_offset record_type : Z)
  : (bool * Locals * Reader) + (Locals * Reader) :=
  if record_type =? kFullType then
    let '(l, r) :=
      if in_fragmented_record l then
        if slen (scratch l) =? 0 then
          ({| record := record l; scratch := scratch l;
              in_fragmented_record := false;
              prospective_record_offset := prospective_record_offset l;
              fragment := fragment l |}, r)
        else (l, ReportCorruption r (slen (scratch l)) "partial record without end(1)")
      else (l, r) in
    let l := {| record := fragment l; scratch := [];
                in_fragmented_record := in_fragmented_record l;
                prospective_record_offset := physical_record_offset;
                fragment := fragment l |} in
    inl (true, l, set_last_record_offset_ r (prospective_record_offset l))
  else if record_type =? kFirstType then
    let r :=
      if in_fragmented_record l then
        if slen (scratch l) =? 0 then r
        else ReportCorruption r (slen (scratch l)) "partial record without end(2)"
      else r in
    inr ({| record := record l; scratch := fragment l;
            in_fragmented_record := true;
            prospective_record_offset := physical_record_offset;
            fragment := fragment l |}, r)
  else if record_type =? kMiddleType then
    if negb (in_fragmented_record l) then
      inr (l, ReportCorruption r (slen (fragment l)) "missing start of fragmented record(1)")
    else
      inr ({| record := record l; scratch := scratch l ++ fragment l;
              in_fragmented_record := in_fragmented_record l;
              prospective_record_offset := prospective_record_offset l;
              fragment := fragment l |}, r)
  else if record_type =? kLastType then
    if negb (in_fragmented_record l) then
      inr (l, ReportCorruption r (slen (fragment l)) "missing start of fragmented record(2)")
    else
      let l := {| record := scratch l ++ fragment l; scratch := scratch l ++ fragment l;
                  in_fragmented_record := in_fragmented_record l;
                  prospective_record_offset := prospective_record_offset l;
                  fragment := fragment l |} in
      inl (true, l, set_last_record_offset_ r (prospective_record_offset l))
  else if record_type =? kEof then
    let l :=
      if in_fragmented_record l then
        {| record := record l; scratch := [];
           in_fragmented_record := in_fragmented_record l;
           prospective_record_offset := prospective_record_offset l;
           fragment := fragment l |}
      else l in
    inl (false, l, r)
  else if record_type =? kBadRecord then
    if in_fragmented_record l then
      let r := ReportCorruption r (slen (scratch l)) "error in middle of record" in
      inr ({| record := record l; scratch := [];
              in_fragmented_record := false;
              prospective_record_offset := prospective_record_offset l;
              fragment := fragment l |}, r)
    else inr (l, r)
  else
    let r := ReportCorruption r
               (uint64 (slen (fragment l)
                        + (if in_fragmented_record l then slen (scratch l) else 0)))
               (unknown_record_type record_type) in
    inr ({| record := record l; scratch := [];
            in_fragmented_record := false;
            prospective_record_offset := prospective_record_offset l;
            fragment := fragment l |}, r).

(** One turn of the [while (true)] loop of [ReadRecord]. *)
Definition ReadRecord_turn (r : Reader) (l : Locals)
  : option ((bool * Locals * Reader) + (Locals * Reader)) :=
  let physical_record_offset :=
    uint64 (end_of_buffer_offset_ r - slen (buffer_ r)) in
  match ReadPhysicalRecord r (fragment l) with
  | None => None
  | Some (record_type, frag, r) =>
      let l := {| record := record l; scratch := scratch l;
                  in_fragmented_record := in_fragmented_record l;
                  prospective_record_offset := prospective_record_offset l;
                  fragment := frag |} in
      if resyncing_ r then
        if record_type =? kMiddleType then
          Some (inr (l, r))
        else if record_type =? kLastType then
          Some (inr (l, set_resyncing_ r false))
        else
          Some (ReadRecord_switch (set_resyncing_ r false) l
                  physical_record_offset record_type)
      else
        Some (ReadRecord_switch r l physical_record_offset record_type)
  end.

Fixpoint ReadRecord_loop (fuel : nat) (r : Reader) (l : Locals)
  : option (bool * Locals * Reader) :=
  match fuel with
  | O => None
  | S fuel =>
      match ReadRecord_turn r l with
      | None => None
      | Some (inl ret) => Some ret
      | Some (inr (l, r)) => ReadRecord_loop fuel r l
      end
  end.

(** [Reader::ReadRecord (Slice* record, std::string* scratch)], called
    with [*record = record0] and [*scratch = scratch0]: the returned
    [bool], [*record], [*scratch] and the reader.  Every turn of the
    loop that does not return uses up bytes of the buffer or of the
    file, so their number bounds the turns. *)
Definition ReadRecord_from (fuel : nat) (r : Reader) (record0 scratch0 : list Z)
  : option (bool * list Z * list Z * Reader) :=
  let skipped :=
    if last_record_offset_ r <? initial_offset_ r
    then SkipToInitialBlock r else (true, r) in
  let '(ok, r) := skipped in
  if negb ok then Some (false, record0, scratch0, r)
  else
    let l := {| record := []; scratch := [];
                in_fragmented_record := false;
                prospective_record_offset := 0;
                fragment := [] |} in
    match ReadRecord_loop fuel r l with
    | None => None
    | Some (b, l, r) => Some (b, record l, scratch l, r)
    end.

Definition ReadRecord (r : Reader) (record0 scratch0 : list Z)
  : option (bool * list Z * list Z * Reader) :=
  ReadRecord_from (S (length (buffer_ r) + length (data (file_ r)))) r record0 scratch0.

End Reading.

(** *** Vocabulary of the statements about the reader *)

(** The length and the type a header stores. *)
Definition header_length (header : list Z) : Z :=
  Z.lor (Z.land (nth 4 header 0) 255) (Z.shiftl (Z.land (nth 5 header 0) 255) 8).

Definition header_type (header : list Z) : Z := uint_of_char (nth 6 header 0).

(** The file offset of the first byte of [buffer_]: where the next
    physical record starts. *)
Definition record_offset (r : Reader) : Z :=
  end_of_buffer_offset_ r - slen (buffer_ r).

(** The offsets fit [uint64_t], up to the end of the file, and the
    buffer is part of what has been read. *)
Definition offsets_ok (r : Reader) : Prop :=
  0 <= initial_offset_ r < 2 ^ 64 /\
  slen (buffer_ r) <= end_of_buffer_offset_ r /\
  end_of_buffer_offset_ r + slen (data (file_ r)) < 2 ^ 64.

(** While a fragmented record is assembled, the fragments in [scratch]
    lie between [initial_offset_] and the next physical record. *)
Definition fragments_ok (r : Reader) (l : Locals) : Prop :=
  in_fragmented_record l = true ->
  resyncing_ r = false /\
  initial_offset_ r + slen (scratch l) <= record_offset r.

(** The bytes that the reader has not yet used: those of the buffer and
    those of the file that are not read. *)
Definition unread (r : Reader) : nat :=
  (length (buffer_ r) + length (data (file_ r)))%nat.

(** The reader after [ReadPhysicalRecord] has read the next block. *)
Definition after_read (r : Reader) : Reader :=
  let r := snd (ReadPhysicalRecord_read r) in
  if slen (buffer_ r) <? kBlockSize then set_eof_ r true else r.

(** The buffer [buf] ends the file in the middle of a record: fewer
    than [kHeaderSize] bytes, or a header whose length runs past the
    end. *)
Definition truncated (buf : list Z) : Prop :=
  slen buf < kHeaderSize \/ kHeaderSize + header_length buf > slen buf.

(** A record type that [ReadRecord] does not know: none of FULL, FIRST,
    MIDDLE, LAST, nor one of the two values [kEof] and [kBadRecord]
    that the reader uses itself, nor the empty record of type zero. *)
Definition unknown_type (type length : Z) : Prop :=
  type <> kFullType /\ type <> kFirstType /\ type <> kMiddleType /\
  type <> kLastType /\ type <> kEof /\ type <> kBadRecord /\
  ~ (type = kZeroType /\ length = 0).

Section Records.
Variable crc32c_Value : list Z -> Z.
Variable crc32c_Unmask : Z -> Z.
Variable checksum : bool.

(** The stored checksum of the record at the head of [buf] is the one
    computed, or checksums are not verified. *)
Definition checksum_ok (buf : list Z) : Prop :=
  checksum = true ->
  crc32c_Value (firstn (Z.to_nat (1 + header_length buf)) (skipn 6 buf))
  = crc32c_Unmask (DecodeFixed32 buf).

(** [buf] starts with a whole physical record of type [type] with the
    payload [payload], and goes on with [rest]. *)
Definition record_at (buf : list Z) (type : Z) (payload rest : list Z) : Prop :=
  kHeaderSize + header_length buf <= slen buf /\
  header_type buf = type /\
  ~ (type = kZeroType /\ header_length buf = 0) /\
  checksum_ok buf /\
  payload = firstn (Z.to_nat (header_length buf)) (skipn (Z.to_nat kHeaderSize) buf) /\
  rest = skipn (Z.to_nat (kHeaderSize + header_length buf)) buf.

(** The record at the head of the buffer of [r] is bad for [reason],
    and [dropped] bytes are given up for it: its stored length exceeds
    the buffer and the end of the file has not been seen; or its
    checksum does not match; or it is whole but of an unknown type. *)
Inductive bad_record (r : Reader) (l : Locals) : string -> Z -> Prop :=
| bad_length :
    kHeaderSize <= slen (buffer_ r) ->
    kHeaderSize + header_length (buffer_ r) > slen (buffer_ r) ->
    eof_ r = false ->
    bad_record r l "bad record length" (slen (buffer_ r))
| bad_checksum :
    kHeaderSize + header_length (buffer_ r) <= slen (buffer_ r) ->
    ~ (header_type (buffer_ r) = kZeroType /\ header_length (buffer_ r) = 0) ->
    checksum = true ->
    crc32c_Value (firstn (Z.to_nat (1 + header_length (buffer_ r))) (skipn 6 (buffer_ r)))
      <> crc32c_Unmask (DecodeFixed32 (buffer_ r)) ->
    bad_record r l "checksum mismatch" (slen (buffer_ r))
| bad_type type payload rest :
    record_at (buffer_ r) type payload rest ->
    unknown_type type (header_length (buffer_ r)) ->
    bad_record r l (unknown_record_type type)
      (slen payload + (if in_fragmented_record l then slen (scratch l) else 0)).

End Records.

(** A physical record with an empty checksum field, for files read with
    [checksum = false]: header and payload. *)
Definition physical_record (type : Z) (payload : list Z) : list Z :=
  [0; 0; 0; 0; Z.land (slen payload) 255; Z.land (Z.shiftr (slen payload) 8) 255; type]
  ++ payload.

(** A header alone, storing [length]. *)
Definition physical_header (type length : Z) : list Z :=
  [0; 0; 0; 0; Z.land length 255; Z.land (Z.shiftr length 8) 255; type].

(** The locals with another [fragment]. *)
Definition set_fragment (l : Locals) (frag : list Z) : Locals :=
  {| record := record l; scratch := scratch l;
     in_fragmented_record := in_fragmented_record l;
     prospective_record_offset := prospective_record_offset l;
     fragment := frag |}.

(** A reader that has read a file of the bytes [buf] in one short read
    and has them all in its buffer still; and the locals of [ReadRecord]
    after a FIRST fragment with the payload [scratch]. *)
Definition reader_holding (buf : list Z) : Reader :=
  {| file_ := {| data := []; failing := false |};
     reporter_ := Some []; checksum_ := false;
     buffer_ := buf; eof_ := true;
     last_record_offset_ := 0; end_of_buffer_offset_ := slen buf;
     initial_offset_ := 0; resyncing_ := false |}.

(** A reader that resyncs after a seek to [offset], with [buf], the
    last bytes of the file, in its buffer. *)
Definition resyncing_at (offset : Z) (buf : list Z) : Reader :=
  {| file_ := {| data := []; failing := false |};
     reporter_ := Some []; checksum_ := false;
     buffer_ := buf; eof_ := true;
     last_record_offset_ := 0; end_of_buffer_offset_ := offset + slen buf;
     initial_offset_ := offset; resyncing_ := true |}.

Definition in_fragment (scratch : list Z) : Locals :=
  {| record := []; scratch := scratch; in_fragmented_record := true;
     prospective_record_offset := 0; fragment := scratch |}.

(** A reader on a file that holds [contents], with a reporter, without
    checksum verification (no checksum function is then called). *)
Definition reader_on (contents : list Z) (initial_offset : Z) : Reader :=
  NewReader {| data := contents; failing := false |} (Some []) false initial_offset.

Definition no_crc (_ : list Z) : Z := 0.
Definition no_unmask (_ : Z) : Z := 0.

(** The [n]-th call of [ReadRecord] on such a reader, counted from 0. *)
Fixpoint nth_ReadRecord (n : nat) (r : Reader)
  : option (bool * list Z * list Z * Reader) :=
  match n with
  | O => ReadRecord no_crc no_unmask r [] []
  | S n =>
      match ReadRecord no_crc no_unmask r [] [] with
      | Some (_, record, scratch, r) => nth_ReadRecord n r
      | None => None
      end
  end.

(** What a call returned and what the reporter has received. *)
Definition outcome (o : option (bool * list Z * list Z * Reader))
  : option (bool * list Z * list (Z * Status)) :=
  match o with
  | Some (b, record, _, r) => Some (b, record, reports r)
  | None => None
  end.

(** The reader that a call has left. *)
Definition reader_of (o : option (bool * list Z * list Z * Reader)) : option Reader :=
  match o with
  | Some (_, _, _, r) => Some r
  | None => None
  end.

(** A whole block: a record that fills it but for the last 17 bytes,
    then a header that announces 100 bytes where 10 are left. *)
Definition overrun_in_full_block : list Z :=
  physical_record kFullType (repeat 65 (Z.to_nat 32744))
  ++ physical_header kFullType 100 ++ repeat 0 10.

(** The same tail in a file shorter than a block. *)
Definition overrun_in_short_block : list Z :=
  physical_record kFullType (bytes_of_string "hello")
  ++ physical_header kFullType 100 ++ repeat 0 10.

(** A record of two fragments: the first one fills the first block,
    the last one starts the second block; a whole record follows. *)
Definition two_blocks : list Z :=
  physical_record kFirstType (repeat 65 (Z.to_nat 32761))
  ++ physical_record kLastType (bytes_of_string "y")
  ++ physical_record kFullType (bytes_of_string "x").

(** A record of three fragments: the first and the middle one fill a
    block each, the last one starts the third block; a whole record
    follows. *)
Definition three_blocks : list Z :=
  physical_record kFirstType (repeat 65 (Z.to_nat 32761))
  ++ physical_record kMiddleType (repeat 66 (Z.to_nat 32761))
  ++ physical_record kLastType (bytes_of_string "y")
  ++ physical_record kFullType (bytes_of_string "x").

(** The reader is in step with the file, does not resync, and stands at
    or after its initial offset. *)
Definition steady (r : Reader) : Prop :=
  offsets_ok r /\ resyncing_ r = false /\ initial_offset_ r <= record_offset r.

(** The offset of the physical record that the reader stands before:
    that of the head of the buffer, or that of the next block when the
    buffer holds less than a header. *)
Definition physical_offset (r : Reader) : Z :=
  if slen (buffer_ r) <? kHeaderSize then end_of_buffer_offset_ r else record_offset r.

(** The reader stands at a tail that a writer left when it died: the
    tail is in the buffer and the end of the file has been seen, or the
    buffer holds less than a header and the tail is all that is left to
    read, fewer than [kBlockSize] bytes. *)
Definition at_tail (r : Reader) : Prop :=
  (eof_ r = true /\ truncated (buffer_ r)) \/
  (eof_ r = false /\ slen (buffer_ r) < kHeaderSize /\
   failing (file_ r) = false /\
   slen (data (file_ r)) < kBlockSize /\ truncated (data (file_ r))).

Section Logical.
Variable crc32c_Value : list Z -> Z.
Variable crc32c_Unmask : Z -> Z.

(** The reader [r] stands before a whole physical record of type
    [type] with the payload [payload]: the record is at the head of its
    buffer, or the buffer holds only the trailer of a block, too short
    for a header, and the record is at the head of the next block.
    [r'] is the reader that has the rest of the block in its buffer. *)
Inductive stands_before (r : Reader) (type : Z) (payload : list Z) (r' : Reader) : Prop :=
| before_in_buffer rest :
    record_at crc32c_Value crc32c_Unmask (checksum_ r) (buffer_ r) type payload rest ->
    r' = set_buffer_ r rest ->
    stands_before r type payload r'
| before_in_next_block rest :
    slen (buffer_ r) < kHeaderSize -> eof_ r = false -> failing (file_ r) = false ->
    record_at crc32c_Value crc32c_Unmask (checksum_ r) (buffer_ (after_read r))
      type payload rest ->
    r' = set_buffer_ (after_read r) rest ->
    stands_before r type payload r'.

(** After the fragments [acc] of a record, the reader stands before
    MIDDLE fragments and the LAST one, which complete the record
    [result]. *)
Inductive fragments_from : Reader -> list Z -> list Z -> Reader -> Prop :=
| fragments_last r acc payload r' :
    stands_before r kLastType payload r' ->
    fragments_from r acc (acc ++ payload) r'
| fragments_middle r acc payload r1 result r' :
    stands_before r kMiddleType payload r1 ->
    fragments_from r1 (acc ++ payload) result r' ->
    fragments_from r acc result r'.

(** The reader stands before the record [result] of the user: one FULL
    physical record, or a FIRST fragment and those that follow it. *)
Definition logical_record (r : Reader) (result : list Z) (r' : Reader) : Prop :=
  stands_before r kFullType result r' \/
  exists payload r1,
    stands_before r kFirstType payload r1 /\ fragments_from r1 payload result r'.

(** The reader stands before MIDDLE fragments, none or more, and then
    at the tail of the file: the record they belong to has no end. *)
Inductive fragments_then_tail : Reader -> Prop :=
| tail_reached r : at_tail r -> fragments_then_tail r
| tail_after_middle r payload r1 :
    stands_before r kMiddleType payload r1 ->
    fragments_then_tail r1 -> fragments_then_tail r.

(** The reader stands before what is left of a record that started
    before it: MIDDLE fragments, none or more, and the LAST one.  [r']
    is the reader after them, which no longer resyncs. *)
Inductive leftover_from : Reader -> Reader -> Prop :=
| leftover_from_last r payload r' :
    stands_before r kLastType payload r' ->
    leftover_from r (set_resyncing_ r' false)
| leftover_from_middle r payload r1 r' :
    stands_before r kMiddleType payload r1 ->
    leftover_from r1 r' -> leftover_from r r'.

(** The loop of [ReadRecord], entered with the reader [r] and the
    locals [l], returns [ret] after some turns. *)
Inductive returns : Reader -> Locals -> bool * Locals * Reader -> Prop :=
| returns_now r l ret :
    ReadRecord_turn crc32c_Value crc32c_Unmask r l = Some (inl ret) ->
    returns r l ret
| returns_later r l l' r' ret :
    ReadRecord_turn crc32c_Value crc32c_Unmask r l = Some (inr (l', r')) ->
    returns r' l' ret -> returns r l ret.

(** The locals with which [ReadRecord] enters its loop. *)
Definition new_locals : Locals :=
  {| record := []; scratch := []; in_fragmented_record := false;
     prospective_record_offset := 0; fragment := [] |}.

(** The reporter after the report of [bytes] dropped for [reason]. *)
Definition told (reporter : option (list (Z * Status))) (bytes : Z) (reason : string)
  : option (list (Z * Status)) :=
  match reporter with
  | Some calls => Some (calls ++ [(bytes, Corruption reason)])
  | None => None
  end.

End Logical.

(** [Reader::LastRecordOffset] *)
Definition LastRecordOffset (r : Reader) : Z := last_record_offset_ r.

End LogReader.


(* ================================================================= *)
(** ** table/table_builder.cc *)

Module TableBuilder.
Import Coding.

(** [class Comparator] of include/leveldb/comparator.h, by its three
    operations. *)
Record ComparatorOps : Type := {
  cmp_Compare : list Z -> list Z -> Z;
  cmp_FindShortestSeparator : list Z -> list Z -> list Z;
  cmp_FindShortSuccessor : list Z -> list Z
}.

Definition BytewiseComparator : ComparatorOps := {|
  cmp_Compare := Comparator.Compare;
  cmp_FindShortestSeparator := Comparator.FindShortestSeparator;
  cmp_FindShortSuccessor := Comparator.FindShortSuccessor
|}.

Inductive CompressionType : Type := kNoCompression | kSnappyCompression.

(** Modelled from the spec: include/leveldb/options.h is not among the
    sources.  "Only kNoCompression (1) and kSnappyCompression (2) are
    recognized trailer types". *)
Definition CompressionType_byte (t : CompressionType) : Z :=
  match t with kNoCompression => 1 | kSnappyCompression => 2 end.

(** [EncodeVarint64]: the loop [while (v >= B)] divides [v] by 128 in
    every turn; ten turns exhaust a [uint64_t]. *)
Fixpoint EncodeVarint64_loop (fuel : nat) (v : Z) : list Z :=
  match fuel with
  | O => [uint8 v]
  | S fuel =>
      if v >=? 128 then
        uint8 (Z.lor (Z.land v 127) 128) :: EncodeVarint64_loop fuel (Z.shiftr v 7)
      else [uint8 v]
  end.

Definition EncodeVarint64 (v : Z) : list Z := EncodeVarint64_loop 10 v.

Definition PutVarint64 (dst : list Z) (v : Z) : list Z := dst ++ EncodeVarint64 v.

(** [class BlockHandle] of table/format.h. *)
Record BlockHandle : Type := {
  handle_offset : Z;
  handle_size : Z
}.

(** Modelled from the spec: table/format.cc is not among the sources.
    "A block handle is (offset: varint64, size: varint64)". *)
Definition BlockHandle_EncodeTo (h : BlockHandle) : list Z :=
  PutVarint64 (PutVarint64 [] (handle_offset h)) (handle_size h).

Definition kBlockTrailerSize : Z := 5.

(** Modelled from the spec: table/format.cc is not among the sources.
    "Footer (48 bytes): two block handles (padded with zeros to 40
    bytes) + 8-byte magic 0xdb4775248b80fb57". *)
Definition kTableMagicNumber : Z := 0xdb4775248b80fb57.

Definition Footer_EncodeTo (metaindex_handle index_handle : BlockHandle) : list Z :=
  let dst := BlockHandle_EncodeTo metaindex_handle ++ BlockHandle_EncodeTo index_handle in
  let dst := dst ++ repeat 0 (40 - length dst) in
  dst ++ EncodeFixed64 kTableMagicNumber.

(** Modelled from the spec: [WritableFile] is declared in
    include/leveldb/env.h, which is not among the sources.  "Writable
    file: append(slice), flush(), sync(), close()": the bytes appended
    so far, and whether the calls report an error. *)
Record WritableFile : Type := {
  contents : list Z;
  write_fails : bool
}.

Definition file_Append (f : WritableFile) (data : list Z) : Status * WritableFile :=
  if write_fails f then (IOError "append", f)
  else (OK, {| contents := contents f ++ data; write_fails := false |}).

Definition file_Flush (f : WritableFile) : Status :=
  if write_fails f then IOError "flush" else OK.

(** Modelled from the spec: table/block_builder.cc is not among the
    sources.  "Data block. Sequence of entries followed by restart-point
    array and a trailing u32 restart count. Each entry:
    [shared_prefix_len: varint32][unshared_len: varint32][value_len:
    varint32][unshared_bytes][value_bytes]. Restart points reset the
    shared prefix to zero; one every K entries". *)
Record BlockBuilder : Type := {
  bb_restart_interval : Z;
  bb_buffer : list Z;
  bb_restarts : list Z;
  bb_counter : Z;
  bb_finished : bool;
  bb_last_key : list Z
}.

Definition NewBlockBuilder (block_restart_interval : Z) : BlockBuilder :=
  {| bb_restart_interval := block_restart_interval; bb_buffer := [];
     bb_restarts := [0]; bb_counter := 0; bb_finished := false; bb_last_key := [] |}.

Definition BlockBuilder_Reset (b : BlockBuilder) : BlockBuilder :=
  NewBlockBuilder (bb_restart_interval b).

Definition BlockBuilder_empty (b : BlockBuilder) : bool :=
  match bb_buffer b with [] => true | _ => false end.

Definition BlockBuilder_CurrentSizeEstimate (b : BlockBuilder) : Z :=
  slen (bb_buffer b) + slen (bb_restarts b) * 4 + 4.

Fixpoint shared_prefix_length (a b : list Z) : Z :=
  match a, b with
  | x :: a, y :: b => if x =? y then 1 + shared_prefix_length a b else 0
  | _, _ => 0
  end.

Definition BlockBuilder_Add (b : BlockBuilder) (key value : list Z) : BlockBuilder :=
  let restart := negb (bb_counter b <? bb_restart_interval b) in
  let shared := if restart then 0 else shared_prefix_length (bb_last_key b) key in
  let restarts :=
    if restart then bb_restarts b ++ [uint32 (slen (bb_buffer b))] else bb_restarts b in
  let counter := if restart then 0 else bb_counter b in
  let non_shared := slen key - shared in
  let buffer := PutVarint32 (bb_buffer b) (uint32 shared) in
  let buffer := PutVarint32 buffer (uint32 non_shared) in
  let buffer := PutVarint32 buffer (uint32 (slen value)) in
  let buffer := buffer ++ skipn (Z.to_nat shared) key ++ value in
  {| bb_restart_interval := bb_restart_interval b; bb_buffer := buffer;
     bb_restarts := restarts; bb_counter := counter + 1;
     bb_finished := bb_finished b; bb_last_key := key |}.

(** [BlockBuilder::Finish]: the block contents, and the builder. *)
Definition BlockBuilder_Finish (b : BlockBuilder) : list Z * BlockBuilder :=
  let buffer :=
    fold_left PutFixed32 (bb_restarts b) (bb_buffer b) in
  let buffer := PutFixed32 buffer (slen (bb_restarts b)) in
  (buffer,
   {| bb_restart_interval := bb_restart_interval b; bb_buffer := buffer;
      bb_restarts := bb_restarts b; bb_counter := bb_counter b;
      bb_finished := true; bb_last_key := bb_last_key b |}).

Section Building.

(** util/crc32c.h and port/port.h are not among the sources:
    [crc32c::Value], [crc32c::Extend], [crc32c::Mask] and
    [port::Snappy_Compress] ([None] when it returns [false]) are
    parameters. *)
Variable crc32c_Value : list Z -> Z.
Variable crc32c_Extend : Z -> list Z -> Z.
Variable crc32c_Mask : Z -> Z.
Variable Snappy_Compress : list Z -> option (list Z).

(** table/filter_block.h and include/leveldb/filter_policy.h are not
    among the sources: the filter policy, with its name, and the filter
    block builder, with the calls made of it, are parameters. *)
Variable FilterPolicy : Type.
Variable FilterPolicy_Name : FilterPolicy -> list Z.
Variable FilterBlockBuilder : Type.
Variable NewFilterBlockBuilder : FilterPolicy -> FilterBlockBuilder.
Variable FilterBlockBuilder_StartBlock : FilterBlockBuilder -> Z -> FilterBlockBuilder.
Variable FilterBlockBuilder_AddKey : FilterBlockBuilder -> list Z -> FilterBlockBuilder.
Variable FilterBlockBuilder_Finish : FilterBlockBuilder -> list Z * FilterBlockBuilder.

(** The fields of [Options] that the builder reads. *)
Record Options : Type := {
  comparator : ComparatorOps;
  block_size : Z;
  block_restart_interval : Z;
  compression : CompressionType;
  filter_policy : option FilterPolicy
}.

(** [struct TableBuilder::Rep] *)
Record Rep : Type := {
  options : Options;
  index_block_options : Options;
  file : WritableFile;
  offset : Z;
  status : Status;
  data_block : BlockBuilder;
  index_block : BlockBuilder;
  last_key : list Z;
  num_entries : Z;
  closed : bool;
  filter_block : option FilterBlockBuilder;
  pending_index_entry : bool;
  pending_handle : BlockHandle;
  compressed_output : list Z
}.

Definition set_file (r : Rep) (v : WritableFile) : Rep :=
  {| options := options r; index_block_options := index_block_options r;
     file := v; offset := offset r; status := status r;
     data_block := data_block r; index_block := index_block r;
     last_key := last_key r; num_entries := num_entries r;
     closed := closed r; filter_block := filter_block r;
     pending_index_entry := pending_index_entry r;
     pending_handle := pending_handle r;
     compressed_output := compressed_output r |}.

Definition set_offset (r : Rep) (v : Z) : Rep :=
  {| options := options r; index_block_options := index_block_options r;
     file := file r; offset := v; status := status r;
     data_block := data_block r; index_block := index_block r;
     last_key := last_key r; num_entries := num_entries r;
     closed := closed r; filter_block := filter_block r;
     pending_index_entry := pending_index_entry r;
     pending_handle := pending_handle r;
     compressed_output := compressed_output r |}.

Definition set_status (r : Rep) (v : Status) : Rep :=
  {| options := options r; index_block_options := index_block_options r;
     file := file r; offset := offset r; status := v;
     data_block := data_block r; index_block := index_block r;
     last_key := last_key r; num_entries := num_entries r;
     closed := closed r; filter_block := filter_block r;
     pending_index_entry := pending_index_entry r;
     pending_handle := pending_handle r;
     compressed_output := compressed_output r |}.

Definition set_data_block (r : Rep) (v : BlockBuilder) : Rep :=
  {| options := options r; index_block_options := index_block_options r;
     file := file r; offset := offset r; status := status r; data_block := v;
     index_block := index_block r; last_key := last_key r;
     num_entries := num_entries r; closed := closed r;
     filter_block := filter_block r;
     pending_index_entry := pending_index_entry r;
     pending_handle := pending_handle r;
     compressed_output := compressed_output r |}.

Definition set_index_block (r : Rep) (v : BlockBuilder) : Rep :=
  {| options := options r; index_block_options := index_block_options r;
     file := file r; offset := offset r; status := status r;
     data_block := data_block r; index_block := v; last_key := last_key r;
     num_entries := num_entries r; closed := closed r;
     filter_block := filter_block r;
     pending_index_entry := pending_index_entry r;
     pending_handle := pending_handle r;
     compressed_output := compressed_output r |}.

Definition set_last_key (r : Rep) (v : list Z) : Rep :=
  {| options := options r; index_block_options := index_block_options r;
     file := file r; offset := offset r; status := status r;
     data_block := data_block r; index_block := index_block r; last_key := v;
     num_entries := num_entries r; closed := closed r;
     filter_block := filter_block r;
     pending_index_entry := pending_index_entry r;
     pending_handle := pending_handle r;
     compressed_output := compressed_output r |}.

Definition set_num_entries (r : Rep) (v : Z) : Rep :=
  {| options := options r; index_block_options := index_block_options r;
     file := file r; offset := offset r; status := status r;
     data_block := data_block r; index_block := index_block r;
     last_key := last_key r; num_entries := v; closed := closed r;
     filter_block := filter_block r;
     pending_index_entry := pending_index_entry r;
     pending_handle := pending_handle r;
     compressed_output := compressed_output r |}.

Definition set_closed (r : Rep) (v : bool) : Rep :=
  {| options := options r; index_block_options := index_block_options r;
     file := file r; offset := offset r; status := status r;
     data_block := data_block r; index_block := index_block r;
     last_key := last_key r; num_entries := num_entries r; closed := v;
     filter_block := filter_block r;
     pending_index_entry := pending_index_entry r;
     pending_handle := pending_handle r;
     compressed_output := compressed_output r |}.

Definition set_filter_block (r : Rep) (v : option FilterBlockBuilder) : Rep :=
  {| options := options r; index_block_options := index_block_options r;
     file := file r; offset := offset r; status := status r;
     data_block := data_block r; index_block := index_block r;
     last_key := last_key r; num_entries := num_entries r;
     closed := closed r; filter_block := v;
     pending_index_entry := pending_index_entry r;
     pending_handle := pending_handle r;
     compressed_output := compressed_output r |}.

Definition set_pending_index_entry (r : Rep) (v : bool) : Rep :=
  {| options := options r; index_block_options := index_block_options r;
     file := file r; offset := offset r; status := status r;
     data_block := data_block r; index_block := index_block r;
     last_key := last_key r; num_entries := num_entries r;
     closed := closed r; filter_block := filter_block r;
     pending_index_entry := v; pending_handle := pending_handle r;
     compressed_output := compressed_output r |}.

Definition set_pending_handle (r : Rep) (v : BlockHandle) : Rep :=
  {| options := options r; index_block_options := index_block_options r;
     file := file r; offset := offset r; status := status r;
     data_block := data_block r; index_block := index_block r;
     last_key := last_key r; num_entries := num_entries r;
     closed := closed r; filter_block := filter_block r;
     pending_index_entry := pending_index_entry r; pending_handle := v;
     compressed_output := compressed_output r |}.

Definition set_compressed_output (r : Rep) (v : list Z) : Rep :=
  {| options := options r; index_block_options := index_block_options r;
     file := file r; offset := offset r; status := status r;
     data_block := data_block r; index_block := index_block r;
     last_key := last_key r; num_entries := num_entries r;
     closed := closed r; filter_block := filter_block r;
     pending_index_entry := pending_index_entry r;
     pending_handle := pending_handle r; compressed_output := v |}.

Definition ok (r : Rep) : bool := Status_ok (status r).

(** [TableBuilder::TableBuilder], with the constructor of [Rep]. *)
Definition NewTableBuilder (opt : Options) (f : WritableFile) : Rep :=
  let index_block_options :=
    {| comparator := comparator opt; block_size := block_size opt;
       block_restart_interval := 1; compression := compression opt;
       filter_policy := filter_policy opt |} in
  {| options := opt;
     index_block_options := index_block_options;
     file := f;
     offset := 0;
     status := OK;
     data_block := NewBlockBuilder (block_restart_interval opt);
     index_block := NewBlockBuilder (block_restart_interval index_block_options);
     last_key := [];
     num_entries := 0;
     closed := false;
     filter_block :=
       match filter_policy opt with
       | None => None
       | Some policy =>
           Some (FilterBlockBuilder_StartBlock (NewFilterBlockBuilder policy) 0)
       end;
     pending_index_entry := false;
     pending_handle := {| handle_offset := 0; handle_size := 0 |};
     compressed_output := [] |}.

(** [TableBuilder::WriteRawBlock]: the builder and [*handle]. *)
Definition WriteRawBlock (r : Rep) (block_contents : list Z) (type : CompressionType)
  : Rep * BlockHandle :=
  let handle := {| handle_offset := offset r; handle_size := slen block_contents |} in
  let '(s, f) := file_Append (file r) block_contents in
  let r := set_status (set_file r f) s in
  if Status_ok (status r) then
    let trailer0 := CompressionType_byte type in
    let crc := crc32c_Value block_contents in
    let crc := crc32c_Extend crc [trailer0] in
    let trailer := trailer0 :: EncodeFixed32 (crc32c_Mask crc) in
    let '(s, f) := file_Append (file r) trailer in
    let r := set_status (set_file r f) s in
    if Status_ok (status r) then
      (set_offset r (uint64 (offset r + slen block_contents + kBlockTrailerSize)), handle)
    else (r, handle)
  else (r, handle).

(** [TableBuilder::WriteBlock (BlockBuilder* block, BlockHandle*
    handle)]: the builder, [*block] and [*handle]. *)
Definition WriteBlock (r : Rep) (block : BlockBuilder)
  : Rep * BlockBuilder * BlockHandle :=
  let '(raw, block) := BlockBuilder_Finish block in
  let '(r, block_contents, type) :=
    match compression (options r) with
    | kNoCompression => (r, raw, kNoCompression)
    | kSnappyCompression =>
        match Snappy_Compress raw with
        | Some compressed =>
            let r := set_compressed_output r compressed in
            if slen compressed <? slen raw - slen raw / 8
            then (r, compressed, kSnappyCompression)
            else (r, raw, kNoCompression)
        | None => (r, raw, kNoCompression)
        end
    end in
  let '(r, handle) := WriteRawBlock r block_contents type in
  let r := set_compressed_output r [] in
  (r, BlockBuilder_Reset block, handle).

(** [TableBuilder::Flush] *)
Definition Flush (r : Rep) : Rep :=
  if negb (ok r) then r
  else if BlockBuilder_empty (data_block r) then r
  else
    let '(r, block, handle) := WriteBlock r (data_block r) in
    let r := set_pending_handle (set_data_block r block) handle in
    let r :=
      if ok r then
        let r := set_pending_index_entry r true in
        set_status r (file_Flush (file r))
      else r in
    match filter_block r with
    | Some fb => set_filter_block r (Some (FilterBlockBuilder_StartBlock fb (offset r)))
    | None => r
    end.

(** [TableBuilder::Add].  The statement [r->data_block.Add(key, value);]
    stands in the source at the end of the line of [r->num_entries++;],
    after the two slashes that open the comment of that line: it is part
    of the comment and is not executed. *)
Definition Add (r : Rep) (key value : list Z) : Rep :=
  if negb (ok r) then r
  else
    let r :=
      if pending_index_entry r then
        let r := set_last_key r
                   (cmp_FindShortestSeparator (comparator (options r)) (last_key r) key) in
        let handle_encoding := BlockHandle_EncodeTo (pending_handle r) in
        let r := set_index_block r
                   (BlockBuilder_Add (index_block r) (last_key r) handle_encoding) in
        set_pending_index_entry r false
      else r in
    let r :=
      match filter_block r with
      | Some fb => set_filter_block r (Some (FilterBlockBuilder_AddKey fb key))
      | None => r
      end in
    let r := set_last_key r key in
    let r := set_num_entries r (num_entries r + 1) in
    let estimated_block_size := BlockBuilder_CurrentSizeEstimate (data_block r) in
    if estimated_block_size >=? block_size (options r) then Flush r else r.

(** The four steps of [TableBuilder::Finish], under the names of the
    comments that open them in the source.  A [BlockHandle] that the
    source leaves as constructed is given as [null_handle]; it is read
    by no step that runs. *)
Definition null_handle : BlockHandle := {| handle_offset := 0; handle_size := 0 |}.

(** "Write filter block": the builder and [filter_block_handle]. *)
Definition Finish_filter_block (r : Rep) : Rep * BlockHandle :=
  match filter_block r with
  | Some fb =>
      if ok r then
        let '(contents, fb) := FilterBlockBuilder_Finish fb in
        let r := set_filter_block r (Some fb) in
        WriteRawBlock r contents kNoCompression
      else (r, null_handle)
  | None => (r, null_handle)
  end.

(** "Write metaindex block": the builder and [metaindex_block_handle]. *)
Definition Finish_metaindex_block (r : Rep) (filter_block_handle : BlockHandle)
  : Rep * BlockHandle :=
  if ok r then
    let meta_index_block := NewBlockBuilder (block_restart_interval (options r)) in
    let meta_index_block :=
      match filter_block r, filter_policy (options r) with
      | Some _, Some policy =>
          let key := bytes_of_string "filter." ++ FilterPolicy_Name policy in
          BlockBuilder_Add meta_index_block key (BlockHandle_EncodeTo filter_block_handle)
      | _, _ => meta_index_block
      end in
    let '(r, _, handle) := WriteBlock r meta_index_block in
    (r, handle)
  else (r, null_handle).

(** "Write index block": the builder and [index_block_handle]. *)
Definition Finish_index_block (r : Rep) : Rep * BlockHandle :=
  if ok r then
    let r :=
      if pending_index_entry r then
        let r := set_last_key r
                   (cmp_FindShortSuccessor (comparator (options r)) (last_key r)) in
        let handle_encoding := BlockHandle_EncodeTo (pending_handle r) in
        let r := set_index_block r
                   (BlockBuilder_Add (index_block r) (last_key r) handle_encoding) in
        set_pending_index_entry r false
      else r in
    let '(r, block, handle) := WriteBlock r (index_block r) in
    (set_index_block r block, handle)
  else (r, null_handle).

(** "Write footer" *)
Definition Finish_footer (r : Rep) (metaindex_block_handle index_block_handle : BlockHandle)
  : Rep :=
  if ok r then
    let footer_encoding := Footer_EncodeTo metaindex_block_handle index_block_handle in
    let '(s, f) := file_Append (file r) footer_encoding in
    let r := set_status (set_file r f) s in
    if Status_ok (status r) then set_offset r (uint64 (offset r + slen footer_encoding))
    else r
  else r.

(** [TableBuilder::Finish]: the returned status and the builder. *)
Definition Finish (r : Rep) : Status * Rep :=
  let r := Flush r in
  let r := set_closed r true in
  let '(r, filter_block_handle) := Finish_filter_block r in
  let '(r, metaindex_block_handle) := Finish_metaindex_block r filter_block_handle in
  let '(r, index_block_handle) := Finish_index_block r in
  let r := Finish_footer r metaindex_block_handle index_block_handle in
  (status r, r).

Definition NumEntries (r : Rep) : Z := num_entries r.
Definition FileSize (r : Rep) : Z := offset r.

(** The builder after [Add] has been called with each pair of [kvs] in
    turn. *)
Definition add_all (r : Rep) (kvs : list (list Z * list Z)) : Rep :=
  fold_left (fun r kv => Add r (fst kv) (snd kv)) kvs r.

(** What every [Add] keeps of a builder that has written nothing. *)
Definition untouched (opt : Options) (f : WritableFile) (r : Rep) : Prop :=
  status r = OK /\ pending_index_entry r = false /\
  data_block r = NewBlockBuilder (block_restart_interval opt) /\
  index_block r = NewBlockBuilder 1 /\
  file r = f /\ offset r = 0.

Definition without_filter (opt : Options) : Options :=
  {| comparator := comparator opt; block_size := block_size opt;
     block_restart_interval := block_restart_interval opt;
     compression := compression opt; filter_policy := None |}.

(** The file of the builder [r] does not fail; it held [before] when
    the builder was made and has received [written] since, and
    [FileSize] counts these bytes. *)
Definition in_step (before : list Z) (r : Rep) : Prop :=
  write_fails (file r) = false /\
  exists written,
    contents (file r) = before ++ written /\ FileSize r = uint64 (slen written).

End Building.

(** A file to write to. *)
Definition empty_file : WritableFile := {| contents := []; write_fails := false |}.

(** Options without compression and filter policy, for the examples. *)
Definition plain_options (FilterPolicy : Type) : Options FilterPolicy :=
  {| comparator := BytewiseComparator; block_size := 4096;
     block_restart_interval := 16; compression := kNoCompression;
     filter_policy := None |}.

End TableBuilder.

(* ================================================================= *)
(** ** util/cache.cc *)

Module LRUHandle.

(** [struct LRUHandle].  The links [next_hash], [next] and [prev] are
    not fields here: the chain of a bucket of the hash table and the
    circular list of the cache are lists of addresses, see
    [HandleTable] and [LRUCache] below.  [value] and [deleter] are
    addresses. *)
Record t : Type := {
  value : Z;
  deleter : Z;
  charge : Z;
  key_data : list Z;
  refs : Z;
  hash : Z
}.

(** [Slice key() const]: the branch [next == this] is the one of a
    list head used as a lookup key, which no function of the source
    builds. *)
Definition key (e : t) : list Z := key_data e.

Definition set_refs (e : t) (v : Z) : t :=
  {| value := value e; deleter := deleter e; charge := charge e;
     key_data := key_data e; refs := v; hash := hash e |}.

End LRUHandle.

Module Cache.

(** A [LRUHandle*] is the number of the allocation, and the heap has one
    cell for each: the handle, or [None] once it is freed.  Reading a
    cell that is not allocated, a failing [assert] and a loop that does
    not end make a function return [None]. *)
Abbreviation ptr := nat (only parsing).
Abbreviation Heap := (list (option LRUHandle.t)) (only parsing).

Definition deref (heap : Heap) (p : ptr) : option LRUHandle.t :=
  match heap !! p with
  | Some (Some e) => Some e
  | _ => None
  end.

(** [malloc] and the initialisation of the handle. *)
Definition malloc (heap : Heap) (e : LRUHandle.t) : Heap * ptr :=
  (heap ++ [Some e], length heap).

Definition store (heap : Heap) (p : ptr) (e : LRUHandle.t) : Heap := <[p := Some e]> heap.
Definition free (heap : Heap) (p : ptr) : Heap := <[p := None]> heap.

(** [class HandleTable]: [list_] is the array of [length_] buckets, the
    chain of a bucket through [next_hash] is the list of its handles. *)
Record HandleTable : Type := {
  length_ : Z;
  elems_ : Z;
  list_ : list (list ptr)
}.

(** The loop of [FindPointer]: the number of steps along [next_hash]
    that [ptr] makes from the head of the chain. *)
Fixpoint FindPointer_loop (heap : Heap) (key : list Z) (hash : Z) (chain : list ptr)
  : option nat :=
  match chain with
  | [] => Some O
  | p :: chain' =>
      e ← deref heap p;
      if negb (LRUHandle.hash e =? hash) || negb (bool_decide (key = LRUHandle.key e))
      then n ← FindPointer_loop heap key hash chain'; Some (S n)
      else Some O
  end.

(** [FindPointer]: the [LRUHandle**] is the bucket and the position in
    its chain; it points to [NULL] at the end of the chain. *)
Definition FindPointer (heap : Heap) (t : HandleTable) (key : list Z) (hash : Z)
  : option (nat * nat) :=
  let b := Z.to_nat (Z.land hash (uint32 (length_ t - 1))) in
  chain ← list_ t !! b;
  n ← FindPointer_loop heap key hash chain;
  Some (b, n).

(** The three loops of [Resize]. *)
Fixpoint Resize_length (fuel : nat) (new_length elems : Z) : option Z :=
  if new_length <? elems then
    match fuel with
    | O => None
    | S fuel => Resize_length fuel (uint32 (new_length * 2)) elems
    end
  else Some new_length.

Fixpoint Resize_chain (heap : Heap) (new_length : Z) (chain : list ptr)
    (new_list : list (list ptr)) (count : Z) : option (list (list ptr) * Z) :=
  match chain with
  | [] => Some (new_list, count)
  | h :: next =>
      e ← deref heap h;
      let i := Z.to_nat (Z.land (LRUHandle.hash e) (uint32 (new_length - 1))) in
      head ← new_list !! i;
      Resize_chain heap new_length next (<[i := h :: head]> new_list) (uint32 (count + 1))
  end.

Fixpoint Resize_buckets (heap : Heap) (new_length : Z) (buckets : list (list ptr))
    (new_list : list (list ptr)) (count : Z) : option (list (list ptr) * Z) :=
  match buckets with
  | [] => Some (new_list, count)
  | chain :: buckets =>
      '(new_list, count) ← Resize_chain heap new_length chain new_list count;
      Resize_buckets heap new_length buckets new_list count
  end.

Definition Resize (heap : Heap) (t : HandleTable) : option HandleTable :=
  new_length ← Resize_length 32 4 (elems_ t);
  let new_list := replicate (Z.to_nat new_length) [] in
  '(new_list, count) ←
    Resize_buckets heap new_length (take (Z.to_nat (length_ t)) (list_ t)) new_list 0;
  if elems_ t =? count then
    Some {| length_ := new_length; elems_ := elems_ t; list_ := new_list |}
  else None.

(** [HandleTable::HandleTable] *)
Definition NewHandleTable : option HandleTable :=
  Resize [] {| length_ := 0; elems_ := 0; list_ := [] |}.

(** [HandleTable::Lookup]: [Some None] for [NULL]. *)
Definition HandleTable_Lookup (heap : Heap) (t : HandleTable) (key : list Z) (hash : Z)
  : option (option ptr) :=
  '(b, n) ← FindPointer heap t key hash;
  chain ← list_ t !! b;
  Some (chain !! n).

(** [HandleTable::Insert]: the table and [old]. *)
Definition HandleTable_Insert (heap : Heap) (t : HandleTable) (h : ptr)
  : option (HandleTable * option ptr) :=
  e ← deref heap h;
  '(b, n) ← FindPointer heap t (LRUHandle.key e) (LRUHandle.hash e);
  chain ← list_ t !! b;
  let old := chain !! n in
  let chain :=
    match old with
    | Some _ => <[n := h]> chain
    | None => chain ++ [h]
    end in
  let t := {| length_ := length_ t; elems_ := elems_ t; list_ := <[b := chain]> (list_ t) |} in
  match old with
  | None =>
      let t := {| length_ := length_ t; elems_ := uint32 (elems_ t + 1);
                  list_ := list_ t |} in
      if elems_ t >? length_ t then t ← Resize heap t; Some (t, old)
      else Some (t, old)
  | Some _ => Some (t, old)
  end.

(** [HandleTable::Remove]: the table and [result]. *)
Definition HandleTable_Remove (heap : Heap) (t : HandleTable) (key : list Z) (hash : Z)
  : option (HandleTable * option ptr) :=
  '(b, n) ← FindPointer heap t key hash;
  chain ← list_ t !! b;
  match chain !! n with
  | Some result =>
      Some ({| length_ := length_ t; elems_ := uint32 (elems_ t - 1);
               list_ := <[b := delete n chain]> (list_ t) |}, Some result)
  | None => Some (t, None)
  end.

(** [class LRUCache].  [lru_] is the circular list from [lru_.next],
    the oldest entry, to [lru_.prev], the newest one.  With the fields
    of the class: the heap of the handles, and the calls of the
    deleters, with key and value, in the order they were made. *)
Record LRUCache : Type := {
  capacity_ : Z;
  usage_ : Z;
  lru_ : list ptr;
  table_ : HandleTable;
  heap : Heap;
  deleted : list (Z * list Z * Z)
}.

Definition set_usage_ (c : LRUCache) (v : Z) : LRUCache :=
  {| capacity_ := capacity_ c; usage_ := v; lru_ := lru_ c; table_ := table_ c;
     heap := heap c; deleted := deleted c |}.

Definition set_lru_ (c : LRUCache) (v : list ptr) : LRUCache :=
  {| capacity_ := capacity_ c; usage_ := usage_ c; lru_ := v; table_ := table_ c;
     heap := heap c; deleted := deleted c |}.

Definition set_table_ (c : LRUCache) (v : HandleTable) : LRUCache :=
  {| capacity_ := capacity_ c; usage_ := usage_ c; lru_ := lru_ c; table_ := v;
     heap := heap c; deleted := deleted c |}.

Definition set_heap (c : LRUCache) (v : Heap) : LRUCache :=
  {| capacity_ := capacity_ c; usage_ := usage_ c; lru_ := lru_ c; table_ := table_ c;
     heap := v; deleted := deleted c |}.

Definition set_deleted (c : LRUCache) (v : list (Z * list Z * Z)) : LRUCache :=
  {| capacity_ := capacity_ c; usage_ := usage_ c; lru_ := lru_ c; table_ := table_ c;
     heap := heap c; deleted := v |}.

(** [LRUCache::LRUCache] and [SetCapacity]. *)
Definition NewLRUCache (capacity : Z) : option LRUCache :=
  table ← NewHandleTable;
  Some {| capacity_ := capacity; usage_ := 0; lru_ := []; table_ := table;
          heap := []; deleted := [] |}.

(** [LRUCache::Unref]; [usage_] is a [size_t] of 64 bits. *)
Definition Unref (c : LRUCache) (e : ptr) : option LRUCache :=
  h ← deref (heap c) e;
  if LRUHandle.refs h >? 0 then
    let h := LRUHandle.set_refs h (uint32 (LRUHandle.refs h - 1)) in
    let c := set_heap c (store (heap c) e h) in
    if LRUHandle.refs h <=? 0 then
      let c := set_usage_ c (uint64 (usage_ c - LRUHandle.charge h)) in
      let c := set_deleted c
                 (deleted c ++ [(LRUHandle.deleter h, LRUHandle.key h, LRUHandle.value h)]) in
      Some (set_heap c (free (heap c) e))
    else Some c
  else None.

(** The list without its first [e]; [None] when [e] is not on it. *)
Fixpoint unlink (e : ptr) (l : list ptr) : option (list ptr) :=
  match l with
  | [] => None
  | x :: l => if decide (x = e) then Some l else l' ← unlink e l; Some (x :: l')
  end.

(** [LRUCache::LRU_Remove]: [e] is taken out from between [e->prev] and
    [e->next].  For an [e] that is not on the list the two stores go
    through links that are no longer its own; the list has no state for
    the outcome. *)
Definition LRU_Remove (c : LRUCache) (e : ptr) : option LRUCache :=
  l ← unlink e (lru_ c);
  Some (set_lru_ c l).

(** [LRUCache::LRU_Append]: [e] becomes [lru_.prev]. *)
Definition LRU_Append (c : LRUCache) (e : ptr) : LRUCache :=
  set_lru_ c (lru_ c ++ [e]).

(** [LRUCache::Lookup]: the cache and the handle, [None] for [NULL]. *)
Definition Lookup (c : LRUCache) (key : list Z) (hash : Z) : option (LRUCache * option ptr) :=
  e ← HandleTable_Lookup (heap c) (table_ c) key hash;
  match e with
  | Some e =>
      h ← deref (heap c) e;
      let h := LRUHandle.set_refs h (uint32 (LRUHandle.refs h + 1)) in
      let c := set_heap c (store (heap c) e h) in
      c ← LRU_Remove c e;
      let c := LRU_Append c e in
      Some (c, Some e)
  | None => Some (c, None)
  end.

(** [LRUCache::Release] *)
Definition Release (c : LRUCache) (handle : ptr) : option LRUCache :=
  Unref c handle.

(** The loop of [LRUCache::Insert]. *)
Fixpoint Insert_loop (fuel : nat) (c : LRUCache) : option LRUCache :=
  match lru_ c with
  | old :: _ =>
      if usage_ c >? capacity_ c then
        match fuel with
        | O => None
        | S fuel =>
            c ← LRU_Remove c old;
            h ← deref (heap c) old;
            '(table, _) ← HandleTable_Remove (heap c) (table_ c)
                            (LRUHandle.key h) (LRUHandle.hash h);
            let c := set_table_ c table in
            c ← Unref c old;
            Insert_loop fuel c
        end
      else Some c
  | [] => Some c
  end.

(** [LRUCache::Insert]: the cache and the returned handle.  Every turn
    of the loop takes one entry from the list. *)
Definition Insert (c : LRUCache) (key : list Z) (hash : Z) (value : Z) (charge : Z)
    (deleter : Z) : option (LRUCache * ptr) :=
  let '(heap', e) :=
    malloc (heap c)
      {| LRUHandle.value := value; LRUHandle.deleter := deleter;
         LRUHandle.charge := charge; LRUHandle.key_data := key;
         LRUHandle.refs := 2; LRUHandle.hash := hash |} in
  let c := set_heap c heap' in
  let c := LRU_Append c e in
  let c := set_usage_ c (uint64 (usage_ c + charge)) in
  '(table, old) ← HandleTable_Insert (heap c) (table_ c) e;
  let c := set_table_ c table in
  c ← match old with
      | Some old => c ← LRU_Remove c old; Unref c old
      | None => Some c
      end;
  c ← Insert_loop (length (lru_ c)) c;
  Some (c, e).

(** [LRUCache::Erase] *)
Definition Erase (c : LRUCache) (key : list Z) (hash : Z) : option LRUCache :=
  '(table, e) ← HandleTable_Remove (heap c) (table_ c) key hash;
  let c := set_table_ c table in
  match e with
  | Some e => c ← LRU_Remove c e; Unref c e
  | None => Some c
  end.

(** The loop of [LRUCache::Prune]: [entries] are the entries from [e]
    to the end of the list as they were linked when [Prune] was called;
    the loop goes on from the [next] that it saved before it unlinks
    [e]. *)
Fixpoint Prune_loop (c : LRUCache) (entries : list ptr) : option LRUCache :=
  match entries with
  | [] => Some c
  | e :: next =>
      h ← deref (heap c) e;
      c ← (if LRUHandle.refs h =? 1 then
             '(table, _) ← HandleTable_Remove (heap c) (table_ c)
                             (LRUHandle.key h) (LRUHandle.hash h);
             let c := set_table_ c table in
             c ← LRU_Remove c e;
             Unref c e
           else Some c);
      Prune_loop c next
  end.

(** [LRUCache::Prune] *)
Definition Prune (c : LRUCache) : option LRUCache := Prune_loop c (lru_ c).

(** [LRUCache::TotalCharge] *)
Definition TotalCharge (c : LRUCache) : Z := usage_ c.

(** *** The vocabulary of the statements about the cache *)

(** The entries of the table, bucket by bucket. *)
Definition entries (t : HandleTable) : list ptr := concat (list_ t).

Definition bucket_of (t : HandleTable) (hash : Z) : nat :=
  Z.to_nat (Z.land hash (uint32 (length_ t - 1))).

(** The sum of the charges of the handles that are allocated. *)
Fixpoint total_charge (heap : Heap) : Z :=
  match heap with
  | [] => 0
  | Some e :: heap => LRUHandle.charge e + total_charge heap
  | None :: heap => total_charge heap
  end.

(** The sum of the charges of the handles at [l]. *)
Fixpoint charge_of (heap : Heap) (l : list ptr) : Z :=
  match l with
  | [] => 0
  | p :: l =>
      match deref heap p with
      | Some e => LRUHandle.charge e + charge_of heap l
      | None => charge_of heap l
      end
  end.

(** What [Unref] takes from [usage_] when the list gives up its
    reference of [p]: the charge of the handle when that reference is
    its last one, nothing when a client holds the handle too. *)
Definition released (heap : Heap) (p : ptr) : Z :=
  match deref heap p with
  | Some e => if LRUHandle.refs e =? 1 then LRUHandle.charge e else 0
  | None => 0
  end.

(** The same for the entries [l], one after the other. *)
Fixpoint released_by (heap : Heap) (l : list ptr) : Z :=
  match l with
  | [] => 0
  | p :: l => released heap p + released_by heap l
  end.

(** How often [p] is in [l]. *)
Fixpoint count (p : ptr) (l : list ptr) : nat :=
  match l with
  | [] => O
  | x :: l => if decide (x = p) then S (count p l) else count p l
  end.

(** The hash table: a power of two of buckets, every handle allocated
    and in the bucket of its hash, no handle twice, no two handles with
    the same key and hash. *)
Record table_shape (heap : Heap) (t : HandleTable) : Prop := {
  ok_length : exists k, 2 <= k <= 31 /\ length_ t = 2 ^ k;
  ok_buckets : Z.of_nat (length (list_ t)) = length_ t;
  ok_elems : elems_ t = Z.of_nat (length (entries t));
  ok_chain : forall b chain p, list_ t !! b = Some chain -> p ∈ chain ->
     exists e, deref heap p = Some e /\ bucket_of t (LRUHandle.hash e) = b;
  ok_nodup : NoDup (entries t);
  ok_unique : forall p q e1 e2, p ∈ entries t -> q ∈ entries t ->
     deref heap p = Some e1 -> deref heap q = Some e2 ->
     LRUHandle.key e1 = LRUHandle.key e2 -> LRUHandle.hash e1 = LRUHandle.hash e2 ->
     p = q
}.

(** With the bound that [Insert] keeps by [Resize]. *)
Definition table_ok (heap : Heap) (t : HandleTable) : Prop :=
  table_shape heap t /\ elems_ t <= length_ t.

(** The handle [e] has this key and this hash. *)
Definition has_key (e : LRUHandle.t) (key : list Z) (hash : Z) : Prop :=
  LRUHandle.hash e = hash /\ LRUHandle.key e = key.

(** No entry of the table has this key and this hash. *)
Definition absent (heap : Heap) (t : HandleTable) (key : list Z) (hash : Z) : Prop :=
  forall p e, p ∈ entries t -> deref heap p = Some e -> ~ has_key e key hash.

(** What the loops of [Resize] keep: the new array has [new_length]
    buckets, the handles moved so far are those of [moved], each in the
    bucket of its hash. *)
Definition rehashed (heap : Heap) (new_length : Z) (new_list : list (list ptr))
    (moved : list ptr) : Prop :=
  length new_list = Z.to_nat new_length /\
  (forall i chain p, new_list !! i = Some chain -> p ∈ chain ->
     exists e, deref heap p = Some e /\
       Z.to_nat (Z.land (LRUHandle.hash e) (uint32 (new_length - 1))) = i) /\
  concat new_list ≡ₚ moved.

Definition cell_charge (x : option LRUHandle.t) : Z :=
  match x with Some e => LRUHandle.charge e | None => 0 end.

(** The references to the handles: [owners] has every handle once for
    each reference to it.  Every handle that is allocated has as many
    [refs], at least one, and every handle that is referenced is
    allocated. *)
Definition accounted (heap : Heap) (owners : list ptr) : Prop :=
  (forall p e, deref heap p = Some e ->
     LRUHandle.refs e = Z.of_nat (count p owners) /\ 1 <= LRUHandle.refs e) /\
  (forall p, p ∈ owners -> deref heap p <> None).

(** The handles of [heap'] are handles of [heap], with the fields that
    they had there, [refs] apart. *)
Definition kept (heap heap' : Heap) : Prop :=
  forall p e', deref heap' p = Some e' ->
    exists e, deref heap p = Some e /\ e' = LRUHandle.set_refs e (LRUHandle.refs e').

(** The cache with the handles [hs] that its clients hold, one for each
    [Insert] and each successful [Lookup] that [Release] has not yet
    given back.  The entries of the list are those of the table; the
    references are those of the clients and one for each entry of the
    list; [usage_] is the sum of the charges of all handles that are
    allocated. *)
Record cache_ok (c : LRUCache) (hs : list ptr) : Prop := {
  ok_table : table_ok (heap c) (table_ c);
  ok_lru : NoDup (lru_ c);
  ok_listed : forall p, p ∈ lru_ c <-> p ∈ entries (table_ c);
  ok_refs : accounted (heap c) (hs ++ lru_ c);
  ok_usage : usage_ c = uint64 (total_charge (heap c));
  ok_handles : Z.of_nat (length hs) + 1 < 2 ^ 32
}.

(** The handles that clients hold and that are not on the list, each
    once. *)
Definition off_list (c : LRUCache) (hs : list ptr) : list ptr :=
  remove_dups (filter (fun p => p ∉ lru_ c) hs).

(** The calls that the clients of a cache may make: [Release] of a
    handle that they hold; fewer than 2^32 - 2 handles and 2^31 entries,
    the counters [refs] and [elems_] have 32 bits. *)
Definition may_hold (hs : list ptr) : Prop := Z.of_nat (length hs) + 2 < 2 ^ 32.

Inductive reachable : LRUCache -> list ptr -> Prop :=
| reach_New capacity c :
    NewLRUCache capacity = Some c -> reachable c []
| reach_Insert c hs key hash value charge deleter c' e :
    reachable c hs -> may_hold hs -> elems_ (table_ c) < 2 ^ 31 ->
    Insert c key hash value charge deleter = Some (c', e) ->
    reachable c' (e :: hs)
| reach_Lookup c hs key hash c' e :
    reachable c hs -> may_hold hs ->
    Lookup c key hash = Some (c', Some e) ->
    reachable c' (e :: hs)
| reach_Lookup_NULL c hs key hash c' :
    reachable c hs ->
    Lookup c key hash = Some (c', None) ->
    reachable c' hs
| reach_Release c hs handle hs' c' :
    reachable c hs -> unlink handle hs = Some hs' ->
    Release c handle = Some c' ->
    reachable c' hs'
| reach_Erase c hs key hash c' :
    reachable c hs ->
    Erase c key hash = Some c' ->
    reachable c' hs
| reach_Prune c hs c' :
    reachable c hs ->
    Prune c = Some c' ->
    reachable c' hs.

(** *** States for the examples *)

(** A new cache of capacity 1. *)
Definition cache_new : LRUCache :=
  {| capacity_ := 1; usage_ := 0; lru_ := [];
     table_ := {| length_ := 4; elems_ := 0; list_ := [[]; []; []; []] |};
     heap := []; deleted := [] |}.

Definition handle_a (refs : Z) : LRUHandle.t :=
  {| LRUHandle.value := 100; LRUHandle.deleter := 0; LRUHandle.charge := 1;
     LRUHandle.key_data := bytes_of_string "a"; LRUHandle.refs := refs;
     LRUHandle.hash := 1 |}.

Definition handle_b (refs : Z) : LRUHandle.t :=
  {| LRUHandle.value := 200; LRUHandle.deleter := 0; LRUHandle.charge := 1;
     LRUHandle.key_data := bytes_of_string "b"; LRUHandle.refs := refs;
     LRUHandle.hash := 2 |}.

(** After [Insert] of "a" with charge 1; the client holds the handle 0. *)
Definition cache_a : LRUCache :=
  {| capacity_ := 1; usage_ := 1; lru_ := [O];
     table_ := {| length_ := 4; elems_ := 1; list_ := [[]; [O]; []; []] |};
     heap := [Some (handle_a 2)]; deleted := [] |}.

(** Then after [Insert] of "b" with charge 1. *)
Definition cache_a_b : LRUCache :=
  {| capacity_ := 1; usage_ := 2; lru_ := [];
     table_ := {| length_ := 4; elems_ := 0; list_ := [[]; []; []; []] |};
     heap := [Some (handle_a 1); Some (handle_b 1)]; deleted := [] |}.

(** After [Insert] and [Erase] of "a". *)
Definition cache_a_erased : LRUCache :=
  {| capacity_ := 1; usage_ := 1; lru_ := [];
     table_ := {| length_ := 4; elems_ := 0; list_ := [[]; []; []; []] |};
     heap := [Some (handle_a 1)]; deleted := [] |}.

End Cache.


(* ================================================================= *)
(** ** util/cache.cc: the sharding of [ShardedLRUCache] *)

Module ShardedLRUCache.

Definition kNumShardBits : Z := 4.
Definition kNumShards : Z := Z.shiftl 1 kNumShardBits.

(** [static uint32_t Shard (uint32_t hash)] *)
Definition Shard (hash : Z) : Z := Z.shiftr hash (32 - kNumShardBits).

(** The capacity that the constructor gives to each shard:
    [(capacity + (kNumShards - 1)) / kNumShards] on [size_t]. *)
Definition per_shard (capacity : Z) : Z :=
  uint64 (capacity + (kNumShards - 1)) / kNumShards.

(** [NewId]: the returned id and the new [last_id_]. *)
Definition NewId (last_id_ : Z) : Z * Z :=
  let last_id_ := uint64 (last_id_ + 1) in (last_id_, last_id_).

End ShardedLRUCache.

(* ================================================================= *)
(** ** db/dbformat.h *)

Module DBFormat.
Import Coding.

(** [enum ValueType] *)
Definition kTypeDeletion : Z := 0.
Definition kTypeValue : Z := 1.
Definition kValueTypeForSeek : Z := kTypeValue.

Definition kMaxSequenceNumber : Z := Z.shiftl 1 56 - 1.

(** [struct ParsedInternalKey]; [type] holds the value of the enum. *)
Record ParsedInternalKey : Type := {
  user_key : list Z;
  sequence : Z;
  type : Z
}.

Definition InternalKeyEncodingLength (key : ParsedInternalKey) : Z :=
  uint64 (slen (user_key key) + 8).

(** [ExtractUserKey]: [None] when the [assert] fails. *)
Definition ExtractUserKey (internal_key : list Z) : option (list Z) :=
  if slen internal_key >=? 8 then
    Some (firstn (Z.to_nat (slen internal_key - 8)) internal_key)
  else None.

(** [ExtractValueType]: [None] when the [assert] fails. *)
Definition ExtractValueType (internal_key : list Z) : option Z :=
  if slen internal_key >=? 8 then
    let n := slen internal_key in
    let num := DecodeFixed64 (skipn (Z.to_nat (n - 8)) internal_key) in
    let c := Z.land num 255 in
    Some c
  else None.

(** [ParseInternalKey (internal_key, result)]: the returned [bool] and
    [*result], which the function leaves as it was when the key is
    shorter than eight bytes. *)
Definition ParseInternalKey (internal_key : list Z) (result : ParsedInternalKey)
  : bool * ParsedInternalKey :=
  let n := slen internal_key in
  if n <? 8 then (false, result)
  else
    let num := DecodeFixed64 (skipn (Z.to_nat (n - 8)) internal_key) in
    let c := Z.land num 255 in
    (c <=? kTypeValue,
     {| user_key := firstn (Z.to_nat (n - 8)) internal_key;
        sequence := Z.shiftr num 8;
        type := c |}).

End DBFormat.

(* ================================================================= *)
(** ** util/logging.cc *)

Module Logging.

(** A [char] holding the byte [b]: signed, as on the platforms of
    util/env_posix.cc. *)
Definition char_of_byte (b : Z) : Z := if b <? 128 then b else b - 256.

(** The C library: the digits that [snprintf] writes for ["%llu"], most
    significant first.  A [uint64_t] has at most twenty. *)
Fixpoint decimal_loop (fuel : nat) (num : Z) (acc : list Z) : list Z :=
  match fuel with
  | O => acc
  | S fuel =>
      let acc := (48 + num mod 10) :: acc in
      if num <? 10 then acc else decimal_loop fuel (num / 10) acc
  end.

Definition snprintf_llu (num : Z) : list Z := decimal_loop 20 num [].

(** The C library: a hexadecimal digit in lower case, and what
    [snprintf] writes for the format of [AppendEscapedStringTo], a
    backslash, [x] and two digits (["%02x"] of a value below 256). *)
Definition hex_digit (d : Z) : Z := if d <? 10 then 48 + d else 87 + d.

Definition snprintf_x02x (v : Z) : list Z :=
  [92; 120; hex_digit (v / 16); hex_digit (v mod 16)].

Definition AppendNumberTo (str : list Z) (num : Z) : list Z :=
  str ++ snprintf_llu num.

(** One turn of the loop of [AppendEscapedStringTo], for the byte [b]
    of [value]. *)
Definition AppendEscapedStringTo_turn (str : list Z) (b : Z) : list Z :=
  let c := char_of_byte b in
  if (32 <=? c) && (c <=? 126) then str ++ [b]
  else str ++ snprintf_x02x (Z.land (uint32 c) 255).

Definition AppendEscapedStringTo (str : list Z) (value : list Z) : list Z :=
  fold_left AppendEscapedStringTo_turn value str.

Definition NumberToString (num : Z) : list Z := AppendNumberTo [] num.

Definition EscapeString (value : list Z) : list Z := AppendEscapedStringTo [] value.

Definition kMaxUint64 : Z := 2 ^ 64 - 1.

(** [++digits] of an [int] of 32 bits, as the two's complement machine
    computes it.  The increment of 2^31 - 1 has no defined result in
    C++: the statements about [ConsumeDecimalNumber] are for inputs of
    fewer than 2^31 bytes, where it is not reached. *)
Definition int_incr (digits : Z) : Z := int32_of_uint32 (uint32 (digits + 1)).

(** The loop of [ConsumeDecimalNumber]: [None] for the [return false]
    inside the loop, otherwise [v], [digits] and [*in] when the loop
    ends. *)
Fixpoint ConsumeDecimalNumber_loop (input : list Z) (v digits : Z)
  : option (Z * Z * list Z) :=
  match input with
  | [] => Some (v, digits, input)
  | b :: rest =>
      let c := char_of_byte b in
      if (48 <=? c) && (c <=? 57) then
        let digits := int_incr digits in
        let delta := c - 48 in
        if (v >? kMaxUint64 / 10)
           || ((v =? kMaxUint64 / 10) && (delta >? kMaxUint64 mod 10))
        then None
        else ConsumeDecimalNumber_loop rest (v * 10 + delta) digits
      else Some (v, digits, input)
  end.

(** [ConsumeDecimalNumber (Slice* in, uint64_t* val)]: [Some (val, in)]
    when the function returns [true], with the value stored and what is
    left of the input. *)
Definition ConsumeDecimalNumber (input : list Z) : option (Z * list Z) :=
  match ConsumeDecimalNumber_loop input 0 0 with
  | Some (v, digits, input) => if digits >? 0 then Some (v, input) else None
  | None => None
  end.

(** *** Vocabulary of the statements about the numbers and the escapes *)

(** The byte is a decimal digit; the digits at the head of [input]; the
    number that a string of digits denotes, after the digits that gave
    [v]. *)
Definition is_digit (b : Z) : bool := (48 <=? b) && (b <=? 57).

Fixpoint digit_prefix (input : list Z) : list Z :=
  match input with
  | b :: rest => if is_digit b then b :: digit_prefix rest else []
  | [] => []
  end.

Definition decimal_value_from (v : Z) (digits : list Z) : Z :=
  fold_left (fun v b => v * 10 + (b - 48)) digits v.

Definition decimal_value (digits : list Z) : Z := decimal_value_from 0 digits.

(** The byte is a printable character, from the space to the tilde. *)
Definition printable (b : Z) : Prop := 32 <= b <= 126.

(** The sixteen hexadecimal digits in lower case, and the characters
    that stand for the byte [b] in an escaped string: [b] itself when
    it is printable, otherwise a backslash, [x], the digit of the high
    four bits of [b] and the digit of its low four bits. *)
Definition hex_digits : list Z := bytes_of_string "0123456789abcdef".

Definition escaped (b : Z) : list Z :=
  if (32 <=? b) && (b <=? 126) then [b]
  else [92; 120; nth (Z.to_nat (b / 16)) hex_digits 0;
                 nth (Z.to_nat (b mod 16)) hex_digits 0].

Definition count_unprintable (value : list Z) : Z :=
  slen (List.filter (fun b => negb ((32 <=? b) && (b <=? 126))) value).

End Logging.

(* ================================================================= *)
(** ** util/arena.h, util/arena.cc *)

Module Arena.

Definition kBlockSize : Z := 4096.

(** [class Arena].  A [char*] is an address, [NULL] is 0; [size_t] has
    64 bits.  [blocks_] holds the address of every block; the model
    keeps the size of the block with it, which the allocator knows and
    the arena does not store. *)
Record t : Type := {
  alloc_ptr_ : Z;
  alloc_bytes_remaining_ : Z;
  blocks_ : list (Z * Z);
  memory_usage_ : Z
}.

(** [Arena::Arena] *)
Definition NewArena : t :=
  {| alloc_ptr_ := 0; alloc_bytes_remaining_ := 0; blocks_ := []; memory_usage_ := 0 |}.

Definition MemoryUsage (a : t) : Z := memory_usage_ a.

Section Allocating.

(** [new char[block_bytes]]: the address that the allocator returns,
    given the blocks that are allocated. *)
Variable new_char : list (Z * Z) -> Z -> Z.

(** [Arena::AllocateNewBlock]; a pointer has eight bytes. *)
Definition AllocateNewBlock (a : t) (block_bytes : Z) : Z * t :=
  let result := new_char (blocks_ a) block_bytes in
  (result,
   {| alloc_ptr_ := alloc_ptr_ a;
      alloc_bytes_remaining_ := alloc_bytes_remaining_ a;
      blocks_ := blocks_ a ++ [(result, block_bytes)];
      memory_usage_ := uint64 (MemoryUsage a + block_bytes + 8) |}).

(** [Arena::AllocateFallback] *)
Definition AllocateFallback (a : t) (bytes : Z) : Z * t :=
  if bytes >? kBlockSize / 4 then
    (* Object is more than a quarter of our block size.  Allocate it
       separately to avoid wasting too much space in leftover bytes. *)
    AllocateNewBlock a bytes
  else
    (* We waste the remaining space in the current block. *)
    let '(p, a) := AllocateNewBlock a kBlockSize in
    let result := p in
    (result,
     {| alloc_ptr_ := p + bytes;
        alloc_bytes_remaining_ := kBlockSize - bytes;
        blocks_ := blocks_ a;
        memory_usage_ := memory_usage_ a |}).

(** [Arena::Allocate]: [None] when the [assert] fails. *)
Definition Allocate (a : t) (bytes : Z) : option (Z * t) :=
  if bytes >? 0 then
    if bytes <=? alloc_bytes_remaining_ a then
      let result := alloc_ptr_ a in
      Some (result,
            {| alloc_ptr_ := alloc_ptr_ a + bytes;
               alloc_bytes_remaining_ := alloc_bytes_remaining_ a - bytes;
               blocks_ := blocks_ a;
               memory_usage_ := memory_usage_ a |})
    else Some (AllocateFallback a bytes)
  else None.

(** [Arena::AllocateAligned]: [align] is 8 where a pointer has at most
    eight bytes; [None] when the last [assert] fails. *)
Definition AllocateAligned (a : t) (bytes : Z) : option (Z * t) :=
  let align := 8 in
  let current_mod := Z.land (alloc_ptr_ a) (align - 1) in
  let slop := if current_mod =? 0 then 0 else align - current_mod in
  let needed := uint64 (bytes + slop) in
  let '(result, a) :=
    if needed <=? alloc_bytes_remaining_ a then
      (alloc_ptr_ a + slop,
       {| alloc_ptr_ := alloc_ptr_ a + needed;
          alloc_bytes_remaining_ := alloc_bytes_remaining_ a - needed;
          blocks_ := blocks_ a;
          memory_usage_ := memory_usage_ a |})
    else
      (* AllocateFallback always returned aligned memory *)
      AllocateFallback a bytes in
  if Z.land result (align - 1) =? 0 then Some (result, a) else None.

(** A request to the arena, and the arena after a list of requests with
    the regions [(address, bytes)] that it has returned, the last one
    first; [None] when an [assert] fails. *)
Inductive Request : Type :=
| Plain (bytes : Z)
| Aligned (bytes : Z).

Definition serve (a : t) (q : Request) : option (Z * Z * t) :=
  match q with
  | Plain bytes =>
      match Allocate a bytes with
      | Some (p, a) => Some (p, bytes, a)
      | None => None
      end
  | Aligned bytes =>
      match AllocateAligned a bytes with
      | Some (p, a) => Some (p, bytes, a)
      | None => None
      end
  end.

Fixpoint serve_all (a : t) (given : list (Z * Z)) (qs : list Request)
  : option (list (Z * Z) * t) :=
  match qs with
  | [] => Some (given, a)
  | q :: qs =>
      match serve a q with
      | Some (p, bytes, a) => serve_all a ((p, bytes) :: given) qs
      | None => None
      end
  end.

End Allocating.

(** The bytes of the region [x] lie in the region [y]; the regions [x]
    and [y] share no byte. *)
Definition inside (x y : Z * Z) : Prop :=
  fst y <= fst x /\ fst x + snd x <= fst y + snd y.

Definition apart (x y : Z * Z) : Prop :=
  fst x + snd x <= fst y \/ fst y + snd y <= fst x.

(** What the arena asks of the allocator: a block that is aligned for
    every type, and apart from the blocks that are allocated. *)
Definition allocator_ok (new_char : list (Z * Z) -> Z -> Z) : Prop :=
  forall blocks n,
    0 < new_char blocks n /\ new_char blocks n mod 8 = 0 /\
    forall b, In b blocks -> apart (new_char blocks n, n) b.

(** No two regions of the list share a byte. *)
Fixpoint all_apart (l : list (Z * Z)) : Prop :=
  match l with
  | [] => True
  | x :: l => Forall (apart x) l /\ all_apart l
  end.

Definition request_bytes (q : Request) : Z :=
  match q with Plain bytes => bytes | Aligned bytes => bytes end.

(** The part of the current block that is not yet given out. *)
Definition unused (a : t) : Z * Z := (alloc_ptr_ a, alloc_bytes_remaining_ a).

(** What the arena keeps, with the regions [given] that it has
    returned: the blocks are apart from one another; the unused part
    lies in a block, or the arena has no current block yet; every
    region that was returned lies in a block, apart from the other
    regions and from the unused part. *)
Record arena_ok (a : t) (given : list (Z * Z)) : Prop := {
  ok_blocks : all_apart (blocks_ a);
  ok_block_sizes : Forall (fun b => 0 < fst b /\ 0 < snd b) (blocks_ a);
  ok_remaining : 0 <= alloc_bytes_remaining_ a;
  ok_unused : (exists b, In b (blocks_ a) /\ inside (unused a) b) \/
              (alloc_ptr_ a = 0 /\ alloc_bytes_remaining_ a = 0);
  ok_given : Forall (fun g => 0 < snd g /\ apart g (unused a) /\
                              exists b, In b (blocks_ a) /\ inside g b) given;
  ok_apart : all_apart given
}.

(** The sum of the sizes of the blocks, with the eight bytes of a
    pointer for each. *)
Definition blocks_memory (blocks : list (Z * Z)) : Z :=
  fold_right (fun b acc => snd b + 8 + acc) 0 blocks.

(** The memory that the arena accounts for is that of its blocks, and
    every block is one of [kBlockSize] bytes or one for a large
    region. *)
Definition usage_ok (a : t) : Prop :=
  memory_usage_ a = uint64 (blocks_memory (blocks_ a)) /\
  Forall (fun b => snd b = kBlockSize \/ kBlockSize / 4 < snd b) (blocks_ a).

(** An allocator for the examples: the next block starts at the first
    multiple of 8 after the blocks that are allocated. *)
Definition bump (blocks : list (Z * Z)) (n : Z) : Z :=
  fold_right (fun b acc => Z.max acc (8 * ((fst b + snd b + 7) / 8))) 8 blocks.

End Arena.

(* ================================================================= *)
(** * Properties *)

Module CodingFacts.
Import Coding.

Lemma byte_cases (P : Z -> bool) :
  forallb P (map Z.of_nat (seq 0 256)) = true ->
  forall b, 0 <= b < 256 -> P b = true.
Proof.
  intros HP b Hb.
  rewrite forallb_forall in HP. apply HP.
  apply in_map_iff. exists (Z.to_nat b). split; [lia|].
  apply in_seq. lia.
Qed.

Lemma uint8_land v : uint8 v = Z.land v 255.
Proof. unfold uint8. change 255 with (Z.ones 8). rewrite Z.land_ones by lia. reflexivity. Qed.

Lemma lor128_byte b : 0 <= b < 256 -> Z.lor b 128 = b mod 128 + 128.
Proof.
  intros Hb.
  apply Z.eqb_eq.
  apply (byte_cases (fun b => Z.lor b 128 =? b mod 128 + 128)); [vm_compute; reflexivity | exact Hb].
Qed.

Lemma mod256_mod128 x : (x mod 256) mod 128 = x mod 128.
Proof. apply Z.mod_mod_divide. exists 2. lia. Qed.

Lemma uint8_lor128 x : uint8 (Z.lor x 128) = x mod 128 + 128.
Proof.
  rewrite uint8_land, Z.land_lor_distr_l.
  change (Z.land 128 255) with 128.
  rewrite <- uint8_land. unfold uint8.
  rewrite lor128_byte by (apply Z.mod_pos_bound; lia).
  now rewrite mod256_mod128.
Qed.

Lemma land128_high a : 0 <= a < 128 -> (Z.land (a + 128) 128 =? 0) = false.
Proof.
  intros Ha.
  pose proof (byte_cases (fun a => orb (128 <=? a) (negb (Z.land (a + 128) 128 =? 0)))
                eq_refl a ltac:(lia)) as H.
  cbv beta in H. destruct (128 <=? a) eqn:E; [lia|].
  now apply negb_true_iff in H.
Qed.

Lemma land128_low a : 0 <= a < 128 -> (Z.land a 128 =? 0) = true.
Proof.
  intros Ha.
  pose proof (byte_cases (fun a => orb (128 <=? a) (Z.land a 128 =? 0))
                eq_refl a ltac:(lia)) as H.
  cbv beta in H. destruct (128 <=? a) eqn:E; [lia|]. exact H.
Qed.

Lemma land127_high a : 0 <= a < 128 -> Z.land (a + 128) 127 = a.
Proof.
  intros Ha. change 127 with (Z.ones 7). rewrite Z.land_ones by lia.
  change (2 ^ 7) with 128.
  replace (a + 128) with (a + 1 * 128) by lia.
  rewrite Z.mod_add by lia. apply Z.mod_small. lia.
Qed.

(** [r | (a << s)] adds when [r] lies below bit [s]. *)
Lemma lor_shiftl_add r a s :
  0 <= s -> 0 <= r < 2 ^ s -> 0 <= a ->
  Z.lor r (Z.shiftl a s) = r + a * 2 ^ s.
Proof.
  intros Hs Hr Ha.
  rewrite Z.shiftl_mul_pow2 by lia.
  rewrite <- Z.lxor_lor, <- Z.add_nocarry_lxor; try reflexivity.
  all: apply Z.bits_inj'; intros n Hn; rewrite Z.land_spec, Z.bits_0.
  all: destruct (Z.lt_ge_cases n s) as [Hlt|Hge].
  all: try (rewrite (Z.mul_pow2_bits_low a s n) by lia; apply andb_false_r).
  all: destruct (Z.eq_dec r 0) as [->|Hr0]; [now rewrite Z.bits_0|].
  all: rewrite (Z.bits_above_log2 r n); [reflexivity|lia|].
  all: apply Z.log2_lt_pow2; try lia.
  all: apply Z.lt_le_trans with (2 ^ s); [lia|apply Z.pow_le_mono_r; lia].
Qed.

Lemma lor_uint32_shiftl_add r a s :
  0 <= s -> 0 <= r < 2 ^ s -> 0 <= a -> a * 2 ^ s < 2 ^ 32 ->
  Z.lor r (uint32 (Z.shiftl a s)) = r + a * 2 ^ s.
Proof.
  intros Hs Hr Ha Hb. unfold uint32.
  rewrite Z.mod_small.
  - now apply lor_shiftl_add.
  - rewrite Z.shiftl_mul_pow2 by lia. split; [|lia].
    apply Z.mul_nonneg_nonneg; lia.
Qed.

Lemma uint8_small v : 0 <= v < 256 -> uint8 v = v.
Proof. intros H. unfold uint8. apply Z.mod_small. lia. Qed.


Lemma uint32_small v : 0 <= v < 2 ^ 32 -> uint32 v = v.
Proof. intros H. unfold uint32. apply Z.mod_small. lia. Qed.

Lemma loop_more a shift result p :
  0 <= a < 128 -> shift <= 28 ->
  GetVarint32PtrFallback_loop shift result ((a + 128) :: p) =
  GetVarint32PtrFallback_loop (shift + 7)
    (Z.lor result (uint32 (Z.shiftl a shift))) p.
Proof.
  intros Ha Hs. cbn [GetVarint32PtrFallback_loop].
  destruct (Z.leb_spec shift 28); [|lia].
  now rewrite land128_high, land127_high.
Qed.

Lemma loop_last a shift result p :
  0 <= a < 128 -> shift <= 28 ->
  GetVarint32PtrFallback_loop shift result (a :: p) =
  Some (Z.lor result (uint32 (Z.shiftl a shift)), p).
Proof.
  intros Ha Hs. cbn [GetVarint32PtrFallback_loop].
  destruct (Z.leb_spec shift 28); [|lia].
  now rewrite land128_low.
Qed.

(** Decoding undoes encoding, for every [uint32_t]. *)
Lemma GetVarint32_EncodeVarint32 v rest :
  0 <= v < 2 ^ 32 ->
  GetVarint32 (EncodeVarint32 v ++ rest) = Some (v, rest).
Proof.
  intros Hv.
  unfold GetVarint32, GetVarint32Ptr, GetVarint32PtrFallback, EncodeVarint32.
  assert (H7 : 0 <= v mod 128 < 128) by (apply Z.mod_pos_bound; lia).
  assert (H14 : 0 <= (Z.shiftr v 7) mod 128 < 128) by (apply Z.mod_pos_bound; lia).
  assert (H21 : 0 <= (Z.shiftr v 14) mod 128 < 128) by (apply Z.mod_pos_bound; lia).
  assert (H28 : 0 <= (Z.shiftr v 21) mod 128 < 128) by (apply Z.mod_pos_bound; lia).
  rewrite !Z.shiftr_div_pow2 in * by lia.
  change (2 ^ 7) with 128 in *. change (2 ^ 14) with 16384 in *.
  change (2 ^ 21) with 2097152 in *. change (2 ^ 28) with 268435456 in *.
  change (2 ^ 32) with 4294967296 in *.
  repeat match goal with
  | |- context [ ?a <? ?b ] => destruct (Z.ltb_spec a b)
  end; cbn [app]; rewrite ?uint8_lor128.
  all: rewrite ?loop_more by (assumption || lia).
  all: rewrite uint8_small by (Z.to_euclidean_division_equations; lia).
  all: rewrite loop_last by (Z.to_euclidean_division_equations; lia).
  all: rewrite ?Z.lor_0_l.
  all: change (0 + 7) with 7; change (7 + 7) with 14; change (14 + 7) with 21; change (21 + 7) with 28.
  all: rewrite Z.shiftl_0_r.
  all: try rewrite (uint32_small (v mod 128)) by lia.
  all: try rewrite (uint32_small v) by lia.
  all: try rewrite (lor_uint32_shiftl_add (v mod 128)) by (Z.to_euclidean_division_equations; lia).
  all: repeat match goal with
       | |- context [Z.lor (?a + ?b) (uint32 (Z.shiftl ?c ?s))] =>
           rewrite (lor_uint32_shiftl_add (a + b) c s) by (Z.to_euclidean_division_equations; lia)
       end.
  all: f_equal; f_equal; Z.to_euclidean_division_equations; lia.
Qed.
End CodingFacts.

Module WriteBatchFacts.
Import Coding CodingFacts WriteBatch.

Lemma loop_length shift result p v p' :
  GetVarint32PtrFallback_loop shift result p = Some (v, p') ->
  (length p' < length p)%nat.
Proof.
  revert shift result. induction p as [|b p IH]; intros shift result; cbn [GetVarint32PtrFallback_loop].
  - destruct (shift <=? 28); discriminate.
  - destruct (shift <=? 28); [|discriminate].
    destruct (negb (Z.land b 128 =? 0)).
    + intros H. apply IH in H. cbn [length]. lia.
    + intros H. injection H as _ <-. cbn [length]. lia.
Qed.

Lemma GetLengthPrefixedSlice_length input key rest :
  GetLengthPrefixedSlice input = Some (key, rest) ->
  (length rest < length input)%nat.
Proof.
  unfold GetLengthPrefixedSlice, GetVarint32, GetVarint32Ptr, GetVarint32PtrFallback.
  destruct (GetVarint32PtrFallback_loop 0 0 input) as [[len input']|] eqn:E; [|discriminate].
  apply loop_length in E.
  destruct (slen input' >=? len); [|discriminate].
  intros H. injection H as _ <-. rewrite length_skipn. lia.
Qed.

Lemma GetLengthPrefixedSlice_Put key rest :
  slen key < 2 ^ 32 ->
  GetLengthPrefixedSlice (EncodeVarint32 (uint32 (slen key)) ++ key ++ rest) = Some (key, rest).
Proof.
  intros Hk. unfold GetLengthPrefixedSlice.
  assert (Hs : 0 <= slen key < 2 ^ 32) by (unfold slen in *; lia).
  rewrite (uint32_small _ Hs), GetVarint32_EncodeVarint32 by exact Hs.
  unfold slen in *. rewrite length_app.
  destruct (Z.geb_spec (Z.of_nat (length key + length rest)) (Z.of_nat (length key))); [|lia].
  rewrite Nat2Z.id, firstn_app, skipn_app, Nat.sub_diag, firstn_all, skipn_all.
  cbn. now rewrite app_nil_r.
Qed.

Lemma DecodeFixed32_Encode n rest :
  DecodeFixed32 (EncodeFixed32 n ++ rest) = n mod 2 ^ 32.
Proof.
  unfold DecodeFixed32, EncodeFixed32. cbn [app nth].
  rewrite <- !uint8_land. unfold uint8. rewrite !Z.shiftr_div_pow2 by lia.
  change (2 ^ 8) with 256. change (2 ^ 16) with 65536. change (2 ^ 24) with 16777216.
  change (2 ^ 32) with 4294967296.
  Z.to_euclidean_division_equations; lia.
Qed.

Lemma DecodeFixed64_Encode n rest :
  DecodeFixed64 (EncodeFixed64 n ++ rest) = n mod 2 ^ 64.
Proof.
  unfold DecodeFixed64, DecodeFixed32, EncodeFixed64. cbn [app nth skipn].
  rewrite <- !uint8_land. unfold uint8. rewrite !Z.shiftr_div_pow2 by lia.
  change (2 ^ 8) with 256. change (2 ^ 16) with 65536. change (2 ^ 24) with 16777216.
  change (2 ^ 32) with 4294967296. change (2 ^ 40) with 1099511627776.
  change (2 ^ 48) with 281474976710656. change (2 ^ 56) with 72057594037927936.
  change (2 ^ 64) with 18446744073709551616.
  Z.to_euclidean_division_equations; lia.
Qed.

Lemma Count_layout hdr n body :
  length hdr = 8%nat -> 0 <= n < 2 ^ 31 ->
  Count (hdr ++ EncodeFixed32 n ++ body) = n.
Proof.
  intros Hh Hn.
  unfold Count. rewrite skipn_app, Hh, skipn_all2 by lia.
  cbn [Nat.sub app]. rewrite skipn_O, DecodeFixed32_Encode.
  unfold int32_of_uint32. rewrite Z.mod_small by lia.
  destruct (Z.ltb_spec n (2 ^ 31)); lia.
Qed.




Section Iterating.
Context {St : Type} (handler : Handler St).



Lemma Record_at_length input c rest :
  Record_at input c rest -> (length rest < length input)%nat.
Proof.
  intros HR. destruct HR as [input key input1 value input2 H1 H2|input key input1 H1].
  - apply GetLengthPrefixedSlice_length in H1, H2. cbn [length]. lia.
  - apply GetLengthPrefixedSlice_length in H1. cbn [length]. lia.
Qed.

Lemma Record_at_det input c rest c' rest' :
  Record_at input c rest -> Record_at input c' rest' -> c = c' /\ rest = rest'.
Proof.
  intros H1 H2. inversion H1; subst; inversion H2; subst; try discriminate.
  all: repeat match goal with
       | A : ?x = Some _, B : ?x = Some _ |- _ => rewrite A in B; injection B as <- <-
       end.
  all: split; reflexivity.
Qed.

Lemma Record_at_not_bad input c rest msg :
  Record_at input c rest -> Bad_record input msg -> False.
Proof.
  intros H1 H2. inversion H1; subst; inversion H2; subst; try congruence.
  all: repeat match goal with
       | A : ?x = Some _, B : ?x = Some _ |- _ => rewrite A in B; injection B as <- <-
       end; congruence.
Qed.

Lemma Records_det input : forall cs cs',
  Records input cs -> Records input cs' -> cs = cs'.
Proof.
  intros cs cs' H1. revert cs'.
  induction H1 as [|input c rest cs HR _ IH]; intros cs' H2; inversion H2; subst;
    try reflexivity;
    try match goal with
    | X : Record_at [] _ _ |- _ => inversion X
    end.
  match goal with
  | X : Record_at input _ _ |- _ =>
      destruct (Record_at_det _ _ _ _ _ HR X) as [<- <-]
  end.
  f_equal. now apply IH.
Qed.

Lemma Records_not_Malformed input cs : forall cs' msg,
  Records input cs -> Malformed input cs' msg -> False.
Proof.
  intros cs' msg H1. revert cs'.
  induction H1 as [|input c rest cs HR _ IH]; intros cs' H2; inversion H2; subst;
    try match goal with
    | X : Record_at [] _ _ |- _ => inversion X
    | X : Bad_record [] _ |- _ => inversion X
    | X : Bad_record input _ |- _ => exact (Record_at_not_bad _ _ _ _ HR X)
    end.
  match goal with
  | X : Record_at input _ _ |- _ =>
      destruct (Record_at_det _ _ _ _ _ HR X) as [<- <-]
  end.
  eapply IH; eassumption.
Qed.

Lemma Iterate_loop_Records input cs : forall fuel found h,
  Records input cs -> (length input <= fuel)%nat ->
  Iterate_loop handler fuel input found h =
  Some (inr (found + Z.of_nat (length cs), fold_left (call_handler handler) cs h)).
Proof.
  intros fuel found h HR. revert fuel found h.
  induction HR as [|input c rest cs HR HRs IH]; intros fuel found h Hf.
  - destruct fuel; cbn; rewrite Z.add_0_r; reflexivity.
  - pose proof (Record_at_length _ _ _ HR) as Hl.
    destruct fuel as [|fuel]; [lia|].
    destruct HR as [input key input1 value input2 H1 H2|input key input1 H1].
    + cbn [Iterate_loop]. change (kTypeValue =? kTypeValue) with true. cbv iota.
      rewrite H1, H2. rewrite IH by (cbn [length] in *; lia).
      cbn [fold_left call_handler length]. do 3 f_equal. lia.
    + cbn [Iterate_loop]. change (kTypeDeletion =? kTypeValue) with false.
      change (kTypeDeletion =? kTypeDeletion) with true. cbv iota.
      rewrite H1. rewrite IH by (cbn [length] in *; lia).
      cbn [fold_left call_handler length]. do 3 f_equal. lia.
Qed.

Lemma Iterate_loop_Bad input msg fuel found h :
  Bad_record input msg -> (length input <= fuel)%nat ->
  Iterate_loop handler fuel input found h = Some (inl (Corruption msg, h)).
Proof.
  intros HB Hf.
  destruct HB as [tag input Hv Hd|input H1|input key input1 H1 H2|input H1];
    (destruct fuel as [|fuel]; [cbn [length] in Hf; lia|]); cbn [Iterate_loop].
  - destruct (Z.eqb_spec tag kTypeValue); [contradiction|].
    destruct (Z.eqb_spec tag kTypeDeletion); [contradiction|]. reflexivity.
  - change (kTypeValue =? kTypeValue) with true. cbv iota. now rewrite H1.
  - change (kTypeValue =? kTypeValue) with true. cbv iota. now rewrite H1, H2.
  - change (kTypeDeletion =? kTypeValue) with false.
    change (kTypeDeletion =? kTypeDeletion) with true. cbv iota. now rewrite H1.
Qed.

Lemma Iterate_loop_Malformed input cs msg : forall fuel found h,
  Malformed input cs msg -> (length input <= fuel)%nat ->
  Iterate_loop handler fuel input found h =
  Some (inl (Corruption msg, fold_left (call_handler handler) cs h)).
Proof.
  intros fuel found h HM. revert fuel found h.
  induction HM as [input msg HB|input c rest cs msg HR HM IH]; intros fuel found h Hf.
  - now apply Iterate_loop_Bad.
  - pose proof (Record_at_length _ _ _ HR) as Hl.
    destruct fuel as [|fuel]; [lia|].
    destruct HR as [input key input1 value input2 H1 H2|input key input1 H1].
    + cbn [Iterate_loop]. change (kTypeValue =? kTypeValue) with true. cbv iota.
      rewrite H1, H2. rewrite IH by (cbn [length] in *; lia). reflexivity.
    + cbn [Iterate_loop]. change (kTypeDeletion =? kTypeValue) with false.
      change (kTypeDeletion =? kTypeDeletion) with true. cbv iota.
      rewrite H1. rewrite IH by (cbn [length] in *; lia). reflexivity.
Qed.

End Iterating.

Lemma Record_or_Bad tag input :
  (exists c rest, Record_at (tag :: input) c rest) \/
  (exists msg, Bad_record (tag :: input) msg).
Proof.
  destruct (Z.eq_dec tag kTypeValue) as [->|Hv].
  - destruct (GetLengthPrefixedSlice input) as [[key input1]|] eqn:H1.
    + destruct (GetLengthPrefixedSlice input1) as [[value input2]|] eqn:H2.
      * left. eexists _, _. eapply Record_value; eassumption.
      * right. eexists. eapply Bad_put_value; eassumption.
    + right. eexists. now apply Bad_put_key.
  - destruct (Z.eq_dec tag kTypeDeletion) as [->|Hd].
    + destruct (GetLengthPrefixedSlice input) as [[key input1]|] eqn:H1.
      * left. eexists _, _. eapply Record_deletion; eassumption.
      * right. eexists. now apply Bad_delete_key.
    + right. eexists. now apply Bad_tag.
Qed.

Lemma Records_or_Malformed : forall n input, (length input <= n)%nat ->
  (exists cs, Records input cs) \/ (exists cs msg, Malformed input cs msg).
Proof.
  induction n as [|n IH]; intros input Hn.
  - destruct input; [|cbn in Hn; lia]. left. exists []. constructor.
  - destruct input as [|tag input]; [left; exists []; constructor|].
    destruct (Record_or_Bad tag input) as [(c & rest & HR)|(msg & HB)].
    + pose proof (Record_at_length _ _ _ HR) as Hl. cbn [length] in *.
      destruct (IH rest ltac:(lia)) as [(cs & Hcs)|(cs & msg & HM)].
      * left. exists (c :: cs). econstructor; eassumption.
      * right. exists (c :: cs), msg. econstructor; eassumption.
    + right. exists [], msg. now constructor.
Qed.







(** C3 (as amended): the batch built by put("k1","v1"), delete("k2"),
    put("k3","v3") on a fresh WriteBatch stores the count 3 and is 30
    bytes long: a header of 12 bytes, 7 bytes for each put (tag, length
    byte, 2 key bytes, length byte, 2 value bytes) and 4 bytes for the
    delete (tag, length byte, 2 key bytes). *)
Theorem C3_batch_count_and_size :
  Count S3_batch = 3 /\ slen S3_batch = 30 /\
  S3_batch = EncodeFixed64 0 ++ EncodeFixed32 3
             ++ [kTypeValue; 2] ++ bytes_of_string "k1" ++ [2] ++ bytes_of_string "v1"
             ++ [kTypeDeletion; 2] ++ bytes_of_string "k2"
             ++ [kTypeValue; 2] ++ bytes_of_string "k3" ++ [2] ++ bytes_of_string "v3".
Proof. repeat split; vm_compute; reflexivity. Qed.

(** C3, as stated, fails: the serialized batch is not 37 bytes long. *)
Lemma C3_size_is_not_37 : ~ (Count S3_batch = 3 /\ slen S3_batch = 37).
Proof. intros [_ H]. vm_compute in H. discriminate H. Qed.



End WriteBatchFacts.

Module ComparatorFacts.
Import Comparator.

Lemma Slice_compare_refl a : Slice_compare a a = 0.
Proof.
  induction a as [|x a IH]; cbn; [reflexivity|].
  rewrite Z.ltb_irrefl. exact IH.
Qed.

Lemma Slice_compare_app p : forall a b,
  Slice_compare (p ++ a) (p ++ b) = Slice_compare a b.
Proof.
  induction p as [|x p IH]; intros a b; cbn [app Slice_compare]; [reflexivity|].
  rewrite Z.ltb_irrefl. apply IH.
Qed.

Lemma firstn_snoc_nth (l : list Z) : forall i,
  (i < length l)%nat -> firstn (S i) l = firstn i l ++ [nth i l 0].
Proof.
  induction l as [|x l IH]; intros i Hi; cbn [length] in Hi; [lia|].
  destruct i as [|i]; [reflexivity|].
  cbn [firstn nth app]. f_equal. apply IH. lia.
Qed.

Lemma split_nth (l : list Z) i :
  (i < length l)%nat -> l = firstn i l ++ nth i l 0 :: skipn (S i) l.
Proof.
  intros Hi. rewrite <- (firstn_skipn (S i) l) at 1.
  rewrite firstn_snoc_nth by exact Hi. now rewrite <- app_assoc.
Qed.

(** What the loop has found when it ends. *)
Lemma diff_index_loop_spec start limit min_length : forall fuel d,
  min_length = Nat.min (length start) (length limit) ->
  (d <= min_length)%nat -> (min_length - d <= fuel)%nat ->
  firstn d start = firstn d limit ->
  let d' := diff_index_loop fuel start limit min_length d in
  (d' <= min_length)%nat /\ firstn d' start = firstn d' limit /\
  (d' = min_length \/ nth d' start 0 <> nth d' limit 0).
Proof.
  induction fuel as [|fuel IH]; intros d Hm Hd Hf Hp; cbn [diff_index_loop].
  - cbv zeta. repeat split; [lia|exact Hp|left; lia].
  - destruct (Nat.ltb_spec d min_length) as [Hlt|Hge]; cbn [andb].
    + destruct (Z.eqb_spec (nth d start 0) (nth d limit 0)) as [He|Hne].
      * apply IH; [exact Hm|lia|lia|].
        rewrite (firstn_snoc_nth start d), (firstn_snoc_nth limit d) by lia.
        now rewrite Hp, He.
      * cbv zeta. repeat split; [lia|exact Hp|right; exact Hne].
    + cbv zeta. repeat split; [lia|exact Hp|left; lia].
Qed.

Lemma uint8_byte b : is_byte b -> uint8 b = b.
Proof. intros Hb. unfold uint8. apply Z.mod_small. exact Hb. Qed.

Lemma bytes_nth l i : bytes l -> is_byte (nth i l 0).
Proof.
  intros Hl. destruct (Nat.lt_ge_cases i (length l)) as [Hi|Hi].
  - unfold bytes in Hl. rewrite List.Forall_forall in Hl. apply Hl. now apply nth_In.
  - rewrite nth_overflow by exact Hi. unfold is_byte. lia.
Qed.

(** The three outcomes of [FindShortestSeparator]. *)
Lemma FindShortestSeparator_cases start limit :
  bytes start -> bytes limit ->
  (prefix_related start limit /\ FindShortestSeparator start limit = start) \/
  (exists i, first_difference start limit i /\
     ((nth i start 0 + 1 < nth i limit 0 /\
       FindShortestSeparator start limit = firstn i start ++ [nth i start 0 + 1]) \/
      (~ nth i start 0 + 1 < nth i limit 0 /\
       FindShortestSeparator start limit = start))).
Proof.
  intros Hs Hl. unfold FindShortestSeparator.
  set (min_length := Nat.min (length start) (length limit)).
  pose proof (diff_index_loop_spec start limit min_length min_length 0%nat
                eq_refl ltac:(lia) ltac:(lia) eq_refl) as (Hd & Hp & Hne).
  cbv zeta in Hd, Hp, Hne.
  set (d := diff_index_loop min_length start limit min_length 0) in *.
  destruct (Nat.leb_spec min_length d) as [Hge|Hlt].
  - left. split; [|reflexivity].
    assert (d = min_length) by lia. subst d. rewrite H in Hp. unfold prefix_related.
    unfold min_length in Hp.
    destruct (Nat.le_ge_cases (length start) (length limit)) as [Hc|Hc].
    + rewrite Nat.min_l in Hp by exact Hc.
      rewrite <- Hp. rewrite firstn_all. now rewrite firstn_all2 by exact Hc.
    + rewrite Nat.min_r in Hp by exact Hc.
      rewrite Hp. rewrite firstn_all. now rewrite firstn_all2 by exact Hc.
  - right. exists d.
    destruct Hne as [Hne|Hne]; [lia|].
    assert (Hfd : first_difference start limit d).
    { unfold first_difference. repeat split; try assumption; unfold min_length in Hlt; lia. }
    split; [exact Hfd|].
    pose proof (bytes_nth start d Hs) as Hbs. pose proof (bytes_nth limit d Hl) as Hbl.
    rewrite !uint8_byte by assumption.
    unfold is_byte in Hbs, Hbl.
    destruct (Z.ltb_spec (nth d start 0) 255) as [H1|H1]; cbn [andb].
    + destruct (Z.ltb_spec (nth d start 0 + 1) (nth d limit 0)) as [H2|H2].
      * left. split; [exact H2|].
        rewrite Nat.add_1_r.
        rewrite insert_take_drop by (unfold min_length in Hlt; lia).
        rewrite firstn_app, firstn_firstn, Nat.min_r by lia.
        rewrite length_firstn, Nat.min_l by (unfold min_length in Hlt; lia).
        replace (S d - d)%nat with 1%nat by lia. cbn [firstn].
        rewrite uint8_byte by (unfold is_byte; lia). reflexivity.
      * right. split; [lia|reflexivity].
    + right. split; [lia|reflexivity].
Qed.

Lemma first_difference_unique start limit i j :
  first_difference start limit i -> first_difference start limit j -> i = j.
Proof.
  intros (Hi1 & Hi2 & Hip & Hin) (Hj1 & Hj2 & Hjp & Hjn).
  destruct (Nat.lt_trichotomy i j) as [Hlt|[->|Hgt]]; [exfalso|reflexivity|exfalso].
  - apply Hin.
    assert (E : nth i (firstn j start) 0 = nth i (firstn j limit) 0) by now rewrite Hjp.
    now rewrite !nth_firstn, (proj2 (Nat.ltb_lt i j) Hlt) in E.
  - apply Hjn.
    assert (E : nth j (firstn i start) 0 = nth j (firstn i limit) 0) by now rewrite Hip.
    now rewrite !nth_firstn, (proj2 (Nat.ltb_lt j i) Hgt) in E.
Qed.

Lemma first_difference_not_prefix start limit i :
  first_difference start limit i -> ~ prefix_related start limit.
Proof.
  intros (Hi1 & Hi2 & Hip & Hin) Hp. apply Hin. unfold prefix_related in Hp.
  assert (E : nth i (firstn (length limit) start) 0 = nth i (firstn (length start) limit) 0)
    by now rewrite Hp.
  rewrite !nth_firstn in E.
  now rewrite (proj2 (Nat.ltb_lt _ _) Hi1), (proj2 (Nat.ltb_lt _ _) Hi2) in E.
Qed.

(** C6: for byte strings with [start < limit], FindShortestSeparator
    yields a string no longer than [start] with
    [start <= new_start < limit]; it changes [start] exactly when, at
    the first differing index [i], [start[i] + 1 < limit[i]] (the byte
    is incremented and the string cut after it), and leaves [start]
    unchanged otherwise, also when one string is a prefix of the
    other. *)
Theorem C6_FindShortestSeparator start limit :
  bytes start -> bytes limit ->
  Compare start limit < 0 ->
  let new_start := FindShortestSeparator start limit in
  (length new_start <= length start)%nat /\
  Compare start new_start <= 0 /\
  Compare new_start limit < 0 /\
  (forall i, first_difference start limit i ->
     (nth i start 0 + 1 < nth i limit 0 ->
      new_start = firstn i start ++ [nth i start 0 + 1] /\ new_start <> start) /\
     (~ nth i start 0 + 1 < nth i limit 0 -> new_start = start)) /\
  (prefix_related start limit -> new_start = start).
Proof.
  intros Hs Hl Hlt new_start. subst new_start.
  destruct (FindShortestSeparator_cases start limit Hs Hl)
    as [(Hp & ->)|(i & Hfd & [(Hinc & ->)|(Hninc & ->)])].
  - split; [|split; [|split; [|split]]].
    + lia.
    + unfold Compare. rewrite Slice_compare_refl. lia.
    + exact Hlt.
    + intros j Hj. exfalso. exact (first_difference_not_prefix _ _ _ Hj Hp).
    + reflexivity.
  - pose proof Hfd as (Hi1 & Hi2 & Hip & Hin).
    assert (Hne : firstn i start ++ [nth i start 0 + 1] <> start).
    { intros E. assert (E' : nth i (firstn i start ++ [nth i start 0 + 1]) 0 = nth i start 0)
        by now rewrite E.
      rewrite app_nth2 in E' by (rewrite length_firstn; lia).
      rewrite length_firstn, Nat.min_l, Nat.sub_diag in E' by lia. cbn in E'. lia. }
    split; [|split; [|split; [|split]]].
    + rewrite length_app, length_firstn. cbn [length]. lia.
    + unfold Compare. rewrite (split_nth start i Hi1) at 1.
      rewrite Slice_compare_app. cbn [Slice_compare].
      destruct (Z.ltb_spec (nth i start 0) (nth i start 0 + 1)); lia.
    + unfold Compare. rewrite (split_nth limit i Hi2), <- Hip.
      rewrite Slice_compare_app. cbn [Slice_compare].
      destruct (Z.ltb_spec (nth i start 0 + 1) (nth i limit 0)); lia.
    + intros j Hj. rewrite (first_difference_unique start limit j i Hj Hfd).
      split; [intros _; split; [reflexivity|exact Hne]|].
      intros Hn. contradiction.
    + intros Hp. exfalso. exact (first_difference_not_prefix start limit i Hfd Hp).
  - split; [|split; [|split; [|split]]].
    + lia.
    + unfold Compare. rewrite Slice_compare_refl. lia.
    + exact Hlt.
    + intros j Hj. rewrite (first_difference_unique start limit j i Hj Hfd).
      split; [intros Hinc; contradiction|reflexivity].
    + reflexivity.
Qed.

Lemma C6_FindShortestSeparator_witness :
  let start := bytes_of_string "helloworld" in
  let limit := bytes_of_string "hellozoomer" in
  (bytes start /\ bytes limit /\ Compare start limit < 0) /\
  FindShortestSeparator start limit = bytes_of_string "hellox" /\
  (length (FindShortestSeparator start limit) <= length start)%nat /\
  Compare start (FindShortestSeparator start limit) <= 0 /\
  Compare (FindShortestSeparator start limit) limit < 0.
Proof.
  intros start limit.
  assert (Hs : bytes start) by (unfold bytes; subst start; cbn; repeat constructor; lia).
  assert (Hl : bytes limit) by (unfold bytes; subst limit; cbn; repeat constructor; lia).
  assert (Hlt : Compare start limit < 0) by (vm_compute; reflexivity).
  split; [exact (conj Hs (conj Hl Hlt))|]. split; [reflexivity|].
  destruct (C6_FindShortestSeparator start limit Hs Hl Hlt) as (H1 & H2 & H3 & _).
  exact (conj H1 (conj H2 H3)).
Defined.

End ComparatorFacts.

Module LogReaderFacts.
Import Coding CodingFacts LogReader.

Lemma gtb_false a b : a <= b -> (a >? b) = false.
Proof. intros H. rewrite Z.gtb_ltb. now apply Z.ltb_ge. Qed.

Lemma gtb_true a b : a > b -> (a >? b) = true.
Proof. intros H. rewrite Z.gtb_ltb. apply Z.ltb_lt. lia. Qed.

Lemma uint64_small v : 0 <= v < 2 ^ 64 -> uint64 v = v.
Proof. intros H. unfold uint64. now apply Z.mod_small. Qed.

Lemma slen_nonneg l : 0 <= slen l.
Proof. unfold slen. lia. Qed.

Lemma slen_skipn n l : 0 <= n <= slen l -> slen (skipn (Z.to_nat n) l) = slen l - n.
Proof. unfold slen. intros H. rewrite length_skipn. lia. Qed.

Lemma slen_firstn n l : 0 <= n <= slen l -> slen (firstn (Z.to_nat n) l) = n.
Proof. unfold slen. intros H. rewrite length_firstn. lia. Qed.

Lemma header_length_range buf : 0 <= header_length buf < 65536.
Proof.
  unfold header_length.
  change 255 with (Z.ones 8). rewrite !Z.land_ones by lia.
  assert (H4 : 0 <= nth 4 buf 0 mod 2 ^ 8 < 2 ^ 8) by (apply Z.mod_pos_bound; lia).
  assert (H5 : 0 <= nth 5 buf 0 mod 2 ^ 8 < 2 ^ 8) by (apply Z.mod_pos_bound; lia).
  rewrite lor_shiftl_add by lia. lia.
Qed.


Lemma reports_ReportDrop r bytes reason :
  reports (ReportDrop r bytes reason) = reports r \/
  reports (ReportDrop r bytes reason) = reports r ++ [(bytes, reason)].
Proof.
  unfold ReportDrop. destruct (reporter_ r) as [calls|] eqn:E; [destruct (_ >=? _)|];
    [right|left|left]; unfold reports; cbn; rewrite ?E; reflexivity.
Qed.

Lemma reports_ReportDrop_Some r calls bytes reason :
  reporter_ r = Some calls ->
  0 <= end_of_buffer_offset_ r - slen (buffer_ r) - bytes < 2 ^ 64 ->
  reports (ReportDrop r bytes reason) =
  if initial_offset_ r <=? end_of_buffer_offset_ r - slen (buffer_ r) - bytes
  then calls ++ [(bytes, reason)] else calls.
Proof.
  intros Hr Hb. unfold ReportDrop, reports. rewrite Hr.
  rewrite uint64_small by exact Hb. rewrite Z.geb_leb.
  destruct (_ <=? _); cbn; [reflexivity|now rewrite Hr].
Qed.

Section Facts.
Variable crc32c_Value : list Z -> Z.
Variable crc32c_Unmask : Z -> Z.

Abbreviation RPR := (ReadPhysicalRecord crc32c_Value crc32c_Unmask).
Abbreviation parse := (ReadPhysicalRecord_parse crc32c_Value crc32c_Unmask).
Abbreviation turn := (ReadRecord_turn crc32c_Value crc32c_Unmask).
Abbreviation loop := (ReadRecord_loop crc32c_Value crc32c_Unmask).
Abbreviation stands_before := (stands_before crc32c_Value crc32c_Unmask).
Abbreviation fragments_from := (fragments_from crc32c_Value crc32c_Unmask).
Abbreviation logical_record := (logical_record crc32c_Value crc32c_Unmask).
Abbreviation fragments_then_tail := (fragments_then_tail crc32c_Value crc32c_Unmask).
Abbreviation leftover_from := (leftover_from crc32c_Value crc32c_Unmask).
Abbreviation returns := (returns crc32c_Value crc32c_Unmask).

Lemma parse_bad_length r res :
  kHeaderSize + header_length (buffer_ r) > slen (buffer_ r) ->
  eof_ r = false ->
  parse r res =
  (kBadRecord, res,
   ReportCorruption (set_buffer_ r []) (slen (buffer_ r)) "bad record length").
Proof.
  intros Hl He. unfold ReadPhysicalRecord_parse. fold (header_length (buffer_ r)).
  rewrite gtb_true by exact Hl. cbn [set_buffer_ eof_]. now rewrite He.
Qed.

Lemma parse_past_eof r res :
  kHeaderSize + header_length (buffer_ r) > slen (buffer_ r) ->
  eof_ r = true ->
  parse r res = (kEof, res, set_buffer_ r []).
Proof.
  intros Hl He. unfold ReadPhysicalRecord_parse. fold (header_length (buffer_ r)).
  rewrite gtb_true by exact Hl. cbn [set_buffer_ eof_]. now rewrite He.
Qed.

Lemma zero_test_false type length :
  ~ (type = kZeroType /\ length = 0) -> (type =? kZeroType) && (length =? 0) = false.
Proof.
  intros H. destruct (Z.eqb_spec type kZeroType), (Z.eqb_spec length 0); cbn; tauto.
Qed.

Lemma parse_checksum r res :
  kHeaderSize + header_length (buffer_ r) <= slen (buffer_ r) ->
  ~ (header_type (buffer_ r) = kZeroType /\ header_length (buffer_ r) = 0) ->
  checksum_ r = true ->
  crc32c_Value (firstn (Z.to_nat (1 + header_length (buffer_ r))) (skipn 6 (buffer_ r)))
    <> crc32c_Unmask (DecodeFixed32 (buffer_ r)) ->
  parse r res =
  (kBadRecord, res,
   ReportCorruption (set_buffer_ r []) (slen (buffer_ r)) "checksum mismatch").
Proof.
  intros Hl Hz Hc Hne. unfold ReadPhysicalRecord_parse.
  fold (header_length (buffer_ r)). fold (header_type (buffer_ r)).
  rewrite gtb_false by exact Hl. rewrite zero_test_false by exact Hz.
  rewrite Hc. cbn [andb].
  destruct (Z.eqb_spec (crc32c_Value (firstn (Z.to_nat (1 + header_length (buffer_ r)))
                                        (skipn 6 (buffer_ r))))
                       (crc32c_Unmask (DecodeFixed32 (buffer_ r)))); [contradiction|].
  reflexivity.
Qed.

Lemma parse_record r res type payload rest :
  offsets_ok r ->
  record_at crc32c_Value crc32c_Unmask (checksum_ r) (buffer_ r) type payload rest ->
  parse r res =
  if record_offset r <? initial_offset_ r
  then (kBadRecord, [], set_buffer_ r rest)
  else (type, payload, set_buffer_ r rest).
Proof.
  intros (Hi & Hb & He) (Hl & Ht & Hz & Hc & -> & ->).
  unfold ReadPhysicalRecord_parse.
  fold (header_length (buffer_ r)). fold (header_type (buffer_ r)).
  pose proof (header_length_range (buffer_ r)) as Hr.
  rewrite gtb_false by exact Hl. rewrite Ht in *. rewrite zero_test_false by exact Hz.
  assert (Hcrc : checksum_ r
                 && negb (crc32c_Value (firstn (Z.to_nat (1 + header_length (buffer_ r)))
                                          (skipn 6 (buffer_ r)))
                          =? crc32c_Unmask (DecodeFixed32 (buffer_ r))) = false).
  { destruct (checksum_ r) eqn:E; [|reflexivity]. cbn [andb].
    unfold checksum_ok in Hc. rewrite Hc by reflexivity. now rewrite Z.eqb_refl. }
  rewrite Hcrc. cbn [set_buffer_ buffer_ end_of_buffer_offset_ initial_offset_].
  unfold kHeaderSize in *.
  rewrite slen_skipn by lia.
  pose proof (slen_nonneg (data (file_ r))).
  rewrite uint64_small by lia.
  unfold record_offset.
  replace (end_of_buffer_offset_ r - (slen (buffer_ r) - (4 + 2 + 1 + header_length (buffer_ r)))
           - (4 + 2 + 1) - header_length (buffer_ r))
    with (end_of_buffer_offset_ r - slen (buffer_ r)) by lia.
  reflexivity.
Qed.

Lemma RPR_parse r res :
  kHeaderSize <= slen (buffer_ r) -> RPR r res = Some (parse r res).
Proof.
  intros H. unfold ReadPhysicalRecord. cbn [ReadPhysicalRecord_loop].
  destruct (Z.ltb_spec (slen (buffer_ r)) kHeaderSize); [lia|reflexivity].
Qed.

Lemma RPR_truncated_header r res :
  slen (buffer_ r) < kHeaderSize -> eof_ r = true ->
  RPR r res = Some (kEof, res, set_buffer_ r []).
Proof.
  intros H He. unfold ReadPhysicalRecord. cbn [ReadPhysicalRecord_loop].
  destruct (Z.ltb_spec (slen (buffer_ r)) kHeaderSize); [|lia].
  now rewrite He.
Qed.

Lemma RPR_loop_S fuel r res :
  ReadPhysicalRecord_loop crc32c_Value crc32c_Unmask (S fuel) r res =
  if slen (buffer_ r) <? kHeaderSize then
    if negb (eof_ r) then
      let '(status, r) := ReadPhysicalRecord_read r in
      if negb (Status_ok status) then
        Some (kEof, res, set_eof_ (ReportDrop (set_buffer_ r []) kBlockSize status) true)
      else
        ReadPhysicalRecord_loop crc32c_Value crc32c_Unmask fuel
          (if slen (buffer_ r) <? kBlockSize then set_eof_ r true else r) res
    else Some (kEof, res, set_buffer_ r [])
  else Some (parse r res).
Proof. reflexivity. Qed.

(** [fread] delivers the bytes asked for, or all that are left. *)
Lemma Z_to_nat_min_slen n (l : list Z) :
  firstn (Z.to_nat (Z.min n (slen l))) l = firstn (Z.to_nat n) l /\
  skipn (Z.to_nat (Z.min n (slen l))) l = skipn (Z.to_nat n) l.
Proof.
  unfold slen. destruct (Z.min_spec n (Z.of_nat (length l))) as [[H ->]|[H ->]];
    [split; reflexivity|].
  rewrite Nat2Z.id. rewrite firstn_all, skipn_all.
  rewrite firstn_all2, skipn_all2 by lia. split; reflexivity.
Qed.

(** What the read of a block leaves: the status is an error when the
    stream ends with an error before [kBlockSize] bytes. *)
Lemma read_fields r :
  fst (ReadPhysicalRecord_read r) =
    (if (slen (data (file_ r)) <? kBlockSize) && failing (file_ r)
     then IOError "read" else OK) /\
  buffer_ (snd (ReadPhysicalRecord_read r)) = firstn (Z.to_nat kBlockSize) (data (file_ r)) /\
  data (file_ (snd (ReadPhysicalRecord_read r))) = skipn (Z.to_nat kBlockSize) (data (file_ r)) /\
  failing (file_ (snd (ReadPhysicalRecord_read r))) = failing (file_ r) /\
  end_of_buffer_offset_ (snd (ReadPhysicalRecord_read r)) =
    uint64 (end_of_buffer_offset_ r
            + slen (firstn (Z.to_nat kBlockSize) (data (file_ r)))) /\
  eof_ (snd (ReadPhysicalRecord_read r)) = eof_ r /\
  reporter_ (snd (ReadPhysicalRecord_read r)) = reporter_ r /\
  checksum_ (snd (ReadPhysicalRecord_read r)) = checksum_ r /\
  initial_offset_ (snd (ReadPhysicalRecord_read r)) = initial_offset_ r /\
  last_record_offset_ (snd (ReadPhysicalRecord_read r)) = last_record_offset_ r /\
  resyncing_ (snd (ReadPhysicalRecord_read r)) = resyncing_ r.
Proof.
  unfold ReadPhysicalRecord_read, file_Read. cbn [set_buffer_ file_].
  rewrite (proj1 (Z_to_nat_min_slen _ _)), (proj2 (Z_to_nat_min_slen _ _)).
  assert (Hlt : (Z.min kBlockSize (slen (data (file_ r))) <? kBlockSize)
                = (slen (data (file_ r)) <? kBlockSize)).
  { destruct (Z.ltb_spec (slen (data (file_ r))) kBlockSize);
      [apply Z.ltb_lt|apply Z.ltb_ge]; lia. }
  rewrite Hlt. clear Hlt.
  destruct (slen (data (file_ r)) <? kBlockSize); destruct (failing (file_ r));
    cbn; repeat split.
Qed.

(** What the read leaves, when the file reports no error. *)
Lemma read_ok r :
  failing (file_ r) = false ->
  ReadPhysicalRecord_read r =
  (OK, snd (ReadPhysicalRecord_read r)) /\
  buffer_ (snd (ReadPhysicalRecord_read r)) = firstn (Z.to_nat kBlockSize) (data (file_ r)) /\
  data (file_ (snd (ReadPhysicalRecord_read r))) = skipn (Z.to_nat kBlockSize) (data (file_ r)) /\
  failing (file_ (snd (ReadPhysicalRecord_read r))) = false /\
  end_of_buffer_offset_ (snd (ReadPhysicalRecord_read r)) =
    uint64 (end_of_buffer_offset_ r
            + slen (firstn (Z.to_nat kBlockSize) (data (file_ r)))) /\
  eof_ (snd (ReadPhysicalRecord_read r)) = eof_ r /\
  reporter_ (snd (ReadPhysicalRecord_read r)) = reporter_ r /\
  checksum_ (snd (ReadPhysicalRecord_read r)) = checksum_ r /\
  initial_offset_ (snd (ReadPhysicalRecord_read r)) = initial_offset_ r /\
  last_record_offset_ (snd (ReadPhysicalRecord_read r)) = last_record_offset_ r /\
  resyncing_ (snd (ReadPhysicalRecord_read r)) = resyncing_ r.
Proof.
  intros Hf.
  destruct (read_fields r) as (H1 & H2 & H3 & H4 & H5 & H6 & H7 & H8 & H9 & H10 & H11).
  rewrite Hf, andb_false_r in H1. rewrite Hf in H4.
  split; [|auto 12].
  destruct (ReadPhysicalRecord_read r) as [s r1]. cbn [fst snd] in *. now rewrite H1.
Qed.

Lemma after_read_eof r :
  failing (file_ r) = false ->
  slen (buffer_ (after_read r)) < kBlockSize -> eof_ (after_read r) = true.
Proof.
  intros Hf. unfold after_read.
  destruct (Z.ltb_spec (slen (buffer_ (snd (ReadPhysicalRecord_read r)))) kBlockSize) as [Hs|Hs].
  - reflexivity.
  - intros H. lia.
Qed.

(** The read of [ReadPhysicalRecord], when the file reports no
    error. *)
Lemma RPR_read r res :
  slen (buffer_ r) < kHeaderSize -> eof_ r = false -> failing (file_ r) = false ->
  RPR r res =
  if slen (buffer_ (after_read r)) <? kHeaderSize
  then Some (kEof, res, set_buffer_ (after_read r) [])
  else Some (parse (after_read r) res).
Proof.
  intros H He Hf. unfold ReadPhysicalRecord. rewrite RPR_loop_S.
  destruct (Z.ltb_spec (slen (buffer_ r)) kHeaderSize) as [_|]; [|lia].
  rewrite He. cbn [negb].
  pose proof (after_read_eof r Hf) as Hae. fold (after_read r).
  destruct (read_ok r Hf) as (-> & _). cbn [Status_ok negb].
  fold (after_read r). rewrite RPR_loop_S.
  destruct (Z.ltb_spec (slen (buffer_ (after_read r))) kHeaderSize) as [Hh|Hh];
    [|reflexivity].
  rewrite Hae; [reflexivity|]. unfold kBlockSize, kHeaderSize in *. lia.
Qed.

Lemma RPR_tail_eof r res :
  eof_ r = true -> truncated (buffer_ r) ->
  RPR r res = Some (kEof, res, set_buffer_ r []).
Proof.
  intros He Ht.
  destruct (Z.lt_ge_cases (slen (buffer_ r)) kHeaderSize) as [Hs|Hs].
  - now apply RPR_truncated_header.
  - destruct Ht as [Ht|Ht]; [lia|].
    rewrite RPR_parse by lia. now rewrite parse_past_eof.
Qed.

Lemma RPR_tail_read r res :
  slen (buffer_ r) < kHeaderSize -> eof_ r = false -> failing (file_ r) = false ->
  slen (data (file_ r)) < kBlockSize -> truncated (data (file_ r)) ->
  exists r1, RPR r res = Some (kEof, res, r1) /\ reporter_ r1 = reporter_ r.
Proof.
  intros Hb He Hf Hs Ht.
  rewrite RPR_read by assumption.
  assert (Hbuf : firstn (Z.to_nat kBlockSize) (data (file_ r)) = data (file_ r)).
  { apply firstn_all2. unfold slen in Hs. revert Hs. generalize kBlockSize. lia. }
  destruct (read_ok r Hf) as (_ & Hrb & _ & _ & _ & _ & Hrr & _).
  rewrite Hbuf in Hrb.
  assert (Har : buffer_ (after_read r) = data (file_ r) /\ eof_ (after_read r) = true
                /\ reporter_ (after_read r) = reporter_ r).
  { unfold after_read. rewrite Hrb.
    destruct (Z.ltb_spec (slen (data (file_ r))) kBlockSize); [|lia].
    cbn [set_eof_ buffer_ eof_ reporter_]. auto. }
  destruct Har as (Hab & Hae & Har).
  destruct (Z.ltb_spec (slen (buffer_ (after_read r))) kHeaderSize) as [Hh|Hh].
  - eexists. split; [reflexivity|]. exact Har.
  - rewrite parse_past_eof.
    + eexists. split; [reflexivity|]. exact Har.
    + rewrite Hab in *. destruct Ht; lia.
    + exact Hae.
Qed.

Ltac simpl_reader :=
  cbn [file_ reporter_ checksum_ buffer_ eof_ last_record_offset_
       end_of_buffer_offset_ initial_offset_ resyncing_
       set_file_ set_reporter_ set_buffer_ set_eof_ set_last_record_offset_
       set_end_of_buffer_offset_ set_resyncing_].

Ltac simpl_reader_in H :=
  cbn [file_ reporter_ checksum_ buffer_ eof_ last_record_offset_
       end_of_buffer_offset_ initial_offset_ resyncing_
       set_file_ set_reporter_ set_buffer_ set_eof_ set_last_record_offset_
       set_end_of_buffer_offset_ set_resyncing_] in H.

Ltac eval_tests :=
  repeat match goal with
  | |- context [?a =? ?b] =>
      let v := eval vm_compute in (a =? b) in
      match v with
      | true => change (a =? b) with true
      | false => change (a =? b) with false
      end
  end; cbv iota.

Lemma SkipToInitialBlock_ok r :
  failing (file_ r) = false ->
  exists r', SkipToInitialBlock r = (true, r') /\
    buffer_ r' = buffer_ r /\ eof_ r' = eof_ r /\ reporter_ r' = reporter_ r /\
    failing (file_ r') = false /\
    (exists n, data (file_ r') = skipn n (data (file_ r))).
Proof.
  intros Hf. unfold SkipToInitialBlock.
  match goal with |- context [if ?c >? 0 then _ else _] => destruct (c >? 0) end.
  - unfold file_Skip. cbn [set_end_of_buffer_offset_ file_]. rewrite Hf.
    cbn [Status_ok negb]. eexists. split; [reflexivity|].
    cbn. repeat split. eexists. reflexivity.
  - eexists. split; [reflexivity|]. cbn. repeat split; try assumption.
    exists 0%nat. reflexivity.
Qed.

Lemma record_at_sizes checksum buf type payload rest :
  record_at crc32c_Value crc32c_Unmask checksum buf type payload rest ->
  kHeaderSize <= slen buf /\ slen payload = header_length buf /\
  slen rest = slen buf - kHeaderSize - header_length buf.
Proof.
  intros (Hl & _ & _ & _ & -> & ->).
  pose proof (header_length_range buf) as Hr.
  unfold kHeaderSize in *.
  split; [lia|]. split.
  - rewrite slen_firstn; [reflexivity|].
    rewrite slen_skipn by lia. lia.
  - rewrite slen_skipn by lia. lia.
Qed.

Lemma RPR_record_at r res type payload rest :
  offsets_ok r ->
  record_at crc32c_Value crc32c_Unmask (checksum_ r) (buffer_ r) type payload rest ->
  RPR r res =
  Some (if record_offset r <? initial_offset_ r
        then (kBadRecord, [], set_buffer_ r rest)
        else (type, payload, set_buffer_ r rest)).
Proof.
  intros Ho Hr. destruct (record_at_sizes _ _ _ _ _ Hr) as (Hk & _).
  rewrite RPR_parse by exact Hk. f_equal. now apply parse_record.
Qed.

Lemma turn_unfold r l :
  turn r l =
  match RPR r (fragment l) with
  | None => None
  | Some (record_type, frag, r1) =>
      if resyncing_ r1 then
        if record_type =? kMiddleType then Some (inr (set_fragment l frag, r1))
        else if record_type =? kLastType then
          Some (inr (set_fragment l frag, set_resyncing_ r1 false))
        else Some (ReadRecord_switch (set_resyncing_ r1 false) (set_fragment l frag)
                     (uint64 (end_of_buffer_offset_ r - slen (buffer_ r))) record_type)
      else Some (ReadRecord_switch r1 (set_fragment l frag)
                   (uint64 (end_of_buffer_offset_ r - slen (buffer_ r))) record_type)
  end.
Proof. reflexivity. Qed.

Lemma loop_S fuel r l :
  loop (S fuel) r l =
  match turn r l with
  | None => None
  | Some (inl ret) => Some ret
  | Some (inr (l, r)) => loop fuel r l
  end.
Proof. reflexivity. Qed.

(** *** ReadRecord returns *)

Lemma unread_ReportDrop r bytes reason : unread (ReportDrop r bytes reason) = unread r.
Proof.
  unfold ReportDrop. destruct (reporter_ r); [|reflexivity].
  now destruct (_ >=? _).
Qed.

Lemma unread_cleared r :
  kHeaderSize <= slen (buffer_ r) -> (unread (set_buffer_ r []) < unread r)%nat.
Proof.
  unfold unread, slen, kHeaderSize. simpl_reader. cbn [length]. lia.
Qed.

(** From a buffer that holds a header, [ReadPhysicalRecord] uses up
    bytes of the buffer. *)
Lemma parse_progress r res :
  kHeaderSize <= slen (buffer_ r) -> (unread (snd (parse r res)) < unread r)%nat.
Proof.
  intros Hk. pose proof (unread_cleared r Hk) as Hc.
  unfold ReadPhysicalRecord_parse.
  fold (header_length (buffer_ r)). fold (header_type (buffer_ r)).
  pose proof (header_length_range (buffer_ r)) as Hr.
  destruct (_ >? _).
  - simpl_reader. destruct (negb (eof_ r)); cbn [snd]; [|exact Hc].
    unfold ReportCorruption. now rewrite unread_ReportDrop.
  - destruct (_ && _); [exact Hc|].
    destruct (_ && _).
    + cbn [snd]. unfold ReportCorruption. now rewrite unread_ReportDrop.
    + assert (Hs : (unread (set_buffer_ r (skipn (Z.to_nat (kHeaderSize
                       + header_length (buffer_ r))) (buffer_ r))) < unread r)%nat).
      { unfold unread, slen, kHeaderSize in *. simpl_reader. rewrite length_skipn. lia. }
      destruct (_ <? _); exact Hs.
Qed.

(** [ReadPhysicalRecord] returns, after two turns of its loop at most,
    and with another result than [kEof] it has used up bytes of the
    buffer or of the file. *)
Lemma ReadPhysicalRecord_total r res :
  exists t res' r', RPR r res = Some (t, res', r') /\
    (t = kEof \/ (unread r' < unread r)%nat).
Proof.
  destruct (Z.lt_ge_cases (slen (buffer_ r)) kHeaderSize) as [Hs|Hs].
  - destruct (eof_ r) eqn:He.
    + rewrite RPR_truncated_header by assumption. eauto 6.
    + assert (Hu : forall x, buffer_ x = buffer_ (snd (ReadPhysicalRecord_read r)) ->
                file_ x = file_ (snd (ReadPhysicalRecord_read r)) ->
                (unread x <= unread r)%nat).
      { intros x Hxb Hxf. destruct (read_fields r) as (_ & Hb & Hd & _).
        unfold unread. rewrite Hxb, Hxf, Hb, Hd.
        rewrite length_firstn, length_skipn. lia. }
      unfold ReadPhysicalRecord. rewrite RPR_loop_S.
      destruct (Z.ltb_spec (slen (buffer_ r)) kHeaderSize) as [_|]; [|lia].
      rewrite He. cbn [negb].
      destruct (read_fields r) as (Hst & _).
      destruct (ReadPhysicalRecord_read r) as [st r1]. cbn [fst snd] in *.
      destruct (negb (Status_ok st)); [eauto 6|].
      set (r2 := if slen (buffer_ r1) <? kBlockSize then set_eof_ r1 true else r1).
      assert (Hr2 : (unread r2 <= unread r)%nat)
        by (subst r2; destruct (slen (buffer_ r1) <? kBlockSize); apply Hu; reflexivity).
      assert (He2 : slen (buffer_ r2) < kHeaderSize -> eof_ r2 = true).
      { subst r2. destruct (Z.ltb_spec (slen (buffer_ r1)) kBlockSize);
          simpl_reader; [reflexivity|].
        unfold kBlockSize, kHeaderSize in *. lia. }
      rewrite RPR_loop_S.
      destruct (Z.ltb_spec (slen (buffer_ r2)) kHeaderSize) as [Hh|Hh].
      * rewrite He2 by exact Hh. cbn [negb]. eauto 6.
      * destruct (parse r2 res) as [[t res'] r'] eqn:Hp.
        exists t, res', r'. split; [reflexivity|]. right.
        pose proof (parse_progress r2 res Hh) as Hpp.
        rewrite Hp in Hpp. cbn [snd] in Hpp. lia.
  - rewrite RPR_parse by lia.
    destruct (parse r res) as [[t res'] r'] eqn:Hp.
    exists t, res', r'. split; [reflexivity|]. right.
    pose proof (parse_progress r res ltac:(lia)) as Hpp. now rewrite Hp in Hpp.
Qed.

Lemma unread_ReadRecord_switch r l offset record_type :
  match ReadRecord_switch r l offset record_type with
  | inl _ => True
  | inr (_, r') => unread r' = unread r
  end.
Proof.
  unfold ReadRecord_switch, ReportCorruption.
  repeat match goal with
         | |- context [if ?c then _ else _] => destruct c
         end; rewrite ?unread_ReportDrop; auto.
Qed.

(** A turn of the loop of [ReadRecord] returns, or goes round with fewer
    bytes left to use. *)
Lemma ReadRecord_turn_progress r l :
  exists x, turn r l = Some x /\
    match x with
    | inl _ => True
    | inr (_, r') => (unread r' < unread r)%nat
    end.
Proof.
  rewrite turn_unfold.
  destruct (ReadPhysicalRecord_total r (fragment l)) as (t & frag & r1 & -> & Ht).
  destruct Ht as [->|Hlt].
  - destruct (resyncing_ r1); eval_tests; unfold ReadRecord_switch; eval_tests;
      eexists; (split; [reflexivity|]); exact I.
  - assert (Hsw : forall r2 o, unread r2 = unread r1 ->
              match ReadRecord_switch r2 (set_fragment l frag) o t with
              | inl _ => True
              | inr (_, r') => (unread r' < unread r)%nat
              end).
    { intros r2 o Hr2. pose proof (unread_ReadRecord_switch r2 (set_fragment l frag) o t) as H.
      destruct (ReadRecord_switch r2 (set_fragment l frag) o t) as [ret|[l' r']]; [exact I|].
      lia. }
    destruct (resyncing_ r1).
    + destruct (t =? kMiddleType); [eexists; split; [reflexivity|exact Hlt]|].
      destruct (t =? kLastType); [eexists; split; [reflexivity|exact Hlt]|].
      eexists. split; [reflexivity|]. now apply Hsw.
    + eexists. split; [reflexivity|]. now apply Hsw.
Qed.

Lemma ReadRecord_loop_total fuel r l :
  (unread r < fuel)%nat -> exists ret, loop fuel r l = Some ret.
Proof.
  revert r l. induction fuel as [|fuel IH]; intros r l Hf; [lia|].
  rewrite loop_S. destruct (ReadRecord_turn_progress r l) as (x & -> & Hx).
  destruct x as [ret|[l' r']]; [eauto|]. apply IH. lia.
Qed.

Lemma unread_SkipToInitialBlock r :
  (unread (snd (SkipToInitialBlock r)) <= unread r)%nat.
Proof.
  unfold SkipToInitialBlock.
  match goal with |- context [if ?c >? 0 then _ else _] => destruct (c >? 0) end;
    [|reflexivity].
  unfold file_Skip. simpl_reader. destruct (failing (file_ r)); cbn [Status_ok negb snd].
  - rewrite unread_ReportDrop. reflexivity.
  - unfold unread. simpl_reader. cbn [data]. rewrite length_skipn. lia.
Qed.

(** [ReadRecord] returns on every reader: the bytes of the buffer and of
    the file bound the turns of its loop. *)
Lemma ReadRecord_total r record0 scratch0 :
  exists ret, ReadRecord crc32c_Value crc32c_Unmask r record0 scratch0 = Some ret.
Proof.
  unfold ReadRecord, ReadRecord_from.
  assert (Hs : forall p : bool * Reader, (unread (snd p) <= unread r)%nat ->
            exists ret,
              (let '(ok, r0) := p in
               if negb ok then Some (false, record0, scratch0, r0)
               else
                 match loop (S (length (buffer_ r) + length (data (file_ r)))) r0
                         {| record := []; scratch := []; in_fragmented_record := false;
                            prospective_record_offset := 0; fragment := [] |} with
                 | Some (b, l, r1) => Some (b, record l, scratch l, r1)
                 | None => None
                 end) = Some ret).
  { intros [ok r0] Hr0. cbn [snd] in Hr0. destruct ok; cbn [negb]; [|eauto].
    destruct (ReadRecord_loop_total (S (length (buffer_ r) + length (data (file_ r)))) r0
                {| record := []; scratch := []; in_fragmented_record := false;
                   prospective_record_offset := 0; fragment := [] |}) as [[[b l] r1] ->].
    - unfold unread in *. lia.
    - eauto. }
  destruct (last_record_offset_ r <? initial_offset_ r).
  - apply (Hs (SkipToInitialBlock r)). apply unread_SkipToInitialBlock.
  - apply (Hs (true, r)). reflexivity.
Qed.

Lemma record_offset_uint64 r :
  offsets_ok r -> uint64 (end_of_buffer_offset_ r - slen (buffer_ r)) = record_offset r.
Proof.
  intros (_ & Hb & He). pose proof (slen_nonneg (data (file_ r))).
  pose proof (slen_nonneg (buffer_ r)).
  unfold record_offset. apply uint64_small. lia.
Qed.



(** *** Readers that differ in the reporter only *)

Lemma set_reporter_same r : set_reporter_ r (reporter_ r) = r.
Proof. now destruct r. Qed.

Lemma set_resyncing_same r b : resyncing_ r = b -> set_resyncing_ r b = r.
Proof. intros <-. now destruct r. Qed.

Lemma ReportCorruption_set r bytes reason :
  ReportCorruption r bytes reason
  = set_reporter_ r (reporter_ (ReportCorruption r bytes reason)).
Proof.
  unfold ReportCorruption, ReportDrop.
  destruct (reporter_ r) eqn:E; [destruct (_ >=? _)|]; simpl_reader;
    rewrite <- ?E; now rewrite ?set_reporter_same.
Qed.

(** The report of a drop that does not start before the initial
    offset reaches the reporter. *)
Lemma reporter_ReportCorruption r bytes reason :
  0 <= initial_offset_ r <= end_of_buffer_offset_ r - slen (buffer_ r) - bytes ->
  end_of_buffer_offset_ r - slen (buffer_ r) - bytes < 2 ^ 64 ->
  reporter_ (ReportCorruption r bytes reason) = told (reporter_ r) bytes reason.
Proof.
  intros H1 H2. unfold ReportCorruption, ReportDrop, told.
  destruct (reporter_ r) eqn:E; [|exact E].
  rewrite uint64_small by lia.
  destruct (Z.geb_spec (end_of_buffer_offset_ r - slen (buffer_ r) - bytes)
              (initial_offset_ r)); [reflexivity|lia].
Qed.

Lemma reports_told r x bytes reason :
  reporter_ x = told (reporter_ r) bytes reason ->
  reports x = match reporter_ r with
              | Some calls => calls ++ [(bytes, Corruption reason)]
              | None => []
              end.
Proof. unfold reports, told. intros ->. now destruct (reporter_ r). Qed.

Lemma after_read_set_reporter r x :
  after_read (set_reporter_ r x) = set_reporter_ (after_read r) x.
Proof.
  unfold after_read, ReadPhysicalRecord_read. simpl_reader.
  destruct (file_Read (file_ r) kBlockSize) as [[st buf] f]. cbn [snd]. simpl_reader.
  destruct (slen buf <? kBlockSize); reflexivity.
Qed.

Lemma stands_before_set_reporter r t p r' x :
  stands_before r t p r' ->
  stands_before (set_reporter_ r x) t p (set_reporter_ r' x).
Proof.
  intros [rest H ->|rest Hs He Hf H ->].
  - apply (before_in_buffer _ _ _ _ _ _ rest); [exact H|reflexivity].
  - apply (before_in_next_block _ _ _ _ _ _ rest); try assumption.
    + rewrite after_read_set_reporter. exact H.
    + rewrite after_read_set_reporter. reflexivity.
Qed.

Lemma fragments_from_set_reporter r acc result r' x :
  fragments_from r acc result r' ->
  fragments_from (set_reporter_ r x) acc result (set_reporter_ r' x).
Proof.
  induction 1 as [r acc payload r' H|r acc payload r1 result r' H _ IH].
  - apply fragments_last. now apply stands_before_set_reporter.
  - apply (fragments_middle _ _ _ _ payload (set_reporter_ r1 x)); [|exact IH].
    now apply stands_before_set_reporter.
Qed.

(** *** What a physical record leaves of the reader *)

Lemma after_read_fields r :
  failing (file_ r) = false ->
  buffer_ (after_read r) = firstn (Z.to_nat kBlockSize) (data (file_ r)) /\
  data (file_ (after_read r)) = skipn (Z.to_nat kBlockSize) (data (file_ r)) /\
  end_of_buffer_offset_ (after_read r)
  = uint64 (end_of_buffer_offset_ r + slen (firstn (Z.to_nat kBlockSize) (data (file_ r)))) /\
  checksum_ (after_read r) = checksum_ r /\
  initial_offset_ (after_read r) = initial_offset_ r /\
  resyncing_ (after_read r) = resyncing_ r /\
  reporter_ (after_read r) = reporter_ r /\
  last_record_offset_ (after_read r) = last_record_offset_ r.
Proof.
  intros Hf.
  destruct (read_ok r Hf) as (_ & Hb & Hd & _ & He & _ & Hrep & Hc & Hi & Hl & Hrs).
  unfold after_read. destruct (_ <? kBlockSize); simpl_reader; auto 10.
Qed.

Lemma offsets_after_read r :
  offsets_ok r -> failing (file_ r) = false ->
  offsets_ok (after_read r) /\ record_offset (after_read r) = end_of_buffer_offset_ r /\
  (unread (after_read r) <= unread r)%nat.
Proof.
  intros (Hi & Hb & He) Hf.
  destruct (after_read_fields r Hf) as (Hab & Had & Hae & _ & Hai & _).
  pose proof (slen_nonneg (buffer_ r)). pose proof (slen_nonneg (data (file_ r))).
  assert (Hsplit : slen (firstn (Z.to_nat kBlockSize) (data (file_ r)))
                   + slen (skipn (Z.to_nat kBlockSize) (data (file_ r)))
                   = slen (data (file_ r))).
  { unfold slen. rewrite <- Nat2Z.inj_add, <- length_app, firstn_skipn. reflexivity. }
  pose proof (slen_nonneg (firstn (Z.to_nat kBlockSize) (data (file_ r)))).
  pose proof (slen_nonneg (skipn (Z.to_nat kBlockSize) (data (file_ r)))).
  assert (Heob : end_of_buffer_offset_ (after_read r)
                 = end_of_buffer_offset_ r
                   + slen (firstn (Z.to_nat kBlockSize) (data (file_ r)))).
  { rewrite Hae. apply uint64_small. lia. }
  split; [|split].
  - unfold offsets_ok. rewrite Hab, Had, Heob, Hai. repeat split; lia.
  - unfold record_offset. rewrite Hab, Heob. lia.
  - unfold unread. rewrite Hab, Had.
    generalize (Z.to_nat kBlockSize). intros n.
    rewrite <- (firstn_skipn n (data (file_ r))) at 3. rewrite length_app. lia.
Qed.

(** The fields of the reader after the record it stood before. *)
Lemma stands_before_fields r t p r' :
  offsets_ok r -> stands_before r t p r' ->
  offsets_ok r' /\
  record_offset r' = physical_offset r + kHeaderSize + slen p /\
  record_offset r <= physical_offset r /\
  reporter_ r' = reporter_ r /\ resyncing_ r' = resyncing_ r /\
  initial_offset_ r' = initial_offset_ r /\
  last_record_offset_ r' = last_record_offset_ r /\
  (unread r' < unread r)%nat.
Proof.
  intros Ho [rest Hrec ->|rest Hs He Hf Hrec ->].
  - destruct (record_at_sizes _ _ _ _ _ Hrec) as (Hk & Hp & Hr).
    pose proof (header_length_range (buffer_ r)).
    pose proof (slen_nonneg rest). destruct Ho as (Hi & Hb & Hee).
    unfold physical_offset. destruct (Z.ltb_spec (slen (buffer_ r)) kHeaderSize); [lia|].
    unfold offsets_ok, record_offset, unread, slen in *. simpl_reader.
    unfold kHeaderSize in *. repeat split; lia.
  - destruct (offsets_after_read r Ho Hf) as (Ho' & Hro & Hu).
    destruct (after_read_fields r Hf) as (_ & _ & _ & _ & Hi' & Hrs' & Hrep & Hl).
    destruct (record_at_sizes _ _ _ _ _ Hrec) as (Hk & Hp & Hr).
    pose proof (header_length_range (buffer_ (after_read r))).
    pose proof (slen_nonneg rest). pose proof (slen_nonneg (buffer_ r)).
    destruct Ho' as (Hi & Hb & Hee).
    unfold physical_offset. destruct (Z.ltb_spec (slen (buffer_ r)) kHeaderSize); [|lia].
    unfold offsets_ok, record_offset, unread, slen in *. simpl_reader.
    unfold kHeaderSize in *. repeat split; try lia; assumption.
Qed.

(** [ReadPhysicalRecord] on a reader that stands before a record: the
    record is handed out unless it starts before the initial offset. *)
Lemma RPR_stands_before r res t p r' :
  offsets_ok r -> stands_before r t p r' ->
  RPR r res = Some (if physical_offset r <? initial_offset_ r
                    then (kBadRecord, [], r') else (t, p, r')).
Proof.
  intros Ho [rest Hrec ->|rest Hs He Hf Hrec ->].
  - destruct (record_at_sizes _ _ _ _ _ Hrec) as (Hk & _).
    rewrite (RPR_record_at r res t p rest Ho Hrec).
    unfold physical_offset. destruct (Z.ltb_spec (slen (buffer_ r)) kHeaderSize); [lia|].
    now destruct (_ <? _).
  - destruct (offsets_after_read r Ho Hf) as (Ho' & Hro & _).
    destruct (after_read_fields r Hf) as (_ & _ & _ & Hc & Hi' & _).
    destruct (record_at_sizes _ _ _ _ _ Hrec) as (Hk & _).
    rewrite RPR_read by assumption.
    destruct (Z.ltb_spec (slen (buffer_ (after_read r))) kHeaderSize); [lia|].
    rewrite <- Hc in Hrec.
    rewrite (parse_record (after_read r) res t p rest Ho' Hrec).
    unfold physical_offset. destruct (Z.ltb_spec (slen (buffer_ r)) kHeaderSize); [|lia].
    rewrite Hro, Hi'. now destruct (_ <? _).
Qed.

(** *** One turn of the loop of [ReadRecord] *)

Lemma turn_record r l t p r' :
  offsets_ok r -> resyncing_ r = false -> initial_offset_ r <= physical_offset r ->
  stands_before r t p r' ->
  turn r l = Some (ReadRecord_switch r' (set_fragment l p) (record_offset r) t).
Proof.
  intros Ho Hrs Hio Hsb.
  destruct (stands_before_fields r t p r' Ho Hsb) as (_ & _ & _ & _ & Hrs' & _).
  rewrite turn_unfold, (record_offset_uint64 r Ho), (RPR_stands_before r _ t p r' Ho Hsb).
  destruct (Z.ltb_spec (physical_offset r) (initial_offset_ r)); [lia|].
  now rewrite Hrs', Hrs.
Qed.

Lemma turn_record_resyncing r l t p r' :
  offsets_ok r -> resyncing_ r = true -> initial_offset_ r <= physical_offset r ->
  stands_before r t p r' ->
  turn r l =
  Some (if t =? kMiddleType then inr (set_fragment l p, r')
        else if t =? kLastType then inr (set_fragment l p, set_resyncing_ r' false)
        else ReadRecord_switch (set_resyncing_ r' false) (set_fragment l p)
               (record_offset r) t).
Proof.
  intros Ho Hrs Hio Hsb.
  destruct (stands_before_fields r t p r' Ho Hsb) as (_ & _ & _ & _ & Hrs' & _).
  rewrite turn_unfold, (record_offset_uint64 r Ho), (RPR_stands_before r _ t p r' Ho Hsb).
  destruct (Z.ltb_spec (physical_offset r) (initial_offset_ r)); [lia|].
  rewrite Hrs', Hrs. now destruct (t =? kMiddleType), (t =? kLastType).
Qed.

(** A record that starts before the initial offset is passed over, and
    ends the resyncing. *)
Lemma turn_record_before r l t p r' :
  offsets_ok r -> physical_offset r < initial_offset_ r ->
  stands_before r t p r' -> in_fragmented_record l = false ->
  turn r l = Some (inr (set_fragment l [], set_resyncing_ r' false)).
Proof.
  intros Ho Hio Hsb Hin.
  rewrite turn_unfold, (RPR_stands_before r _ t p r' Ho Hsb).
  destruct (Z.ltb_spec (physical_offset r) (initial_offset_ r)); [|lia].
  destruct (resyncing_ r') eqn:Hrs; eval_tests; unfold ReadRecord_switch; eval_tests;
    cbn [set_fragment in_fragmented_record]; rewrite Hin; [reflexivity|].
  now rewrite (set_resyncing_same r' false Hrs).
Qed.

Lemma turn_inr_progress r l l' r' :
  turn r l = Some (inr (l', r')) -> (unread r' < unread r)%nat.
Proof.
  intros H.
  destruct (ReadRecord_turn_progress r l) as (x & Hx & Hp).
  rewrite H in Hx. inversion Hx; subst x. exact Hp.
Qed.

(** *** The loop of [ReadRecord] *)

Lemma returns_loop r l ret :
  returns r l ret -> forall fuel, (unread r < fuel)%nat -> loop fuel r l = Some ret.
Proof.
  induction 1 as [r l ret H|r l l' r' ret H _ IH]; intros fuel Hf;
    (destruct fuel as [|fuel]; [lia|]); rewrite loop_S, H; [reflexivity|].
  apply IH. pose proof (turn_inr_progress _ _ _ _ H). lia.
Qed.

Lemma ReadRecord_returns r record0 scratch0 b l r' :
  initial_offset_ r <= last_record_offset_ r ->
  returns r new_locals (b, l, r') ->
  ReadRecord crc32c_Value crc32c_Unmask r record0 scratch0
  = Some (b, record l, scratch l, r').
Proof.
  intros Hl H. unfold ReadRecord, ReadRecord_from.
  destruct (Z.ltb_spec (last_record_offset_ r) (initial_offset_ r)); [lia|].
  cbn [negb]. fold new_locals.
  rewrite (returns_loop _ _ _ H); [reflexivity|]. unfold unread. lia.
Qed.

Lemma ReadRecord_skip_returns r r0 record0 scratch0 b l r' :
  last_record_offset_ r < initial_offset_ r ->
  SkipToInitialBlock r = (true, r0) ->
  returns r0 new_locals (b, l, r') ->
  ReadRecord crc32c_Value crc32c_Unmask r record0 scratch0
  = Some (b, record l, scratch l, r').
Proof.
  intros Hl Hs H. unfold ReadRecord, ReadRecord_from.
  destruct (Z.ltb_spec (last_record_offset_ r) (initial_offset_ r)); [|lia].
  rewrite Hs. cbn [negb]. fold new_locals.
  rewrite (returns_loop _ _ _ H); [reflexivity|].
  pose proof (unread_SkipToInitialBlock r) as Hu. rewrite Hs in Hu. cbn [snd] in Hu.
  unfold unread in *. lia.
Qed.

Lemma record_offset_le_physical r : record_offset r <= physical_offset r.
Proof.
  unfold physical_offset, record_offset. pose proof (slen_nonneg (buffer_ r)).
  destruct (_ <? _); lia.
Qed.

(** The reader after a record still stands at or after the initial
    offset. *)
Lemma stands_before_next r t p r' :
  offsets_ok r -> resyncing_ r = false -> initial_offset_ r <= physical_offset r ->
  stands_before r t p r' ->
  offsets_ok r' /\ resyncing_ r' = false /\
  initial_offset_ r' + kHeaderSize + slen p <= physical_offset r' /\
  record_offset r' = physical_offset r + kHeaderSize + slen p /\
  reporter_ r' = reporter_ r /\ initial_offset_ r' = initial_offset_ r.
Proof.
  intros Ho Hrs Hio Hsb.
  destruct (stands_before_fields r t p r' Ho Hsb) as (Ho' & Hro & _ & Hrep & Hrs' & Hi & _).
  pose proof (record_offset_le_physical r').
  split; [exact Ho'|]. split; [congruence|]. split; [lia|].
  split; [exact Hro|]. split; assumption.
Qed.

(** The MIDDLE fragments and the LAST one complete the record that the
    locals hold. *)
Lemma returns_fragments r acc result r' :
  fragments_from r acc result r' ->
  forall l, offsets_ok r -> resyncing_ r = false ->
    initial_offset_ r <= physical_offset r ->
    in_fragmented_record l = true -> scratch l = acc ->
    exists l',
      returns r l (true, l', set_last_record_offset_ r' (prospective_record_offset l)) /\
      record l' = result /\ scratch l' = result.
Proof.
  induction 1 as [r acc payload r' Hsb|r acc payload r1 result r' Hsb _ IH];
    intros l Ho Hrs Hio Hin Hacc.
  - eexists. split.
    + apply returns_now. rewrite (turn_record r l kLastType payload r' Ho Hrs Hio Hsb).
      unfold ReadRecord_switch. eval_tests.
      cbn [set_fragment in_fragmented_record scratch fragment prospective_record_offset
           record].
      rewrite Hin. cbn [negb]. reflexivity.
    + cbn [record scratch]. rewrite Hacc. split; reflexivity.
  - destruct (stands_before_next r _ _ _ Ho Hrs Hio Hsb) as (Ho1 & Hrs1 & Hio1 & _).
    pose proof (slen_nonneg payload).
    destruct (IH {| record := record l; scratch := scratch l ++ payload;
                    in_fragmented_record := true;
                    prospective_record_offset := prospective_record_offset l;
                    fragment := payload |})
      as (l' & Hret & H1 & H2); try assumption; try reflexivity.
    + unfold kHeaderSize in *. lia.
    + cbn [scratch]. now rewrite Hacc.
    + exists l'. split; [|split; assumption].
      eapply returns_later; [|exact Hret].
      rewrite (turn_record r l kMiddleType payload r1 Ho Hrs Hio Hsb).
      unfold ReadRecord_switch. eval_tests.
      cbn [set_fragment in_fragmented_record scratch fragment prospective_record_offset
           record].
      rewrite Hin. cbn [negb]. reflexivity.
Qed.

Lemma logical_record_cases r result r' :
  logical_record r result r' <->
  exists second payload r2,
    stands_before r second payload r2 /\
    ((second = kFullType /\ result = payload /\ r' = r2) \/
     (second = kFirstType /\ fragments_from r2 payload result r')).
Proof.
  split.
  - intros [H|(payload & r2 & H1 & H2)].
    + exists kFullType, result, r'. split; [exact H|left; auto].
    + exists kFirstType, payload, r2. split; [exact H1|right; auto].
  - intros (second & payload & r2 & H & [(-> & -> & ->)|(-> & Hf)]).
    + left. exact H.
    + right. exists payload, r2. split; assumption.
Qed.

(** A FULL record, or a FIRST fragment and those that follow it, read
    with any locals: the record is returned; what the locals hold of
    another record is given up, and reported when it is not empty. *)
Lemma returns_logical_record r l second payload r2 result r' :
  offsets_ok r -> resyncing_ r = false ->
  initial_offset_ r <= physical_offset r ->
  (in_fragmented_record l = true ->
   initial_offset_ r + slen (scratch l) <= physical_offset r) ->
  stands_before r second payload r2 ->
  (second = kFullType /\ result = payload /\ r' = r2) \/
  (second = kFirstType /\ fragments_from r2 payload result r') ->
  let reporter :=
    if in_fragmented_record l && negb (slen (scratch l) =? 0)
    then told (reporter_ r) (slen (scratch l))
           (if second =? kFullType then "partial record without end(1)"
            else "partial record without end(2)")
    else reporter_ r in
  exists l',
    returns r l (true, l',
                 set_last_record_offset_ (set_reporter_ r' reporter) (record_offset r)) /\
    record l' = result /\
    (second = kFullType -> scratch l' = []) /\
    (second = kFirstType -> scratch l' = result).
Proof.
  intros Ho Hrs Hio Hsc Hsb Hcase reporter.
  destruct (stands_before_next r _ _ _ Ho Hrs Hio Hsb) as (Ho2 & Hrs2 & Hio2 & Hro2 & Hrep2 & Hi2).
  pose proof (slen_nonneg payload) as Hp0. pose proof (slen_nonneg (scratch l)) as Hs0.
  pose proof (record_offset_le_physical r2) as Hle2.
  assert (Hreport : forall msg,
            in_fragmented_record l = true ->
            ReportCorruption r2 (slen (scratch l)) msg
            = set_reporter_ r2 (told (reporter_ r) (slen (scratch l)) msg)).
  { intros msg Hin. rewrite ReportCorruption_set, reporter_ReportCorruption, Hrep2;
      [reflexivity| |].
    - destruct Ho2 as (H1 & _). specialize (Hsc Hin).
      unfold record_offset, kHeaderSize in *. lia.
    - destruct Ho2 as (_ & H2 & H3). pose proof (slen_nonneg (data (file_ r2))).
      pose proof (slen_nonneg (buffer_ r2)). lia. }
  assert (Hquiet : r2 = set_reporter_ r2 (reporter_ r))
    by (now rewrite <- Hrep2, set_reporter_same).
  pose proof (turn_record r l second payload r2 Ho Hrs Hio Hsb) as Hturn.
  destruct Hcase as [(-> & -> & ->)|(-> & Hfr)].
  - (* FULL *)
    unfold ReadRecord_switch in Hturn. revert Hturn. eval_tests.
    cbn [set_fragment in_fragmented_record scratch fragment prospective_record_offset
         record].
    intros Hturn. subst reporter. eval_tests.
    destruct (in_fragmented_record l) eqn:Hin; cbn [andb] in *.
    + destruct (Z.eqb_spec (slen (scratch l)) 0) as [Hz|Hnz]; cbn [negb] in *.
      * rewrite <- Hrep2, set_reporter_same.
        eexists. split; [apply returns_now; exact Hturn|].
        cbn [record scratch fragment].
        split; [reflexivity|split; [reflexivity|intros E; discriminate E]].
      * rewrite Hreport in Hturn by reflexivity.
        eexists. split; [apply returns_now; exact Hturn|].
        cbn [record scratch fragment].
        split; [reflexivity|split; [reflexivity|intros E; discriminate E]].
    + rewrite <- Hrep2, set_reporter_same.
      eexists. split; [apply returns_now; exact Hturn|].
      cbn [record scratch fragment].
      split; [reflexivity|split; [reflexivity|intros E; discriminate E]].
  - (* FIRST *)
    unfold ReadRecord_switch in Hturn. revert Hturn. eval_tests.
    cbn [set_fragment in_fragmented_record scratch fragment prospective_record_offset
         record].
    intros Hturn. subst reporter. eval_tests.
    set (x := if in_fragmented_record l && negb (slen (scratch l) =? 0)
              then told (reporter_ r) (slen (scratch l)) "partial record without end(2)"
              else reporter_ r).
    assert (Hreader : (if in_fragmented_record l
                       then if slen (scratch l) =? 0 then r2
                            else ReportCorruption r2 (slen (scratch l))
                                   "partial record without end(2)"
                       else r2) = set_reporter_ r2 x).
    { subst x. destruct (in_fragmented_record l) eqn:Hin; cbn [andb]; [|exact Hquiet].
      destruct (Z.eqb_spec (slen (scratch l)) 0); cbn [negb]; [exact Hquiet|].
      now apply Hreport. }
    rewrite Hreader in Hturn.
    destruct (returns_fragments (set_reporter_ r2 x) payload result (set_reporter_ r' x)
                (fragments_from_set_reporter _ _ _ _ x Hfr)
                {| record := record l; scratch := payload; in_fragmented_record := true;
                   prospective_record_offset := record_offset r; fragment := payload |})
      as (l' & Hret & H1 & H2); try reflexivity.
    + exact Ho2.
    + exact Hrs2.
    + unfold physical_offset, record_offset in *. simpl_reader. unfold kHeaderSize in *. lia.
    + exists l'. split; [|split; [exact H1|split; [discriminate|intros _; exact H2]]].
      eapply returns_later; [exact Hturn|exact Hret].
Qed.

(** C10: an empty FIRST fragment, at the tail of a block or elsewhere,
    followed by a FULL record or by a FIRST fragment with its MIDDLE
    and LAST ones, each at the head of the buffer or of the next block.
    ReadRecord gives the first fragment up and returns the record that
    follows; it reports nothing when the fragment given up is empty,
    and "partial record without end" with the size of the fragment when
    it is not.  LastRecordOffset is the offset at which the reader
    stood after the fragment given up. *)
Theorem C10_partial_record_without_end
    r record0 scratch0 first r1 second payload r2 result r' :
  offsets_ok r -> resyncing_ r = false ->
  initial_offset_ r <= last_record_offset_ r ->
  initial_offset_ r <= record_offset r ->
  stands_before r kFirstType first r1 ->
  stands_before r1 second payload r2 ->
  (second = kFullType /\ result = payload /\ r' = r2) \/
  (second = kFirstType /\ fragments_from r2 payload result r') ->
  let reporter :=
    if slen first =? 0 then reporter_ r
    else told (reporter_ r) (slen first)
           (if second =? kFullType then "partial record without end(1)"
            else "partial record without end(2)") in
  exists scratch,
    ReadRecord crc32c_Value crc32c_Unmask r record0 scratch0
    = Some (true, result, scratch,
            set_last_record_offset_ (set_reporter_ r' reporter) (record_offset r1)) /\
    (second = kFullType -> scratch = []) /\
    (second = kFirstType -> scratch = result).
Proof.
  intros Ho Hrs Hlast Hio Hsb1 Hsb2 Hcase reporter.
  pose proof (record_offset_le_physical r) as Hle.
  destruct (stands_before_next r _ _ _ Ho Hrs ltac:(lia) Hsb1)
    as (Ho1 & Hrs1 & Hio1 & Hro1 & Hrep1 & Hi1).
  pose proof (slen_nonneg first) as Hf0.
  set (l1 := {| record := []; scratch := first; in_fragmented_record := true;
                prospective_record_offset := record_offset r; fragment := first |}).
  destruct (returns_logical_record r1 l1 second payload r2 result r' Ho1 Hrs1)
    as (l' & Hret & Hrec & Hs1 & Hs2); try assumption.
  - unfold kHeaderSize in *. lia.
  - intros _. cbn [l1 scratch]. unfold kHeaderSize in *. lia.
  - exists (scratch l'). split; [|split; assumption].
    rewrite <- Hrec.
    assert (Hrp : reporter
                  = (if in_fragmented_record l1 && negb (slen (scratch l1) =? 0)
                     then told (reporter_ r1) (slen (scratch l1))
                            (if second =? kFullType then "partial record without end(1)"
                             else "partial record without end(2)")
                     else reporter_ r1)).
    { subst reporter. cbn [l1 in_fragmented_record scratch andb]. rewrite Hrep1.
      now destruct (slen first =? 0). }
    rewrite Hrp.
    apply (ReadRecord_returns r record0 scratch0 true l' _ Hlast).
    eapply returns_later; [|exact Hret].
    rewrite (turn_record r new_locals kFirstType first r1 Ho Hrs ltac:(lia) Hsb1).
    reflexivity.
Qed.

(** C8: a whole record of a type that is none of FULL, FIRST, MIDDLE
    and LAST, at or after the initial offset.  The type 5 is the value
    [kEof] of the reader: ReadRecord returns false on it and reports
    nothing, and what follows in the log is not read.  The type 6 is the
    value [kBadRecord]: the record is passed over without a report.  A
    record of any other type is reported as "unknown record type" with
    the size of its payload, and passed over; in both cases the record
    that follows is returned. *)
Theorem C8_record_types_5_and_6 r record0 scratch0 type payload r1 :
  offsets_ok r -> resyncing_ r = false ->
  initial_offset_ r <= last_record_offset_ r ->
  initial_offset_ r <= record_offset r ->
  stands_before r type payload r1 ->
  type <> kFullType -> type <> kFirstType -> type <> kMiddleType -> type <> kLastType ->
  (type = kEof ->
   ReadRecord crc32c_Value crc32c_Unmask r record0 scratch0 = Some (false, [], [], r1) /\
   reports r1 = reports r) /\
  (type <> kEof ->
   forall result r', logical_record r1 result r' ->
     let reporter :=
       if type =? kBadRecord then reporter_ r
       else told (reporter_ r) (slen payload) (unknown_record_type type) in
     exists scratch,
       ReadRecord crc32c_Value crc32c_Unmask r record0 scratch0
       = Some (true, result, scratch,
               set_last_record_offset_ (set_reporter_ r' reporter) (record_offset r1))).
Proof.
  intros Ho Hrs Hlast Hio Hsb H1 H2 H3 H4.
  pose proof (record_offset_le_physical r) as Hle.
  destruct (stands_before_next r _ _ _ Ho Hrs ltac:(lia) Hsb)
    as (Ho1 & Hrs1 & Hio1 & Hro1 & Hrep1 & Hi1).
  pose proof (slen_nonneg payload) as Hp0.
  pose proof (turn_record r new_locals type payload r1 Ho Hrs ltac:(lia) Hsb) as Hturn.
  unfold ReadRecord_switch in Hturn.
  destruct (Z.eqb_spec type kFullType); [contradiction|].
  destruct (Z.eqb_spec type kFirstType); [contradiction|].
  destruct (Z.eqb_spec type kMiddleType); [contradiction|].
  destruct (Z.eqb_spec type kLastType); [contradiction|].
  cbn [new_locals set_fragment in_fragmented_record scratch fragment
       prospective_record_offset record] in Hturn.
  split.
  - intros ->. revert Hturn. eval_tests. intros Hturn. split.
    + rewrite (ReadRecord_returns r record0 scratch0 _ _ _ Hlast
                 (returns_now _ _ _ _ _ Hturn)).
      reflexivity.
    + unfold reports. now rewrite Hrep1.
  - intros Hne result r' Hlog reporter.
    destruct (Z.eqb_spec type kEof); [contradiction|].
    apply logical_record_cases in Hlog. destruct Hlog as (second & p2 & r2 & Hsb2 & Hcase).
    assert (Hcont : forall l x,
              in_fragmented_record l = false ->
              turn r new_locals = Some (inr (l, set_reporter_ r1 x)) ->
              exists scratch,
                ReadRecord crc32c_Value crc32c_Unmask r record0 scratch0
                = Some (true, result, scratch,
                        set_last_record_offset_ (set_reporter_ r' x) (record_offset r1))).
    { intros l x Hin Ht.
      assert (Hcase' : (second = kFullType /\ result = p2 /\ set_reporter_ r' x = set_reporter_ r2 x) \/
                       (second = kFirstType /\
                        fragments_from (set_reporter_ r2 x) p2 result (set_reporter_ r' x))).
      { destruct Hcase as [(-> & -> & ->)|(-> & Hf)]; [left; auto|right].
        split; [reflexivity|]. now apply fragments_from_set_reporter. }
      destruct (returns_logical_record (set_reporter_ r1 x) l second p2
                  (set_reporter_ r2 x) result (set_reporter_ r' x))
        as (l' & Hret & Hrec & _); try assumption.
      - unfold physical_offset, record_offset in *. simpl_reader.
        unfold kHeaderSize in *. lia.
      - intros E. rewrite Hin in E. discriminate E.
      - now apply stands_before_set_reporter.
      - rewrite Hin in Hret. cbn [andb] in Hret. simpl_reader_in Hret.
        exists (scratch l'). rewrite <- Hrec.
        replace (set_last_record_offset_ (set_reporter_ r' x) (record_offset r1))
          with (set_last_record_offset_ (set_reporter_ (set_reporter_ r' x) x)
                  (record_offset (set_reporter_ r1 x))) by reflexivity.
        apply (ReadRecord_returns r record0 scratch0 true l' _ Hlast).
        eapply returns_later; [exact Ht|exact Hret]. }
    subst reporter. destruct (Z.eqb_spec type kBadRecord) as [->|Hnb].
    + revert Hturn. eval_tests. intros Hturn.
      eapply Hcont; [|rewrite Hturn, <- Hrep1, set_reporter_same; reflexivity].
      reflexivity.
    + assert (Hu : uint64 (slen payload + 0) = slen payload).
      { rewrite Z.add_0_r. apply uint64_small.
        pose proof (slen_nonneg (data (file_ r1))).
        pose proof (slen_nonneg (buffer_ r1)) as Hb1.
        destruct Ho1 as (_ & Hb1' & He1). pose proof Ho as (Hi00 & _).
        unfold record_offset, kHeaderSize in *. lia. }
      rewrite Hu in Hturn.
      rewrite ReportCorruption_set, reporter_ReportCorruption, Hrep1 in Hturn.
      * eapply Hcont; [|exact Hturn]. reflexivity.
      * destruct Ho1 as (Hi0 & _). unfold record_offset, kHeaderSize in *. lia.
      * destruct Ho1 as (_ & Hb & He). pose proof (slen_nonneg (data (file_ r1))).
        pose proof (slen_nonneg (buffer_ r1)). lia.
Qed.

(** A record read after a report, or after none: the locals hold no
    fragment. *)
Lemma returns_record_told r1 x l result r' :
  offsets_ok r1 -> resyncing_ r1 = false ->
  initial_offset_ r1 <= physical_offset r1 ->
  in_fragmented_record l = false ->
  logical_record r1 result r' ->
  exists l',
    returns (set_reporter_ r1 x) l
      (true, l', set_last_record_offset_ (set_reporter_ r' x) (record_offset r1)) /\
    record l' = result /\ (scratch l' = [] \/ scratch l' = result).
Proof.
  intros Ho Hrs Hio Hin Hlog.
  apply logical_record_cases in Hlog. destruct Hlog as (second & p2 & r2 & Hsb2 & Hcase).
  assert (Hcase' : (second = kFullType /\ result = p2 /\
                    set_reporter_ r' x = set_reporter_ r2 x) \/
                   (second = kFirstType /\
                    fragments_from (set_reporter_ r2 x) p2 result (set_reporter_ r' x))).
  { destruct Hcase as [(-> & -> & ->)|(-> & Hf)]; [left; auto|right].
    split; [reflexivity|]. now apply fragments_from_set_reporter. }
  destruct (returns_logical_record (set_reporter_ r1 x) l second p2
              (set_reporter_ r2 x) result (set_reporter_ r' x))
    as (l' & Hret & Hrec & Hs1 & Hs2); try assumption.
  - intros E. rewrite Hin in E. discriminate E.
  - now apply stands_before_set_reporter.
  - rewrite Hin in Hret. cbn [andb] in Hret. simpl_reader_in Hret.
    exists l'. split; [exact Hret|]. split; [exact Hrec|].
    destruct Hcase as [(E & _)|(E & _)]; [left|right]; auto.
Qed.

(** *** The tail of the file *)

Lemma turn_kEof r l frag r1 :
  RPR r (fragment l) = Some (kEof, frag, r1) ->
  exists l' r2, turn r l = Some (inl (false, l', r2)) /\
    record l' = record l /\
    scratch l' = (if in_fragmented_record l then [] else scratch l) /\
    reporter_ r2 = reporter_ r1.
Proof.
  intros H. unfold ReadRecord_turn. rewrite H.
  destruct (resyncing_ r1); eval_tests; unfold ReadRecord_switch; eval_tests;
    cbn [in_fragmented_record scratch record];
    destruct (in_fragmented_record l); eexists _, _;
    (split; [reflexivity|]); repeat split; reflexivity.
Qed.

(** At the tail the loop of [ReadRecord] returns false in one turn,
    whatever its locals, and reports nothing; the fragments that the
    locals hold are given up. *)
Lemma turn_at_tail r l :
  at_tail r ->
  exists l' r', turn r l = Some (inl (false, l', r')) /\
    record l' = record l /\
    scratch l' = (if in_fragmented_record l then [] else scratch l) /\
    reporter_ r' = reporter_ r.
Proof.
  intros [(He & Ht)|(He & Hb & Hf & Hs & Ht)].
  - destruct (turn_kEof r l _ _ (RPR_tail_eof r (fragment l) He Ht))
      as (l' & r2 & H1 & H2 & H3 & H4).
    exists l', r2. repeat split; assumption.
  - destruct (RPR_tail_read r (fragment l) Hb He Hf Hs Ht) as (r1 & Hr & Hrep).
    destruct (turn_kEof r l _ _ Hr) as (l' & r2 & H1 & H2 & H3 & H4).
    exists l', r2. repeat split; try assumption. congruence.
Qed.

Lemma returns_fragments_then_tail r :
  fragments_then_tail r ->
  forall l, offsets_ok r -> resyncing_ r = false ->
    initial_offset_ r <= physical_offset r ->
    in_fragmented_record l = true ->
    exists l' r', returns r l (false, l', r') /\
      record l' = record l /\ scratch l' = [] /\ reporter_ r' = reporter_ r.
Proof.
  induction 1 as [r Ht|r payload r1 Hsb _ IH]; intros l Ho Hrs Hio Hin.
  - destruct (turn_at_tail r l Ht) as (l' & r' & H1 & H2 & H3 & H4).
    rewrite Hin in H3. exists l', r'. split; [now apply returns_now|]. auto.
  - destruct (stands_before_next r _ _ _ Ho Hrs Hio Hsb)
      as (Ho1 & Hrs1 & Hio1 & _ & Hrep1 & _).
    pose proof (slen_nonneg payload).
    destruct (IH {| record := record l; scratch := scratch l ++ payload;
                    in_fragmented_record := true;
                    prospective_record_offset := prospective_record_offset l;
                    fragment := payload |})
      as (l' & r' & Hret & H1 & H2 & H3); try assumption; try reflexivity.
    + unfold kHeaderSize in *. lia.
    + exists l', r'. split; [|split; [exact H1|split; [exact H2|congruence]]].
      eapply returns_later; [|exact Hret].
      rewrite (turn_record r l kMiddleType payload r1 Ho Hrs Hio Hsb).
      unfold ReadRecord_switch. eval_tests.
      cbn [set_fragment in_fragmented_record scratch fragment prospective_record_offset
           record].
      rewrite Hin. cbn [negb]. reflexivity.
Qed.

(** C7 (as amended): a tail of the file that is a truncated record
    header (fewer than 7 bytes), or, in a final block shorter than
    32 KiB, a header whose stored length exceeds the bytes that remain.
    A call of ReadRecord that starts at the tail, or before a FIRST
    fragment and MIDDLE fragments that are followed by the tail,
    returns false with an empty record and reports nothing.  Whenever
    the loop of ReadRecord comes to the tail, with whatever locals, it
    returns false without a report and gives up the fragments that it
    holds. *)
Theorem C7_truncated_tail r record0 scratch0 :
  failing (file_ r) = false ->
  (eof_ r = true /\ truncated (buffer_ r)) \/
  (eof_ r = false /\ slen (buffer_ r) < kHeaderSize /\
   slen (data (file_ r)) < kBlockSize /\ truncated (data (file_ r)) /\
   initial_offset_ r <= last_record_offset_ r) \/
  (offsets_ok r /\ resyncing_ r = false /\
   initial_offset_ r <= last_record_offset_ r /\
   initial_offset_ r <= record_offset r /\
   exists first r1, stands_before r kFirstType first r1 /\ fragments_then_tail r1) ->
  (exists r',
     ReadRecord crc32c_Value crc32c_Unmask r record0 scratch0
       = Some (false, [], [], r') /\
     reports r' = reports r) /\
  (at_tail r ->
   forall l fuel, (0 < fuel)%nat ->
   exists l' r',
     loop fuel r l = Some (false, l', r') /\
     record l' = record l /\
     scratch l' = (if in_fragmented_record l then [] else scratch l) /\
     reports r' = reports r).
Proof.
  intros Hf Htail. split.
  - destruct Htail as [(He & Ht)|[(He & Hb & Hs & Ht & Hl)|(Ho & Hrs & Hl & Hio & first & r1 & Hsb & Hft)]].
    + (* the tail is in the buffer *)
      assert (Hskip : exists r0,
                (if last_record_offset_ r <? initial_offset_ r
                 then SkipToInitialBlock r else (true, r)) = (true, r0) /\
                reporter_ r0 = reporter_ r /\ eof_ r0 = true /\ buffer_ r0 = buffer_ r).
      { destruct (last_record_offset_ r <? initial_offset_ r).
        - destruct (SkipToInitialBlock_ok r Hf) as (r0 & -> & Hb0 & He0 & Hr0 & _).
          exists r0. repeat split; congruence.
        - exists r. repeat split; assumption. }
      destruct Hskip as (r0 & Hs0 & Hr0 & He0 & Hb0).
      assert (Ht0 : at_tail r0) by (left; split; [exact He0|now rewrite Hb0]).
      destruct (turn_at_tail r0 new_locals Ht0) as (l' & r' & H1 & H2 & H3 & H4).
      exists r'. unfold ReadRecord, ReadRecord_from. rewrite Hs0. cbn [negb].
      fold new_locals. rewrite loop_S, H1, H2, H3. split; [reflexivity|].
      unfold reports. now rewrite H4, Hr0.
    + (* the tail is all that is left to read *)
      assert (Ht0 : at_tail r) by (right; repeat split; assumption).
      destruct (turn_at_tail r new_locals Ht0) as (l' & r' & H1 & H2 & H3 & H4).
      exists r'.
      rewrite (ReadRecord_returns r record0 scratch0 _ _ _ Hl (returns_now _ _ _ _ _ H1)).
      rewrite H2, H3. split; [reflexivity|]. unfold reports. now rewrite H4.
    + (* a record without end *)
      pose proof (record_offset_le_physical r) as Hle.
      destruct (stands_before_next r _ _ _ Ho Hrs ltac:(lia) Hsb)
        as (Ho1 & Hrs1 & Hio1 & _ & Hrep1 & _).
      pose proof (slen_nonneg first).
      destruct (returns_fragments_then_tail r1 Hft
                  {| record := []; scratch := first; in_fragmented_record := true;
                     prospective_record_offset := record_offset r; fragment := first |})
        as (l' & r' & Hret & H1 & H2 & H3); try assumption; try reflexivity.
      { unfold kHeaderSize in *. lia. }
      exists r'.
      assert (Hall : returns r new_locals (false, l', r')).
      { eapply returns_later; [|exact Hret].
        rewrite (turn_record r new_locals kFirstType first r1 Ho Hrs ltac:(lia) Hsb).
        reflexivity. }
      rewrite (ReadRecord_returns r record0 scratch0 _ _ _ Hl Hall), H1, H2.
      split; [reflexivity|]. unfold reports. now rewrite H3, Hrep1.
  - intros Ht l fuel Hfuel. destruct fuel as [|fuel]; [lia|].
    destruct (turn_at_tail r l Ht) as (l' & r' & H1 & H2 & H3 & H4).
    exists l', r'. rewrite loop_S, H1. repeat split; try assumption.
    unfold reports. now rewrite H4.
Qed.

(** *** After a seek *)

(** While the reader resyncs, what is left of a record that started
    before it is passed over, nothing being reported, returned or
    kept. *)
Lemma returns_leftover r r1 :
  leftover_from r r1 ->
  forall l, offsets_ok r -> resyncing_ r = true ->
    initial_offset_ r <= physical_offset r ->
    (exists frag, forall ret, returns r1 (set_fragment l frag) ret -> returns r l ret) /\
    offsets_ok r1 /\ resyncing_ r1 = false /\
    initial_offset_ r1 <= physical_offset r1 /\
    reporter_ r1 = reporter_ r /\ initial_offset_ r1 = initial_offset_ r.
Proof.
  induction 1 as [r payload r' Hsb|r payload r1 r' Hsb _ IH]; intros l Ho Hrs Hio.
  - destruct (stands_before_fields r _ _ _ Ho Hsb) as (Ho' & Hro & _ & Hrep & _ & Hi & _).
    pose proof (record_offset_le_physical r') as Hle. pose proof (slen_nonneg payload).
    split; [|split; [exact Ho'|split; [reflexivity|split; [|split; [exact Hrep|exact Hi]]]]].
    + exists payload. intros ret Hret. eapply returns_later; [|exact Hret].
      rewrite (turn_record_resyncing r l kLastType payload r' Ho Hrs Hio Hsb).
      eval_tests. reflexivity.
    + change (initial_offset_ r' <= physical_offset r').
      unfold kHeaderSize in *. lia.
  - destruct (stands_before_fields r _ _ _ Ho Hsb) as (Ho1 & Hro & _ & Hrep & Hrs1 & Hi & _).
    pose proof (record_offset_le_physical r1) as Hle. pose proof (slen_nonneg payload).
    destruct (IH (set_fragment l payload) Ho1)
      as ((frag & Hfrag) & Ho' & Hrs' & Hio' & Hrep' & Hi'); [congruence| |].
    + unfold kHeaderSize in *. lia.
    + split; [|split; [exact Ho'|split; [exact Hrs'|split; [exact Hio'|split; congruence]]]].
      exists frag. intros ret Hret. eapply returns_later; [|apply Hfrag; exact Hret].
      rewrite (turn_record_resyncing r l kMiddleType payload r1 Ho Hrs Hio Hsb).
      eval_tests. reflexivity.
Qed.

(** C9: a reader made with [initial_offset > 0] starts in resyncing
    mode and, in its first call of ReadRecord, skips to the start of the
    block that holds [initial_offset], or to the start of the next
    block when [initial_offset] lies more than [kBlockSize - 6] bytes
    into its block, that is in its last five bytes.  When the reader
    then stands at or after [initial_offset], the MIDDLE fragments and
    the LAST fragment that it finds first are passed over silently and
    the record that follows them is returned.  When it stands before
    [initial_offset], the record at the start of the block, of whatever
    type, also the FIRST or a MIDDLE fragment of a record that started
    before the seek point, is passed over and ends the resyncing: a
    LAST fragment that follows at or after [initial_offset] is reported
    as "missing start of fragmented record(2)". *)
Theorem C9_seek_and_resync f reporter checksum initial_offset record0 scratch0 :
  failing f = false -> slen (data f) < 2 ^ 64 ->
  0 < initial_offset -> initial_offset + kBlockSize < 2 ^ 64 ->
  let r := NewReader f reporter checksum initial_offset in
  let block := initial_offset - initial_offset mod kBlockSize in
  let start :=
    if initial_offset mod kBlockSize >? kBlockSize - 6
    then block + kBlockSize else block in
  let r0 := snd (SkipToInitialBlock r) in
  (resyncing_ r = true /\ fst (SkipToInitialBlock r) = true /\
   end_of_buffer_offset_ r0 = start /\
   data (file_ r0) = skipn (Z.to_nat start) (data f) /\
   buffer_ r0 = [] /\ resyncing_ r0 = true /\ reporter_ r0 = reporter) /\
  (initial_offset <= start ->
   forall r1 result r',
     leftover_from r0 r1 -> logical_record r1 result r' ->
     exists scratch,
       ReadRecord crc32c_Value crc32c_Unmask r record0 scratch0
       = Some (true, result, scratch,
               set_last_record_offset_ (set_reporter_ r' reporter) (record_offset r1))) /\
  (start < initial_offset ->
   forall type p0 r1 p r2 result r',
     stands_before r0 type p0 r1 ->
     initial_offset <= physical_offset r1 ->
     stands_before (set_resyncing_ r1 false) kLastType p r2 ->
     logical_record r2 result r' ->
     exists scratch,
       ReadRecord crc32c_Value crc32c_Unmask r record0 scratch0
       = Some (true, result, scratch,
               set_last_record_offset_
                 (set_reporter_ r'
                    (told reporter (slen p) "missing start of fragmented record(2)"))
                 (record_offset r2))).
Proof.
  intros Hf Hsize H0 Hmax r block start r0.
  assert (Hoib : 0 <= initial_offset mod kBlockSize < kBlockSize)
    by (apply Z.mod_pos_bound; reflexivity).
  assert (Hle : initial_offset mod kBlockSize <= initial_offset)
    by (apply Z.mod_le; [lia|reflexivity]).
  assert (Hstart : 0 <= start < 2 ^ 64 /\ start <= initial_offset + kBlockSize).
  { subst start block. destruct (_ >? _); lia. }
  assert (Hskip : SkipToInitialBlock r
                  = (true, r0) /\
                  end_of_buffer_offset_ r0 = start /\
                  data (file_ r0) = skipn (Z.to_nat start) (data f) /\
                  failing (file_ r0) = false /\
                  buffer_ r0 = [] /\ eof_ r0 = false /\ resyncing_ r0 = true /\
                  reporter_ r0 = reporter /\ initial_offset_ r0 = initial_offset /\
                  checksum_ r0 = checksum).
  { subst r0. unfold SkipToInitialBlock, r, NewReader. simpl_reader.
    fold block.
    assert (Hb : uint64 block = block) by (apply uint64_small; subst block; lia).
    rewrite Hb.
    assert (Hs : (if initial_offset mod kBlockSize >? kBlockSize - 6
                  then uint64 (block + kBlockSize) else block) = start).
    { subst start. destruct (_ >? _); [|reflexivity]. apply uint64_small. subst block. lia. }
    rewrite Hs.
    assert (Hres : (initial_offset >? 0) = true) by (apply Z.gtb_lt; lia).
    destruct (Z.gtb_spec start 0) as [Hpos|Hzero].
    - unfold file_Skip. simpl_reader. rewrite Hf. cbn [Status_ok negb snd].
      simpl_reader. cbn [data failing]. repeat split; assumption.
    - assert (Hz : start = 0) by lia. cbn [snd]. simpl_reader. rewrite Hz.
      repeat split; assumption. }
  destruct Hskip as (Hsk & He0 & Hd0 & Hf0 & Hb0 & Heof0 & Hrs0 & Hrep0 & Hi0 & Hc0).
  assert (Ho0 : offsets_ok r0).
  { unfold offsets_ok. rewrite Hi0, Hb0, He0, Hd0. unfold slen at 1. cbn [length].
    split; [lia|]. split; [lia|].
    pose proof (slen_nonneg (skipn (Z.to_nat start) (data f))).
    destruct (Z.le_gt_cases start (slen (data f))).
    - rewrite slen_skipn by lia. lia.
    - unfold slen. rewrite length_skipn. unfold slen in *. lia. }
  assert (Hp0 : physical_offset r0 = start).
  { unfold physical_offset. rewrite Hb0. exact He0. }
  assert (Hlast : last_record_offset_ r < initial_offset_ r)
    by (unfold r, NewReader; simpl_reader; lia).
  split; [|split].
  - rewrite Hsk. cbn [fst]. repeat split; try assumption.
    unfold r, NewReader. simpl_reader. apply Z.gtb_lt. lia.
  - intros Hge r1 result r' Hleft Hlog.
    destruct (returns_leftover r0 r1 Hleft new_locals Ho0 Hrs0)
      as ((frag & Hfrag) & Ho1 & Hrs1 & Hio1 & Hrep1 & Hi1); [rewrite Hi0, Hp0; lia|].
    destruct (returns_record_told r1 reporter (set_fragment new_locals frag) result r'
                Ho1 Hrs1 Hio1 eq_refl Hlog) as (l' & Hret & Hrec & _).
    assert (E : set_reporter_ r1 reporter = r1)
      by (rewrite <- Hrep0, <- Hrep1; apply set_reporter_same).
    rewrite E in Hret.
    exists (scratch l'). rewrite <- Hrec.
    apply (ReadRecord_skip_returns r r0 record0 scratch0 true l' _ Hlast Hsk).
    apply Hfrag. exact Hret.
  - intros Hlt type p0 r1 p r2 result r' Hsb1 Hio1 Hsb2 Hlog.
    destruct (stands_before_fields r0 _ _ _ Ho0 Hsb1)
      as (Ho1 & Hro1 & _ & Hrep1 & _ & Hi1 & _).
    set (ra := set_resyncing_ r1 false) in *.
    assert (Hoa : offsets_ok ra) by exact Ho1.
    assert (Hioa : initial_offset_ ra <= physical_offset ra).
    { change (initial_offset_ r1 <= physical_offset r1). rewrite Hi1, Hi0. exact Hio1. }
    destruct (stands_before_next ra _ _ _ Hoa eq_refl Hioa Hsb2)
      as (Ho2 & Hrs2 & Hio2 & Hro2 & Hrep2 & Hi2).
    pose proof (slen_nonneg p) as Hpp.
    assert (Hturn2 : turn ra (set_fragment new_locals [])
                     = Some (inr (set_fragment new_locals p,
                                  set_reporter_ r2
                                    (told reporter (slen p)
                                       "missing start of fragmented record(2)")))).
    { rewrite (turn_record ra _ kLastType p r2 Hoa eq_refl Hioa Hsb2).
      unfold ReadRecord_switch. eval_tests.
      cbn [new_locals set_fragment in_fragmented_record scratch fragment
           prospective_record_offset record negb].
      rewrite ReportCorruption_set, reporter_ReportCorruption.
      - rewrite Hrep2. change (reporter_ ra) with (reporter_ r1).
        now rewrite Hrep1, Hrep0.
      - destruct Ho2 as (Hi0' & _). unfold record_offset, kHeaderSize in *. lia.
      - destruct Ho2 as (_ & Hb & He). pose proof (slen_nonneg (data (file_ r2))).
        pose proof (slen_nonneg (buffer_ r2)). lia. }
    destruct (returns_record_told r2
                (told reporter (slen p) "missing start of fragmented record(2)")
                (set_fragment new_locals p) result r' Ho2 Hrs2)
      as (l' & Hret & Hrec & _); [unfold kHeaderSize in *; lia|reflexivity|exact Hlog|].
    exists (scratch l'). rewrite <- Hrec.
    apply (ReadRecord_skip_returns r r0 record0 scratch0 true l' _ Hlast Hsk).
    eapply returns_later.
    { apply (turn_record_before r0 new_locals type p0 r1 Ho0); [|exact Hsb1|reflexivity].
      rewrite Hp0, Hi0. exact Hlt. }
    eapply returns_later; [exact Hturn2|exact Hret].
Qed.

(** The report of a drop that lies at or after [initial_offset_]. *)
Lemma reports_ReportCorruption_in r calls bytes reason :
  reporter_ r = Some calls ->
  initial_offset_ r <= end_of_buffer_offset_ r - slen (buffer_ r) - bytes < 2 ^ 64 ->
  0 <= initial_offset_ r ->
  reports (ReportCorruption r bytes reason) = calls ++ [(bytes, Corruption reason)] /\
  reporter_ (ReportCorruption r bytes reason) = Some (calls ++ [(bytes, Corruption reason)]) /\
  buffer_ (ReportCorruption r bytes reason) = buffer_ r /\
  last_record_offset_ (ReportCorruption r bytes reason) = last_record_offset_ r /\
  end_of_buffer_offset_ (ReportCorruption r bytes reason) = end_of_buffer_offset_ r /\
  initial_offset_ (ReportCorruption r bytes reason) = initial_offset_ r /\
  resyncing_ (ReportCorruption r bytes reason) = resyncing_ r /\
  file_ (ReportCorruption r bytes reason) = file_ r.
Proof.
  intros Hr Hb H0. unfold ReportCorruption, ReportDrop, reports. rewrite Hr.
  rewrite uint64_small by lia. rewrite Z.geb_leb.
  destruct (Z.leb_spec (initial_offset_ r) (end_of_buffer_offset_ r - slen (buffer_ r) - bytes));
    [|lia].
  cbn. repeat split.
Qed.

Lemma reports_ReportCorruption_out r calls bytes reason :
  reporter_ r = Some calls ->
  0 <= end_of_buffer_offset_ r - slen (buffer_ r) - bytes < initial_offset_ r ->
  initial_offset_ r < 2 ^ 64 ->
  ReportCorruption r bytes reason = r.
Proof.
  intros Hr Hb H0. unfold ReportCorruption, ReportDrop. rewrite Hr.
  rewrite uint64_small by lia. rewrite Z.geb_leb.
  destruct (Z.leb_spec (initial_offset_ r) (end_of_buffer_offset_ r - slen (buffer_ r) - bytes));
    [lia|reflexivity].
Qed.

Lemma ReportCorruption_fields r bytes reason :
  buffer_ (ReportCorruption r bytes reason) = buffer_ r /\
  end_of_buffer_offset_ (ReportCorruption r bytes reason) = end_of_buffer_offset_ r /\
  initial_offset_ (ReportCorruption r bytes reason) = initial_offset_ r /\
  resyncing_ (ReportCorruption r bytes reason) = resyncing_ r /\
  file_ (ReportCorruption r bytes reason) = file_ r /\
  eof_ (ReportCorruption r bytes reason) = eof_ r /\
  checksum_ (ReportCorruption r bytes reason) = checksum_ r.
Proof.
  unfold ReportCorruption, ReportDrop. destruct (reporter_ r); [destruct (_ >=? _)|];
    repeat split.
Qed.

(** A turn of [ReadRecord] on a bad physical record. *)
Lemma turn_bad r l frag r1 :
  RPR r (fragment l) = Some (kBadRecord, frag, r1) ->
  exists l' r2,
    turn r l = Some (inr (l', r2)) /\
    (in_fragmented_record l = false -> reports r2 = reports r1) /\
    (exists extra, reports r2 = reports r1 ++ extra).
Proof.
  intros H. rewrite turn_unfold, H.
  assert (Hsw : forall r0 off, reports r0 = reports r1 ->
    exists l' r2,
      ReadRecord_switch r0 (set_fragment l frag) off kBadRecord = inr (l', r2) /\
      (in_fragmented_record l = false -> reports r2 = reports r1) /\
      (exists extra, reports r2 = reports r1 ++ extra)).
  { intros r0 off Hr0. unfold ReadRecord_switch. eval_tests.
    cbn [set_fragment in_fragmented_record scratch].
    destruct (in_fragmented_record l).
    - eexists _, _. split; [reflexivity|]. split; [discriminate|].
      destruct (reports_ReportDrop r0 (slen (scratch l))
                  (Corruption "error in middle of record")) as [E|E];
        unfold ReportCorruption; rewrite E, Hr0; [exists []|eexists];
        [now rewrite app_nil_r|reflexivity].
    - eexists _, _. split; [reflexivity|]. split; [intros _; exact Hr0|].
      exists []. now rewrite app_nil_r. }
  destruct (resyncing_ r1); eval_tests.
  - destruct (Hsw (set_resyncing_ r1 false)
                (uint64 (end_of_buffer_offset_ r - slen (buffer_ r))) eq_refl)
      as (l' & r2 & -> & H1 & H2).
    eexists _, _. split; [reflexivity|]. split; assumption.
  - destruct (Hsw r1 (uint64 (end_of_buffer_offset_ r - slen (buffer_ r))) eq_refl)
      as (l' & r2 & -> & H1 & H2).
    eexists _, _. split; [reflexivity|]. split; assumption.
Qed.

(** A turn of the loop of [ReadRecord] on a record at the head of the
    buffer that is bad for [reason]: it is reported to the reporter if
    and only if it starts at or after [initial_offset_], and the loop
    goes on to the next record. *)
Lemma bad_record_is_reported_iff r l calls reason dropped :
  offsets_ok r -> fragments_ok r l ->
  reporter_ r = Some calls ->
  bad_record crc32c_Value crc32c_Unmask (checksum_ r) r l reason dropped ->
  exists l' r',
    turn r l = Some (inr (l', r')) /\
    if initial_offset_ r <=? record_offset r
    then exists extra, reports r' = calls ++ (dropped, Corruption reason) :: extra
    else reports r' = calls.
Proof.
  intros Ho Hfr Hrep Hbad.
  pose proof Ho as (Hio & Hbo & Heo).
  pose proof (slen_nonneg (scratch l)) as Hs0.
  pose proof (slen_nonneg (data (file_ r))) as Hd0.
  pose proof (slen_nonneg (buffer_ r)) as Hb0.
  assert (Hbefore : record_offset r < initial_offset_ r -> in_fragmented_record l = false).
  { intros Hlt. destruct (in_fragmented_record l) eqn:E; [|reflexivity].
    destruct (Hfr E) as (_ & Hsc). lia. }
  assert (Hclear : forall reason0,
    exists l' r',
      (RPR r (fragment l)
         = Some (kBadRecord, fragment l,
                 ReportCorruption (set_buffer_ r []) (slen (buffer_ r)) reason0) ->
       turn r l = Some (inr (l', r')) /\
       if initial_offset_ r <=? record_offset r
       then exists extra,
              reports r' = calls ++ (slen (buffer_ r), Corruption reason0) :: extra
       else reports r' = calls)).
  { intros reason0.
    destruct (RPR r (fragment l)) as [[[t f] r1]|] eqn:ERPR.
    2:{ exists l, r. intros E. discriminate E. }
    destruct (Z.eq_dec t kBadRecord) as [->|Hnb].
    2:{ exists l, r. intros E. injection E as E1 _ _. contradiction. }
    destruct (turn_bad r l f r1 ERPR) as (l' & r2 & Ht & Hnf & extra & Hex).
    exists l', r2. intros E. injection E as _ Er1. split; [exact Ht|].
    destruct (Z.leb_spec (initial_offset_ r) (record_offset r)) as [Hle|Hlt].
    - destruct (reports_ReportCorruption_in (set_buffer_ r []) calls (slen (buffer_ r)) reason0)
        as (H1 & _); [exact Hrep| |simpl_reader; lia|].
      { simpl_reader. unfold record_offset, slen in *. cbn [length]. lia. }
      exists extra. rewrite Hex, Er1, H1. now rewrite <- app_assoc.
    - rewrite Hnf by (apply Hbefore; lia). rewrite Er1.
      rewrite (reports_ReportCorruption_out (set_buffer_ r []) calls); try exact Hrep.
      + unfold reports. simpl_reader. now rewrite Hrep.
      + simpl_reader. unfold record_offset, slen in *. cbn [length]. lia.
      + simpl_reader. lia. }
  destruct Hbad as [Hk Hlen Heof|Hlen Hz Hcs Hcrc|type payload rest Hrec Hun].
  - destruct (Hclear "bad record length"%string) as (l' & r' & Hc).
    exists l', r'. apply Hc.
    rewrite RPR_parse by exact Hk. now rewrite parse_bad_length.
  - destruct (Hclear "checksum mismatch"%string) as (l' & r' & Hc).
    exists l', r'. apply Hc.
    pose proof (header_length_range (buffer_ r)).
    rewrite RPR_parse by lia. now rewrite parse_checksum.
  - clear Hclear.
    destruct (record_at_sizes _ _ _ _ _ Hrec) as (Hk & Hpl & Hrl).
    pose proof (slen_nonneg payload) as Hp0. pose proof (slen_nonneg rest) as Hr0.
    pose proof (RPR_record_at r (fragment l) type payload rest Ho Hrec) as HRPR.
    destruct (Z.ltb_spec (record_offset r) (initial_offset_ r)) as [Hlt|Hge].
    + destruct (turn_bad r l [] _ HRPR) as (l' & r2 & Ht & Hnf & _).
      exists l', r2. split; [exact Ht|].
      destruct (Z.leb_spec (initial_offset_ r) (record_offset r)); [lia|].
      rewrite Hnf by (apply Hbefore; lia). unfold reports. simpl_reader. now rewrite Hrep.
    + destruct (Z.leb_spec (initial_offset_ r) (record_offset r)); [|lia].
      rewrite turn_unfold, HRPR.
      destruct Hun as (H1 & H2 & H3 & H4 & H5 & H6 & H7).
      assert (Hsw : forall r0 off,
        reporter_ r0 = Some calls -> buffer_ r0 = rest ->
        end_of_buffer_offset_ r0 = end_of_buffer_offset_ r ->
        initial_offset_ r0 = initial_offset_ r ->
        exists l' r',
          ReadRecord_switch r0 (set_fragment l payload) off type = inr (l', r') /\
          exists extra, reports r' = calls ++ ((slen payload + (if in_fragmented_record l then slen (scratch l) else 0)), Corruption (unknown_record_type type)) :: extra).
      { intros r0 off Hrp0 Hb0' He0 Hi0. unfold ReadRecord_switch.
        destruct (Z.eqb_spec type kFullType); [contradiction|].
        destruct (Z.eqb_spec type kFirstType); [contradiction|].
        destruct (Z.eqb_spec type kMiddleType); [contradiction|].
        destruct (Z.eqb_spec type kLastType); [contradiction|].
        destruct (Z.eqb_spec type kEof); [contradiction|].
        destruct (Z.eqb_spec type kBadRecord); [contradiction|].
        cbn [set_fragment in_fragmented_record scratch fragment].
        eexists _, _. split; [reflexivity|]. exists [].
        assert (Hsum : 0 <= (slen payload + (if in_fragmented_record l then slen (scratch l) else 0)) <= slen payload + slen (scratch l)).
        { destruct (in_fragmented_record l); lia. }
        assert (Hsc : initial_offset_ r + ((slen payload + (if in_fragmented_record l then slen (scratch l) else 0)) - slen payload)
                      <= record_offset r).
        { destruct (in_fragmented_record l) eqn:E.
          - destruct (Hfr E) as (_ & Hsc). lia.
          - lia. }
        rewrite uint64_small by (unfold record_offset, kHeaderSize in *; lia).
        destruct (reports_ReportCorruption_in r0 calls ((slen payload + (if in_fragmented_record l then slen (scratch l) else 0)))
                    (unknown_record_type type)) as (Hrp & _); [exact Hrp0| |lia|exact Hrp].
        rewrite Hb0', He0, Hi0. unfold record_offset, kHeaderSize in *. lia. }
      destruct (resyncing_ (set_buffer_ r rest)).
      * destruct (Z.eqb_spec type kMiddleType); [contradiction|].
        destruct (Z.eqb_spec type kLastType); [contradiction|].
        destruct (Hsw (set_resyncing_ (set_buffer_ r rest) false)
                    (uint64 (end_of_buffer_offset_ r - slen (buffer_ r))))
          as (l' & r' & -> & Hr'); try reflexivity; [exact Hrep|].
        eexists _, _. split; [reflexivity|exact Hr'].
      * destruct (Hsw (set_buffer_ r rest)
                    (uint64 (end_of_buffer_offset_ r - slen (buffer_ r))))
          as (l' & r' & -> & Hr'); try reflexivity; [exact Hrep|].
        eexists _, _. split; [reflexivity|exact Hr'].
Qed.


End Facts.

Ltac concrete_record_at :=
  unfold record_at, checksum_ok;
  split; [vm_compute; discriminate|];
  split; [vm_compute; reflexivity|];
  split; [intros [E _]; vm_compute in E; discriminate E|];
  split; [intros E; vm_compute in E; discriminate E|];
  split; vm_compute; reflexivity.

Lemma C7_truncated_tail_witness :
  let r := reader_on (physical_record kFirstType (bytes_of_string "abc")
                      ++ physical_header kFullType 100 ++ repeat 0 10) 0 in
  exists r',
    ReadRecord no_crc no_unmask r [] [] = Some (false, [], [], r') /\
    reports r' = [].
Proof.
  intros r.
  set (rest := physical_header kFullType 100 ++ repeat 0 10).
  set (r1 := set_buffer_ (after_read r) rest).
  assert (Ho : offsets_ok r) by (unfold offsets_ok; vm_compute; repeat split; congruence).
  assert (H1 : stands_before no_crc no_unmask r kFirstType (bytes_of_string "abc") r1).
  { apply (before_in_next_block no_crc no_unmask r kFirstType _ r1 rest);
      [vm_compute; reflexivity|reflexivity|reflexivity| |reflexivity].
    concrete_record_at. }
  assert (H2 : fragments_then_tail no_crc no_unmask r1).
  { apply tail_reached. left. split; [vm_compute; reflexivity|].
    right. vm_compute. reflexivity. }
  destruct (C7_truncated_tail no_crc no_unmask r [] [] eq_refl) as [Hret _].
  - right. right. split; [exact Ho|]. split; [reflexivity|].
    split; [vm_compute; discriminate|]. split; [vm_compute; discriminate|].
    exists (bytes_of_string "abc"), r1. split; [exact H1|exact H2].
  - exact Hret.
Defined.

(** C7, as stated, fails when the final block is a whole block of
    32768 bytes: the second call of ReadRecord finds a header that
    announces 100 bytes where 10 remain, returns false and reports 17
    dropped bytes to the reporter. *)
Lemma C7_full_final_block_is_reported :
  slen overrun_in_full_block = kBlockSize /\
  outcome (nth_ReadRecord 1 (reader_on overrun_in_full_block 0)) =
  Some (false, [], [(17, Corruption "bad record length")]).
Proof. split; vm_compute; reflexivity. Qed.

Lemma C8_record_types_5_and_6_witness :
  let r := reader_on (physical_record 7 (bytes_of_string "hello")
                      ++ physical_record kFullType (bytes_of_string "x")) 0 in
  exists scratch r',
    ReadRecord no_crc no_unmask r [] [] = Some (true, bytes_of_string "x", scratch, r') /\
    reports r' = [(5, Corruption "unknown record type 7")].
Proof.
  intros r.
  set (rest := physical_record kFullType (bytes_of_string "x")).
  set (r1 := set_buffer_ (after_read r) rest).
  assert (Ho : offsets_ok r) by (unfold offsets_ok; vm_compute; repeat split; congruence).
  assert (H1 : stands_before no_crc no_unmask r 7 (bytes_of_string "hello") r1).
  { apply (before_in_next_block no_crc no_unmask r 7 _ r1 rest);
      [vm_compute; reflexivity|reflexivity|reflexivity| |reflexivity].
    concrete_record_at. }
  assert (H2 : logical_record no_crc no_unmask r1 (bytes_of_string "x") (set_buffer_ r1 [])).
  { left. apply (before_in_buffer no_crc no_unmask r1 kFullType _ _ []); [|reflexivity].
    concrete_record_at. }
  destruct (C8_record_types_5_and_6 no_crc no_unmask r [] [] 7 (bytes_of_string "hello") r1
              Ho eq_refl ltac:(vm_compute; discriminate) ltac:(vm_compute; discriminate) H1
              ltac:(discriminate) ltac:(discriminate) ltac:(discriminate) ltac:(discriminate))
    as [_ Hother].
  destruct (Hother ltac:(discriminate) _ _ H2) as (scratch & Hret).
  exists scratch. eexists. split; [exact Hret|]. vm_compute. reflexivity.
Defined.

(** A record of type 5 or 6, the values [kEof] and [kBadRecord] of the
    reader, is not reported as a record of unknown type: type 5 ends
    the reading, the record that follows being lost, and type 6 is
    passed over; type 7 is reported. *)
Lemma record_types_5_and_6_are_not_reported :
  let file t := physical_record t (bytes_of_string "hello")
                ++ physical_record kFullType (bytes_of_string "x") in
  outcome (nth_ReadRecord 0 (reader_on (file 5) 0)) = Some (false, [], []) /\
  outcome (nth_ReadRecord 0 (reader_on (file 6) 0)) = Some (true, bytes_of_string "x", []) /\
  outcome (nth_ReadRecord 0 (reader_on (file 7) 0)) =
    Some (true, bytes_of_string "x", [(5, Corruption "unknown record type 7")]).
Proof. repeat split; vm_compute; reflexivity. Qed.

Lemma C10_partial_record_without_end_witness :
  let file := physical_record kFullType (repeat 65 (Z.to_nat 32754))
              ++ physical_record kFirstType []
              ++ physical_record kFullType (bytes_of_string "x") in
  let r := {| file_ := {| data := physical_record kFullType (bytes_of_string "x");
                          failing := false |};
              reporter_ := Some []; checksum_ := false;
              buffer_ := physical_record kFirstType []; eof_ := false;
              last_record_offset_ := 0; end_of_buffer_offset_ := 32768;
              initial_offset_ := 0; resyncing_ := false |} in
  reader_of (ReadRecord no_crc no_unmask (reader_on file 0) [] []) = Some r /\
  exists scratch r',
    ReadRecord no_crc no_unmask r [] [] = Some (true, bytes_of_string "x", scratch, r') /\
    reports r' = [] /\ LastRecordOffset r' = 32768.
Proof.
  intros file r. split; [vm_compute; reflexivity|].
  set (r1 := set_buffer_ r []).
  set (r2 := set_buffer_ (after_read r1) []).
  assert (Ho : offsets_ok r) by (unfold offsets_ok; vm_compute; repeat split; congruence).
  assert (H1 : stands_before no_crc no_unmask r kFirstType [] r1).
  { apply (before_in_buffer no_crc no_unmask r kFirstType _ _ []); [|reflexivity].
    concrete_record_at. }
  assert (H2 : stands_before no_crc no_unmask r1 kFullType (bytes_of_string "x") r2).
  { apply (before_in_next_block no_crc no_unmask r1 kFullType _ r2 []);
      [vm_compute; reflexivity|reflexivity|reflexivity| |reflexivity].
    concrete_record_at. }
  destruct (C10_partial_record_without_end no_crc no_unmask r [] [] [] r1 kFullType
              (bytes_of_string "x") r2 (bytes_of_string "x") r2 Ho eq_refl
              ltac:(vm_compute; discriminate) ltac:(vm_compute; discriminate) H1 H2
              (or_introl (conj eq_refl (conj eq_refl eq_refl))))
    as (scratch & Hret & _).
  exists scratch. eexists. split; [exact Hret|]. split; vm_compute; reflexivity.
Defined.

(** The scenario of the comment in ReadRecord, read from the start: an
    empty FIRST record, then a FULL record, which is returned without
    any report. *)
Lemma empty_first_then_full :
  outcome (nth_ReadRecord 0
             (reader_on (physical_record kFirstType []
                         ++ physical_record kFullType (bytes_of_string "x")) 0))
  = Some (true, bytes_of_string "x", []).
Proof. vm_compute. reflexivity. Qed.

Lemma C9_seek_and_resync_witness :
  let f := {| data := two_blocks; failing := false |} in
  exists scratch r',
    ReadRecord no_crc no_unmask (NewReader f (Some []) false 32768) [] []
    = Some (true, bytes_of_string "x", scratch, r') /\
    reports r' = [] /\ LastRecordOffset r' = 32776.
Proof.
  intros f.
  set (r := NewReader f (Some []) false 32768).
  set (r0 := snd (SkipToInitialBlock r)).
  set (rest := physical_record kFullType (bytes_of_string "x")).
  set (ra := set_buffer_ (after_read r0) rest).
  set (r1 := set_resyncing_ ra false).
  assert (H1 : leftover_from no_crc no_unmask r0 r1).
  { apply (leftover_from_last no_crc no_unmask r0 (bytes_of_string "y") ra).
    apply (before_in_next_block no_crc no_unmask r0 kLastType _ ra rest);
      [vm_compute; reflexivity|vm_compute; reflexivity|vm_compute; reflexivity|
      |reflexivity].
    concrete_record_at. }
  assert (H2 : logical_record no_crc no_unmask r1 (bytes_of_string "x") (set_buffer_ r1 [])).
  { left. apply (before_in_buffer no_crc no_unmask r1 kFullType _ _ []); [|reflexivity].
    concrete_record_at. }
  destruct (C9_seek_and_resync no_crc no_unmask f (Some []) false 32768 [] [] eq_refl
              ltac:(vm_compute; reflexivity) ltac:(lia) ltac:(vm_compute; reflexivity))
    as (_ & Hresync & _).
  destruct (Hresync ltac:(vm_compute; discriminate) r1 _ _ H1 H2) as (scratch & Hret).
  exists scratch. eexists. split; [exact Hret|]. split; vm_compute; reflexivity.
Defined.

(** C9, against the claim: the reader is made with the initial offset
    1; the record that starts at offset 0 has its FIRST fragment in the
    first block and its LAST fragment at the start of the second.  The
    FIRST fragment, which starts before the initial offset, ends the
    resyncing, and the LAST fragment is reported as a corruption
    instead of being skipped silently.  With the initial offset at the
    start of the second block it is skipped silently. *)
Lemma C9_leftover_last_fragment_is_reported :
  outcome (nth_ReadRecord 0 (reader_on two_blocks 1)) =
    Some (true, bytes_of_string "x",
          [(1, Corruption "missing start of fragmented record(2)")]) /\
  outcome (nth_ReadRecord 0 (reader_on two_blocks 32768)) =
    Some (true, bytes_of_string "x", []).
Proof. split; vm_compute; reflexivity. Qed.

(** A reader made with the initial offset at the start of the second
    or of the third block of [three_blocks] reads the MIDDLE fragment,
    which fills the second block, and the LAST one, passes them over
    silently and returns the record that follows. *)
Lemma leftover_middle_and_last_fragments_are_skipped :
  outcome (nth_ReadRecord 0 (reader_on three_blocks 32768)) =
    Some (true, bytes_of_string "x", []) /\
  outcome (nth_ReadRecord 0 (reader_on three_blocks 65536)) =
    Some (true, bytes_of_string "x", []) /\
  outcome (nth_ReadRecord 1 (reader_on three_blocks 32768)) = Some (false, [], []).
Proof. repeat split; vm_compute; reflexivity. Qed.

(** [SkipToInitialBlock] takes the seven last offsets of a block apart:
    from the offset 32763 on it goes to the next block, at the offset
    32762, six bytes before the end, it stays in the block. *)
Lemma SkipToInitialBlock_near_the_end_of_a_block :
  end_of_buffer_offset_ (snd (SkipToInitialBlock (reader_on [] 32762))) = 0 /\
  end_of_buffer_offset_ (snd (SkipToInitialBlock (reader_on [] 32763))) = 32768.
Proof. split; vm_compute; reflexivity. Qed.

End LogReaderFacts.

Module TableBuilderFacts.
Import Coding TableBuilder.

Section Facts.
Variable crc32c_Value : list Z -> Z.
Variable crc32c_Extend : Z -> list Z -> Z.
Variable crc32c_Mask : Z -> Z.
Variable Snappy_Compress : list Z -> option (list Z).
Variable FilterPolicy : Type.
Variable FilterPolicy_Name : FilterPolicy -> list Z.
Variable FilterBlockBuilder : Type.
Variable NewFilterBlockBuilder : FilterPolicy -> FilterBlockBuilder.
Variable FilterBlockBuilder_StartBlock : FilterBlockBuilder -> Z -> FilterBlockBuilder.
Variable FilterBlockBuilder_AddKey : FilterBlockBuilder -> list Z -> FilterBlockBuilder.
Variable FilterBlockBuilder_Finish : FilterBlockBuilder -> list Z * FilterBlockBuilder.

Abbreviation Rep := (Rep FilterPolicy FilterBlockBuilder).
Abbreviation Add := (Add crc32c_Value crc32c_Extend crc32c_Mask Snappy_Compress
                   FilterPolicy FilterBlockBuilder FilterBlockBuilder_StartBlock
                   FilterBlockBuilder_AddKey).
Abbreviation Flush := (Flush crc32c_Value crc32c_Extend crc32c_Mask Snappy_Compress
                     FilterPolicy FilterBlockBuilder FilterBlockBuilder_StartBlock).
Abbreviation Finish := (Finish crc32c_Value crc32c_Extend crc32c_Mask Snappy_Compress
                      FilterPolicy FilterPolicy_Name FilterBlockBuilder
                      FilterBlockBuilder_StartBlock FilterBlockBuilder_Finish).
Abbreviation add_all := (add_all crc32c_Value crc32c_Extend crc32c_Mask Snappy_Compress
                       FilterPolicy FilterBlockBuilder FilterBlockBuilder_StartBlock
                       FilterBlockBuilder_AddKey).
Abbreviation NewTableBuilder := (NewTableBuilder FilterPolicy FilterBlockBuilder
                               NewFilterBlockBuilder FilterBlockBuilder_StartBlock).

(** [Flush] writes nothing while the data block is empty. *)
Lemma Flush_empty (r : Rep) :
  BlockBuilder_empty (data_block _ _ r) = true -> Flush r = r.
Proof.
  intros He. unfold TableBuilder.Flush. rewrite He. now destruct (negb _).
Qed.

(** [Add] on a builder without error, pending index entry and filter,
    the data block of which is empty: only [last_key] and [num_entries]
    change. *)
Lemma Add_changes_only_last_key (r : Rep) key value :
  status _ _ r = OK -> pending_index_entry _ _ r = false ->
  filter_block _ _ r = None ->
  BlockBuilder_empty (data_block _ _ r) = true ->
  Add r key value =
  set_num_entries _ _ (set_last_key _ _ r key) (num_entries _ _ r + 1).
Proof.
  intros Hs Hp Hf He. unfold TableBuilder.Add, ok. rewrite Hs, Hp, Hf.
  cbn [Status_ok negb].
  match goal with |- (if ?c then _ else _) = _ => destruct c end; [|reflexivity].
  apply Flush_empty. exact He.
Qed.

Ltac simpl_rep :=
  cbn [options index_block_options file offset status data_block index_block
       last_key num_entries closed filter_block pending_index_entry pending_handle
       compressed_output
       set_file set_offset set_status set_data_block set_index_block set_last_key
       set_num_entries set_closed set_filter_block set_pending_index_entry
       set_pending_handle set_compressed_output] in *.

Abbreviation with_key r k n := (set_num_entries _ _ (set_last_key _ _ r k) n).
Abbreviation WriteRawBlock := (WriteRawBlock crc32c_Value crc32c_Extend crc32c_Mask
                             FilterPolicy FilterBlockBuilder).
Abbreviation WriteBlock := (WriteBlock crc32c_Value crc32c_Extend crc32c_Mask Snappy_Compress
                          FilterPolicy FilterBlockBuilder).

Lemma WriteRawBlock_with_key (r : Rep) c t k n :
  WriteRawBlock (with_key r k n) c t =
  (with_key (fst (WriteRawBlock r c t)) k n, snd (WriteRawBlock r c t)).
Proof.
  destruct r as [opt iopt f off st db ib lk ne cl fb pie ph co].
  unfold TableBuilder.WriteRawBlock, file_Append. simpl_rep.
  destruct (write_fails f); cbn [Status_ok]; simpl_rep; cbn [write_fails Status_ok];
    simpl_rep; reflexivity.
Qed.

Lemma WriteBlock_with_key (r : Rep) b k n :
  WriteBlock (with_key r k n) b =
  (with_key (fst (fst (WriteBlock r b))) k n,
   snd (fst (WriteBlock r b)), snd (WriteBlock r b)).
Proof.
  unfold TableBuilder.WriteBlock.
  destruct (BlockBuilder_Finish b) as [raw b'].
  assert (Hco : forall (r0 : Rep) c, set_compressed_output _ _ (with_key r0 k n) c
                                      = with_key (set_compressed_output _ _ r0 c) k n)
    by (intros r0 c; destruct r0; reflexivity).
  assert (Hopt : options _ _ (with_key r k n) = options _ _ r) by (destruct r; reflexivity).
  rewrite Hopt.
  destruct (compression _ (options _ _ r)).
  - rewrite WriteRawBlock_with_key.
    destruct (WriteRawBlock r raw kNoCompression) as [r1 h]. cbn [fst snd].
    now rewrite Hco.
  - destruct (Snappy_Compress raw) as [compressed|].
    + rewrite Hco. destruct (_ <? _).
      * rewrite WriteRawBlock_with_key.
        destruct (WriteRawBlock _ compressed kSnappyCompression) as [r1 h]. cbn [fst snd].
        now rewrite Hco.
      * rewrite WriteRawBlock_with_key.
        destruct (WriteRawBlock _ raw kNoCompression) as [r1 h]. cbn [fst snd].
        now rewrite Hco.
    + rewrite WriteRawBlock_with_key.
      destruct (WriteRawBlock r raw kNoCompression) as [r1 h]. cbn [fst snd].
      now rewrite Hco.
Qed.

Lemma WriteRawBlock_pending (r : Rep) c t :
  pending_index_entry _ _ (fst (WriteRawBlock r c t)) = pending_index_entry _ _ r /\
  filter_block _ _ (fst (WriteRawBlock r c t)) = filter_block _ _ r /\
  options _ _ (fst (WriteRawBlock r c t)) = options _ _ r /\
  index_block _ _ (fst (WriteRawBlock r c t)) = index_block _ _ r.
Proof.
  destruct r as [opt iopt f off st db ib lk ne cl fb pie ph co].
  unfold TableBuilder.WriteRawBlock, file_Append. simpl_rep.
  destruct (write_fails f); cbn [Status_ok]; simpl_rep; cbn [write_fails Status_ok fst];
    simpl_rep; repeat split.
Qed.

Lemma WriteBlock_pending (r : Rep) b :
  pending_index_entry _ _ (fst (fst (WriteBlock r b))) = pending_index_entry _ _ r /\
  filter_block _ _ (fst (fst (WriteBlock r b))) = filter_block _ _ r /\
  options _ _ (fst (fst (WriteBlock r b))) = options _ _ r /\
  index_block _ _ (fst (fst (WriteBlock r b))) = index_block _ _ r.
Proof.
  unfold TableBuilder.WriteBlock.
  destruct (BlockBuilder_Finish b) as [raw b'].
  assert (Hgen : forall (r0 : Rep) c t,
    pending_index_entry _ _ r0 = pending_index_entry _ _ r ->
    filter_block _ _ r0 = filter_block _ _ r ->
    options _ _ r0 = options _ _ r ->
    index_block _ _ r0 = index_block _ _ r ->
    let r1 := fst (fst (let '(r1, handle) := WriteRawBlock r0 c t in
                        (set_compressed_output _ _ r1 [], BlockBuilder_Reset b', handle))) in
    pending_index_entry _ _ r1 = pending_index_entry _ _ r /\
    filter_block _ _ r1 = filter_block _ _ r /\
    options _ _ r1 = options _ _ r /\
    index_block _ _ r1 = index_block _ _ r).
  { intros r0 c t H1 H2 H3 H4.
    destruct (WriteRawBlock_pending r0 c t) as (G1 & G2 & G3 & G4).
    destruct (WriteRawBlock r0 c t) as [r1 h]. cbn [fst snd] in *.
    destruct r1. simpl_rep. repeat split; congruence. }
  destruct (compression _ (options _ _ r)).
  - apply Hgen; reflexivity.
  - destruct (Snappy_Compress raw) as [compressed|].
    + destruct (_ <? _); apply Hgen; destruct r; reflexivity.
    + apply Hgen; reflexivity.
Qed.

Abbreviation Finish_filter_block :=
  (Finish_filter_block crc32c_Value crc32c_Extend crc32c_Mask
     FilterPolicy FilterBlockBuilder FilterBlockBuilder_Finish).
Abbreviation Finish_metaindex_block :=
  (Finish_metaindex_block crc32c_Value crc32c_Extend crc32c_Mask Snappy_Compress
     FilterPolicy FilterPolicy_Name FilterBlockBuilder).
Abbreviation Finish_index_block :=
  (Finish_index_block crc32c_Value crc32c_Extend crc32c_Mask Snappy_Compress
     FilterPolicy FilterBlockBuilder).
Abbreviation Finish_footer := (Finish_footer FilterPolicy FilterBlockBuilder).

Lemma Finish_filter_block_with_key (r : Rep) k n :
  Finish_filter_block (with_key r k n) =
  (with_key (fst (Finish_filter_block r)) k n, snd (Finish_filter_block r)).
Proof.
  unfold TableBuilder.Finish_filter_block.
  change (filter_block _ _ (with_key r k n)) with (filter_block _ _ r).
  change (ok _ _ (with_key r k n)) with (ok _ _ r).
  destruct (filter_block _ _ r) as [fb|]; [|reflexivity].
  destruct (ok _ _ r); [|reflexivity].
  destruct (FilterBlockBuilder_Finish fb) as [c fb'].
  change (set_filter_block _ _ (with_key r k n) (Some fb'))
    with (with_key (set_filter_block _ _ r (Some fb')) k n).
  apply WriteRawBlock_with_key.
Qed.

Lemma Finish_filter_block_pending (r : Rep) :
  pending_index_entry _ _ (fst (Finish_filter_block r)) = pending_index_entry _ _ r.
Proof.
  unfold TableBuilder.Finish_filter_block.
  destruct (filter_block _ _ r) as [fb|]; [|reflexivity].
  destruct (ok _ _ r); [|reflexivity].
  destruct (FilterBlockBuilder_Finish fb) as [c fb'].
  now rewrite (proj1 (WriteRawBlock_pending _ _ _)).
Qed.

Lemma Finish_metaindex_block_with_key (r : Rep) h k n :
  Finish_metaindex_block (with_key r k n) h =
  (with_key (fst (Finish_metaindex_block r h)) k n, snd (Finish_metaindex_block r h)).
Proof.
  unfold TableBuilder.Finish_metaindex_block.
  change (filter_block _ _ (with_key r k n)) with (filter_block _ _ r).
  change (options _ _ (with_key r k n)) with (options _ _ r).
  change (ok _ _ (with_key r k n)) with (ok _ _ r).
  destruct (ok _ _ r); [|reflexivity].
  rewrite WriteBlock_with_key.
  match goal with |- context [WriteBlock r ?b] =>
    destruct (WriteBlock r b) as [[r1 b1] h1] end.
  reflexivity.
Qed.

Lemma Finish_metaindex_block_pending (r : Rep) h :
  pending_index_entry _ _ (fst (Finish_metaindex_block r h)) = pending_index_entry _ _ r.
Proof.
  unfold TableBuilder.Finish_metaindex_block.
  destruct (ok _ _ r); [|reflexivity].
  match goal with |- context [WriteBlock r ?b] =>
    pose proof (proj1 (WriteBlock_pending r b)) as Hp;
    destruct (WriteBlock r b) as [[r1 b1] h1] end.
  exact Hp.
Qed.

Lemma Finish_index_block_with_key (r : Rep) k n :
  pending_index_entry _ _ r = false ->
  Finish_index_block (with_key r k n) =
  (with_key (fst (Finish_index_block r)) k n, snd (Finish_index_block r)).
Proof.
  intros Hp. unfold TableBuilder.Finish_index_block.
  change (pending_index_entry _ _ (with_key r k n)) with (pending_index_entry _ _ r).
  change (ok _ _ (with_key r k n)) with (ok _ _ r).
  rewrite Hp.
  destruct (ok _ _ r); [|reflexivity].
  change (index_block _ _ (with_key r k n)) with (index_block _ _ r).
  rewrite WriteBlock_with_key.
  destruct (WriteBlock r (index_block _ _ r)) as [[r1 b1] h1].
  reflexivity.
Qed.

Lemma Finish_footer_with_key (r : Rep) a b k n :
  Finish_footer (with_key r k n) a b = with_key (Finish_footer r a b) k n.
Proof.
  unfold TableBuilder.Finish_footer.
  change (ok _ _ (with_key r k n)) with (ok _ _ r).
  change (file _ _ (with_key r k n)) with (file _ _ r).
  destruct (ok _ _ r); [|reflexivity].
  destruct (file_Append _ _) as [s f'].
  cbn [status set_status].
  destruct (Status_ok s); reflexivity.
Qed.

(** [Finish] reads [last_key] only for a pending index entry, and never
    reads [num_entries]. *)
Lemma Finish_with_key (r : Rep) k n :
  pending_index_entry _ _ r = false ->
  BlockBuilder_empty (data_block _ _ r) = true ->
  Finish (with_key r k n) = (fst (Finish r), with_key (snd (Finish r)) k n).
Proof.
  intros Hp He. unfold TableBuilder.Finish.
  rewrite (Flush_empty (with_key r k n)) by exact He.
  rewrite (Flush_empty r) by exact He.
  change (set_closed _ _ (with_key r k n) true) with (with_key (set_closed _ _ r true) k n).
  rewrite Finish_filter_block_with_key.
  pose proof (Finish_filter_block_pending (set_closed _ _ r true)) as H1.
  destruct (Finish_filter_block (set_closed _ _ r true)) as [r1 fh]. cbn [fst snd] in *.
  rewrite Finish_metaindex_block_with_key.
  pose proof (Finish_metaindex_block_pending r1 fh) as H2.
  destruct (Finish_metaindex_block r1 fh) as [r2 mh]. cbn [fst snd] in *.
  rewrite Finish_index_block_with_key by (rewrite H2, H1; exact Hp).
  destruct (Finish_index_block r2) as [r3 ih]. cbn [fst snd].
  rewrite Finish_footer_with_key. reflexivity.
Qed.

Lemma last_cons_default {A} (l : list A) (a d : A) :
  List.last (a :: l) d = List.last l a.
Proof.
  revert a d. induction l as [|x l IH]; intros a d; [reflexivity|].
  change (List.last (x :: l) d = List.last (x :: l) a). now rewrite !IH.
Qed.

(** Every [Add] on a builder without filter policy leaves the data block
    as it was constructed. *)
Lemma add_all_fresh (opt : Options FilterPolicy) (f : WritableFile) kvs :
  let r0 := NewTableBuilder (without_filter _ opt) f in
  add_all r0 kvs =
  with_key r0 (List.last (map fst kvs) []) (Z.of_nat (length kvs)).
Proof.
  intros r0.
  assert (Hgen : forall kvs k n,
    add_all (with_key r0 k n) kvs =
    with_key r0 (List.last (map fst kvs) k) (n + Z.of_nat (length kvs))).
  { clear kvs. induction kvs as [|[key value] kvs IH]; intros k n.
    - cbn [length map List.last Z.of_nat]. now rewrite Z.add_0_r.
    - unfold TableBuilder.add_all. cbn [fold_left fst snd].
      rewrite Add_changes_only_last_key by reflexivity.
      change (add_all (with_key r0 key (n + 1)) kvs =
              with_key r0 (List.last (map fst ((key, value) :: kvs)) k)
                (n + Z.of_nat (length ((key, value) :: kvs)))).
      rewrite IH. f_equal; [f_equal|].
      + cbn [map fst]. symmetry. apply last_cons_default.
      + cbn [length]. lia. }
  exact (Hgen kvs [] 0).
Qed.

Abbreviation untouched := (untouched FilterPolicy FilterBlockBuilder).

Lemma untouched_NewTableBuilder opt f : untouched opt f (NewTableBuilder opt f).
Proof. repeat split. Qed.

Lemma untouched_Add opt f (r : Rep) key value :
  untouched opt f r ->
  untouched opt f (Add r key value) /\
  num_entries _ _ (Add r key value) = num_entries _ _ r + 1 /\
  last_key _ _ (Add r key value) = key.
Proof.
  intros (Hs & Hp & Hd & Hi & Hf & Ho).
  destruct r as [o io f0 off st db ib lk ne cl fb pie ph co].
  simpl_rep. subst.
  unfold TableBuilder.Add, ok. simpl_rep. cbn [Status_ok negb].
  destruct fb; simpl_rep; destruct (_ >=? _);
    rewrite ?Flush_empty by reflexivity; simpl_rep; repeat split.
Qed.

Lemma untouched_add_all opt f kvs (r : Rep) :
  untouched opt f r ->
  untouched opt f (add_all r kvs) /\
  num_entries _ _ (add_all r kvs) = num_entries _ _ r + Z.of_nat (length kvs).
Proof.
  revert r. induction kvs as [|[key value] kvs IH]; intros r Hr.
  - split; [exact Hr|]. cbn [length Z.of_nat add_all fold_left TableBuilder.add_all]. lia.
  - destruct (untouched_Add opt f r key value Hr) as (Hr' & Hn & _).
    destruct (IH _ Hr') as (IH1 & IH2).
    change (add_all r ((key, value) :: kvs)) with (add_all (Add r key value) kvs).
    split; [exact IH1|]. rewrite IH2, Hn. cbn [length]. lia.
Qed.

(** ** C1

    [TableBuilder::Add] never appends the pair to the data block: the
    call of [data_block.Add] is part of the comment of the line of
    [num_entries++].  After any sequence of [Add] on a new builder the
    data block is as it was constructed, nothing has been written to the
    file, and the pairs are counted only; without a filter policy
    [Finish] then writes, byte for byte, the file that it writes when
    [Add] was never called, a table without entries. *)
Theorem C1_Add_never_appends_to_the_data_block
    (opt : Options FilterPolicy) (f : WritableFile) (kvs : list (list Z * list Z)) :
  let r := add_all (NewTableBuilder opt f) kvs in
  let r0 := NewTableBuilder (without_filter _ opt) f in
  data_block _ _ r = NewBlockBuilder (block_restart_interval _ opt) /\
  BlockBuilder_empty (data_block _ _ r) = true /\
  file _ _ r = f /\
  NumEntries _ _ r = Z.of_nat (length kvs) /\
  fst (Finish (add_all r0 kvs)) = fst (Finish r0) /\
  file _ _ (snd (Finish (add_all r0 kvs))) = file _ _ (snd (Finish r0)).
Proof.
  intros r r0.
  destruct (untouched_add_all opt f kvs _ (untouched_NewTableBuilder opt f))
    as ((_ & _ & Hd & _ & Hf & _) & Hn).
  fold r in Hd, Hf, Hn.
  split; [exact Hd|]. split; [now rewrite Hd|]. split; [exact Hf|].
  split; [exact Hn|].
  unfold r0. rewrite add_all_fresh, Finish_with_key by reflexivity.
  cbn [fst snd]. split; reflexivity.
Qed.

End Facts.

(** The table built from the single pair ("k1", "v1"), without
    compression and filter policy: an empty metaindex block at offset 0,
    an index block without entry at offset 13, each with its trailer,
    and the footer.  No data block is written. *)
Example Finish_after_Add_k1_v1 crc32c_Value crc32c_Extend crc32c_Mask Snappy_Compress
    (FilterBlockBuilder : Type) StartBlock AddKey FilterBlockBuilder_Finish :
  let r0 := NewTableBuilder Empty_set FilterBlockBuilder
              (fun policy => match policy with end) StartBlock
              (plain_options Empty_set) empty_file in
  let r := Add crc32c_Value crc32c_Extend crc32c_Mask Snappy_Compress Empty_set
             FilterBlockBuilder StartBlock AddKey r0
             (bytes_of_string "k1") (bytes_of_string "v1") in
  let empty_block := [0; 0; 0; 0; 1; 0; 0; 0] in
  let trailer :=
    1 :: EncodeFixed32 (crc32c_Mask (crc32c_Extend (crc32c_Value empty_block) [1])) in
  Finish crc32c_Value crc32c_Extend crc32c_Mask Snappy_Compress Empty_set (fun _ => [])
    FilterBlockBuilder StartBlock FilterBlockBuilder_Finish r
  = (OK,
     {| options := plain_options Empty_set;
        index_block_options := index_block_options _ _ r0;
        file := {| contents :=
                     empty_block ++ trailer ++ empty_block ++ trailer ++
                     [0; 8; 13; 8] ++ repeat 0 36 ++
                     [0x57; 0xfb; 0x80; 0x8b; 0x24; 0x75; 0x47; 0xdb];
                   write_fails := false |};
        offset := 74;
        status := OK;
        data_block := NewBlockBuilder 16;
        index_block := NewBlockBuilder 1;
        last_key := bytes_of_string "k1";
        num_entries := 1;
        closed := true;
        filter_block := None;
        pending_index_entry := false;
        pending_handle := null_handle;
        compressed_output := [] |}).
Proof. vm_compute. reflexivity. Qed.
End TableBuilderFacts.

Module CacheFacts.
Import Cache.

(** *** Lists *)

Lemma unlink_Permutation e l l' : unlink e l = Some l' -> l ≡ₚ e :: l'.
Proof.
  revert l'. induction l as [|x l IH]; intros l' H; [discriminate|].
  cbn [unlink] in H. destruct (decide (x = e)) as [->|Hne].
  - now inversion H.
  - destruct (unlink e l) as [l''|]; [|discriminate]. inversion H; subst.
    rewrite (IH l'' eq_refl). apply Permutation_swap.
Qed.

Lemma unlink_elem e l : e ∈ l -> exists l', unlink e l = Some l'.
Proof.
  induction l as [|x l IH]; intros H; [now apply elem_of_nil in H|].
  cbn [unlink]. destruct (decide (x = e)) as [->|Hne]; [eauto|].
  apply elem_of_cons in H as [->|H]; [congruence|].
  destruct (IH H) as [l' ->]. eauto.
Qed.

Lemma unlink_head e l : unlink e (e :: l) = Some l.
Proof. cbn [unlink]. now rewrite decide_True. Qed.

Lemma unlink_NoDup e l l' :
  unlink e l = Some l' -> NoDup l ->
  NoDup l' /\ (e ∉ l') /\ (forall p, p ∈ l' <-> p ∈ l /\ p <> e).
Proof.
  intros H Hl. apply unlink_Permutation in H.
  rewrite H in Hl. apply NoDup_cons in Hl as [Hn Hl].
  split; [exact Hl|]. split; [exact Hn|].
  intros p. rewrite H, elem_of_cons. split.
  - intros Hp. split; [now right|]. intros ->. contradiction.
  - intros [[->|Hp] Hne]; [congruence|exact Hp].
Qed.

Lemma unlink_length e l l' : unlink e l = Some l' -> length l = S (length l').
Proof. intros H. apply unlink_Permutation in H. now rewrite H. Qed.

Lemma count_app p l1 l2 : count p (l1 ++ l2) = (count p l1 + count p l2)%nat.
Proof.
  induction l1 as [|x l1 IH]; [reflexivity|].
  cbn [app count]. destruct (decide (x = p)); lia.
Qed.

Lemma count_Permutation p l1 l2 : l1 ≡ₚ l2 -> count p l1 = count p l2.
Proof.
  induction 1 as [|x l1 l2 _ IH|x y l|l1 l2 l3 _ IH1 _ IH2]; cbn [count].
  - reflexivity.
  - now rewrite IH.
  - destruct (decide (x = p)), (decide (y = p)); reflexivity.
  - congruence.
Qed.

Lemma count_notin p l : p ∉ l -> count p l = O.
Proof.
  induction l as [|x l IH]; [reflexivity|]. intros H.
  apply not_elem_of_cons in H as [Hne H]. cbn [count].
  rewrite decide_False by congruence. auto.
Qed.

Lemma count_elem p l : p ∈ l -> (1 <= count p l)%nat.
Proof.
  induction l as [|x l IH]; intros H; [now apply elem_of_nil in H|].
  cbn [count]. destruct (decide (x = p)); [lia|].
  apply elem_of_cons in H as [->|H]; [congruence|auto].
Qed.

Lemma count_NoDup p l : NoDup l -> p ∈ l -> count p l = 1%nat.
Proof.
  induction 1 as [|x l Hx Hl IH]; intros H; [now apply elem_of_nil in H|].
  cbn [count]. destruct (decide (x = p)) as [->|Hne].
  - now rewrite count_notin.
  - apply elem_of_cons in H as [->|H]; [congruence|auto].
Qed.

Lemma count_le_length p l : (count p l <= length l)%nat.
Proof.
  induction l as [|x l IH]; [reflexivity|]. cbn [count length].
  destruct (decide (x = p)); lia.
Qed.

Lemma count_unlink p e l l' :
  unlink e l = Some l' ->
  count p l = ((if decide (e = p) then 1 else 0) + count p l')%nat.
Proof.
  intros H. apply unlink_Permutation in H.
  rewrite (count_Permutation p _ _ H). cbn [count]. destruct (decide (e = p)); lia.
Qed.

(** *** The heap *)

Lemma deref_Some heap p e : deref heap p = Some e <-> heap !! p = Some (Some e).
Proof.
  unfold deref. destruct (heap !! p) as [[e'|]|]; split; intros H; congruence.
Qed.

Lemma deref_lt heap p e : deref heap p = Some e -> (p < length heap)%nat.
Proof. intros H. apply deref_Some in H. now apply lookup_lt_Some in H. Qed.

Lemma deref_store heap p e q :
  (p < length heap)%nat ->
  deref (store heap p e) q = if decide (p = q) then Some e else deref heap q.
Proof.
  intros Hp. unfold deref, store. destruct (decide (p = q)) as [->|Hne].
  - now rewrite list_lookup_insert_eq.
  - now rewrite list_lookup_insert_ne.
Qed.

Lemma deref_free heap p q :
  (p < length heap)%nat ->
  deref (free heap p) q = if decide (p = q) then None else deref heap q.
Proof.
  intros Hp. unfold deref, free. destruct (decide (p = q)) as [->|Hne].
  - now rewrite list_lookup_insert_eq.
  - now rewrite list_lookup_insert_ne.
Qed.

Lemma deref_malloc heap e q :
  deref (fst (malloc heap e)) q =
  if decide (q = length heap) then Some e else deref heap q.
Proof.
  unfold deref, malloc. cbn [fst]. destruct (decide (q = length heap)) as [->|Hne].
  - now rewrite lookup_app_r, Nat.sub_diag by lia.
  - destruct (decide (q < length heap)%nat).
    + now rewrite lookup_app_l.
    + rewrite !lookup_ge_None_2; [reflexivity|lia|].
      rewrite length_app. cbn [length]. lia.
Qed.

Lemma deref_fresh heap : deref heap (length heap) = None.
Proof. unfold deref. now rewrite lookup_ge_None_2. Qed.

Lemma total_charge_app heap1 heap2 :
  total_charge (heap1 ++ heap2) = total_charge heap1 + total_charge heap2.
Proof.
  induction heap1 as [|[e|] heap1 IH]; cbn [app total_charge]; lia.
Qed.

Lemma total_charge_insert heap p x y :
  heap !! p = Some x ->
  total_charge (<[p := y]> heap) = total_charge heap - cell_charge x + cell_charge y.
Proof.
  revert p. induction heap as [|c heap IH]; intros p H; [discriminate|].
  destruct p as [|p]; cbn in H.
  - inversion H; subst. destruct x, y; simpl; lia.
  - specialize (IH p H). destruct c; simpl in *; lia.
Qed.

Lemma total_charge_store heap p e e' :
  deref heap p = Some e ->
  total_charge (store heap p e') =
  total_charge heap - LRUHandle.charge e + LRUHandle.charge e'.
Proof.
  intros H. apply deref_Some in H. unfold store.
  now rewrite (total_charge_insert _ _ _ _ H).
Qed.

Lemma total_charge_free heap p e :
  deref heap p = Some e ->
  total_charge (free heap p) = total_charge heap - LRUHandle.charge e.
Proof.
  intros H. apply deref_Some in H. unfold free.
  rewrite (total_charge_insert _ _ _ _ H). cbn [cell_charge]. lia.
Qed.

Lemma total_charge_malloc heap e :
  total_charge (fst (malloc heap e)) = total_charge heap + LRUHandle.charge e.
Proof.
  unfold malloc. cbn [fst]. rewrite total_charge_app. cbn [total_charge]. lia.
Qed.

(** *** The hash table *)

Lemma land_pow2 h k : 0 <= k -> Z.land h (2 ^ k - 1) = h mod 2 ^ k.
Proof. intros Hk. now rewrite Z.sub_1_r, <- Z.ones_equiv, Z.land_ones. Qed.

Lemma pow2_le_31 k : 0 <= k <= 31 -> 0 < 2 ^ k <= 2 ^ 31.
Proof.
  intros Hk. split; [apply Z.pow_pos_nonneg; lia|].
  apply Z.pow_le_mono_r; lia.
Qed.

Lemma bucket_index h len k :
  0 <= k <= 31 -> len = 2 ^ k ->
  Z.land h (uint32 (len - 1)) = h mod 2 ^ k /\ 0 <= h mod 2 ^ k < len.
Proof.
  intros Hk ->. pose proof (pow2_le_31 k Hk) as Hp.
  unfold uint32. rewrite (Z.mod_small (2 ^ k - 1)) by lia.
  rewrite land_pow2 by lia. split; [reflexivity|]. apply Z.mod_pos_bound. lia.
Qed.

Lemma bucket_of_lt heap t hash :
  table_shape heap t -> (bucket_of t hash < length (list_ t))%nat.
Proof.
  intros [(k & Hk & Hlen) Hb _ _ _ _]. unfold bucket_of.
  destruct (bucket_index hash (length_ t) k) as [-> Hr]; [lia|exact Hlen|]. lia.
Qed.

Lemma elem_of_concat (l : list (list nat)) p :
  p ∈ concat l <-> exists b chain, l !! b = Some chain /\ p ∈ chain.
Proof.
  rewrite list_elem_of_In, in_concat. split.
  - intros (chain & Hc & Hp). apply list_elem_of_In, list_elem_of_lookup in Hc as [b Hb].
    exists b, chain. split; [exact Hb|]. now apply list_elem_of_In.
  - intros (b & chain & Hb & Hp). exists chain. split.
    + apply list_elem_of_In. eapply list_elem_of_lookup_2, Hb.
    + now apply list_elem_of_In.
Qed.

Lemma lookup_split {A} (l : list A) i x :
  l !! i = Some x ->
  exists l1 l2, l = l1 ++ x :: l2 /\ forall y, <[i := y]> l = l1 ++ y :: l2.
Proof.
  intros H. exists (take i l), (drop (S i) l).
  split; [symmetry; now apply take_drop_middle|].
  intros y. apply insert_take_drop. now apply lookup_lt_Some in H.
Qed.

Lemma concat_insert (l : list (list nat)) i x y :
  l !! i = Some x ->
  exists l1 l2, concat l = l1 ++ x ++ l2 /\ concat (<[i := y]> l) = l1 ++ y ++ l2.
Proof.
  intros H. destruct (lookup_split l i x H) as (l1 & l2 & H1 & H2).
  exists (concat l1), (concat l2). split.
  - rewrite H1. now rewrite concat_app.
  - rewrite H2. now rewrite concat_app.
Qed.

Lemma has_key_dec e key hash :
  negb (LRUHandle.hash e =? hash) || negb (bool_decide (key = LRUHandle.key e)) = false
  <-> has_key e key hash.
Proof.
  unfold has_key. rewrite orb_false_iff, !negb_false_iff, Z.eqb_eq, bool_decide_eq_true.
  intuition congruence.
Qed.

(** The loop of [FindPointer] stops at the first handle of the chain
    with this key and this hash, or at the end of the chain. *)
Lemma FindPointer_loop_spec heap key hash chain :
  (forall p, p ∈ chain -> deref heap p <> None) ->
  exists n, FindPointer_loop heap key hash chain = Some n /\
    match chain !! n with
    | Some p => exists e, deref heap p = Some e /\ has_key e key hash
    | None => n = length chain /\
              forall p e, p ∈ chain -> deref heap p = Some e -> ~ has_key e key hash
    end.
Proof.
  induction chain as [|p chain IH]; intros Hlive.
  - exists O. split; [reflexivity|]. split; [reflexivity|].
    intros p e Hp. now apply elem_of_nil in Hp.
  - cbn [FindPointer_loop].
    destruct (deref heap p) as [e|] eqn:He; [|exfalso; eapply Hlive; [left|exact He]].
    cbn. destruct (negb _ || negb _) eqn:Hm.
    + destruct IH as (n & -> & Hn); [intros q Hq; apply Hlive; now right|].
      exists (S n). split; [reflexivity|]. cbn.
      destruct (chain !! n) as [q|]; [exact Hn|].
      destruct Hn as [-> Hn]. split; [reflexivity|].
      intros q e' Hq Hq'. apply elem_of_cons in Hq as [->|Hq]; [|eauto].
      rewrite He in Hq'. inversion Hq'; subst e'.
      rewrite <- has_key_dec. congruence.
    + exists O. split; [reflexivity|]. cbn. exists e. split; [exact He|].
      now apply has_key_dec.
Qed.

(** [FindPointer] on a table: the bucket of the hash, and the place of
    the entry with this key and this hash in its chain. *)
Lemma FindPointer_spec heap t key hash :
  table_shape heap t ->
  exists n chain,
    FindPointer heap t key hash = Some (bucket_of t hash, n) /\
    list_ t !! bucket_of t hash = Some chain /\
    match chain !! n with
    | Some p => p ∈ entries t /\ exists e, deref heap p = Some e /\ has_key e key hash
    | None => n = length chain /\ absent heap t key hash
    end.
Proof.
  intros Ht. pose proof (bucket_of_lt heap t hash Ht) as Hlt.
  destruct (lookup_lt_is_Some_2 _ _ Hlt) as [chain Hchain].
  destruct (FindPointer_loop_spec heap key hash chain) as (n & Hn & Hspec).
  { intros p Hp. destruct (ok_chain _ _ Ht _ _ _ Hchain Hp) as (e & -> & _). discriminate. }
  exists n, chain. split; [|split; [exact Hchain|]].
  - unfold FindPointer. fold (bucket_of t hash). rewrite Hchain. cbn. now rewrite Hn.
  - destruct (chain !! n) as [p|] eqn:Hp.
    + split; [|exact Hspec]. apply elem_of_concat. exists (bucket_of t hash), chain.
      split; [exact Hchain|]. eapply list_elem_of_lookup_2, Hp.
    + destruct Hspec as [-> Hno]. split; [reflexivity|].
      intros p e Hin He Hk. apply elem_of_concat in Hin as (b & chain' & Hb & Hin).
      destruct (ok_chain _ _ Ht _ _ _ Hb Hin) as (e' & He' & Hbucket).
      rewrite He in He'. inversion He'; subst e'.
      pose proof Hk as [Hh _]. rewrite Hh in Hbucket. subst b.
      rewrite Hchain in Hb. inversion Hb; subst chain'. eapply Hno; eauto.
Qed.

(** [HandleTable::Lookup] returns the entry with this key and this hash. *)
Lemma HandleTable_Lookup_spec heap t key hash :
  table_shape heap t ->
  exists r, HandleTable_Lookup heap t key hash = Some r /\
    match r with
    | Some p => p ∈ entries t /\ exists e, deref heap p = Some e /\ has_key e key hash
    | None => absent heap t key hash
    end.
Proof.
  intros Ht. destruct (FindPointer_spec heap t key hash Ht) as (n & chain & HF & Hc & Hn).
  exists (chain !! n). split.
  - unfold HandleTable_Lookup. rewrite HF. cbn. now rewrite Hc.
  - destruct (chain !! n); [exact Hn|apply Hn].
Qed.

Lemma entries_live heap t p :
  table_shape heap t -> p ∈ entries t -> exists e, deref heap p = Some e.
Proof.
  intros Ht Hp. apply elem_of_concat in Hp as (b & chain & Hb & Hp).
  destruct (ok_chain _ _ Ht _ _ _ Hb Hp) as (e & He & _). eauto.
Qed.

(** The table reads the key and the hash of its entries only. *)
Lemma table_shape_frame heap heap' t :
  (forall p e, p ∈ entries t -> deref heap p = Some e ->
     exists e', deref heap' p = Some e' /\
       LRUHandle.key e' = LRUHandle.key e /\ LRUHandle.hash e' = LRUHandle.hash e) ->
  table_shape heap t -> table_shape heap' t.
Proof.
  intros Hfr Ht. destruct Ht as [Hlen Hb He Hc Hnd Hu]. constructor; try assumption.
  - intros b chain p Hbk Hp. destruct (Hc b chain p Hbk Hp) as (e & Hd & Hbo).
    destruct (Hfr p e) as (e' & Hd' & _ & Hh); [|exact Hd|].
    { apply elem_of_concat. eauto. }
    exists e'. split; [exact Hd'|]. now rewrite Hh.
  - intros p q e1 e2 Hp Hq H1 H2 Hk Hh.
    assert (Hlive : forall r, r ∈ entries t -> exists e, deref heap r = Some e).
    { intros r Hr. apply elem_of_concat in Hr as (b & chain & Hbk & Hr).
      destruct (Hc b chain r Hbk Hr) as (e & Hd & _). eauto. }
    destruct (Hlive p Hp) as (e1' & Hp1). destruct (Hlive q Hq) as (e2' & Hq1).
    destruct (Hfr p e1' Hp Hp1) as (x1 & Hx1 & Hk1 & Hh1).
    destruct (Hfr q e2' Hq Hq1) as (x2 & Hx2 & Hk2 & Hh2).
    rewrite H1 in Hx1. rewrite H2 in Hx2. inversion Hx1; inversion Hx2; subst x1 x2.
    apply (Hu p q e1' e2' Hp Hq Hp1 Hq1); congruence.
Qed.

Lemma table_ok_frame heap heap' t :
  (forall p e, p ∈ entries t -> deref heap p = Some e ->
     exists e', deref heap' p = Some e' /\
       LRUHandle.key e' = LRUHandle.key e /\ LRUHandle.hash e' = LRUHandle.hash e) ->
  table_ok heap t -> table_ok heap' t.
Proof. intros Hfr [Ht Hl]. split; [eapply table_shape_frame; eauto|exact Hl]. Qed.

Lemma table_ok_bound heap t : table_ok heap t -> 0 <= elems_ t <= 2 ^ 31.
Proof.
  intros [Ht Hl]. destruct (ok_length _ _ Ht) as (k & Hk & Hlen).
  pose proof (pow2_le_31 k ltac:(lia)). rewrite (ok_elems _ _ Ht) in *. lia.
Qed.

(** [HandleTable::Remove] takes the entry with this key and this hash
    out of its chain. *)
Lemma HandleTable_Remove_spec heap t key hash :
  table_ok heap t ->
  exists t' r, HandleTable_Remove heap t key hash = Some (t', r) /\
    match r with
    | Some p => (exists e, deref heap p = Some e /\ has_key e key hash) /\
                entries t ≡ₚ p :: entries t' /\ table_ok heap t'
    | None => t' = t /\ absent heap t key hash
    end.
Proof.
  intros Hok. pose proof (table_ok_bound _ _ Hok) as Hbound. destruct Hok as [Ht Hload].
  destruct (FindPointer_spec heap t key hash Ht) as (n & chain & HF & Hc & Hn).
  unfold HandleTable_Remove. rewrite HF. cbn. rewrite Hc. cbn.
  destruct (chain !! n) as [p|] eqn:Hp.
  - eexists _, _. split; [reflexivity|]. destruct Hn as [Hin Hkey].
    split; [exact Hkey|].
    destruct (concat_insert (list_ t) _ chain (delete n chain) Hc) as (l1 & l2 & E1 & E2).
    assert (Hperm : entries t ≡ₚ
              p :: entries {| length_ := length_ t; elems_ := uint32 (elems_ t - 1);
                              list_ := <[bucket_of t hash := delete n chain]> (list_ t) |}).
    { unfold entries. cbn [list_]. rewrite E1, E2.
      rewrite (delete_Permutation chain n p Hp) at 1.
      rewrite <- app_comm_cons. symmetry. apply Permutation_middle. }
    split; [exact Hperm|].
    pose proof (ok_nodup _ _ Ht) as Hnd. rewrite Hperm in Hnd.
    apply NoDup_cons in Hnd as [Hnotin Hnd].
    assert (Hlen : length (entries t) = S (length (entries {|
                length_ := length_ t; elems_ := uint32 (elems_ t - 1);
                list_ := <[bucket_of t hash := delete n chain]> (list_ t) |})))
      by now rewrite Hperm.
    assert (Hsub : forall q, q ∈ entries {| length_ := length_ t;
                elems_ := uint32 (elems_ t - 1);
                list_ := <[bucket_of t hash := delete n chain]> (list_ t) |} ->
              q ∈ entries t).
    { intros q Hq. rewrite Hperm. now right. }
    pose proof (ok_elems _ _ Ht) as Hel.
    assert (Hu32 : uint32 (elems_ t - 1) = elems_ t - 1)
      by (unfold uint32; apply Z.mod_small; lia).
    split; [constructor|]; cbn [length_ elems_ list_].
    + exact (ok_length _ _ Ht).
    + rewrite length_insert. exact (ok_buckets _ _ Ht).
    + rewrite Hu32 in *. lia.
    + intros b chain' q Hb Hq. apply list_lookup_insert_Some in Hb as [(<- & <- & _)|[Hne Hb]].
      * apply list_elem_of_delete_inv in Hq. exact (ok_chain _ _ Ht _ _ _ Hc Hq).
      * exact (ok_chain _ _ Ht _ _ _ Hb Hq).
    + exact Hnd.
    + intros q1 q2 e1 e2 H1 H2. apply (ok_unique _ _ Ht); auto.
    + rewrite Hu32. lia.
  - eexists _, _. split; [reflexivity|]. split; [reflexivity|apply Hn].
Qed.

(** [HandleTable::Remove] with the key and the hash of an entry takes
    this entry. *)
Lemma HandleTable_Remove_entry heap t p e :
  table_ok heap t -> p ∈ entries t -> deref heap p = Some e ->
  exists t', HandleTable_Remove heap t (LRUHandle.key e) (LRUHandle.hash e)
             = Some (t', Some p) /\
    entries t ≡ₚ p :: entries t' /\ table_ok heap t'.
Proof.
  intros Hok Hp He.
  destruct (HandleTable_Remove_spec heap t (LRUHandle.key e) (LRUHandle.hash e) Hok)
    as (t' & r & HR & Hr).
  destruct r as [q|].
  - destruct Hr as ((e' & He' & Hh & Hk) & Hperm & Hok').
    assert (q = p).
    { apply (ok_unique _ _ (proj1 Hok) q p e' e); auto.
      rewrite Hperm. now left. }
    subst q. eauto.
  - destruct Hr as [_ Habs]. exfalso. apply (Habs p e Hp He). now split.
Qed.

(** The first loop of [Resize] ends with a power of two that is not less
    than [elems_]. *)
Lemma Resize_length_spec fuel j elems :
  2 <= j <= 31 -> elems <= 2 ^ 31 -> 31 - j < Z.of_nat fuel ->
  exists k, j <= k <= 31 /\ Resize_length fuel (2 ^ j) elems = Some (2 ^ k) /\
            elems <= 2 ^ k.
Proof.
  revert j. induction fuel as [|fuel IH]; intros j Hj He Hf; [lia|].
  cbn [Resize_length]. destruct (2 ^ j <? elems) eqn:Hlt.
  - apply Z.ltb_lt in Hlt.
    assert (j < 31).
    { destruct (Z.eq_dec j 31) as [->|]; lia. }
    assert (Hd : uint32 (2 ^ j * 2) = 2 ^ (j + 1)).
    { rewrite Z.pow_add_r by lia. change (2 ^ 1) with 2.
      unfold uint32. apply Z.mod_small.
      pose proof (pow2_le_31 j ltac:(lia)). lia. }
    rewrite Hd. destruct (IH (j + 1)) as (k & Hk & -> & Hle); [lia|lia|lia|].
    exists k. split; [lia|]. split; [reflexivity|lia].
  - apply Z.ltb_ge in Hlt. exists j. split; [lia|]. split; [reflexivity|lia].
Qed.

Lemma concat_replicate_nil {A} n : concat (replicate n (@nil A)) = [].
Proof. induction n as [|n IH]; [reflexivity|]. cbn. exact IH. Qed.

Lemma rehashed_start heap new_length :
  rehashed heap new_length (replicate (Z.to_nat new_length) []) [].
Proof.
  split; [apply length_replicate|]. split.
  - intros i chain p Hc Hp. apply lookup_replicate in Hc as [-> _].
    now apply elem_of_nil in Hp.
  - now rewrite concat_replicate_nil.
Qed.

(** The loop of [Resize] along a chain. *)
Lemma Resize_chain_spec heap k chain new_list moved :
  0 <= k <= 31 ->
  rehashed heap (2 ^ k) new_list moved ->
  Z.of_nat (length moved + length chain) < 2 ^ 32 ->
  (forall p, p ∈ chain -> deref heap p <> None) ->
  exists new_list',
    Resize_chain heap (2 ^ k) chain new_list (Z.of_nat (length moved))
    = Some (new_list', Z.of_nat (length moved + length chain)) /\
    rehashed heap (2 ^ k) new_list' (moved ++ chain).
Proof.
  intros Hk. revert new_list moved.
  induction chain as [|h next IH]; intros new_list moved Hre Hlen Hlive.
  - exists new_list. cbn [Resize_chain length]. rewrite Nat.add_0_r, app_nil_r. auto.
  - cbn [Resize_chain].
    destruct (deref heap h) as [e|] eqn:He; [|exfalso; eapply Hlive; [left|exact He]].
    cbn. destruct Hre as (Hl & Hm & Hc).
    set (i := Z.to_nat (Z.land (LRUHandle.hash e) (uint32 (2 ^ k - 1)))).
    assert (Hi : (i < length new_list)%nat).
    { rewrite Hl. subst i.
      destruct (bucket_index (LRUHandle.hash e) (2 ^ k) k) as [-> Hr]; [lia|reflexivity|].
      lia. }
    destruct (lookup_lt_is_Some_2 _ _ Hi) as [head Hhead]. rewrite Hhead. cbn.
    cbn [length] in Hlen.
    assert (Hcount : uint32 (Z.of_nat (length moved) + 1)
                     = Z.of_nat (length (moved ++ [h]))).
    { rewrite length_app. cbn [length]. unfold uint32. rewrite Z.mod_small; lia. }
    rewrite Hcount.
    destruct (IH (<[i := h :: head]> new_list) (moved ++ [h])) as (nl & HR & Hre').
    + split; [now rewrite length_insert|]. split.
      * intros b chain p Hb Hp.
        apply list_lookup_insert_Some in Hb as [(<- & <- & _)|[Hne Hb]].
        -- apply elem_of_cons in Hp as [->|Hp]; [eauto|]. eapply Hm; eauto.
        -- eapply Hm; eauto.
      * destruct (concat_insert new_list i head (h :: head) Hhead) as (l1 & l2 & E1 & E2).
        rewrite E2, <- Hc, E1.
        transitivity (h :: (l1 ++ head ++ l2));
          [symmetry; apply (Permutation_middle l1 (head ++ l2) h)
          |apply Permutation_cons_append].
    + rewrite length_app. cbn [length]. lia.
    + intros p Hp. apply Hlive. now right.
    + exists nl. rewrite HR. split.
      * do 3 f_equal. rewrite length_app. cbn [length]. lia.
      * now rewrite <- app_assoc in Hre'.
Qed.

(** The loop of [Resize] over the buckets. *)
Lemma Resize_buckets_spec heap k buckets new_list moved :
  0 <= k <= 31 ->
  rehashed heap (2 ^ k) new_list moved ->
  Z.of_nat (length moved + length (concat buckets)) < 2 ^ 32 ->
  (forall p, p ∈ concat buckets -> deref heap p <> None) ->
  exists new_list',
    Resize_buckets heap (2 ^ k) buckets new_list (Z.of_nat (length moved))
    = Some (new_list', Z.of_nat (length moved + length (concat buckets))) /\
    rehashed heap (2 ^ k) new_list' (moved ++ concat buckets).
Proof.
  intros Hk. revert new_list moved.
  induction buckets as [|chain buckets IH]; intros new_list moved Hre Hlen Hlive.
  - exists new_list. cbn [Resize_buckets concat length].
    rewrite Nat.add_0_r, app_nil_r. auto.
  - cbn [Resize_buckets concat] in *. rewrite length_app in Hlen.
    destruct (Resize_chain_spec heap k chain new_list moved Hk Hre) as (nl & HR & Hre').
    { lia. }
    { intros p Hp. apply Hlive, elem_of_app. now left. }
    rewrite HR. cbn. rewrite <- length_app.
    destruct (IH nl (moved ++ chain) Hre') as (nl' & HR' & Hre'').
    { rewrite length_app. lia. }
    { intros p Hp. apply Hlive, elem_of_app. now right. }
    exists nl'. rewrite HR'. split.
    + do 3 f_equal. rewrite !length_app. lia.
    + now rewrite <- app_assoc in Hre''.
Qed.

(** [Resize] moves every entry to the bucket of its hash in an array
    that is not smaller than the number of entries. *)
Lemma Resize_spec heap t :
  table_shape heap t -> elems_ t <= 2 ^ 31 ->
  exists t', Resize heap t = Some t' /\ table_ok heap t' /\ entries t' ≡ₚ entries t.
Proof.
  intros Ht Hel. unfold Resize.
  destruct (Resize_length_spec 32 2 (elems_ t)) as (k & Hk & HL & Hle); [lia|lia|lia|].
  change (2 ^ 2) with 4 in HL. rewrite HL. cbn.
  rewrite take_ge by (pose proof (ok_buckets _ _ Ht); lia).
  pose proof (ok_elems _ _ Ht) as Hcount. fold (entries t).
  destruct (Resize_buckets_spec heap k (list_ t) (replicate (Z.to_nat (2 ^ k)) []) [])
    as (nl & HR & Hre).
  - lia.
  - apply rehashed_start.
  - cbn [length]. fold (entries t). lia.
  - intros p Hp. destruct (entries_live heap t p Ht Hp) as [e ->]. discriminate.
  - change (Z.of_nat (length [])) with 0 in HR.
    change (length [] + length (concat (list_ t)))%nat with (length (entries t)) in HR.
    rewrite HR. cbn. rewrite <- Hcount, Z.eqb_refl.
    eexists. split; [reflexivity|]. destruct Hre as (Hl & Hm & Hc).
    cbn [app] in Hc. fold (entries t) in Hc.
    assert (Hperm : entries {| length_ := 2 ^ k; elems_ := elems_ t; list_ := nl |}
                    ≡ₚ entries t) by exact Hc.
    split; [split; [constructor|]|exact Hperm]; cbn [length_ elems_ list_].
    + exists k. split; [lia|reflexivity].
    + rewrite Hl. apply Z2Nat.id. apply Z.pow_nonneg. lia.
    + now rewrite Hperm.
    + intros b chain p Hb Hp. exact (Hm b chain p Hb Hp).
    + rewrite Hperm. exact (ok_nodup _ _ Ht).
    + intros p q e1 e2 Hp Hq. rewrite Hperm in Hp, Hq. now apply (ok_unique _ _ Ht).
    + exact Hle.
Qed.

(** [HandleTable::HandleTable] *)
Lemma NewHandleTable_spec :
  NewHandleTable = Some {| length_ := 4; elems_ := 0; list_ := [[]; []; []; []] |}.
Proof. reflexivity. Qed.

Lemma NewHandleTable_ok t : NewHandleTable = Some t -> table_ok [] t /\ entries t = [].
Proof.
  rewrite NewHandleTable_spec. intros H. inversion H; subst t. clear H.
  split; [split; [constructor|]|reflexivity]; cbn [length_ elems_ list_].
  - exists 2. split; [lia|reflexivity].
  - reflexivity.
  - reflexivity.
  - intros b chain p Hb Hp.
    assert (chain = []).
    { destruct b as [|[|[|[|b]]]]; cbn in Hb; rewrite ?lookup_nil in Hb;
        now inversion Hb. }
    subst chain. now apply elem_of_nil in Hp.
  - cbn. constructor.
  - intros p q e1 e2 Hp. cbn in Hp. now apply elem_of_nil in Hp.
  - lia.
Qed.

Lemma insert_Permutation_cons {A} (l : list A) n q h :
  l !! n = Some q -> q :: <[n := h]> l ≡ₚ h :: l.
Proof.
  intros H. destruct (lookup_split l n q H) as (l1 & l2 & E1 & E2).
  rewrite E2, E1. rewrite <- !Permutation_middle. apply Permutation_swap.
Qed.

(** [HandleTable::Insert] puts the handle in the place of the entry
    with its key and its hash, or at the end of the chain. *)
Lemma HandleTable_Insert_spec heap t h e :
  table_ok heap t -> elems_ t < 2 ^ 31 -> deref heap h = Some e -> h ∉ entries t ->
  exists t' old, HandleTable_Insert heap t h = Some (t', old) /\ table_ok heap t' /\
    match old with
    | Some q =>
        q ∈ entries t /\
        (exists e', deref heap q = Some e' /\
                    has_key e' (LRUHandle.key e) (LRUHandle.hash e)) /\
        q :: entries t' ≡ₚ h :: entries t
    | None =>
        absent heap t (LRUHandle.key e) (LRUHandle.hash e) /\
        entries t' ≡ₚ h :: entries t
    end.
Proof.
  intros Hok Hlt He Hnotin. pose proof (table_ok_bound _ _ Hok) as Hbound.
  destruct Hok as [Ht Hload].
  destruct (FindPointer_spec heap t (LRUHandle.key e) (LRUHandle.hash e) Ht)
    as (n & chain & HF & Hc & Hn).
  unfold HandleTable_Insert. rewrite He. cbn -[Resize]. rewrite HF. cbn -[Resize].
  rewrite Hc. cbn -[Resize uint32 Z.gtb].
  set (b := bucket_of t (LRUHandle.hash e)) in *.
  pose proof (ok_elems _ _ Ht) as Hel.
  assert (Hnd0 : NoDup (h :: entries t)).
  { apply NoDup_cons. split; [exact Hnotin|exact (ok_nodup _ _ Ht)]. }
  destruct (chain !! n) as [q|] eqn:Hq.
  - (* the entry [q] is replaced *)
    destruct Hn as [Hqin Hqkey].
    eexists _, (Some q). split; [reflexivity|].
    set (t1 := {| length_ := length_ t; elems_ := elems_ t;
                  list_ := <[b := <[n := h]> chain]> (list_ t) |}).
    assert (Hperm : q :: entries t1 ≡ₚ h :: entries t).
    { destruct (concat_insert (list_ t) b chain (<[n := h]> chain) Hc)
        as (l1 & l2 & E1 & E2).
      unfold entries, t1. cbn [list_]. rewrite E1, E2.
      rewrite !(Permutation_middle l1). apply Permutation_app_head.
      rewrite !app_comm_cons. apply Permutation_app_tail.
      now apply insert_Permutation_cons. }
    assert (Hnd1 : NoDup (q :: entries t1)) by now rewrite Hperm.
    apply NoDup_cons in Hnd1 as [Hq1 Hnd1].
    assert (Hmem : forall p, p ∈ entries t1 -> p = h \/ (p ∈ entries t /\ p <> q)).
    { intros p Hp. assert (Hp' : p ∈ h :: entries t) by (rewrite <- Hperm; now right).
      apply elem_of_cons in Hp' as [->|Hp']; [now left|]. right. split; [exact Hp'|].
      intros ->. contradiction. }
    split; [|split; [exact Hqin|split; [exact Hqkey|exact Hperm]]].
    split; [constructor|]; cbn [length_ elems_ list_ t1].
    + exact (ok_length _ _ Ht).
    + rewrite length_insert. exact (ok_buckets _ _ Ht).
    + rewrite Hel. f_equal. apply Permutation_length in Hperm. cbn [length] in Hperm. lia.
    + intros b' chain' p Hb Hp.
      apply list_lookup_insert_Some in Hb as [(<- & <- & _)|[Hne Hb]].
      * assert (Hp' : p ∈ h :: chain).
        { rewrite <- (insert_Permutation_cons chain n q h Hq). now right. }
        apply elem_of_cons in Hp' as [->|Hp']; [exists e; split; [exact He|reflexivity]|].
        exact (ok_chain _ _ Ht _ _ _ Hc Hp').
      * exact (ok_chain _ _ Ht _ _ _ Hb Hp).
    + exact Hnd1.
    + intros p1 p2 e1 e2 Hp1 Hp2 H1 H2 Hk Hh.
      destruct Hqkey as (eq & Heq & Hqh & Hqk).
      destruct (Hmem p1 Hp1) as [->|[Hp1' Hne1]], (Hmem p2 Hp2) as [->|[Hp2' Hne2]].
      * reflexivity.
      * exfalso. apply Hne2. rewrite He in H1. inversion H1; subst e1.
        apply (ok_unique _ _ Ht p2 q e2 eq); auto; congruence.
      * exfalso. apply Hne1. rewrite He in H2. inversion H2; subst e2.
        apply (ok_unique _ _ Ht p1 q e1 eq); auto; congruence.
      * apply (ok_unique _ _ Ht p1 p2 e1 e2); auto.
    + exact Hload.
  - (* the handle is linked at the end of the chain *)
    destruct Hn as [-> Habs].
    set (t1 := {| length_ := length_ t; elems_ := uint32 (elems_ t + 1);
                  list_ := <[b := chain ++ [h]]> (list_ t) |}).
    assert (Hu32 : uint32 (elems_ t + 1) = elems_ t + 1)
      by (unfold uint32; apply Z.mod_small; lia).
    assert (Hperm : entries t1 ≡ₚ h :: entries t).
    { destruct (concat_insert (list_ t) b chain (chain ++ [h]) Hc) as (l1 & l2 & E1 & E2).
      unfold entries, t1. cbn [list_]. rewrite E1, E2.
      rewrite (Permutation_middle l1). apply Permutation_app_head.
      rewrite app_comm_cons. apply Permutation_app_tail.
      symmetry. apply Permutation_cons_append. }
    assert (Ht1 : table_shape heap t1).
    { constructor; cbn [length_ elems_ list_ t1].
      + exact (ok_length _ _ Ht).
      + rewrite length_insert. exact (ok_buckets _ _ Ht).
      + rewrite Hu32, Hperm. cbn [length]. lia.
      + intros b' chain' p Hb Hp.
        apply list_lookup_insert_Some in Hb as [(<- & <- & _)|[Hne Hb]].
        * apply elem_of_app in Hp as [Hp|Hp].
          -- exact (ok_chain _ _ Ht _ _ _ Hc Hp).
          -- apply list_elem_of_singleton in Hp as ->.
             exists e. split; [exact He|reflexivity].
        * exact (ok_chain _ _ Ht _ _ _ Hb Hp).
      + now rewrite Hperm.
      + intros p1 p2 e1 e2 Hp1 Hp2 H1 H2 Hk Hh.
        rewrite Hperm in Hp1, Hp2.
        apply elem_of_cons in Hp1 as [->|Hp1], Hp2 as [->|Hp2].
        * reflexivity.
        * exfalso. rewrite He in H1. inversion H1; subst e1.
          apply (Habs p2 e2 Hp2 H2). split; congruence.
        * exfalso. rewrite He in H2. inversion H2; subst e2.
          apply (Habs p1 e1 Hp1 H1). split; congruence.
        * apply (ok_unique _ _ Ht p1 p2 e1 e2); auto. }
    fold t1. change (uint32 (elems_ t + 1)) with (elems_ t1).
    change (length_ t) with (length_ t1) at 1.
    destruct (elems_ t1 >? length_ t1) eqn:Hgt.
    + destruct (Resize_spec heap t1 Ht1) as (t' & -> & Hok' & Hperm').
      { cbn [elems_ t1]. lia. }
      cbn. eexists _, None. split; [reflexivity|]. split; [exact Hok'|].
      split; [exact Habs|]. now rewrite Hperm'.
    + eexists _, None. split; [reflexivity|]. split; [|split; [exact Habs|exact Hperm]].
      split; [exact Ht1|]. rewrite Z.gtb_ltb in Hgt. apply Z.ltb_ge in Hgt. exact Hgt.
Qed.

(** *** References *)

Ltac simpl_cache :=
  cbn [capacity_ usage_ lru_ table_ heap deleted
       set_usage_ set_lru_ set_table_ set_heap set_deleted LRU_Append] in *.

Lemma kept_refl heap : kept heap heap.
Proof. intros p e He. exists e. split; [exact He|]. now destruct e. Qed.

Lemma kept_trans heap1 heap2 heap3 :
  kept heap1 heap2 -> kept heap2 heap3 -> kept heap1 heap3.
Proof.
  intros H12 H23 p e3 H3. destruct (H23 p e3 H3) as (e2 & H2 & E3).
  destruct (H12 p e2 H2) as (e1 & H1 & E2). exists e1. split; [exact H1|].
  rewrite E3, E2. now destruct e1.
Qed.

Lemma kept_fields heap heap' p e' :
  kept heap heap' -> deref heap' p = Some e' ->
  exists e, deref heap p = Some e /\
    LRUHandle.key e' = LRUHandle.key e /\ LRUHandle.hash e' = LRUHandle.hash e /\
    LRUHandle.charge e' = LRUHandle.charge e /\ LRUHandle.value e' = LRUHandle.value e.
Proof.
  intros Hk He'. destruct (Hk p e' He') as (e & He & E). exists e.
  split; [exact He|]. rewrite E. now destruct e.
Qed.

Lemma count_zero_notin p l : count p l = O -> p ∉ l.
Proof. intros H Hin. apply count_elem in Hin. lia. Qed.

Lemma uint64_sub_l a b : uint64 (uint64 a - b) = uint64 (a - b).
Proof. unfold uint64. apply Zminus_mod_idemp_l. Qed.

Lemma uint64_add_l a b : uint64 (uint64 a + b) = uint64 (a + b).
Proof. unfold uint64. apply Zplus_mod_idemp_l. Qed.

(** [Unref] gives up one reference, and frees the handle with the last
    one. *)
Lemma Unref_spec c owners owners' e :
  accounted (heap c) owners -> owners ≡ₚ e :: owners' ->
  Z.of_nat (count e owners) < 2 ^ 32 ->
  usage_ c = uint64 (total_charge (heap c)) ->
  exists c', Unref c e = Some c' /\
    accounted (heap c') owners' /\
    usage_ c' = uint64 (total_charge (heap c')) /\
    capacity_ c' = capacity_ c /\ lru_ c' = lru_ c /\ table_ c' = table_ c /\
    kept (heap c) (heap c') /\
    (forall q, q <> e -> deref (heap c') q = deref (heap c) q).
Proof.
  intros [Hrefs Hlive] Hperm Hlen Husage.
  assert (Hin : e ∈ owners) by (rewrite Hperm; now left).
  destruct (deref (heap c) e) as [h|] eqn:He; [|now apply Hlive in Hin].
  destruct (Hrefs e h He) as [Hr Hr1].
  assert (Hcount : count e owners = S (count e owners')).
  { rewrite (count_Permutation e _ _ Hperm). cbn [count]. now rewrite decide_True. }
  assert (Hother : forall q, q <> e -> count q owners = count q owners').
  { intros q Hq. rewrite (count_Permutation q _ _ Hperm). cbn [count].
    now rewrite decide_False by congruence. }
  pose proof (deref_lt _ _ _ He) as Hlt.
  assert (Hu32 : uint32 (LRUHandle.refs h - 1) = LRUHandle.refs h - 1)
    by (unfold uint32; apply Z.mod_small; lia).
  unfold Unref. rewrite He. cbn [mbind option_bind].
  destruct (LRUHandle.refs h >? 0) eqn:Hpos; [|rewrite Z.gtb_ltb in Hpos; apply Z.ltb_ge in Hpos; lia].
  cbn [LRUHandle.refs LRUHandle.set_refs LRUHandle.charge LRUHandle.key LRUHandle.key_data
       LRUHandle.value LRUHandle.deleter]. rewrite Hu32.
  destruct (LRUHandle.refs h - 1 <=? 0) eqn:Hlast.
  - apply Z.leb_le in Hlast. assert (Hzero : count e owners' = O) by lia.
    eexists. split; [reflexivity|]. simpl_cache.
    assert (Hd : forall q, deref (free (store (heap c) e (LRUHandle.set_refs h
                    (LRUHandle.refs h - 1))) e) q
                 = if decide (e = q) then None else deref (heap c) q).
    { intros q. rewrite deref_free by (unfold store; now rewrite length_insert).
      destruct (decide (e = q)); [reflexivity|].
      rewrite deref_store by exact Hlt. now rewrite decide_False. }
    split; [split|].
    + intros p x Hp. rewrite Hd in Hp. destruct (decide (e = p)); [discriminate|].
      destruct (Hrefs p x Hp) as [H1 H2]. split; [|exact H2].
      rewrite H1, Hother by congruence. reflexivity.
    + intros p Hp. rewrite Hd. destruct (decide (e = p)) as [<-|Hne].
      * now apply count_zero_notin in Hzero.
      * apply Hlive. rewrite Hperm. now right.
    + split; [|split; [reflexivity|split; [reflexivity|split; [reflexivity|split]]]].
      * rewrite Husage, uint64_sub_l. f_equal.
        erewrite total_charge_free
          by (rewrite deref_store by exact Hlt; now rewrite decide_True).
        erewrite total_charge_store by exact He.
        cbn [LRUHandle.charge LRUHandle.set_refs]. lia.
      * intros p x Hp. rewrite Hd in Hp. destruct (decide (e = p)); [discriminate|].
        exists x. split; [exact Hp|]. now destruct x.
      * intros q Hq. rewrite Hd. now rewrite decide_False by congruence.
  - apply Z.leb_gt in Hlast.
    eexists. split; [reflexivity|]. simpl_cache.
    set (h' := LRUHandle.set_refs h (LRUHandle.refs h - 1)).
    split; [split|].
    + intros p x Hp. rewrite deref_store in Hp by exact Hlt.
      destruct (decide (e = p)) as [<-|Hne].
      * inversion Hp; subst x. cbn [h' LRUHandle.refs LRUHandle.set_refs]. lia.
      * destruct (Hrefs p x Hp) as [H1 H2]. split; [|exact H2].
        rewrite H1, Hother by congruence. reflexivity.
    + intros p Hp. rewrite deref_store by exact Hlt.
      destruct (decide (e = p)); [discriminate|].
      apply Hlive. rewrite Hperm. now right.
    + split; [|split; [reflexivity|split; [reflexivity|split; [reflexivity|split]]]].
      * rewrite Husage. f_equal. erewrite total_charge_store by exact He.
        cbn [h' LRUHandle.charge LRUHandle.set_refs]. lia.
      * intros p x Hp. rewrite deref_store in Hp by exact Hlt.
        destruct (decide (e = p)) as [<-|Hne].
        -- inversion Hp; subst x. exists h. split; [exact He|]. reflexivity.
        -- exists x. split; [exact Hp|]. now destruct x.
      * intros q Hq. rewrite deref_store by exact Hlt. now rewrite decide_False by congruence.
Qed.

Lemma Permutation_cons_NoDup (l l' : list nat) p :
  l ≡ₚ p :: l' -> NoDup l ->
  NoDup l' /\ (p ∉ l') /\ forall q, q ∈ l' <-> q ∈ l /\ q <> p.
Proof.
  intros H Hl. rewrite H in Hl. apply NoDup_cons in Hl as [Hn Hl].
  split; [exact Hl|]. split; [exact Hn|].
  intros q. rewrite H, elem_of_cons. split.
  - intros Hq. split; [now right|]. intros ->. contradiction.
  - intros [[->|Hq] Hne]; [congruence|exact Hq].
Qed.

Lemma count_owner hs lru p :
  NoDup lru -> Z.of_nat (length hs) + 1 < 2 ^ 32 ->
  Z.of_nat (count p (hs ++ lru)) < 2 ^ 32.
Proof.
  intros Hnd Hlen. rewrite count_app. pose proof (count_le_length p hs).
  assert (count p lru <= 1)%nat; [|lia].
  destruct (decide (p ∈ lru)) as [Hin|Hout].
  - now rewrite count_NoDup.
  - rewrite count_notin by exact Hout. lia.
Qed.

Lemma cache_ok_listed_live c hs p :
  cache_ok c hs -> p ∈ lru_ c -> exists e, deref (heap c) p = Some e.
Proof.
  intros Hok Hp. apply (ok_listed _ _ Hok) in Hp.
  exact (entries_live _ _ _ (proj1 (ok_table _ _ Hok)) Hp).
Qed.

(** An entry that has been taken from the list and from the table gives
    up the reference of the cache. *)
Lemma Unref_detached c hs p lru' t' :
  cache_ok c hs ->
  lru_ c ≡ₚ p :: lru' ->
  entries (table_ c) ≡ₚ p :: entries t' ->
  table_ok (heap c) t' ->
  exists c', Unref (set_table_ (set_lru_ c lru') t') p = Some c' /\
    cache_ok c' hs /\
    capacity_ c' = capacity_ c /\ lru_ c' = lru' /\ table_ c' = t' /\
    kept (heap c) (heap c') /\
    (forall q, q <> p -> deref (heap c') q = deref (heap c) q).
Proof.
  intros Hok Hlru Hent Ht'.
  destruct (Unref_spec (set_table_ (set_lru_ c lru') t') (hs ++ lru_ c) (hs ++ lru') p)
    as (c' & HU & Hacc & Hus & Hcap & Hl & Htb & Hkept & Hframe); simpl_cache.
  - exact (ok_refs _ _ Hok).
  - rewrite Hlru. symmetry. apply Permutation_middle.
  - apply count_owner; [exact (ok_lru _ _ Hok)|exact (ok_handles _ _ Hok)].
  - exact (ok_usage _ _ Hok).
  - exists c'. split; [exact HU|].
    destruct (Permutation_cons_NoDup _ _ _ Hlru (ok_lru _ _ Hok)) as (Hnd' & Hp' & Hmem').
    destruct (Permutation_cons_NoDup _ _ _ Hent (ok_nodup _ _ (proj1 (ok_table _ _ Hok))))
      as (_ & Hpt & Hmemt).
    split; [|auto 10]. constructor.
    + rewrite Htb. apply (table_ok_frame (heap c)); [|exact Ht'].
      intros q e Hq He. exists e. rewrite Hframe by (intros ->; contradiction). auto.
    + now rewrite Hl.
    + intros q. rewrite Hl, Htb, Hmem', Hmemt, (ok_listed _ _ Hok). reflexivity.
    + now rewrite Hl.
    + exact Hus.
    + exact (ok_handles _ _ Hok).
Qed.

(** [LRUCache::Erase] *)
Lemma Erase_spec c hs key hash :
  cache_ok c hs ->
  exists c', Erase c key hash = Some c' /\ cache_ok c' hs /\
    capacity_ c' = capacity_ c /\ kept (heap c) (heap c').
Proof.
  intros Hok. unfold Erase.
  destruct (HandleTable_Remove_spec (heap c) (table_ c) key hash (ok_table _ _ Hok))
    as (t' & r & -> & Hr).
  cbn [mbind option_bind]. destruct r as [p|].
  - destruct Hr as (_ & Hperm & Ht').
    assert (Hp : p ∈ lru_ c).
    { apply (ok_listed _ _ Hok). rewrite Hperm. now left. }
    destruct (unlink_elem _ _ Hp) as [lru' Hun].
    unfold LRU_Remove. simpl_cache. rewrite Hun. cbn [mbind option_bind].
    destruct (Unref_detached c hs p lru' t' Hok (unlink_Permutation _ _ _ Hun) Hperm Ht')
      as (c' & HU & Hok' & Hcap & _ & _ & Hkept & _).
    exists c'. split; [exact HU|auto].
  - destruct Hr as [-> _]. eexists. split; [reflexivity|].
    split; [|split; [reflexivity|apply kept_refl]].
    destruct Hok. constructor; assumption.
Qed.

Lemma table_ok_kept heap heap' t :
  table_ok heap t -> kept heap heap' ->
  (forall q, q ∈ entries t -> deref heap' q <> None) ->
  table_ok heap' t.
Proof.
  intros Ht Hk Hlive. apply (table_ok_frame heap); [|exact Ht].
  intros q e Hq He. destruct (deref heap' q) as [e'|] eqn:He'; [|now apply Hlive in Hq].
  destruct (kept_fields _ _ _ _ Hk He') as (e0 & He0 & Hkey & Hhash & _).
  rewrite He in He0. inversion He0; subst e0. eauto.
Qed.

(** [LRUCache::Release] of a handle that the client holds. *)
Lemma Release_spec c hs handle hs' :
  cache_ok c hs -> hs ≡ₚ handle :: hs' ->
  exists c', Release c handle = Some c' /\ cache_ok c' hs' /\
    capacity_ c' = capacity_ c /\ lru_ c' = lru_ c /\ kept (heap c) (heap c').
Proof.
  intros Hok Hperm. unfold Release.
  destruct (Unref_spec c (hs ++ lru_ c) (hs' ++ lru_ c) handle)
    as (c' & HU & Hacc & Hus & Hcap & Hl & Htb & Hkept & Hframe).
  - exact (ok_refs _ _ Hok).
  - now rewrite Hperm.
  - apply count_owner; [exact (ok_lru _ _ Hok)|exact (ok_handles _ _ Hok)].
  - exact (ok_usage _ _ Hok).
  - exists c'. split; [exact HU|]. split; [|auto]. constructor.
    + rewrite Htb. apply (table_ok_kept (heap c)); [exact (ok_table _ _ Hok)|exact Hkept|].
      intros q Hq. apply (proj2 Hacc), elem_of_app. right.
      now apply (ok_listed _ _ Hok).
    + rewrite Hl. exact (ok_lru _ _ Hok).
    + intros q. rewrite Hl, Htb. exact (ok_listed _ _ Hok q).
    + now rewrite Hl.
    + exact Hus.
    + pose proof (ok_handles _ _ Hok) as Hh. apply Permutation_length in Hperm.
      cbn [length] in Hperm. lia.
Qed.

(** [LRUCache::Lookup]: the entry becomes the newest of the list, with
    one reference more. *)
Lemma Lookup_spec c hs key hash :
  cache_ok c hs ->
  exists c' r, Lookup c key hash = Some (c', r) /\
    capacity_ c' = capacity_ c /\ usage_ c' = usage_ c /\ table_ c' = table_ c /\
    match r with
    | Some e =>
        (exists h, deref (heap c) e = Some h /\ has_key h key hash) /\
        (exists l, unlink e (lru_ c) = Some l /\ lru_ c' = l ++ [e]) /\
        (may_hold hs -> cache_ok c' (e :: hs) /\ kept (heap c) (heap c'))
    | None => c' = c /\ absent (heap c) (table_ c) key hash
    end.
Proof.
  intros Hok. unfold Lookup.
  destruct (HandleTable_Lookup_spec (heap c) (table_ c) key hash
              (proj1 (ok_table _ _ Hok))) as (r & -> & Hr).
  cbn [mbind option_bind]. destruct r as [e|]; [|eexists _, None; eauto 10].
  destruct Hr as (Hin & h & He & Hkey). rewrite He. cbn [mbind option_bind].
  apply (ok_listed _ _ Hok) in Hin.
  destruct (unlink_elem _ _ Hin) as [l Hun].
  unfold LRU_Remove. simpl_cache. rewrite Hun. cbn [mbind option_bind]. simpl_cache.
  eexists _, (Some e). split; [reflexivity|]. simpl_cache.
  split; [reflexivity|]. split; [reflexivity|]. split; [reflexivity|].
  split; [eauto|]. split; [eauto|]. intros Hmay. unfold may_hold in Hmay.
  pose proof (unlink_Permutation _ _ _ Hun) as Hperm.
  assert (Hperm' : l ++ [e] ≡ₚ lru_ c).
  { rewrite Hperm. symmetry. apply Permutation_cons_append. }
  pose proof (deref_lt _ _ _ He) as Hlt.
  destruct (ok_refs _ _ Hok) as [Hrefs Hlive].
  destruct (Hrefs e h He) as [Hr Hr1].
  assert (Hc1 : count e (lru_ c) = 1%nat) by (apply count_NoDup; [exact (ok_lru _ _ Hok)|exact Hin]).
  pose proof (count_le_length e hs) as Hcl. rewrite count_app, Hc1 in Hr.
  assert (Hu32 : uint32 (LRUHandle.refs h + 1) = LRUHandle.refs h + 1)
    by (unfold uint32; apply Z.mod_small; lia).
  rewrite Hu32.
  set (h' := LRUHandle.set_refs h (LRUHandle.refs h + 1)).
  assert (Hkept : kept (heap c) (store (heap c) e h')).
  { intros p x Hp. rewrite deref_store in Hp by exact Hlt.
    destruct (decide (e = p)) as [<-|Hne].
    - inversion Hp; subst x. exists h. split; [exact He|reflexivity].
    - exists x. split; [exact Hp|]. now destruct x. }
  split; [|exact Hkept]. constructor; simpl_cache.
  - apply (table_ok_kept (heap c)); [exact (ok_table _ _ Hok)|exact Hkept|].
    intros q Hq. rewrite deref_store by exact Hlt.
    destruct (decide (e = q)); [discriminate|].
    destruct (entries_live _ _ _ (proj1 (ok_table _ _ Hok)) Hq) as [x ->]. discriminate.
  - rewrite Hperm'. exact (ok_lru _ _ Hok).
  - intros q. rewrite Hperm'. exact (ok_listed _ _ Hok q).
  - split.
    + intros p x Hp. rewrite deref_store in Hp by exact Hlt.
      rewrite (count_Permutation p ((e :: hs) ++ l ++ [e]) (e :: hs ++ lru_ c))
        by (cbn [app]; now rewrite Hperm').
      cbn [count]. destruct (decide (e = p)) as [<-|Hne].
      * inversion Hp; subst x. cbn [h' LRUHandle.refs LRUHandle.set_refs].
        rewrite count_app, Hc1. lia.
      * destruct (Hrefs p x Hp) as [H1 H2]. split; [|exact H2]. exact H1.
    + intros p Hp. rewrite deref_store by exact Hlt.
      destruct (decide (e = p)); [discriminate|]. apply Hlive.
      cbn [app] in Hp. apply elem_of_cons in Hp as [->|Hp]; [congruence|].
      now rewrite Hperm' in Hp.
  - rewrite (ok_usage _ _ Hok). f_equal. erewrite total_charge_store by exact He.
    cbn [h' LRUHandle.charge LRUHandle.set_refs]. lia.
  - cbn [length]. lia.
Qed.

(** One turn of the loop of [Insert], or of [Prune] for an entry with
    one reference: the entry leaves the list and the table, and the
    cache gives up its reference. *)
Lemma evict_spec c hs old h rest :
  cache_ok c hs -> lru_ c ≡ₚ old :: rest -> deref (heap c) old = Some h ->
  exists t' c',
    HandleTable_Remove (heap c) (table_ c) (LRUHandle.key h) (LRUHandle.hash h)
    = Some (t', Some old) /\
    Unref (set_table_ (set_lru_ c rest) t') old = Some c' /\
    cache_ok c' hs /\ capacity_ c' = capacity_ c /\ lru_ c' = rest /\
    kept (heap c) (heap c') /\
    (forall q, q <> old -> deref (heap c') q = deref (heap c) q).
Proof.
  intros Hok Hl He.
  assert (Hin : old ∈ entries (table_ c)).
  { apply (ok_listed _ _ Hok). rewrite Hl. now left. }
  destruct (HandleTable_Remove_entry (heap c) (table_ c) old h (ok_table _ _ Hok) Hin He)
    as (t' & HR & Hperm & Ht').
  destruct (Unref_detached c hs old rest t' Hok Hl Hperm Ht')
    as (c' & HU & Hok' & Hcap & Hl' & _ & Hkept & Hframe).
  exists t', c'. auto 10.
Qed.

(** [Unref] takes from [usage_] what [released] says. *)
Lemma Unref_usage c e h c' :
  deref (heap c) e = Some h -> 1 <= LRUHandle.refs h < 2 ^ 32 ->
  usage_ c = uint64 (usage_ c) ->
  Unref c e = Some c' ->
  usage_ c' = uint64 (usage_ c - released (heap c) e).
Proof.
  intros He Hr Hu. unfold Unref, released. rewrite He. cbn [mbind option_bind].
  assert (Hu32 : uint32 (LRUHandle.refs h - 1) = LRUHandle.refs h - 1)
    by (unfold uint32; apply Z.mod_small; lia).
  destruct (LRUHandle.refs h >? 0) eqn:Hpos;
    [|rewrite Z.gtb_ltb in Hpos; apply Z.ltb_ge in Hpos; lia].
  cbn [LRUHandle.refs LRUHandle.set_refs LRUHandle.charge LRUHandle.key LRUHandle.key_data
       LRUHandle.value LRUHandle.deleter]. rewrite Hu32.
  destruct (LRUHandle.refs h - 1 <=? 0) eqn:Hlast; intros E; inversion E; subst c'; simpl_cache.
  - apply Z.leb_le in Hlast. replace (LRUHandle.refs h =? 1) with true
      by (symmetry; apply Z.eqb_eq; lia). reflexivity.
  - apply Z.leb_gt in Hlast. replace (LRUHandle.refs h =? 1) with false
      by (symmetry; apply Z.eqb_neq; lia). now rewrite Z.sub_0_r.
Qed.

Lemma released_frame heap heap' p :
  deref heap' p = deref heap p -> released heap' p = released heap p.
Proof. unfold released. now intros ->. Qed.

Lemma released_by_frame heap heap' l :
  (forall p, p ∈ l -> released heap' p = released heap p) ->
  released_by heap' l = released_by heap l.
Proof.
  induction l as [|p l IH]; intros H; [reflexivity|]. cbn [released_by].
  rewrite (H p) by now left.
  rewrite IH; [reflexivity|]. intros q Hq. apply H. now right.
Qed.

Lemma cache_ok_refs_bound c hs p h :
  cache_ok c hs -> deref (heap c) p = Some h -> 1 <= LRUHandle.refs h < 2 ^ 32.
Proof.
  intros Hok Hp. destruct (ok_refs _ _ Hok) as [Hrefs _].
  destruct (Hrefs p h Hp) as [Hr H1]. split; [exact H1|]. rewrite Hr.
  pose proof (ok_handles _ _ Hok) as Hh.
  rewrite count_app. pose proof (count_le_length p hs) as Hc.
  destruct (decide (p ∈ lru_ c)) as [Hin|Hout].
  - rewrite (count_NoDup p (lru_ c) (ok_lru _ _ Hok) Hin). lia.
  - rewrite (count_notin p (lru_ c) Hout). lia.
Qed.

Lemma cache_ok_usage_uint64 c hs : cache_ok c hs -> usage_ c = uint64 (usage_ c).
Proof.
  intros Hok. rewrite (ok_usage _ _ Hok). unfold uint64. now rewrite Z.mod_mod.
Qed.

Lemma Insert_loop_unfold fuel c :
  Insert_loop fuel c =
  match lru_ c with
  | old :: _ =>
      if usage_ c >? capacity_ c then
        match fuel with
        | O => None
        | S fuel =>
            c ← LRU_Remove c old;
            h ← deref (heap c) old;
            '(table, _) ← HandleTable_Remove (heap c) (table_ c)
                            (LRUHandle.key h) (LRUHandle.hash h);
            let c := set_table_ c table in
            c ← Unref c old;
            Insert_loop fuel c
        end
      else Some c
  | [] => Some c
  end.
Proof. destruct fuel; reflexivity. Qed.

(** The loop of [Insert] takes the oldest entries from the list, whatever
    their references, until the usage is within the capacity or the
    list is empty. *)
Lemma Insert_loop_spec fuel c hs :
  cache_ok c hs -> (length (lru_ c) <= fuel)%nat ->
  exists c' evicted, Insert_loop fuel c = Some c' /\
    cache_ok c' hs /\ capacity_ c' = capacity_ c /\
    (usage_ c' <= capacity_ c' \/ lru_ c' = []) /\
    lru_ c = evicted ++ lru_ c' /\
    (evicted <> [] -> capacity_ c < usage_ c) /\
    kept (heap c) (heap c') /\
    (forall n, (n < length evicted)%nat ->
       capacity_ c < uint64 (usage_ c - released_by (heap c) (take n evicted))) /\
    usage_ c' = uint64 (usage_ c - released_by (heap c) evicted).
Proof.
  revert c.
  assert (Hdone : forall c l, lru_ c = l -> cache_ok c hs ->
            usage_ c <= capacity_ c \/ lru_ c = [] ->
            exists c' evicted, Some c = Some c' /\
              cache_ok c' hs /\ capacity_ c' = capacity_ c /\
              (usage_ c' <= capacity_ c' \/ lru_ c' = []) /\
              l = evicted ++ lru_ c' /\
              (evicted <> [] -> capacity_ c < usage_ c) /\
              kept (heap c) (heap c') /\
              (forall n, (n < length evicted)%nat ->
                 capacity_ c < uint64 (usage_ c - released_by (heap c) (take n evicted))) /\
              usage_ c' = uint64 (usage_ c - released_by (heap c) evicted)).
  { intros c l Hl Hok Hexit. exists c, []. split; [reflexivity|]. split; [exact Hok|].
    split; [reflexivity|]. split; [exact Hexit|]. split; [now rewrite Hl|].
    split; [intros H; now contradiction H|]. split; [apply kept_refl|].
    split; [intros n Hn; cbn [length] in Hn; lia|].
    cbn [released_by]. rewrite Z.sub_0_r. exact (cache_ok_usage_uint64 c hs Hok). }
  induction fuel as [|fuel IH]; intros c Hok Hfuel;
    rewrite Insert_loop_unfold; destruct (lru_ c) as [|old rest] eqn:Hl.
  - apply (Hdone c _ Hl); auto.
  - cbn [length] in Hfuel. lia.
  - apply (Hdone c _ Hl); auto.
  - destruct (usage_ c >? capacity_ c) eqn:Hgt.
    + rewrite Z.gtb_ltb in Hgt. apply Z.ltb_lt in Hgt.
      unfold LRU_Remove. rewrite Hl, unlink_head. cbn [mbind option_bind]. simpl_cache.
      assert (Hin : old ∈ lru_ c) by (rewrite Hl; now left).
      destruct (cache_ok_listed_live c hs old Hok Hin) as [h He].
      rewrite He. cbn [mbind option_bind].
      destruct (evict_spec c hs old h rest Hok) as
        (t' & c1 & -> & HU & Hok1 & Hcap1 & Hl1 & Hkept1 & Hframe1);
        [now rewrite Hl|exact He|].
      cbn [mbind option_bind].
      replace (Unref (set_table_ (set_lru_ c rest) t') old) with (Some c1).
      cbn [mbind option_bind].
      destruct (IH c1 Hok1)
        as (c' & ev & HI & Hok' & Hcap' & Hexit & Hev & _ & Hkept' & Hbound & Hus');
        [rewrite Hl1; cbn [length] in Hfuel; lia|].
      assert (Hus1 : usage_ c1 = uint64 (usage_ c - released (heap c) old)).
      { apply (Unref_usage _ old h c1) in HU; simpl_cache;
          [exact HU|exact He|exact (cache_ok_refs_bound c hs old h Hok He)
          |exact (cache_ok_usage_uint64 c hs Hok)]. }
      assert (Hrel : forall l, l `sublist_of` ev ->
                released_by (heap c1) l = released_by (heap c) l).
      { intros l Hsub. apply released_by_frame. intros q Hq.
        apply released_frame, Hframe1.
        intros ->. pose proof (ok_lru _ _ Hok) as Hnd. rewrite Hl in Hnd.
        apply NoDup_cons in Hnd as [Hnot _]. apply Hnot. rewrite <- Hl1, Hev.
        apply elem_of_app. left. eapply elem_of_sublist; eauto. }
      exists c', (old :: ev). split; [exact HI|]. split; [exact Hok'|].
      split; [congruence|]. split; [exact Hexit|].
      split; [|split; [|split; [|split]]].
      * cbn [app]. now rewrite <- Hev, Hl1.
      * intros _. exact Hgt.
      * eapply kept_trans; eauto.
      * intros [|n] Hn.
        -- cbn [take released_by]. rewrite Z.sub_0_r.
           now rewrite <- (cache_ok_usage_uint64 c hs Hok).
        -- cbn [take released_by length] in *.
           specialize (Hbound n ltac:(lia)).
           rewrite Hrel in Hbound by apply sublist_take.
           rewrite Hus1, uint64_sub_l, Hcap1 in Hbound.
           now rewrite Z.sub_add_distr.
      * cbn [released_by]. rewrite Hus', Hus1, uint64_sub_l, Hrel by reflexivity.
        now rewrite Z.sub_add_distr.
    + rewrite Z.gtb_ltb in Hgt. apply Z.ltb_ge in Hgt. apply (Hdone c _ Hl); auto.
Qed.

Lemma unlink_app_l e l l' k : unlink e l = Some l' -> unlink e (l ++ k) = Some (l' ++ k).
Proof.
  revert l'. induction l as [|x l IH]; intros l' H; [discriminate|].
  cbn [unlink app] in *. destruct (decide (x = e)); [now inversion H|].
  destruct (unlink e l) as [l''|]; [|discriminate]. inversion H; subst l'.
  now rewrite (IH l'' eq_refl).
Qed.

(** [LRUCache::Insert]: the new handle is the newest entry of the list;
    the entry with the same key and hash leaves the list and the table;
    then the oldest entries are taken from the list, whatever their
    references. *)
Lemma Insert_spec c hs key hash value charge deleter :
  cache_ok c hs -> may_hold hs -> elems_ (table_ c) < 2 ^ 31 ->
  let e := length (heap c) in
  let new := {| LRUHandle.value := value; LRUHandle.deleter := deleter;
                LRUHandle.charge := charge; LRUHandle.key_data := key;
                LRUHandle.refs := 2; LRUHandle.hash := hash |} in
  exists c' l evicted usage,
    Insert c key hash value charge deleter = Some (c', e) /\
    cache_ok c' (e :: hs) /\ capacity_ c' = capacity_ c /\
    (usage_ c' <= capacity_ c' \/ lru_ c' = []) /\
    (l = lru_ c /\ absent (heap c) (table_ c) key hash /\
     usage = uint64 (usage_ c + charge) \/
     exists old h, unlink old (lru_ c) = Some l /\
                   deref (heap c) old = Some h /\ has_key h key hash /\
                   usage = uint64 (usage_ c + charge - released (heap c) old)) /\
    l ++ [e] = evicted ++ lru_ c' /\
    kept (heap c ++ [Some new]) (heap c') /\
    (forall n, (n < length evicted)%nat ->
       capacity_ c < uint64 (usage - released_by (heap c) (take n evicted))) /\
    usage_ c' = uint64 (usage - released_by (heap c) evicted).
Proof.
  intros Hok Hmay Helems e new. unfold may_hold in Hmay.
  set (heap1 := heap c ++ [Some new]).
  assert (Hd1 : forall q, deref heap1 q
                          = if decide (q = e) then Some new else deref (heap c) q).
  { intros q. exact (deref_malloc (heap c) new q). }
  assert (Hfresh : deref (heap c) e = None) by apply deref_fresh.
  destruct (ok_refs _ _ Hok) as [Hrefs Hlive].
  assert (Hehs : e ∉ hs ++ lru_ c).
  { intros Hin. now apply Hlive in Hin. }
  assert (Hehs' : (e ∉ hs) /\ (e ∉ lru_ c)).
  { split; intros Hin; apply Hehs, elem_of_app; auto. }
  destruct Hehs' as [Heh Hel].
  assert (Het : e ∉ entries (table_ c)).
  { intros Hin. now apply (ok_listed _ _ Hok) in Hin. }
  assert (Hold : forall q x, deref (heap c) q = Some x -> deref heap1 q = Some x).
  { intros q x Hq. rewrite Hd1. destruct (decide (q = e)) as [->|]; [congruence|exact Hq]. }
  assert (Ht1 : table_ok heap1 (table_ c)).
  { apply (table_ok_frame (heap c)); [|exact (ok_table _ _ Hok)].
    intros q x Hq Hx. exists x. auto. }
  assert (Hnd1 : NoDup (lru_ c ++ [e])).
  { apply NoDup_app. split; [exact (ok_lru _ _ Hok)|]. split.
    - intros q Hq Hq'. apply list_elem_of_singleton in Hq' as ->. contradiction.
    - apply NoDup_singleton. }
  assert (Hacc1 : accounted heap1 ((e :: hs) ++ lru_ c ++ [e])).
  { split.
    - intros p x Hp. rewrite Hd1 in Hp. cbn [app count]. rewrite !count_app.
      destruct (decide (p = e)) as [->|Hne].
      + inversion Hp; subst x. rewrite decide_True by reflexivity.
        rewrite !count_notin by assumption. cbn [count new LRUHandle.refs].
        rewrite decide_True by reflexivity. lia.
      + rewrite decide_False by congruence. cbn [count].
        rewrite decide_False by congruence.
        destruct (Hrefs p x Hp) as [H1 H2]. rewrite count_app in H1.
        split; [rewrite H1; f_equal; lia|exact H2].
    - intros p Hp. rewrite Hd1. destruct (decide (p = e)); [discriminate|].
      apply Hlive. cbn [app] in Hp. rewrite elem_of_cons, !elem_of_app in Hp.
      rewrite elem_of_app. rewrite list_elem_of_singleton in Hp. tauto. }
  assert (Hus1 : uint64 (usage_ c + charge) = uint64 (total_charge heap1)).
  { rewrite (ok_usage _ _ Hok), uint64_add_l. f_equal.
    exact (eq_sym (total_charge_malloc (heap c) new)). }
  unfold Insert, malloc. fold new. fold heap1. fold e. simpl_cache.
  destruct (HandleTable_Insert_spec heap1 (table_ c) e new Ht1 Helems) as
    (t' & old & -> & Ht' & Hres).
  { rewrite Hd1. now rewrite decide_True. }
  { exact Het. }
  cbn [mbind option_bind]. unfold LRU_Append. simpl_cache.
  (* the state before the loop *)
  assert (Hphase : exists c3 l,
    match old with
    | Some old =>
        c0 ← LRU_Remove (set_table_ (set_usage_ (set_lru_ (set_heap c heap1)
                           (lru_ c ++ [e])) (uint64 (usage_ c + charge))) t') old;
        Unref c0 old
    | None => Some (set_table_ (set_usage_ (set_lru_ (set_heap c heap1)
                           (lru_ c ++ [e])) (uint64 (usage_ c + charge))) t')
    end = Some c3 /\
    cache_ok c3 (e :: hs) /\ capacity_ c3 = capacity_ c /\ lru_ c3 = l ++ [e] /\
    (l = lru_ c /\ absent (heap c) (table_ c) key hash /\
     usage_ c3 = uint64 (usage_ c + charge) \/
     exists old h, unlink old (lru_ c) = Some l /\
                   deref (heap c) old = Some h /\ has_key h key hash /\
                   usage_ c3 = uint64 (usage_ c + charge - released (heap c) old)) /\
    kept heap1 (heap c3) /\
    (forall p, p ∈ l ++ [e] -> released (heap c3) p = released (heap c) p)).
  { destruct old as [q|].
    - destruct Hres as (Hq & (x & Hx & Hxk) & Hperm).
      assert (Hql : q ∈ lru_ c) by now apply (ok_listed _ _ Hok).
      assert (Hqe : q <> e) by (intros ->; contradiction).
      destruct (unlink_elem _ _ Hql) as [l Hun].
      unfold LRU_Remove. simpl_cache. rewrite (unlink_app_l _ _ _ [e] Hun).
      cbn [mbind option_bind].
      pose proof (unlink_Permutation _ _ _ Hun) as Hpl.
      destruct (Unref_spec
                  (set_lru_ (set_table_ (set_usage_ (set_lru_ (set_heap c heap1)
                     (lru_ c ++ [e])) (uint64 (usage_ c + charge))) t') (l ++ [e]))
                  ((e :: hs) ++ lru_ c ++ [e]) ((e :: hs) ++ l ++ [e]) q)
        as (c3 & HU & Hacc3 & Hus3 & Hcap3 & Hl3 & Htb3 & Hkept3 & Hframe3); simpl_cache.
      + exact Hacc1.
      + rewrite Hpl. cbn [app]. rewrite <- Permutation_middle. apply Permutation_swap.
      + apply count_owner; [exact Hnd1|]. cbn [length]. lia.
      + exact Hus1.
      + exists c3, l. split; [exact HU|].
        assert (Hx0 : deref (heap c) q = Some x).
        { rewrite Hd1 in Hx. now rewrite decide_False in Hx by exact Hqe. }
        destruct (Permutation_cons_NoDup _ _ _ Hpl (ok_lru _ _ Hok))
          as (_ & Hqnl & Hmeml0).
        split; [|split; [exact Hcap3|split; [exact Hl3|split; [|split; [exact Hkept3|]]]]].
        * assert (HndE : NoDup (e :: entries (table_ c))).
          { apply NoDup_cons. split; [exact Het|].
            exact (ok_nodup _ _ (proj1 (ok_table _ _ Hok))). }
          destruct (Permutation_cons_NoDup (e :: entries (table_ c)) (entries t') q)
            as (_ & Hqt' & Hmemt); [now rewrite Hperm|exact HndE|].
          destruct (Permutation_cons_NoDup _ _ _ Hpl (ok_lru _ _ Hok))
            as (Hndl & Hql' & Hmeml).
          constructor.
          -- rewrite Htb3. apply (table_ok_frame heap1); [|exact Ht'].
             intros p y Hp Hy. exists y.
             rewrite Hframe3 by (intros ->; contradiction). auto.
          -- rewrite Hl3. apply NoDup_app. split; [exact Hndl|]. split.
             ++ intros p Hp Hp'. apply list_elem_of_singleton in Hp' as ->.
                apply Hmeml in Hp as [Hp _]. contradiction.
             ++ apply NoDup_singleton.
          -- intros p. rewrite Hl3, Htb3, Hmemt, elem_of_app, Hmeml.
             rewrite list_elem_of_singleton, elem_of_cons, (ok_listed _ _ Hok).
             split; [intros [[H1 H2]| ->]; auto|intros [[->|H1] H2]; auto].
          -- rewrite Hl3. exact Hacc3.
          -- exact Hus3.
          -- cbn [length]. lia.
        * right. exists q, x. destruct Hxk as [Hh Hk]. split; [exact Hun|].
          split; [exact Hx0|]. split; [split; [exact Hh|exact Hk]|].
          apply (Unref_usage _ q x c3) in HU; simpl_cache.
          -- rewrite HU, uint64_sub_l. f_equal. f_equal. apply released_frame.
             rewrite Hd1. now rewrite decide_False by exact Hqe.
          -- exact Hx.
          -- exact (cache_ok_refs_bound c hs q x Hok Hx0).
          -- unfold uint64. now rewrite Z.mod_mod.
        * intros p Hp. apply elem_of_app in Hp as [Hp|Hp].
          -- apply released_frame. rewrite Hframe3 by (intros ->; contradiction).
             rewrite Hd1. rewrite decide_False; [reflexivity|].
             intros ->. apply Hmeml0 in Hp as [Hp _]. contradiction.
          -- apply list_elem_of_singleton in Hp as ->. unfold released.
             rewrite Hframe3 by congruence. rewrite Hd1, decide_True by reflexivity.
             now rewrite Hfresh.
    - destruct Hres as (Habs & Hperm).
      eexists _, (lru_ c). split; [reflexivity|]. simpl_cache.
      split; [|split; [reflexivity|split; [reflexivity|split; [|split; [apply kept_refl|]]]]].
      + constructor; simpl_cache.
        * exact Ht'.
        * exact Hnd1.
        * intros p. rewrite Hperm, elem_of_app, list_elem_of_singleton, elem_of_cons.
          rewrite (ok_listed _ _ Hok). tauto.
        * exact Hacc1.
        * exact Hus1.
        * cbn [length]. lia.
      + left. split; [reflexivity|]. split; [|reflexivity].
        intros p x Hp Hx. apply (Habs p x Hp (Hold _ _ Hx)).
      + intros p Hp. apply elem_of_app in Hp as [Hp|Hp].
        * apply released_frame. rewrite Hd1. rewrite decide_False; [reflexivity|].
          intros ->. contradiction.
        * apply list_elem_of_singleton in Hp as ->. unfold released.
          rewrite Hd1, decide_True by reflexivity. now rewrite Hfresh. }
  destruct Hphase as (c3 & l & -> & Hok3 & Hcap3 & Hl3 & Hl & Hkept3 & Hrel3).
  cbn [mbind option_bind].
  destruct (Insert_loop_spec (length (lru_ c3)) c3 (e :: hs) Hok3 (le_n _))
    as (c' & ev & -> & Hok' & Hcap' & Hexit & Hev & _ & Hkept' & Hbound & Hus').
  cbn [mbind option_bind].
  assert (Hrel : forall k, k `sublist_of` ev ->
            released_by (heap c3) k = released_by (heap c) k).
  { intros k Hsub. apply released_by_frame. intros p Hp. apply Hrel3.
    rewrite <- Hl3, Hev. apply elem_of_app. left. eapply elem_of_sublist; eauto. }
  exists c', l, ev, (usage_ c3). split; [reflexivity|]. split; [exact Hok'|].
  split; [congruence|]. split; [exact Hexit|]. split; [exact Hl|]. split; [congruence|].
  split; [eapply kept_trans; eauto|]. split.
  - intros n Hn. rewrite <- Hcap3, <- Hrel by apply sublist_take. now apply Hbound.
  - now rewrite <- Hrel.
Qed.

(** The loop of [LRUCache::Prune] over entries of the list. *)
Lemma Prune_loop_spec hs rest c :
  cache_ok c hs -> NoDup rest -> (forall p, p ∈ rest -> p ∈ lru_ c) ->
  exists c', Prune_loop c rest = Some c' /\ cache_ok c' hs /\
    capacity_ c' = capacity_ c /\ kept (heap c) (heap c') /\
    (forall p, p ∈ lru_ c' -> p ∈ lru_ c) /\
    (forall p e, p ∈ rest -> p ∈ lru_ c' -> deref (heap c') p = Some e ->
       LRUHandle.refs e <> 1).
Proof.
  revert c. induction rest as [|e next IH]; intros c Hok Hnd Hsub.
  - exists c. split; [reflexivity|]. split; [exact Hok|]. split; [reflexivity|].
    split; [apply kept_refl|]. split; [auto|]. intros p x Hp. now apply elem_of_nil in Hp.
  - apply NoDup_cons in Hnd as [Hen Hnd].
    assert (Hin : e ∈ lru_ c) by (apply Hsub; now left).
    destruct (cache_ok_listed_live c hs e Hok Hin) as [h He].
    cbn [Prune_loop]. rewrite He. cbn [mbind option_bind].
    destruct (LRUHandle.refs h =? 1) eqn:Hone.
    + destruct (unlink_elem _ _ Hin) as [lru' Hun].
      pose proof (unlink_Permutation _ _ _ Hun) as Hperm.
      destruct (evict_spec c hs e h lru' Hok Hperm He)
        as (t' & c1 & -> & HU & Hok1 & Hcap1 & Hl1 & Hkept1 & Hframe1).
      cbn [mbind option_bind]. unfold LRU_Remove. simpl_cache. rewrite Hun.
      cbn [mbind option_bind].
      replace (Unref (set_lru_ (set_table_ c t') lru') e) with (Some c1) by exact (eq_sym HU).
      cbn [mbind option_bind].
      destruct (Permutation_cons_NoDup _ _ _ Hperm (ok_lru _ _ Hok)) as (_ & Hel' & Hmem).
      destruct (IH c1 Hok1 Hnd) as (c' & -> & Hok' & Hcap' & Hkept' & Hsub' & Hrefs').
      { intros p Hp. rewrite Hl1. apply Hmem. split; [apply Hsub; now right|].
        intros ->. contradiction. }
      exists c'. split; [reflexivity|]. split; [exact Hok'|]. split; [congruence|].
      split; [eapply kept_trans; eauto|]. split.
      * intros p Hp. apply Hsub' in Hp. rewrite Hl1 in Hp. now apply Hmem in Hp.
      * intros p x Hp Hp' Hx. apply elem_of_cons in Hp as [->|Hp]; [|eauto].
        apply Hsub' in Hp'. rewrite Hl1 in Hp'. contradiction.
    + cbn [mbind option_bind].
      destruct (IH c Hok Hnd) as (c' & -> & Hok' & Hcap' & Hkept' & Hsub' & Hrefs').
      { intros p Hp. apply Hsub. now right. }
      exists c'. split; [reflexivity|]. split; [exact Hok'|]. split; [exact Hcap'|].
      split; [exact Hkept'|]. split; [exact Hsub'|].
      intros p x Hp Hp' Hx. apply elem_of_cons in Hp as [->|Hp]; [|eauto].
      destruct (Hkept' _ _ Hx) as (h0 & Hh0 & Ex). rewrite He in Hh0. inversion Hh0; subst h0.
      intros Hx1. apply Z.eqb_neq in Hone.
      destruct (ok_refs _ _ Hok') as [Hr' _]. destruct (Hr' _ _ Hx) as [Hc' _].
      destruct (ok_refs _ _ Hok) as [Hr _]. destruct (Hr _ _ He) as [Hc _].
      rewrite count_app in Hc, Hc'.
      rewrite (count_NoDup e (lru_ c)) in Hc by (exact (ok_lru _ _ Hok) || exact Hin).
      rewrite (count_NoDup e (lru_ c')) in Hc' by (exact (ok_lru _ _ Hok') || exact Hp').
      lia.
Qed.

(** [LRUCache::Prune] *)
Lemma Prune_spec c hs :
  cache_ok c hs ->
  exists c', Prune c = Some c' /\ cache_ok c' hs /\
    capacity_ c' = capacity_ c /\ kept (heap c) (heap c') /\
    (forall p e, p ∈ lru_ c' -> deref (heap c') p = Some e -> LRUHandle.refs e <> 1).
Proof.
  intros Hok. unfold Prune.
  destruct (Prune_loop_spec hs (lru_ c) c Hok (ok_lru _ _ Hok))
    as (c' & HP & Hok' & Hcap & Hkept & Hsub & Hrefs); [auto|].
  exists c'. split; [exact HP|]. split; [exact Hok'|]. split; [exact Hcap|].
  split; [exact Hkept|]. intros p e Hp He. apply (Hrefs p e); auto.
Qed.

(** [LRUCache::LRUCache] *)
Lemma NewLRUCache_spec capacity :
  NewLRUCache capacity =
  Some {| capacity_ := capacity; usage_ := 0; lru_ := [];
          table_ := {| length_ := 4; elems_ := 0; list_ := [[]; []; []; []] |};
          heap := []; deleted := [] |}.
Proof. unfold NewLRUCache. now rewrite NewHandleTable_spec. Qed.

Lemma NewLRUCache_ok capacity c : NewLRUCache capacity = Some c -> cache_ok c [].
Proof.
  rewrite NewLRUCache_spec. intros H. inversion H; subst c. clear H.
  destruct (NewHandleTable_ok _ NewHandleTable_spec) as [Ht He].
  constructor; simpl_cache.
  - exact Ht.
  - constructor.
  - intros p. rewrite He. reflexivity.
  - split; [intros p e Hp; discriminate|]. intros p Hp. now apply elem_of_nil in Hp.
  - reflexivity.
  - cbn [length]. lia.
Qed.

(** Every state of the cache that its clients reach is well formed. *)
Lemma reachable_ok c hs : reachable c hs -> cache_ok c hs.
Proof.
  induction 1 as [capacity c Hnew
                 |c hs key hash value charge deleter c' e _ IH Hmay Hel HI
                 |c hs key hash c' e _ IH Hmay HL
                 |c hs key hash c' _ IH HL
                 |c hs handle hs' c' _ IH Hun HR
                 |c hs key hash c' _ IH HE
                 |c hs c' _ IH HP].
  - exact (NewLRUCache_ok _ _ Hnew).
  - destruct (Insert_spec c hs key hash value charge deleter IH Hmay Hel)
      as (c1 & l & ev & u & HI1 & Hok1 & _).
    rewrite HI in HI1. now inversion HI1; subst.
  - destruct (Lookup_spec c hs key hash IH) as (c1 & r & HL1 & _ & _ & _ & Hr).
    rewrite HL in HL1. inversion HL1; subst. now apply Hr.
  - destruct (Lookup_spec c hs key hash IH) as (c1 & r & HL1 & _ & _ & _ & Hr).
    rewrite HL in HL1. inversion HL1; subst. destruct Hr as [-> _]. exact IH.
  - destruct (Release_spec c hs handle hs' IH (unlink_Permutation _ _ _ Hun))
      as (c1 & HR1 & Hok1 & _).
    rewrite HR in HR1. now inversion HR1; subst.
  - destruct (Erase_spec c hs key hash IH) as (c1 & HE1 & Hok1 & _).
    rewrite HE in HE1. now inversion HE1; subst.
  - destruct (Prune_spec c hs IH) as (c1 & HP1 & Hok1 & _).
    rewrite HP in HP1. now inversion HP1; subst.
Qed.

(** *** The charges *)

Lemma deref_snoc heap x q :
  deref (heap ++ [x]) q = if decide (q = length heap) then x else deref heap q.
Proof.
  unfold deref. destruct (decide (q = length heap)) as [->|Hne].
  - rewrite lookup_app_r, Nat.sub_diag by lia. now destruct x.
  - destruct (decide (q < length heap)%nat).
    + now rewrite lookup_app_l.
    + rewrite !lookup_ge_None_2; [reflexivity|lia|].
      rewrite length_app. cbn [length]. lia.
Qed.

Lemma charge_of_app heap l1 l2 :
  charge_of heap (l1 ++ l2) = charge_of heap l1 + charge_of heap l2.
Proof.
  induction l1 as [|p l1 IH]; [reflexivity|]. cbn [app charge_of].
  destruct (deref heap p); lia.
Qed.

Lemma charge_of_Permutation heap l1 l2 :
  l1 ≡ₚ l2 -> charge_of heap l1 = charge_of heap l2.
Proof.
  induction 1 as [|x l1 l2 _ IH|x y l|l1 l2 l3 _ IH1 _ IH2]; cbn [charge_of].
  - reflexivity.
  - now rewrite IH.
  - destruct (deref heap x), (deref heap y); lia.
  - congruence.
Qed.

Lemma charge_of_ext heap1 heap2 l :
  (forall p, p ∈ l -> deref heap1 p = deref heap2 p) ->
  charge_of heap1 l = charge_of heap2 l.
Proof.
  induction l as [|p l IH]; intros H; [reflexivity|]. cbn [charge_of].
  rewrite (H p) by now left. rewrite IH; [reflexivity|]. intros q Hq. apply H. now right.
Qed.

(** The charges of all handles, along a list that has each of them
    once. *)
Lemma total_charge_NoDup heap l :
  NoDup l -> (forall p, p ∈ l <-> deref heap p <> None) ->
  total_charge heap = charge_of heap l.
Proof.
  revert l. induction heap as [|x heap IH] using rev_ind; intros l Hnd Hl.
  - destruct l as [|p l]; [reflexivity|].
    exfalso. apply (proj1 (Hl p)); [now left|reflexivity].
  - rewrite total_charge_app. cbn [total_charge].
    destruct x as [e|].
    + assert (Hin : length heap ∈ l).
      { apply Hl. rewrite deref_snoc, decide_True by reflexivity. discriminate. }
      apply list_elem_of_split in Hin as (l1 & l2 & ->).
      assert (Hperm : l1 ++ length heap :: l2 ≡ₚ length heap :: (l1 ++ l2))
        by (symmetry; apply Permutation_middle).
      rewrite (charge_of_Permutation _ _ _ Hperm). cbn [charge_of].
      rewrite deref_snoc, decide_True by reflexivity.
      destruct (Permutation_cons_NoDup _ _ _ Hperm Hnd) as (Hnd' & Hnot & Hmem).
      rewrite (charge_of_ext (heap ++ [Some e]) heap).
      * rewrite <- (IH (l1 ++ l2) Hnd'); [lia|].
        intros p. rewrite Hmem, Hl, deref_snoc.
        destruct (decide (p = length heap)) as [->|Hne].
        -- rewrite deref_fresh. split; [intros [_ H]; congruence|congruence].
        -- tauto.
      * intros p Hp. rewrite deref_snoc. destruct (decide (p = length heap)) as [->|];
          [contradiction|reflexivity].
    + assert (Hd : forall p, deref (heap ++ [None]) p = deref heap p).
      { intros p. rewrite deref_snoc. destruct (decide (p = length heap)) as [->|];
          [now rewrite deref_fresh|reflexivity]. }
      rewrite (charge_of_ext _ heap) by (intros p _; apply Hd).
      rewrite <- (IH l Hnd); [lia|]. intros p. now rewrite Hl, Hd.
Qed.

Lemma count_pos_elem p l : (1 <= count p l)%nat -> p ∈ l.
Proof.
  intros H. destruct (decide (p ∈ l)) as [Hin|Hout]; [exact Hin|].
  rewrite count_notin in H by exact Hout. lia.
Qed.

Lemma elem_of_off_list c hs p : p ∈ off_list c hs <-> p ∈ hs /\ (p ∉ lru_ c).
Proof.
  unfold off_list. rewrite elem_of_remove_dups, list_elem_of_filter. tauto.
Qed.

(** The handles that are allocated are the entries of the list and the
    handles that clients hold. *)
Lemma cache_ok_allocated c hs p :
  cache_ok c hs -> (p ∈ lru_ c ++ off_list c hs <-> deref (heap c) p <> None).
Proof.
  intros Hok. destruct (ok_refs _ _ Hok) as [Hrefs Hlive].
  rewrite elem_of_app, elem_of_off_list. split.
  - intros H. apply Hlive, elem_of_app. tauto.
  - intros H. destruct (deref (heap c) p) as [e|] eqn:He; [|congruence].
    destruct (Hrefs p e He) as [Hr Hr1].
    assert (Hin : p ∈ hs ++ lru_ c) by (apply count_pos_elem; lia).
    apply elem_of_app in Hin. destruct (decide (p ∈ lru_ c)); tauto.
Qed.

Lemma cache_ok_charges c hs :
  cache_ok c hs ->
  total_charge (heap c) = charge_of (heap c) (lru_ c) + charge_of (heap c) (off_list c hs).
Proof.
  intros Hok. rewrite <- charge_of_app. apply total_charge_NoDup.
  - apply NoDup_app. split; [exact (ok_lru _ _ Hok)|]. split.
    + intros p Hp Hp'. apply elem_of_off_list in Hp'. tauto.
    + apply NoDup_remove_dups.
  - intros p. now apply cache_ok_allocated.
Qed.

(** *** The examples *)

Lemma NewLRUCache_1 : NewLRUCache 1 = Some cache_new.
Proof. reflexivity. Qed.

Lemma Insert_a :
  Insert cache_new (bytes_of_string "a") 1 100 1 0 = Some (cache_a, O).
Proof. reflexivity. Qed.

Lemma Insert_a_b :
  Insert cache_a (bytes_of_string "b") 2 200 1 0 = Some (cache_a_b, 1%nat).
Proof. reflexivity. Qed.

Lemma Erase_a : Erase cache_a (bytes_of_string "a") 1 = Some cache_a_erased.
Proof. reflexivity. Qed.

Lemma may_hold_nil : may_hold [].
Proof. unfold may_hold. cbn [length]. lia. Qed.

Lemma reachable_cache_new : reachable cache_new [].
Proof. exact (reach_New 1 cache_new NewLRUCache_1). Qed.

Lemma reachable_cache_a : reachable cache_a [O].
Proof.
  eapply reach_Insert;
    [exact reachable_cache_new|exact may_hold_nil| |exact Insert_a].
  cbn. lia.
Qed.

Lemma reachable_cache_a_erased : reachable cache_a_erased [O].
Proof. eapply reach_Erase; [exact reachable_cache_a|exact Erase_a]. Qed.

(** ** C2

    [LRUCache::Insert] takes the entries to evict from the head of the
    one list of the cache, whatever their references.  From a state that
    the clients of the cache reach, [Insert] returns the new handle [e];
    the entry with the same key and hash, if there is one, leaves the
    list; [e] becomes the newest entry, and [usage] is the usage with
    its charge, less the charge of the entry that left when no client
    holds it; then a prefix [evicted] of the list, the oldest entries,
    is taken from the list and from the table, one entry at a time and
    only while the usage is above the capacity: before each of them is
    taken the usage, [usage] less what the entries before it released,
    is above the capacity, and after the last one the usage is within
    the capacity or the list is empty.  The capacity does not change.
    A handle that a client holds is not freed, also when its entry is
    evicted: it stays allocated with the fields it had, one reference
    for each handle held and one more while it is on the list, and its
    charge stays in [usage_]. *)
Theorem C2_Insert_evicts_the_oldest_entries c hs key hash value charge deleter :
  reachable c hs -> may_hold hs -> elems_ (table_ c) < 2 ^ 31 ->
  let e := length (heap c) in
  exists c' l evicted usage,
    Insert c key hash value charge deleter = Some (c', e) /\
    (l = lru_ c /\ absent (heap c) (table_ c) key hash /\
     usage = uint64 (usage_ c + charge) \/
     exists old h, unlink old (lru_ c) = Some l /\
                   deref (heap c) old = Some h /\ has_key h key hash /\
                   usage = uint64 (usage_ c + charge - released (heap c) old)) /\
    l ++ [e] = evicted ++ lru_ c' /\
    (forall n, (n < length evicted)%nat ->
       capacity_ c < uint64 (usage - released_by (heap c) (take n evicted))) /\
    usage_ c' = uint64 (usage - released_by (heap c) evicted) /\
    capacity_ c' = capacity_ c /\
    (usage_ c' <= capacity_ c' \/ lru_ c' = []) /\
    (forall p, p ∈ evicted -> (p ∉ lru_ c') /\ (p ∉ entries (table_ c'))) /\
    (forall p h, p ∈ hs -> deref (heap c) p = Some h ->
       exists h', deref (heap c') p = Some h' /\
         h' = LRUHandle.set_refs h (LRUHandle.refs h') /\
         LRUHandle.refs h' = Z.of_nat (count p hs + count p (lru_ c'))) /\
    usage_ c' = uint64 (total_charge (heap c')).
Proof.
  intros Hreach Hmay Hel e. pose proof (reachable_ok c hs Hreach) as Hok.
  destruct (Insert_spec c hs key hash value charge deleter Hok Hmay Hel)
    as (c' & l & ev & u & HI & Hok' & Hcap & Hexit & Hl & Hev & Hkept & Hbound & Hus).
  fold e in HI, Hok', Hev.
  exists c', l, ev, u. split; [exact HI|]. split; [exact Hl|]. split; [exact Hev|].
  split; [exact Hbound|]. split; [exact Hus|]. split; [exact Hcap|].
  split; [exact Hexit|].
  destruct (ok_refs _ _ Hok') as [Hrefs' Hlive'].
  assert (Hfresh : deref (heap c) e = None) by apply deref_fresh.
  split; [|split; [|exact (ok_usage _ _ Hok')]].
  - intros p Hp.
    assert (Hnd : NoDup (ev ++ lru_ c')).
    { rewrite <- Hev. apply NoDup_app.
      assert (Hel' : e ∉ lru_ c).
      { intros Hin. destruct (cache_ok_listed_live c hs e Hok Hin) as [x Hx]. congruence. }
      clear Hbound Hus. destruct Hl as [[-> _]|(old & h & Hun & _)].
      - split; [exact (ok_lru _ _ Hok)|]. split; [|apply NoDup_singleton].
        intros q Hq Hq'. apply list_elem_of_singleton in Hq' as ->. contradiction.
      - destruct (unlink_NoDup _ _ _ Hun (ok_lru _ _ Hok)) as (Hndl & _ & Hmem).
        split; [exact Hndl|]. split; [|apply NoDup_singleton].
        intros q Hq Hq'. apply list_elem_of_singleton in Hq' as ->.
        apply Hmem in Hq as [Hq _]. contradiction. }
    apply NoDup_app in Hnd as (_ & Hdis & _).
    split; [now apply Hdis|]. rewrite <- (ok_listed _ _ Hok'). now apply Hdis.
  - intros p h Hp Hh.
    assert (Hpe : p <> e) by (intros ->; congruence).
    destruct (deref (heap c') p) as [h'|] eqn:Hh'.
    + exists h'. split; [reflexivity|].
      destruct (Hkept p h' Hh') as (h0 & Hh0 & E).
      rewrite deref_snoc, decide_False in Hh0 by exact Hpe.
      rewrite Hh in Hh0. inversion Hh0; subst h0. split; [exact E|].
      destruct (Hrefs' p h' Hh') as [Hr _]. rewrite Hr.
      cbn [app count]. rewrite decide_False by congruence. now rewrite count_app.
    + exfalso. apply (Hlive' p); [|exact Hh']. apply elem_of_app. left. now right.
Qed.

(** The entry "a" of the example is on the list with two references, one
    of them of the client, when [Insert] of "b" evicts it. *)
Lemma C2_Insert_evicts_a_pinned_entry :
  exists c hs p h c' e,
    reachable c hs /\ p ∈ hs /\ p ∈ lru_ c /\
    deref (heap c) p = Some h /\ LRUHandle.refs h = 2 /\
    Insert c (bytes_of_string "b") 2 200 1 0 = Some (c', e) /\
    (p ∉ lru_ c') /\ (p ∉ entries (table_ c')).
Proof.
  exists cache_a, [O], O, (handle_a 2), cache_a_b, 1%nat.
  split; [exact reachable_cache_a|]. split; [now left|]. split; [now left|].
  split; [reflexivity|]. split; [reflexivity|]. split; [exact Insert_a_b|].
  split; intros H; now apply elem_of_nil in H.
Qed.

Lemma C2_Insert_evicts_the_oldest_entries_witness :
  exists c' l evicted usage,
    Insert cache_a (bytes_of_string "b") 2 200 1 0 = Some (c', 1%nat) /\
    (l = lru_ cache_a /\
       absent (heap cache_a) (table_ cache_a) (bytes_of_string "b") 2 /\
       usage = uint64 (usage_ cache_a + 1) \/
     exists old h, unlink old (lru_ cache_a) = Some l /\
                   deref (heap cache_a) old = Some h /\
                   has_key h (bytes_of_string "b") 2 /\
                   usage = uint64 (usage_ cache_a + 1 - released (heap cache_a) old)) /\
    l ++ [1%nat] = evicted ++ lru_ c' /\
    (forall n, (n < length evicted)%nat ->
       capacity_ cache_a < uint64 (usage - released_by (heap cache_a) (take n evicted))) /\
    usage_ c' = uint64 (usage - released_by (heap cache_a) evicted) /\
    capacity_ c' = capacity_ cache_a /\
    (usage_ c' <= capacity_ c' \/ lru_ c' = []) /\
    (forall p, p ∈ evicted -> (p ∉ lru_ c') /\ (p ∉ entries (table_ c'))) /\
    (forall p h, p ∈ [O] -> deref (heap cache_a) p = Some h ->
       exists h', deref (heap c') p = Some h' /\
         h' = LRUHandle.set_refs h (LRUHandle.refs h') /\
         LRUHandle.refs h' = Z.of_nat (count p [O] + count p (lru_ c'))) /\
    usage_ c' = uint64 (total_charge (heap c')).
Proof.
  apply (C2_Insert_evicts_the_oldest_entries cache_a [O] (bytes_of_string "b") 2 200 1 0).
  - apply (reach_Insert cache_new [] (bytes_of_string "a") 1 100 1 0 cache_a O).
    + exact (reach_New 1 cache_new eq_refl).
    + unfold may_hold. cbn [length]. lia.
    + cbn. lia.
    + reflexivity.
  - unfold may_hold. cbn [length]. lia.
  - cbn. lia.
Defined.

(** ** C5

    The usage counter of the cache counts every handle that is
    allocated, on the list or not.  In every state that the clients of
    the cache reach, [usage_] is, modulo 2^64, the sum of the charges of
    the entries of the one list [lru_] and of the handles that clients
    hold and that are not on the list, those of entries that were
    erased, replaced or evicted; every entry of the list is allocated
    and has one reference more than the handles that clients hold of
    it; every handle off the list has the references of the clients,
    at least one; no other handle is allocated; the list has no entry
    twice and has the entries of the table.  In such a state every
    function of the cache returns. *)
Theorem C5_usage_counts_every_allocated_handle c hs :
  reachable c hs ->
  usage_ c = uint64 (charge_of (heap c) (lru_ c) + charge_of (heap c) (off_list c hs)) /\
  (forall p, p ∈ lru_ c ->
     exists e, deref (heap c) p = Some e /\
               LRUHandle.refs e = Z.of_nat (count p hs) + 1) /\
  (forall p, p ∈ off_list c hs ->
     exists e, deref (heap c) p = Some e /\
               LRUHandle.refs e = Z.of_nat (count p hs) /\ 1 <= LRUHandle.refs e) /\
  (forall p e, deref (heap c) p = Some e -> p ∈ lru_ c \/ p ∈ off_list c hs) /\
  NoDup (lru_ c) /\
  (forall p, p ∈ lru_ c <-> p ∈ entries (table_ c)) /\
  (forall key hash, exists r, Lookup c key hash = Some r) /\
  (forall key hash, exists c', Erase c key hash = Some c') /\
  (exists c', Prune c = Some c') /\
  (forall handle, handle ∈ hs -> exists c', Release c handle = Some c') /\
  (may_hold hs -> elems_ (table_ c) < 2 ^ 31 ->
   forall key hash value charge deleter,
     exists r, Insert c key hash value charge deleter = Some r).
Proof.
  intros Hreach. pose proof (reachable_ok c hs Hreach) as Hok.
  destruct (ok_refs _ _ Hok) as [Hrefs Hlive].
  split; [|split; [|split; [|split; [|split; [|split; [|split; [|split;
    [|split; [|split]]]]]]]]].
  - rewrite (ok_usage _ _ Hok). f_equal. now apply cache_ok_charges.
  - intros p Hp. destruct (cache_ok_listed_live c hs p Hok Hp) as [e He].
    exists e. split; [exact He|]. destruct (Hrefs p e He) as [Hr _].
    rewrite Hr, count_app, (count_NoDup p (lru_ c)) by (exact (ok_lru _ _ Hok) || exact Hp).
    lia.
  - intros p Hp. apply elem_of_off_list in Hp as [Hp Hout].
    destruct (deref (heap c) p) as [e|] eqn:He.
    + exists e. split; [reflexivity|]. destruct (Hrefs p e He) as [Hr Hr1].
      rewrite count_app, (count_notin p (lru_ c)) in Hr by exact Hout.
      rewrite Nat.add_0_r in Hr. split; [exact Hr|exact Hr1].
    + exfalso. apply (Hlive p); [|exact He]. apply elem_of_app. now left.
  - intros p e He. apply elem_of_app, (cache_ok_allocated c hs p Hok). congruence.
  - exact (ok_lru _ _ Hok).
  - exact (ok_listed _ _ Hok).
  - intros key hash. destruct (Lookup_spec c hs key hash Hok) as (c' & r & HL & _). eauto.
  - intros key hash. destruct (Erase_spec c hs key hash Hok) as (c' & HE & _). eauto.
  - destruct (Prune_spec c hs Hok) as (c' & HP & _). eauto.
  - intros handle Hh. destruct (unlink_elem _ _ Hh) as [hs' Hun].
    destruct (Release_spec c hs handle hs' Hok (unlink_Permutation _ _ _ Hun))
      as (c' & HR & _). eauto.
  - intros Hmay Hel key hash value charge deleter.
    destruct (Insert_spec c hs key hash value charge deleter Hok Hmay Hel)
      as (c' & l & ev & u & HI & _). eauto.
Qed.

(** After [Insert] and [Erase] of "a" the list is empty, and the charge
    of the handle that the client holds is in [usage_]. *)
Lemma C5_usage_is_not_the_charge_of_the_list :
  ~ (forall c hs, reachable c hs -> usage_ c = charge_of (heap c) (lru_ c)).
Proof.
  intros H. specialize (H cache_a_erased [O] reachable_cache_a_erased).
  discriminate H.
Qed.

Lemma C5_usage_counts_every_allocated_handle_witness :
  usage_ cache_a_erased
  = uint64 (charge_of (heap cache_a_erased) (lru_ cache_a_erased)
            + charge_of (heap cache_a_erased) (off_list cache_a_erased [O])) /\
  usage_ cache_a_erased = 1 /\ lru_ cache_a_erased = [] /\
  off_list cache_a_erased [O] = [O].
Proof.
  split; [|split; [reflexivity|split; reflexivity]].
  apply (C5_usage_counts_every_allocated_handle cache_a_erased [O]).
  apply (reach_Erase cache_a [O] (bytes_of_string "a") 1 cache_a_erased); [|reflexivity].
  apply (reach_Insert cache_new [] (bytes_of_string "a") 1 100 1 0 cache_a O).
  - exact (reach_New 1 cache_new eq_refl).
  - unfold may_hold. cbn [length]. lia.
  - cbn. lia.
  - reflexivity.
Defined.

End CacheFacts.

Module VarintFacts.
Import Coding CodingFacts TableBuilder WriteBatchFacts.

Lemma lor_lt_pow2 a b k :
  0 <= a < 2 ^ k -> 0 <= b < 2 ^ k -> 0 <= Z.lor a b < 2 ^ k.
Proof.
  intros Ha Hb. split; [apply Z.lor_nonneg; lia|].
  destruct (Z.eq_dec (Z.lor a b) 0) as [->|Hz]; [lia|].
  assert (Hk : 0 < k).
  { destruct (Z.lt_ge_cases 0 k) as [H|H]; [exact H|].
    assert (k = 0 \/ k < 0) as [->|Hn] by lia.
    - change (2 ^ 0) with 1 in *. assert (a = 0) by lia. assert (b = 0) by lia.
      subst. now rewrite Z.lor_0_l in Hz.
    - rewrite Z.pow_neg_r in Ha by lia. lia. }
  assert (Hnn : 0 <= Z.lor a b) by (apply Z.lor_nonneg; lia).
  apply Z.log2_lt_pow2; [lia|].
  rewrite Z.log2_lor by lia.
  apply Z.max_lub_lt.
  - destruct (Z.eq_dec a 0) as [->|Ha0]; [now rewrite Z.log2_nonpos by lia|].
    apply Z.log2_lt_pow2; lia.
  - destruct (Z.eq_dec b 0) as [->|Hb0]; [now rewrite Z.log2_nonpos by lia|].
    apply Z.log2_lt_pow2; lia.
Qed.

Lemma uint32_range v : 0 <= uint32 v < 2 ^ 32.
Proof. unfold uint32. apply Z.mod_pos_bound. lia. Qed.

(** The loop of [GetVarint32PtrFallback], [n] turns before [shift]
    exceeds 28. *)
Lemma GetVarint32_loop_spec (n : nat) : forall p shift result,
  shift = 35 - 7 * Z.of_nat n -> 0 <= result < 2 ^ 32 ->
  match GetVarint32PtrFallback_loop shift result p with
  | None => Forall continues (firstn n p)
  | Some (v, rest) =>
      0 <= v < 2 ^ 32 /\
      exists m, (m < n)%nat /\ (m < length p)%nat /\
        Forall continues (firstn m p) /\ ~ continues (nth m p 0) /\
        rest = skipn (S m) p
  end.
Proof.
  induction n as [|n IH]; intros p shift result Hs Hr.
  - destruct p; cbn [GetVarint32PtrFallback_loop];
      (destruct (Z.leb_spec shift 28); [lia|]); cbn [firstn]; constructor.
  - destruct p as [|b p]; cbn [GetVarint32PtrFallback_loop].
    + destruct (shift <=? 28); cbn [firstn]; constructor.
    + destruct (Z.leb_spec shift 28); [|lia].
      destruct (Z.eqb_spec (Z.land b 128) 0) as [E|E]; cbn [negb].
      * split; [apply lor_lt_pow2; [exact Hr|apply uint32_range]|].
        exists O. cbn [firstn nth skipn length].
        split; [lia|]. split; [lia|]. split; [constructor|].
        split; [|reflexivity]. unfold continues. lia.
      * specialize (IH p (shift + 7)
                      (Z.lor result (uint32 (Z.shiftl (Z.land b 127) shift)))
                      ltac:(lia)
                      ltac:(apply lor_lt_pow2; [exact Hr|apply uint32_range])).
        destruct (GetVarint32PtrFallback_loop (shift + 7) _ p) as [[v rest]|].
        -- destruct IH as (Hv & m & Hm & Hl & Hc & Hlast & ->).
           split; [exact Hv|]. exists (S m). cbn [firstn nth skipn length].
           split; [lia|]. split; [lia|]. split; [now constructor|]. now split.
        -- cbn [firstn]. now constructor.
Qed.

Lemma GetVarint64_loop_more a shift result p :
  0 <= a < 128 -> shift <= 63 ->
  GetVarint64Ptr_loop shift result ((a + 128) :: p) =
  GetVarint64Ptr_loop (shift + 7)
    (Z.lor result (uint64 (Z.shiftl a shift))) p.
Proof.
  intros Ha Hs. cbn [GetVarint64Ptr_loop].
  destruct (Z.leb_spec shift 63); [|lia].
  now rewrite land128_high, land127_high.
Qed.

Lemma GetVarint64_loop_last a shift result p :
  0 <= a < 128 -> shift <= 63 ->
  GetVarint64Ptr_loop shift result (a :: p) =
  Some (Z.lor result (uint64 (Z.shiftl a shift)), p).
Proof.
  intros Ha Hs. cbn [GetVarint64Ptr_loop].
  destruct (Z.leb_spec shift 63); [|lia].
  now rewrite land128_low.
Qed.

Lemma lor_uint64_shiftl_add r a s :
  0 <= s -> 0 <= r < 2 ^ s -> 0 <= a -> a * 2 ^ s < 2 ^ 64 ->
  Z.lor r (uint64 (Z.shiftl a s)) = r + a * 2 ^ s.
Proof.
  intros Hs Hr Ha Hb. unfold uint64.
  rewrite Z.mod_small.
  - now apply lor_shiftl_add.
  - rewrite Z.shiftl_mul_pow2 by lia. split; [|lia].
    apply Z.mul_nonneg_nonneg; lia.
Qed.

Lemma EncodeVarint64_loop_S fuel v :
  EncodeVarint64_loop (S fuel) v =
  if v >=? 128 then
    uint8 (Z.lor (Z.land v 127) 128) :: EncodeVarint64_loop fuel (Z.shiftr v 7)
  else [uint8 v].
Proof. reflexivity. Qed.

Lemma land127 v : 0 <= v -> Z.land v 127 = v mod 128.
Proof. intros _. change 127 with (Z.ones 7). now rewrite Z.land_ones by lia. Qed.

(** Decoding the bytes that the loop of [EncodeVarint64] writes for
    [v], from the turn with [shift] on. *)
Lemma GetVarint64_loop_Encode fuel : forall v shift result rest,
  0 <= shift <= 63 -> 0 <= result < 2 ^ shift ->
  0 <= v < 128 ^ Z.of_nat (S fuel) -> v * 2 ^ shift < 2 ^ 64 ->
  GetVarint64Ptr_loop shift result (EncodeVarint64_loop fuel v ++ rest)
  = Some (result + v * 2 ^ shift, rest).
Proof.
  induction fuel as [|fuel IH]; intros v shift result rest Hs Hr Hv Hb.
  - cbn [EncodeVarint64_loop app].
    change (128 ^ Z.of_nat 1) with 128 in Hv.
    rewrite uint8_small by lia.
    rewrite GetVarint64_loop_last by lia.
    now rewrite lor_uint64_shiftl_add by lia.
  - rewrite EncodeVarint64_loop_S.
    destruct (Z.geb_spec v 128) as [Hge|Hlt]; cbn [app].
    + rewrite uint8_lor128, land127, Z.mod_mod by lia.
      assert (Hm : 0 <= v mod 128 < 128) by (apply Z.mod_pos_bound; lia).
      assert (Hp : 0 < 2 ^ shift) by (apply Z.pow_pos_nonneg; lia).
      assert (Hs7 : shift + 7 <= 63).
      { destruct (Z.le_gt_cases (shift + 7) 63) as [H|H]; [exact H|exfalso].
        assert (2 ^ 64 <= 2 ^ (shift + 7)) by (apply Z.pow_le_mono_r; lia).
        rewrite Z.pow_add_r in * by lia. change (2 ^ 7) with 128 in *. nia. }
      rewrite GetVarint64_loop_more by lia.
      rewrite lor_uint64_shiftl_add by (try lia; nia).
      rewrite Z.shiftr_div_pow2 by lia. change (2 ^ 7) with 128.
      assert (Hd : v = 128 * (v / 128) + v mod 128) by (apply Z.div_mod; lia).
      assert (Hq : 0 <= v / 128) by (apply Z.div_pos; lia).
      assert (Hpow : 2 ^ (shift + 7) = 2 ^ shift * 128)
        by (rewrite Z.pow_add_r by lia; reflexivity).
      rewrite IH.
      * f_equal. f_equal. rewrite Hpow. nia.
      * lia.
      * rewrite Hpow. nia.
      * split; [exact Hq|].
        apply Z.div_lt_upper_bound; [lia|].
        replace (Z.of_nat (S (S fuel))) with (Z.of_nat (S fuel) + 1) in Hv by lia.
        rewrite Z.pow_add_r in Hv by lia. change (128 ^ 1) with 128 in Hv. lia.
      * rewrite Hpow. nia.
    + rewrite uint8_small by lia.
      rewrite GetVarint64_loop_last by lia.
      now rewrite lor_uint64_shiftl_add by lia.
Qed.

Lemma VarintLength_loop_ge fuel : forall v len, len <= VarintLength_loop fuel v len.
Proof.
  induction fuel as [|fuel IH]; intros v len; cbn [VarintLength_loop]; [lia|].
  destruct (v >=? 128); [|lia]. specialize (IH (Z.shiftr v 7) (len + 1)). lia.
Qed.

Lemma VarintLength_loop_le fuel : forall (m : nat) v len,
  (m < fuel)%nat -> 0 <= v ->
  (VarintLength_loop fuel v len <= len + Z.of_nat m <-> v < 128 * 128 ^ Z.of_nat m).
Proof.
  induction fuel as [|fuel IH]; intros m v len Hm Hv; [lia|].
  cbn [VarintLength_loop].
  assert (Hp : 0 < 128 ^ Z.of_nat m) by (apply Z.pow_pos_nonneg; lia).
  destruct (Z.geb_spec v 128) as [Hge|Hlt].
  - rewrite Z.shiftr_div_pow2 by lia. change (2 ^ 7) with 128.
    destruct m as [|m].
    + pose proof (VarintLength_loop_ge fuel (v / 128) (len + 1)).
      change (128 ^ Z.of_nat 0) with 1. lia.
    + specialize (IH m (v / 128) (len + 1) ltac:(lia) ltac:(apply Z.div_pos; lia)).
      replace (Z.of_nat (S m)) with (Z.of_nat m + 1) by lia.
      rewrite Z.pow_add_r by lia. change (128 ^ 1) with 128.
      assert (Hp' : 0 < 128 ^ Z.of_nat m) by (apply Z.pow_pos_nonneg; lia).
      split; intros H.
      * assert (Hq : v / 128 < 128 * 128 ^ Z.of_nat m) by (apply IH; lia).
        pose proof (Z.div_mod v 128 ltac:(lia)).
        pose proof (Z.mod_pos_bound v 128 ltac:(lia)). lia.
      * assert (Hq : v / 128 < 128 * 128 ^ Z.of_nat m)
          by (apply Z.div_lt_upper_bound; lia).
        apply IH in Hq. lia.
  - split; intros _; [nia|lia].
Qed.

Lemma EncodeVarint64_loop_length fuel : forall v len,
  slen (EncodeVarint64_loop fuel v) + len = VarintLength_loop fuel v (len + 1).
Proof.
  induction fuel as [|fuel IH]; intros v len.
  - cbn [EncodeVarint64_loop VarintLength_loop]. unfold slen. cbn [length]. lia.
  - rewrite EncodeVarint64_loop_S. cbn [VarintLength_loop].
    destruct (v >=? 128); [|unfold slen; cbn [length]; lia].
    rewrite <- IH. unfold slen. cbn [length]. lia.
Qed.

(** X1: [GetVarint32] undoes [PutVarint32]: what follows the varint in
    the buffer is left as the input, and the varint has from one to
    five bytes. *)
Theorem GetVarint32_PutVarint32 (dst rest : list Z) (v : Z) :
  0 <= v < 2 ^ 32 ->
  exists enc, PutVarint32 dst v = dst ++ enc /\
    GetVarint32 (enc ++ rest) = Some (v, rest) /\
    1 <= slen enc <= 5 /\ bytes enc.
Proof.
  intros Hv. exists (EncodeVarint32 v). split; [reflexivity|].
  split; [now apply GetVarint32_EncodeVarint32|].
  unfold EncodeVarint32, bytes, slen.
  repeat match goal with |- context [ ?a <? ?b ] => destruct (a <? b) end;
    cbn [length]; (split; [lia|]);
    repeat constructor; unfold is_byte, uint8; apply Z.mod_pos_bound; lia.
Qed.

Lemma GetVarint32_PutVarint32_witness :
  exists enc, PutVarint32 [7] 300 = [7] ++ enc /\
    GetVarint32 (enc ++ [9]) = Some (300, [9]) /\
    1 <= slen enc <= 5 /\ bytes enc.
Proof. apply (GetVarint32_PutVarint32 [7] [9] 300). lia. Defined.

(** X2: [GetVarint32] fails exactly when none of the first five bytes of
    the input (of all its bytes, when there are fewer) ends a varint;
    otherwise it takes the bytes up to the first one without the bit
    128, at most five, and the value fits 32 bits. *)
Theorem GetVarint32_fails_or_consumes (input : list Z) :
  match GetVarint32 input with
  | None => Forall continues (firstn 5 input)
  | Some (v, rest) =>
      0 <= v < 2 ^ 32 /\
      exists m, (m < 5)%nat /\ (m < length input)%nat /\
        Forall continues (firstn m input) /\ ~ continues (nth m input 0) /\
        rest = skipn (S m) input
  end.
Proof.
  unfold GetVarint32, GetVarint32Ptr, GetVarint32PtrFallback.
  apply (GetVarint32_loop_spec 5); [reflexivity|lia].
Qed.

(** X3: [GetVarint64] undoes [PutVarint64] for every [uint64_t]. *)
Theorem GetVarint64_PutVarint64 (dst rest : list Z) (v : Z) :
  0 <= v < 2 ^ 64 ->
  exists enc, PutVarint64 dst v = dst ++ enc /\
    GetVarint64 (enc ++ rest) = Some (v, rest).
Proof.
  intros Hv. exists (EncodeVarint64 v). split; [reflexivity|].
  unfold GetVarint64, GetVarint64Ptr, EncodeVarint64.
  rewrite GetVarint64_loop_Encode; [f_equal; f_equal; lia|lia|lia| |lia].
  change (128 ^ Z.of_nat 11) with (2 ^ 77).
  split; [lia|]. apply Z.lt_trans with (2 ^ 64); [lia|reflexivity].
Qed.

Lemma GetVarint64_PutVarint64_witness :
  exists enc, PutVarint64 [7] (2 ^ 63 + 5) = [7] ++ enc /\
    GetVarint64 (enc ++ [9]) = Some (2 ^ 63 + 5, [9]).
Proof. apply (GetVarint64_PutVarint64 [7] [9] (2 ^ 63 + 5)). lia. Defined.

(** X4: [VarintLength (v)] is the number of bytes that [EncodeVarint64]
    writes for [v]: the least [n], from 1 to 10, with [v < 2 ^ (7 n)].
    For a value of 32 bits [EncodeVarint32] writes the same bytes. *)
Theorem VarintLength_EncodeVarint64 (v : Z) :
  0 <= v < 2 ^ 64 ->
  slen (EncodeVarint64 v) = VarintLength v /\
  1 <= VarintLength v <= 10 /\
  (forall n, 1 <= n <= 10 -> (VarintLength v <= n <-> v < 2 ^ (7 * n))) /\
  (v < 2 ^ 32 -> EncodeVarint32 v = EncodeVarint64 v).
Proof.
  intros Hv. unfold VarintLength, EncodeVarint64.
  split; [|split; [|split]].
  - pose proof (EncodeVarint64_loop_length 10 v 0) as H. rewrite Z.add_0_r in H. exact H.
  - split; [apply VarintLength_loop_ge|].
    apply (VarintLength_loop_le 10 9 v 1); [lia|lia|].
    apply Z.lt_trans with (2 ^ 64); [lia|reflexivity].
  - intros n Hn.
    pose proof (VarintLength_loop_le 10 (Z.to_nat (n - 1)) v 1 ltac:(lia) ltac:(lia)) as H.
    replace (1 + Z.of_nat (Z.to_nat (n - 1))) with n in H by lia.
    rewrite H.
    replace (7 * n) with (7 + 7 * Z.of_nat (Z.to_nat (n - 1))) by lia.
    rewrite Z.pow_add_r, Z.pow_mul_r by lia. reflexivity.
  - intros H32. unfold EncodeVarint32.
    change (2 ^ 7) with 128. change (2 ^ 14) with 16384.
    change (2 ^ 21) with 2097152. change (2 ^ 28) with 268435456.
    change (2 ^ 32) with 4294967296 in H32.
    rewrite !EncodeVarint64_loop_S.
    rewrite !Z.shiftr_shiftr by lia. cbn [Z.add Pos.add Pos.succ].
    rewrite !uint8_lor128, !land127 by (try apply Z.shiftr_nonneg; lia).
    rewrite !Z.mod_mod by lia.
    rewrite !Z.shiftr_div_pow2 by lia.
    change (2 ^ 7) with 128. change (2 ^ 14) with 16384.
    change (2 ^ 21) with 2097152. change (2 ^ 28) with 268435456.
    change (2 ^ 35) with 34359738368.
    repeat match goal with
    | |- context [ ?a <? ?b ] => destruct (Z.ltb_spec a b)
    | |- context [ ?a >=? ?b ] => destruct (Z.geb_spec a b)
    end; try reflexivity; exfalso; Z.to_euclidean_division_equations; lia.
Qed.

Lemma VarintLength_EncodeVarint64_witness :
  slen (EncodeVarint64 300) = VarintLength 300 /\
  1 <= VarintLength 300 <= 10 /\
  (forall n, 1 <= n <= 10 -> (VarintLength 300 <= n <-> 300 < 2 ^ (7 * n))) /\
  (300 < 2 ^ 32 -> EncodeVarint32 300 = EncodeVarint64 300).
Proof. apply (VarintLength_EncodeVarint64 300). lia. Defined.

(** X5: [GetLengthPrefixedSlice] undoes [PutLengthPrefixedSlice] for a
    slice of fewer than 2^32 bytes, whatever follows it; the version
    that works on a pair of pointers returns the same on every input. *)
Theorem GetLengthPrefixedSlice_PutLengthPrefixedSlice (dst value rest : list Z) :
  slen value < 2 ^ 32 ->
  (exists enc, PutLengthPrefixedSlice dst value = dst ++ enc /\
     GetLengthPrefixedSlice (enc ++ rest) = Some (value, rest)) /\
  (forall p, GetLengthPrefixedSlice_ptr p = GetLengthPrefixedSlice p).
Proof.
  intros Hv. split.
  - exists (EncodeVarint32 (uint32 (slen value)) ++ value). split.
    + unfold PutLengthPrefixedSlice, PutVarint32. now rewrite <- app_assoc.
    + rewrite <- app_assoc. now apply GetLengthPrefixedSlice_Put.
  - intros p. unfold GetLengthPrefixedSlice_ptr, GetLengthPrefixedSlice, GetVarint32.
    destruct (GetVarint32Ptr p) as [[len p']|]; [|reflexivity].
    destruct (Z.gtb_spec len (slen p')), (Z.geb_spec (slen p') len); (reflexivity || lia).
Qed.

Lemma GetLengthPrefixedSlice_PutLengthPrefixedSlice_witness :
  (exists enc, PutLengthPrefixedSlice [1] [10; 20; 30] = [1] ++ enc /\
     GetLengthPrefixedSlice (enc ++ [2]) = Some ([10; 20; 30], [2])) /\
  (forall p, GetLengthPrefixedSlice_ptr p = GetLengthPrefixedSlice p).
Proof.
  apply (GetLengthPrefixedSlice_PutLengthPrefixedSlice [1] [10; 20; 30] [2]).
  vm_compute. reflexivity.
Defined.

End VarintFacts.

Module BatchFacts.
Import Coding CodingFacts WriteBatch WriteBatchFacts.

Lemma GetVarint32_loop_app more : forall p shift result v rest,
  GetVarint32PtrFallback_loop shift result p = Some (v, rest) ->
  GetVarint32PtrFallback_loop shift result (p ++ more) = Some (v, rest ++ more).
Proof.
  induction p as [|b p IH]; intros shift result v rest; cbn [GetVarint32PtrFallback_loop app].
  - destruct (shift <=? 28); discriminate.
  - destruct (shift <=? 28); [|discriminate].
    destruct (negb (Z.land b 128 =? 0)).
    + apply IH.
    + intros H. injection H as <- <-. reflexivity.
Qed.

Lemma GetLengthPrefixedSlice_app input key rest more :
  GetLengthPrefixedSlice input = Some (key, rest) ->
  GetLengthPrefixedSlice (input ++ more) = Some (key, rest ++ more).
Proof.
  unfold GetLengthPrefixedSlice, GetVarint32, GetVarint32Ptr, GetVarint32PtrFallback.
  destruct (GetVarint32PtrFallback_loop 0 0 input) as [[len input']|] eqn:E; [|discriminate].
  rewrite (GetVarint32_loop_app more _ _ _ _ _ E).
  destruct (Z.geb_spec (slen input') len) as [Hge|]; [|discriminate].
  intros H. injection H as <- <-.
  assert (Hl : (Z.to_nat len <= length input')%nat) by (unfold slen in Hge; lia).
  unfold slen. rewrite length_app.
  destruct (Z.geb_spec (Z.of_nat (length input' + length more)) len); [|unfold slen in Hge; lia].
  rewrite firstn_app, skipn_app.
  replace (Z.to_nat len - length input')%nat with O by lia.
  cbn [firstn skipn]. now rewrite app_nil_r.
Qed.

Lemma Record_at_app input c rest more :
  Record_at input c rest -> Record_at (input ++ more) c (rest ++ more).
Proof.
  intros [i key i1 value i2 H1 H2|i key i1 H1]; cbn [app].
  - eapply Record_value; apply GetLengthPrefixedSlice_app; eassumption.
  - eapply Record_deletion; apply GetLengthPrefixedSlice_app; eassumption.
Qed.

Lemma Records_app input cs input' cs' :
  Records input cs -> Records input' cs' -> Records (input ++ input') (cs ++ cs').
Proof.
  intros H H'. induction H as [|input c rest cs HR HRs IH]; [exact H'|].
  cbn [app]. eapply Records_cons; [apply Record_at_app; eassumption|exact IH].
Qed.

Lemma Records_encode_call c : call_ok c -> Records (encode_call c) [c].
Proof.
  intros Hc. eapply Records_cons; [|constructor].
  destruct c as [key value|key]; cbn [encode_call app].
  - destruct Hc as (_ & _ & Hk & Hv).
    eapply Record_value; [now apply GetLengthPrefixedSlice_Put|].
    pose proof (GetLengthPrefixedSlice_Put value [] Hv) as H.
    rewrite app_nil_r in H. exact H.
  - destruct Hc as (_ & Hk).
    eapply Record_deletion.
    pose proof (GetLengthPrefixedSlice_Put key [] Hk) as H.
    rewrite app_nil_r in H. exact H.
Qed.

(** A batch of at least [kHeader] bytes is its sequence field, its
    count field and its records. *)
Lemma rep_layout rep :
  kHeader <= slen rep ->
  exists hdr cnt,
    length hdr = 8%nat /\ length cnt = 4%nat /\
    rep = hdr ++ cnt ++ skipn (Z.to_nat kHeader) rep /\
    forall n, SetCount rep n = hdr ++ EncodeFixed32 n ++ skipn (Z.to_nat kHeader) rep.
Proof.
  intros Hl. unfold kHeader, slen in Hl.
  exists (firstn 8 rep), (firstn 4 (skipn 8 rep)).
  split; [rewrite length_firstn; lia|].
  split; [rewrite length_firstn, length_skipn; lia|].
  split.
  - change (Z.to_nat kHeader) with (4 + 8)%nat. rewrite <- skipn_skipn.
    now rewrite !firstn_skipn.
  - intros n. reflexivity.
Qed.

Lemma skipn_header (hdr cnt body : list Z) :
  length hdr = 8%nat -> length cnt = 4%nat ->
  skipn (Z.to_nat kHeader) (hdr ++ cnt ++ body) = body.
Proof.
  intros Hh Hc. change (Z.to_nat kHeader) with 12%nat.
  rewrite app_assoc, skipn_app.
  rewrite skipn_all2 by (rewrite length_app; lia).
  rewrite length_app, Hh, Hc. reflexivity.
Qed.

Lemma skipn_8 (hdr rest : list Z) :
  length hdr = 8%nat -> skipn 8 (hdr ++ rest) = rest.
Proof.
  intros Hh. rewrite skipn_app, skipn_all2 by lia. now rewrite Hh.
Qed.

Lemma slen_header (hdr cnt body : list Z) :
  length hdr = 8%nat -> length cnt = 4%nat ->
  slen (hdr ++ cnt ++ body) = kHeader + slen body.
Proof. intros Hh Hc. unfold slen, kHeader. rewrite !length_app. lia. Qed.

Lemma length_EncodeFixed32 n : length (EncodeFixed32 n) = 4%nat.
Proof. reflexivity. Qed.

Lemma Sequence_header (hdr cnt cnt' body body' : list Z) :
  length hdr = 8%nat ->
  Sequence (hdr ++ cnt ++ body) = Sequence (hdr ++ cnt' ++ body').
Proof.
  intros Hh. unfold Sequence, DecodeFixed64, DecodeFixed32.
  do 8 (destruct hdr as [|? hdr]; [discriminate|]).
  destruct hdr; [|discriminate]. reflexivity.
Qed.

(** [Iterate] returns OK exactly on a header followed by records whose
    number is the stored count. *)
Lemma Iterate_OK_iff {St : Type} (handler : Handler St) rep h h' :
  Iterate handler rep h = Some (OK, h') <->
  kHeader <= slen rep /\
  exists cs, Records (skipn (Z.to_nat kHeader) rep) cs /\
             Z.of_nat (length cs) = Count rep /\
             h' = fold_left (call_handler handler) cs h.
Proof.
  unfold Iterate. destruct (Z.ltb_spec (slen rep) kHeader) as [Hlt|Hge].
  - split; [discriminate|]. intros [Hc _]. lia.
  - set (input := skipn (Z.to_nat kHeader) rep). split.
    + intros E.
      destruct (Records_or_Malformed (length input) input (le_n _))
        as [(cs & HR)|(cs & msg0 & HM)].
      * rewrite (Iterate_loop_Records handler input cs _ 0 h HR (le_n _)) in E.
        rewrite Z.add_0_l in E.
        destruct (Z.eqb_spec (Z.of_nat (length cs)) (Count rep)) as [Heq|Hne];
          cbn [negb] in E; [|discriminate].
        injection E as <-. split; [exact Hge|]. exists cs. now repeat split.
      * rewrite (Iterate_loop_Malformed handler input cs msg0 _ 0 h HM (le_n _)) in E.
        discriminate.
    + intros (_ & cs & HR & Hn & ->).
      rewrite (Iterate_loop_Records handler input cs _ 0 h HR (le_n _)).
      rewrite Z.add_0_l.
      destruct (Z.eqb_spec (Z.of_nat (length cs)) (Count rep)); [reflexivity|contradiction].
Qed.

(** X6: on every batch of at least 12 bytes, [SetSequence] and
    [SetCount] store what [Sequence] and [Count] then return, they
    change neither one another's field nor the records, and the batch
    keeps its size. *)
Theorem header_fields (rep : list Z) (seq n : Z) :
  kHeader <= slen rep -> 0 <= seq < 2 ^ 64 -> - 2 ^ 31 <= n < 2 ^ 31 ->
  Sequence (SetSequence rep seq) = seq /\
  Count (SetSequence rep seq) = Count rep /\
  Count (SetCount rep n) = n /\
  Sequence (SetCount rep n) = Sequence rep /\
  skipn (Z.to_nat kHeader) (SetSequence rep seq) = skipn (Z.to_nat kHeader) rep /\
  skipn (Z.to_nat kHeader) (SetCount rep n) = skipn (Z.to_nat kHeader) rep /\
  slen (SetSequence rep seq) = slen rep /\
  slen (SetCount rep n) = slen rep.
Proof.
  intros Hl Hs Hn.
  destruct (rep_layout rep Hl) as (hdr & cnt & Hh & Hc & Hrep & HS).
  set (body := skipn (Z.to_nat kHeader) rep) in *. clearbody body.
  assert (HQ : SetSequence rep seq = EncodeFixed64 seq ++ cnt ++ body).
  { unfold SetSequence. rewrite Hrep.
    rewrite skipn_app, skipn_all2 by lia. rewrite Hh. reflexivity. }
  rewrite HS, HQ. clear HS HQ Hl. subst rep.
  split; [|split; [|split; [|split; [|split; [|split; [|split]]]]]].
  - unfold Sequence. rewrite DecodeFixed64_Encode. apply Z.mod_small. lia.
  - unfold Count. now rewrite !skipn_8 by (assumption || reflexivity).
  - unfold Count. rewrite skipn_8 by assumption. rewrite DecodeFixed32_Encode.
    unfold int32_of_uint32.
    destruct (Z.lt_ge_cases n 0) as [Hneg|Hpos].
    + replace (n mod 2 ^ 32) with (n + 2 ^ 32).
      * destruct (Z.ltb_spec (n + 2 ^ 32) (2 ^ 31)); lia.
      * apply Z.mod_unique with (-1); lia.
    + rewrite Z.mod_small by lia. destruct (Z.ltb_spec n (2 ^ 31)); lia.
  - now apply Sequence_header.
  - now apply skipn_header.
  - apply skipn_header; [exact Hh|reflexivity].
  - rewrite !slen_header; (reflexivity || assumption).
  - rewrite !slen_header; (reflexivity || assumption).
Qed.

Lemma header_fields_witness :
  Sequence (SetSequence S3_batch 77) = 77 /\
  Count (SetSequence S3_batch 77) = Count S3_batch /\
  Count (SetCount S3_batch 5) = 5 /\
  Sequence (SetCount S3_batch 5) = Sequence S3_batch /\
  skipn (Z.to_nat kHeader) (SetSequence S3_batch 77) = skipn (Z.to_nat kHeader) S3_batch /\
  skipn (Z.to_nat kHeader) (SetCount S3_batch 5) = skipn (Z.to_nat kHeader) S3_batch /\
  slen (SetSequence S3_batch 77) = slen S3_batch /\
  slen (SetCount S3_batch 5) = slen S3_batch.
Proof.
  apply (header_fields S3_batch 77 5); [vm_compute; discriminate|lia|lia].
Defined.

(** X7: [Put] and [Delete] on any batch that [Iterate] accepts, built
    here or received through [SetContents], give a batch that [Iterate]
    accepts: the handler receives the calls of the old batch and then
    the new one.  The count must stay below 2^31 and the slices below
    2^32 bytes. *)
Theorem Put_Delete_extend {St : Type} (handler : Handler St)
    (contents rep : list Z) (h h' : St) (c : Call) :
  SetContents contents = Some rep ->
  Iterate handler rep h = Some (OK, h') ->
  Count rep + 1 < 2 ^ 31 -> call_ok c ->
  Iterate handler (apply_call rep c) h = Some (OK, call_handler handler h' c) /\
  Count (apply_call rep c) = Count rep + 1 /\
  Sequence (apply_call rep c) = Sequence rep.
Proof.
  intros HSC HI Hn Hc.
  unfold SetContents in HSC. destruct (slen contents >=? kHeader); [|discriminate].
  injection HSC as ->.
  apply Iterate_OK_iff in HI as (Hl & cs & HR & Hcount & ->).
  destruct (rep_layout rep Hl) as (hdr & cnt & Hh & Hcn & Hrep & HS).
  set (body := skipn (Z.to_nat kHeader) rep) in *. clearbody body.
  assert (HA : apply_call rep c
               = hdr ++ EncodeFixed32 (Count rep + 1) ++ body ++ encode_call c).
  { destruct c as [key value|key]; cbn [apply_call]; unfold Put, Delete.
    all: rewrite HS; unfold PutLengthPrefixedSlice, PutVarint32, encode_call.
    all: now rewrite <- ?app_assoc. }
  rewrite HA. clear HA HS.
  assert (HC : Count (hdr ++ EncodeFixed32 (Count rep + 1) ++ body ++ encode_call c)
               = Count rep + 1) by (apply Count_layout; [exact Hh|lia]).
  split; [|split; [exact HC|]].
  - apply Iterate_OK_iff. split.
    + rewrite slen_header by (reflexivity || assumption).
      unfold slen, kHeader. lia.
    + exists (cs ++ [c]). rewrite skipn_header by (reflexivity || assumption).
      split; [apply Records_app; [exact HR|now apply Records_encode_call]|].
      split; [rewrite HC, length_app; cbn [length]; lia|].
      rewrite fold_left_app. reflexivity.
  - transitivity (Sequence (hdr ++ cnt ++ body)); [now apply Sequence_header|now rewrite <- Hrep].
Qed.

Lemma Put_Delete_extend_witness :
  Iterate Recorder (apply_call S3_batch (CallDelete (bytes_of_string "k4"))) []
  = Some (OK, call_handler Recorder
                [CallPut (bytes_of_string "k1") (bytes_of_string "v1");
                 CallDelete (bytes_of_string "k2");
                 CallPut (bytes_of_string "k3") (bytes_of_string "v3")]
                (CallDelete (bytes_of_string "k4"))) /\
  Count (apply_call S3_batch (CallDelete (bytes_of_string "k4"))) = Count S3_batch + 1 /\
  Sequence (apply_call S3_batch (CallDelete (bytes_of_string "k4"))) = Sequence S3_batch.
Proof.
  apply (Put_Delete_extend Recorder S3_batch S3_batch []).
  - reflexivity.
  - vm_compute. reflexivity.
  - vm_compute. reflexivity.
  - split; [repeat constructor; cbn; lia|vm_compute; reflexivity].
Defined.

(** X8: [Append (dst, src)] of two batches that [Iterate] accepts gives
    a batch that [Iterate] accepts: the handler receives the calls of
    [dst] and then those of [src]; the count is the sum of the two
    counts, which must stay below 2^31, and the sequence number is the
    one of [dst]. *)
Theorem Append_Iterate {St : Type} (handler : Handler St)
    (dst src : list Z) (h h1 h2 : St) :
  Iterate handler dst h = Some (OK, h1) ->
  Iterate handler src h1 = Some (OK, h2) ->
  Count dst + Count src < 2 ^ 31 ->
  exists rep, Append dst src = Some rep /\
    Iterate handler rep h = Some (OK, h2) /\
    Count rep = Count dst + Count src /\
    Sequence rep = Sequence dst /\
    slen rep = slen dst + slen src - kHeader.
Proof.
  intros Hd Hs Hn.
  apply Iterate_OK_iff in Hd as (Hld & cd & HRd & Hcd & ->).
  apply Iterate_OK_iff in Hs as (Hls & cs & HRs & Hcs & ->).
  destruct (rep_layout dst Hld) as (hdr & cnt & Hh & Hcn & Hrep & HS).
  set (body := skipn (Z.to_nat kHeader) dst) in *. clearbody body.
  unfold Append. destruct (Z.geb_spec (slen src) kHeader) as [_|]; [|lia].
  eexists. split; [reflexivity|]. rewrite HS, <- !app_assoc. clear HS.
  set (tail := skipn (Z.to_nat kHeader) src) in *.
  assert (HC : Count (hdr ++ EncodeFixed32 (Count dst + Count src) ++ body ++ tail)
               = Count dst + Count src) by (apply Count_layout; [exact Hh|lia]).
  split; [|split; [exact HC|split]].
  - apply Iterate_OK_iff. split.
    + rewrite slen_header by (reflexivity || assumption). unfold slen, kHeader. lia.
    + exists (cd ++ cs). rewrite skipn_header by (reflexivity || assumption).
      split; [now apply Records_app|].
      split; [rewrite HC, length_app; lia|].
      now rewrite fold_left_app.
  - transitivity (Sequence (hdr ++ cnt ++ body)); [now apply Sequence_header|now rewrite <- Hrep].
  - rewrite slen_header by (reflexivity || assumption).
    replace (slen dst) with (kHeader + slen body)
      by (rewrite Hrep; now rewrite slen_header by assumption).
    unfold tail, slen. rewrite !length_app, length_skipn.
    unfold slen, kHeader in *. lia.
Qed.

Lemma Append_Iterate_witness :
  exists rep, Append S3_batch (build 9 example_calls) = Some rep /\
    Iterate Recorder rep []
    = Some (OK, [CallPut (bytes_of_string "k1") (bytes_of_string "v1");
                 CallDelete (bytes_of_string "k2");
                 CallPut (bytes_of_string "k3") (bytes_of_string "v3")] ++ example_calls) /\
    Count rep = Count S3_batch + Count (build 9 example_calls) /\
    Sequence rep = Sequence S3_batch /\
    slen rep = slen S3_batch + slen (build 9 example_calls) - kHeader.
Proof.
  apply (Append_Iterate Recorder S3_batch (build 9 example_calls) []
           [CallPut (bytes_of_string "k1") (bytes_of_string "v1");
            CallDelete (bytes_of_string "k2");
            CallPut (bytes_of_string "k3") (bytes_of_string "v3")]).
  - vm_compute. reflexivity.
  - vm_compute. reflexivity.
  - vm_compute. reflexivity.
Defined.

End BatchFacts.

Module SuccessorFacts.
Import Comparator ComparatorFacts.

Lemma firstn_insert_snoc (l : list Z) i x :
  (i < length l)%nat -> firstn (i + 1) (<[i := x]> l) = firstn i l ++ [x].
Proof.
  intros Hi. rewrite Nat.add_1_r.
  rewrite insert_take_drop by lia.
  rewrite firstn_app, firstn_firstn, Nat.min_r by lia.
  rewrite length_firstn, Nat.min_l by lia.
  replace (S i - i)%nat with 1%nat by lia. reflexivity.
Qed.

(** What the loop of [FindShortSuccessor] returns from the index [i]
    on, the bytes before [i] being 0xff. *)
Lemma FindShortSuccessor_loop_spec key : bytes key -> forall fuel i,
  (fuel + i)%nat = length key ->
  Forall (eq 255) (firstn i key) ->
  (Forall (eq 255) key /\ FindShortSuccessor_loop fuel i key = key) \/
  (exists j, (j < length key)%nat /\ Forall (eq 255) (firstn j key) /\
     nth j key 0 <> 255 /\
     FindShortSuccessor_loop fuel i key = firstn j key ++ [nth j key 0 + 1]).
Proof.
  intros Hb. induction fuel as [|fuel IH]; intros i Hf Hp; cbn [FindShortSuccessor_loop].
  - left. split; [|reflexivity]. cbn in Hf. subst i. now rewrite firstn_all in Hp.
  - pose proof (bytes_nth key i Hb) as Hbi. rewrite uint8_byte by exact Hbi.
    unfold is_byte in Hbi.
    destruct (Z.eqb_spec (nth i key 0) 255) as [E|E]; cbn [negb].
    + apply IH; [lia|].
      rewrite firstn_snoc_nth by lia. apply Forall_app. split; [exact Hp|].
      constructor; [now symmetry|constructor].
    + right. exists i. split; [lia|]. split; [exact Hp|]. split; [exact E|].
      rewrite firstn_insert_snoc by lia.
      rewrite uint8_byte by (unfold is_byte; lia). reflexivity.
Qed.

(** X9: [FindShortSuccessor] leaves a key of 0xff bytes (also the empty
    key) as it is; in every other key it increments the first byte that
    is not 0xff and cuts the key after it.  The result is not longer
    than the key and not below it in the order of the comparator. *)
Theorem FindShortSuccessor_spec (key : list Z) :
  bytes key ->
  let new_key := FindShortSuccessor key in
  (Forall (eq 255) key -> new_key = key) /\
  (forall j, (j < length key)%nat -> Forall (eq 255) (firstn j key) ->
     nth j key 0 <> 255 ->
     new_key = firstn j key ++ [nth j key 0 + 1] /\ Compare key new_key < 0) /\
  (length new_key <= length key)%nat /\
  Compare key new_key <= 0 /\
  bytes new_key.
Proof.
  intros Hb new_key. subst new_key. unfold FindShortSuccessor.
  destruct (FindShortSuccessor_loop_spec key Hb (length key) 0 ltac:(lia)
              ltac:(constructor))
    as [(Hall & ->)|(j & Hj & Hp & Hne & ->)].
  - split; [reflexivity|]. split; [|split; [lia|split; [|exact Hb]]].
    + intros j Hj _ Hne. exfalso. apply Hne.
      rewrite List.Forall_forall in Hall. symmetry. apply Hall. now apply nth_In.
    + unfold Compare. rewrite Slice_compare_refl. lia.
  - assert (Hlt : Compare key (firstn j key ++ [nth j key 0 + 1]) < 0).
    { unfold Compare. rewrite (split_nth key j Hj) at 1.
      rewrite Slice_compare_app. cbn [Slice_compare].
      destruct (Z.ltb_spec (nth j key 0) (nth j key 0 + 1)); lia. }
    split; [|split; [|split; [|split]]].
    + intros Hall. exfalso. apply Hne.
      rewrite List.Forall_forall in Hall. symmetry. apply Hall. now apply nth_In.
    + intros k Hk Hpk Hnk.
      assert (k = j) as ->.
      { destruct (Nat.lt_trichotomy k j) as [H|[H|H]]; [|exact H|]; exfalso.
        - apply Hnk. rewrite List.Forall_forall in Hp. symmetry. apply Hp.
          rewrite <- (firstn_skipn (S k) (firstn j key)).
          apply in_or_app. left. rewrite firstn_firstn, Nat.min_l by lia.
          rewrite firstn_snoc_nth by lia. apply in_or_app. right. now left.
        - apply Hne. rewrite List.Forall_forall in Hpk. symmetry. apply Hpk.
          rewrite <- (firstn_skipn (S j) (firstn k key)).
          apply in_or_app. left. rewrite firstn_firstn, Nat.min_l by lia.
          rewrite firstn_snoc_nth by lia. apply in_or_app. right. now left. }
      split; [reflexivity|exact Hlt].
    + rewrite length_app, length_firstn. cbn [length]. lia.
    + lia.
    + unfold bytes in *. apply Forall_app. split.
      * rewrite List.Forall_forall in *. intros x Hx. apply Hb.
        rewrite <- (firstn_skipn j key). apply in_or_app. now left.
      * pose proof (bytes_nth key j Hb) as Hbj. unfold is_byte in *.
        constructor; [lia|constructor].
Qed.

Lemma FindShortSuccessor_spec_witness :
  let key := [255; 255; 104; 105] in
  bytes key /\
  FindShortSuccessor key = [255; 255; 105] /\
  Compare key (FindShortSuccessor key) < 0 /\
  (length (FindShortSuccessor key) <= length key)%nat.
Proof.
  intros key.
  assert (Hb : bytes key) by (unfold bytes, is_byte; subst key; repeat constructor; lia).
  split; [exact Hb|].
  destruct (FindShortSuccessor_spec key Hb) as (_ & H & Hl & _).
  destruct (H 2%nat) as [H1 H2].
  - subst key. cbn. lia.
  - subst key. cbn. repeat constructor.
  - subst key. cbn. lia.
  - split; [exact H1|]. split; [exact H2|exact Hl].
Defined.

End SuccessorFacts.

Module DBFormatFacts.
Import Coding CodingFacts WriteBatchFacts DBFormat.

Lemma land255 v : Z.land v 255 = v mod 256.
Proof. change 255 with (Z.ones 8). now rewrite Z.land_ones by lia. Qed.

Lemma skipn_user_key (user_key tag : list Z) :
  length tag = 8%nat ->
  skipn (Z.to_nat (slen (user_key ++ tag) - 8)) (user_key ++ tag) = tag /\
  firstn (Z.to_nat (slen (user_key ++ tag) - 8)) (user_key ++ tag) = user_key.
Proof.
  intros Ht. unfold slen. rewrite length_app, Ht.
  replace (Z.to_nat (Z.of_nat (length user_key + 8) - 8)) with (length user_key) by lia.
  rewrite skipn_app, firstn_app, skipn_all, firstn_all, Nat.sub_diag.
  cbn [skipn firstn app]. now rewrite app_nil_r.
Qed.

(** The tag of an internal key: the sequence number above the eight
    bits of the type. *)
Lemma tag_fields seq t :
  0 <= seq <= kMaxSequenceNumber -> 0 <= t < 256 ->
  let tag := Z.lor (Z.shiftl seq 8) t in
  0 <= tag < 2 ^ 64 /\ Z.land tag 255 = t /\ Z.shiftr tag 8 = seq.
Proof.
  intros Hs Ht tag. subst tag. unfold kMaxSequenceNumber in Hs.
  change (Z.shiftl 1 56) with (2 ^ 56) in Hs.
  rewrite Z.lor_comm, lor_shiftl_add by (change (2 ^ 8) with 256; lia).
  change (2 ^ 8) with 256.
  rewrite land255, Z.shiftr_div_pow2 by lia. change (2 ^ 8) with 256.
  split; [lia|]. split.
  - rewrite Z.mod_add by lia. apply Z.mod_small. lia.
  - rewrite Z.div_add by lia. rewrite (Z.div_small t) by lia. lia.
Qed.

Lemma DecodeFixed64_bytes (tag : list Z) :
  bytes tag ->
  0 <= DecodeFixed64 tag < 2 ^ 64 /\
  Z.land (DecodeFixed64 tag) 255 = nth 0 tag 0.
Proof.
  intros Hb. unfold DecodeFixed64, DecodeFixed32.
  assert (H : forall i l, bytes l -> 0 <= nth i l 0 < 256).
  { intros i l Hl. destruct (Nat.lt_ge_cases i (length l)) as [Hi|Hi].
    - unfold bytes in Hl. rewrite List.Forall_forall in Hl. apply Hl. now apply nth_In.
    - rewrite nth_overflow by exact Hi. lia. }
  assert (Hs : bytes (skipn 4 tag)).
  { unfold bytes in *. rewrite List.Forall_forall in *. intros x Hx. apply Hb.
    rewrite <- (firstn_skipn 4 tag). apply in_or_app. now right. }
  pose proof (H 0%nat tag Hb). pose proof (H 1%nat tag Hb).
  pose proof (H 2%nat tag Hb). pose proof (H 3%nat tag Hb).
  pose proof (H 0%nat _ Hs). pose proof (H 1%nat _ Hs).
  pose proof (H 2%nat _ Hs). pose proof (H 3%nat _ Hs).
  rewrite land255.
  change (2 ^ 8) with 256. change (2 ^ 16) with 65536. change (2 ^ 24) with 16777216.
  change (2 ^ 32) with 4294967296. change (2 ^ 64) with 18446744073709551616.
  split; [lia|]. Z.to_euclidean_division_equations; lia.
Qed.

(** X10: an internal key made of a user key and the eight bytes of
    [PutFixed64] for the tag [(sequence << 8) | type], with a sequence
    number up to [kMaxSequenceNumber] and one of the two types, is
    parsed back into its three parts; [ExtractUserKey] and
    [ExtractValueType] return the same user key and type, and
    [InternalKeyEncodingLength] is the size of the key. *)
Theorem ParseInternalKey_round_trip (key : ParsedInternalKey) (result : ParsedInternalKey) :
  0 <= sequence key <= kMaxSequenceNumber ->
  type key = kTypeDeletion \/ type key = kTypeValue ->
  slen (user_key key) + 8 < 2 ^ 64 ->
  let internal_key :=
    PutFixed64 (user_key key) (Z.lor (Z.shiftl (sequence key) 8) (type key)) in
  ParseInternalKey internal_key result = (true, key) /\
  ExtractUserKey internal_key = Some (user_key key) /\
  ExtractValueType internal_key = Some (type key) /\
  slen internal_key = InternalKeyEncodingLength key.
Proof.
  intros Hs Ht Hsize internal_key. subst internal_key. unfold PutFixed64.
  set (tag := Z.lor (Z.shiftl (sequence key) 8) (type key)).
  assert (Ht' : 0 <= type key < 256) by (unfold kTypeDeletion, kTypeValue in Ht; lia).
  destruct (tag_fields (sequence key) (type key) Hs Ht') as (Hr & Hl & Hsh).
  fold tag in Hr, Hl, Hsh.
  destruct (skipn_user_key (user_key key) (EncodeFixed64 tag) eq_refl) as [Hsk Hfi].
  assert (Hn : slen (user_key key ++ EncodeFixed64 tag) = slen (user_key key) + 8).
  { unfold slen. rewrite length_app. cbn [length EncodeFixed64]. lia. }
  assert (Hd : DecodeFixed64 (EncodeFixed64 tag) = tag).
  { pose proof (DecodeFixed64_Encode tag []) as H. rewrite app_nil_r in H.
    rewrite H. apply Z.mod_small. exact Hr. }
  unfold ParseInternalKey, ExtractUserKey, ExtractValueType, InternalKeyEncodingLength.
  rewrite Hsk, Hfi, Hd, Hl, Hsh, Hn.
  assert (Hlen : 0 <= slen (user_key key)) by (unfold slen; lia).
  destruct (Z.ltb_spec (slen (user_key key) + 8) 8); [lia|].
  destruct (Z.geb_spec (slen (user_key key) + 8) 8); [|lia].
  split; [|split; [reflexivity|split; [reflexivity|]]].
  - destruct key as [u s t]. cbn [DBFormat.user_key DBFormat.sequence DBFormat.type] in *.
    f_equal. unfold kTypeDeletion, kTypeValue in *. destruct (Z.leb_spec t 1); [reflexivity|lia].
  - unfold uint64. symmetry. apply Z.mod_small. lia.
Qed.

Lemma ParseInternalKey_round_trip_witness :
  let key := {| user_key := bytes_of_string "k1"; sequence := 300; type := kTypeValue |} in
  let internal_key := bytes_of_string "k1" ++ [1; 44; 1; 0; 0; 0; 0; 0] in
  ParseInternalKey internal_key {| user_key := []; sequence := 0; type := 0 |}
  = (true, key) /\
  ExtractUserKey internal_key = Some (bytes_of_string "k1") /\
  ExtractValueType internal_key = Some kTypeValue /\
  slen internal_key = InternalKeyEncodingLength key.
Proof.
  intros key internal_key.
  apply (ParseInternalKey_round_trip key {| user_key := []; sequence := 0; type := 0 |}).
  - vm_compute. split; discriminate.
  - now right.
  - vm_compute. reflexivity.
Defined.

(** X11: [ParseInternalKey] on a string of bytes.  A key shorter than
    eight bytes is refused and [*result] is not written.  Otherwise the
    key is split eight bytes before its end, the sequence number is
    below 2^56, the type is the first byte of the last eight, and the
    function returns [true] exactly when that byte is one of the two
    value types.  [ExtractUserKey] and [ExtractValueType] return the
    same user key and type, whatever the byte. *)
Theorem ParseInternalKey_spec (internal_key : list Z) (result : ParsedInternalKey) :
  bytes internal_key ->
  let ret := ParseInternalKey internal_key result in
  let n := Z.to_nat (slen internal_key - 8) in
  (slen internal_key < 8 ->
     ret = (false, result) /\
     ExtractUserKey internal_key = None /\ ExtractValueType internal_key = None) /\
  (8 <= slen internal_key ->
     internal_key = user_key (snd ret) ++ skipn n internal_key /\
     length (skipn n internal_key) = 8%nat /\
     0 <= sequence (snd ret) <= kMaxSequenceNumber /\
     type (snd ret) = nth n internal_key 0 /\
     (fst ret = true <->
      type (snd ret) = kTypeDeletion \/ type (snd ret) = kTypeValue) /\
     ExtractUserKey internal_key = Some (user_key (snd ret)) /\
     ExtractValueType internal_key = Some (type (snd ret))).
Proof.
  intros Hb ret n. subst ret.
  unfold ParseInternalKey, ExtractUserKey, ExtractValueType. fold n.
  split; intros Hn.
  - destruct (Z.ltb_spec (slen internal_key) 8); [|lia].
    destruct (Z.geb_spec (slen internal_key) 8); [lia|]. now repeat split.
  - destruct (Z.ltb_spec (slen internal_key) 8); [lia|].
    destruct (Z.geb_spec (slen internal_key) 8); [|lia].
    cbn [fst snd user_key sequence type].
    assert (Hbt : bytes (skipn n internal_key)).
    { unfold bytes in *. rewrite List.Forall_forall in *. intros x Hx. apply Hb.
      rewrite <- (firstn_skipn n internal_key). apply in_or_app. now right. }
    destruct (DecodeFixed64_bytes _ Hbt) as [Hr Hl].
    rewrite Hl.
    assert (Hnth : nth 0 (skipn n internal_key) 0 = nth n internal_key 0).
    { rewrite nth_skipn. f_equal. lia. }
    assert (Hbyte : 0 <= nth n internal_key 0 < 256).
    { rewrite <- Hnth, <- Hl, land255. apply Z.mod_pos_bound. lia. }
    rewrite Hnth.
    split; [now rewrite firstn_skipn|].
    split; [rewrite length_skipn; unfold n, slen in *; lia|].
    split.
    { rewrite Z.shiftr_div_pow2 by lia. unfold kMaxSequenceNumber.
      change (Z.shiftl 1 56) with (2 ^ 56). change (2 ^ 8) with 256.
      change (2 ^ 64) with (256 * 2 ^ 56) in Hr.
      split; [apply Z.div_pos; lia|].
      assert (DecodeFixed64 (skipn n internal_key) / 256 < 2 ^ 56)
        by (apply Z.div_lt_upper_bound; lia). lia. }
    split; [reflexivity|]. split; [|split; reflexivity].
    unfold kTypeDeletion, kTypeValue.
    destruct (Z.leb_spec (nth n internal_key 0) 1); split; intros; (reflexivity || lia || discriminate).
Qed.

Lemma ParseInternalKey_spec_witness :
  let internal_key := bytes_of_string "k1" ++ [7; 44; 1; 0; 0; 0; 0; 0] in
  let ret := ParseInternalKey internal_key {| user_key := []; sequence := 0; type := 0 |} in
  fst ret = false /\ sequence (snd ret) = 300 /\ type (snd ret) = 7 /\
  (fst ret = true <-> type (snd ret) = kTypeDeletion \/ type (snd ret) = kTypeValue).
Proof.
  intros internal_key ret.
  split; [reflexivity|]. split; [reflexivity|]. split; [reflexivity|].
  assert (Hb : bytes internal_key)
    by (unfold bytes, is_byte; subst internal_key; cbn; repeat constructor; lia).
  destruct (ParseInternalKey_spec internal_key {| user_key := []; sequence := 0; type := 0 |} Hb)
    as [_ H].
  destruct (H ltac:(vm_compute; discriminate)) as (_ & _ & _ & _ & Hiff & _).
  exact Hiff.
Defined.

End DBFormatFacts.

Module LoggingFacts.
Import Logging.

Lemma digit_char b :
  is_byte b ->
  ((48 <=? char_of_byte b) && (char_of_byte b <=? 57)) = is_digit b /\
  (is_digit b = true -> char_of_byte b = b /\ 48 <= b <= 57).
Proof.
  unfold is_byte, char_of_byte, is_digit. intros Hb.
  destruct (Z.ltb_spec b 128); split; intros; lia.
Qed.

Lemma decimal_value_from_ge ds : forall v,
  0 <= v -> Forall (fun b => is_digit b = true) ds -> v <= decimal_value_from v ds.
Proof.
  induction ds as [|d ds IH]; intros v Hv Hd; cbn [decimal_value_from fold_left]; [lia|].
  inversion Hd as [|? ? Hd1 Hd2]; subst. unfold is_digit in Hd1.
  specialize (IH (v * 10 + (d - 48)) ltac:(lia) Hd2). unfold decimal_value_from in IH. lia.
Qed.

Lemma digit_prefix_digits input : Forall (fun b => is_digit b = true) (digit_prefix input).
Proof.
  induction input as [|b input IH]; cbn [digit_prefix]; [constructor|].
  destruct (is_digit b) eqn:E; constructor; assumption.
Qed.

Lemma digit_prefix_split input :
  input = digit_prefix input ++ skipn (length (digit_prefix input)) input.
Proof.
  induction input as [|b input IH]; cbn [digit_prefix]; [reflexivity|].
  destruct (is_digit b); [|reflexivity]. cbn [length skipn app]. now f_equal.
Qed.

(** The test of the loop of [ConsumeDecimalNumber] refuses a digit
    exactly when the number would exceed [kMaxUint64]. *)
Lemma overflow_test v delta :
  0 <= v -> 0 <= delta <= 9 ->
  ((v >? kMaxUint64 / 10) || ((v =? kMaxUint64 / 10) && (delta >? kMaxUint64 mod 10)))
  = (kMaxUint64 <? v * 10 + delta).
Proof.
  intros Hv Hd. unfold kMaxUint64.
  change ((2 ^ 64 - 1) / 10) with 1844674407370955161.
  change ((2 ^ 64 - 1) mod 10) with 5.
  change (2 ^ 64 - 1) with 18446744073709551615.
  destruct (Z.gtb_spec v 1844674407370955161), (Z.eqb_spec v 1844674407370955161),
    (Z.gtb_spec delta 5), (Z.ltb_spec 18446744073709551615 (v * 10 + delta));
    cbn [orb andb]; (reflexivity || lia).
Qed.

Lemma int_incr_small digits : 0 <= digits < 2 ^ 31 - 1 -> int_incr digits = digits + 1.
Proof.
  intros H. unfold int_incr, int32_of_uint32, uint32.
  rewrite Z.mod_small by lia. destruct (Z.ltb_spec (digits + 1) (2 ^ 31)); lia.
Qed.

Lemma digit_prefix_length input : (length (digit_prefix input) <= length input)%nat.
Proof.
  induction input as [|b input IH]; cbn [digit_prefix length]; [lia|].
  destruct (is_digit b); cbn [length]; lia.
Qed.

Lemma ConsumeDecimalNumber_loop_spec input : bytes input -> forall v digits,
  0 <= v <= kMaxUint64 ->
  let ds := digit_prefix input in
  0 <= digits -> digits + slen ds < 2 ^ 31 ->
  ConsumeDecimalNumber_loop input v digits =
  if decimal_value_from v ds <=? kMaxUint64
  then Some (decimal_value_from v ds, digits + slen ds, skipn (length ds) input)
  else None.
Proof.
  intros Hb. induction input as [|b input IH]; intros v digits Hv ds Hd0 Hd; subst ds;
    cbn [ConsumeDecimalNumber_loop digit_prefix] in *.
  - cbn [decimal_value_from fold_left length skipn].
    destruct (Z.leb_spec v kMaxUint64); [|lia]. unfold slen. cbn [length].
    now rewrite Z.add_0_r.
  - inversion Hb as [|? ? Hb1 Hb2]; subst.
    destruct (digit_char b Hb1) as [Ht Hc]. rewrite Ht.
    destruct (is_digit b) eqn:E.
    + destruct (Hc eq_refl) as [Hcb Hr]. rewrite Hcb.
      rewrite overflow_test by lia.
      unfold slen in Hd. cbn [length] in Hd.
      rewrite int_incr_small by lia.
      cbn [decimal_value_from fold_left length skipn].
      destruct (Z.ltb_spec kMaxUint64 (v * 10 + (b - 48))) as [Hov|Hok].
      * pose proof (decimal_value_from_ge (digit_prefix input) (v * 10 + (b - 48))
                      ltac:(lia) (digit_prefix_digits input)) as Hge.
        unfold decimal_value_from in Hge.
        destruct (Z.leb_spec (fold_left (fun v b => v * 10 + (b - 48)) (digit_prefix input)
                                (v * 10 + (b - 48))) kMaxUint64); [lia|reflexivity].
      * rewrite (IH Hb2 (v * 10 + (b - 48)) (digits + 1) ltac:(lia))
          by (unfold slen; lia).
        cbv zeta. unfold decimal_value_from, slen. cbn [length].
        destruct (_ <=? kMaxUint64); [|reflexivity].
        do 2 f_equal. f_equal. lia.
    + cbn [decimal_value_from fold_left length skipn].
      destruct (Z.leb_spec v kMaxUint64); [|lia]. unfold slen. cbn [length].
      now rewrite Z.add_0_r.
Qed.

(** [ConsumeDecimalNumber] on an input with fewer than 2^31 digits at
    its head. *)
Lemma ConsumeDecimalNumber_digits input :
  bytes input ->
  let ds := digit_prefix input in
  slen ds < 2 ^ 31 ->
  ConsumeDecimalNumber input =
  if (0 <? slen ds) && (decimal_value ds <=? kMaxUint64)
  then Some (decimal_value ds, skipn (length ds) input) else None.
Proof.
  intros Hb ds Hlen. unfold ConsumeDecimalNumber.
  rewrite (ConsumeDecimalNumber_loop_spec input Hb 0 0)
    by (unfold kMaxUint64; fold ds; lia).
  cbv zeta. fold ds. fold (decimal_value ds). rewrite Z.add_0_l.
  destruct (decimal_value ds <=? kMaxUint64); [|now rewrite andb_false_r].
  rewrite andb_true_r, Z.gtb_ltb. reflexivity.
Qed.

(** X12: [ConsumeDecimalNumber] takes the decimal digits at the head of
    the input, an input of fewer than 2^31 bytes ([digits] is an
    [int]).  It returns [true] exactly when there is a digit and the
    number that the digits denote fits a [uint64_t]; it then stores
    that number and leaves the input after the last digit. *)
Theorem ConsumeDecimalNumber_spec (input : list Z) :
  bytes input -> slen input < 2 ^ 31 ->
  let ds := digit_prefix input in
  (forall v rest,
     ConsumeDecimalNumber input = Some (v, rest) <->
     ds <> [] /\ decimal_value ds <= kMaxUint64 /\
     v = decimal_value ds /\ rest = skipn (length ds) input) /\
  (ConsumeDecimalNumber input = None <->
   ds = [] \/ kMaxUint64 < decimal_value ds).
Proof.
  intros Hb Hin ds.
  assert (Hds : slen ds < 2 ^ 31).
  { pose proof (digit_prefix_length input). unfold slen, ds in *. lia. }
  rewrite (ConsumeDecimalNumber_digits input Hb Hds). fold ds.
  assert (Hlen : 0 < slen ds <-> ds <> []).
  { unfold slen. destruct ds; cbn [length]; split; intros; (congruence || lia). }
  destruct (Z.leb_spec (decimal_value ds) kMaxUint64) as [Hle|Hgt].
  - destruct (Z.ltb_spec 0 (slen ds)) as [Hpos|Hz]; cbn [andb].
    + split.
      * intros v rest. split.
        -- intros E. injection E as <- <-. repeat split; [apply Hlen; lia|exact Hle].
        -- intros (_ & _ & -> & ->). reflexivity.
      * split; [discriminate|]. intros [H|H]; [apply Hlen in H; [contradiction|lia]|lia].
    + split.
      * intros v rest. split; [discriminate|]. intros (H & _). apply Hlen in H. lia.
      * split; [|reflexivity]. intros _. left. destruct ds; [reflexivity|].
        unfold slen in Hz. cbn [length] in Hz. lia.
  - rewrite andb_false_r. split.
    + intros v rest. split; [discriminate|]. intros (_ & H & _). lia.
    + split; [|reflexivity]. intros _. now right.
Qed.

Lemma ConsumeDecimalNumber_spec_witness :
  ConsumeDecimalNumber (bytes_of_string "42 files") = Some (42, bytes_of_string " files") /\
  ConsumeDecimalNumber (bytes_of_string "18446744073709551616") = None /\
  ConsumeDecimalNumber (bytes_of_string "x1") = None.
Proof.
  split; [|split; reflexivity].
  assert (Hb : bytes (bytes_of_string "42 files"))
    by (unfold bytes, is_byte; cbn; repeat constructor; lia).
  apply (ConsumeDecimalNumber_spec (bytes_of_string "42 files") Hb);
    [vm_compute; reflexivity|].
  split; [discriminate|]. split; [vm_compute; discriminate|]. split; reflexivity.
Defined.

Lemma decimal_loop_S fuel num acc :
  decimal_loop (S fuel) num acc =
  if num <? 10 then (48 + num mod 10) :: acc
  else decimal_loop fuel (num / 10) ((48 + num mod 10) :: acc).
Proof. reflexivity. Qed.

Lemma decimal_value_from_app v ds ds' :
  decimal_value_from v (ds ++ ds') = decimal_value_from (decimal_value_from v ds) ds'.
Proof. unfold decimal_value_from. now rewrite fold_left_app. Qed.

(** The digits that the loop of [snprintf_llu] puts before [acc]. *)
Lemma decimal_loop_spec fuel : forall num acc,
  0 <= num < 10 ^ Z.of_nat (S fuel) ->
  exists ds, decimal_loop (S fuel) num acc = ds ++ acc /\ ds <> [] /\
    Forall (fun b => is_digit b = true) ds /\
    (length ds <= S fuel)%nat /\
    forall v, decimal_value_from v ds = v * 10 ^ slen ds + num.
Proof.
  induction fuel as [|fuel IH]; intros num acc Hn; rewrite decimal_loop_S.
  - change (10 ^ Z.of_nat 1) with 10 in Hn.
    destruct (Z.ltb_spec num 10); [|lia].
    exists [48 + num mod 10]. rewrite Z.mod_small by lia.
    split; [reflexivity|]. split; [discriminate|]. split; [|split; [cbn [length]; lia|]].
    + constructor; [unfold is_digit; lia|constructor].
    + intros v. unfold decimal_value_from, slen. cbn [fold_left length].
      change (10 ^ Z.of_nat 1) with 10. lia.
  - destruct (Z.ltb_spec num 10) as [Hlt|Hge].
    + exists [48 + num mod 10]. rewrite Z.mod_small by lia.
      split; [reflexivity|]. split; [discriminate|].
      split; [|split; [cbn [length]; lia|]].
      * constructor; [unfold is_digit; lia|constructor].
      * intros v. unfold decimal_value_from, slen. cbn [fold_left length].
        change (10 ^ Z.of_nat 1) with 10. lia.
    + assert (Hq : 0 <= num / 10 < 10 ^ Z.of_nat (S fuel)).
      { split; [apply Z.div_pos; lia|]. apply Z.div_lt_upper_bound; [lia|].
        replace (Z.of_nat (S (S fuel))) with (1 + Z.of_nat (S fuel)) in Hn by lia.
        rewrite Z.pow_add_r in Hn by lia. change (10 ^ 1) with 10 in Hn. lia. }
      destruct (IH (num / 10) ((48 + num mod 10) :: acc) Hq)
        as (ds & E & Hne & Hd & Hl & Hv).
      exists (ds ++ [48 + num mod 10]). rewrite E, <- app_assoc.
      split; [reflexivity|]. split; [now destruct ds|].
      pose proof (Z.mod_pos_bound num 10 ltac:(lia)) as Hm.
      split; [|split; [rewrite length_app; cbn [length]; lia|]].
      * apply Forall_app. split; [exact Hd|].
        constructor; [unfold is_digit; lia|constructor].
      * intros v. rewrite decimal_value_from_app, Hv.
        unfold slen. rewrite length_app. cbn [length decimal_value_from fold_left].
        replace (Z.of_nat (length ds + 1)) with (Z.of_nat (length ds) + 1) by lia.
        rewrite Z.pow_add_r by lia. change (10 ^ 1) with 10.
        pose proof (Z.div_mod num 10 ltac:(lia)). unfold slen. lia.
Qed.

Lemma digit_prefix_app ds rest :
  Forall (fun b => is_digit b = true) ds ->
  match rest with [] => True | b :: _ => is_digit b = false end ->
  digit_prefix (ds ++ rest) = ds.
Proof.
  intros Hd Hr. induction Hd as [|d ds Hd1 Hd2 IH]; cbn [app digit_prefix].
  - destruct rest as [|b rest]; [reflexivity|]. cbn [digit_prefix]. now rewrite Hr.
  - rewrite Hd1. now f_equal.
Qed.

(** X13: [ConsumeDecimalNumber] reads back what [AppendNumberTo] has
    written for a [uint64_t], when no digit follows the number, and
    leaves the input after the number. *)
Theorem ConsumeDecimalNumber_AppendNumberTo (str rest : list Z) (num : Z) :
  0 <= num < 2 ^ 64 ->
  bytes rest ->
  match rest with [] => True | b :: _ => is_digit b = false end ->
  exists ds, AppendNumberTo str num = str ++ ds /\ NumberToString num = ds /\
    ConsumeDecimalNumber (ds ++ rest) = Some (num, rest).
Proof.
  intros Hn Hb Hr. unfold NumberToString, AppendNumberTo, snprintf_llu.
  destruct (decimal_loop_spec 19 num []) as (ds & E & Hne & Hd & Hl & Hv).
  { split; [lia|]. apply Z.lt_trans with (2 ^ 64); [lia|reflexivity]. }
  rewrite E, app_nil_r. exists ds. split; [reflexivity|]. split; [reflexivity|].
  assert (Hbd : bytes (ds ++ rest)).
  { unfold bytes. apply Forall_app. split; [|exact Hb].
    eapply List.Forall_impl; [|exact Hd]. intros b Hdb. unfold is_digit in Hdb.
    unfold is_byte. lia. }
  rewrite (ConsumeDecimalNumber_digits (ds ++ rest) Hbd);
    rewrite digit_prefix_app by assumption; [|unfold slen; lia].
  unfold decimal_value. rewrite Hv, Z.mul_0_l, Z.add_0_l.
  replace (0 <? slen ds) with true
    by (symmetry; apply Z.ltb_lt; unfold slen; destruct ds; [contradiction|cbn [length]; lia]).
  replace (num <=? kMaxUint64) with true
    by (symmetry; apply Z.leb_le; unfold kMaxUint64; lia).
  cbn [andb]. now rewrite skipn_app, skipn_all, Nat.sub_diag.
Qed.

Lemma ConsumeDecimalNumber_AppendNumberTo_witness :
  exists ds, AppendNumberTo [35] 1234 = [35] ++ ds /\ NumberToString 1234 = ds /\
    ConsumeDecimalNumber (ds ++ [46; 108]) = Some (1234, [46; 108]).
Proof.
  apply (ConsumeDecimalNumber_AppendNumberTo [35] [46; 108] 1234).
  - lia.
  - unfold bytes, is_byte. repeat constructor; lia.
  - reflexivity.
Defined.

Lemma hex_digit_printable d : 0 <= d < 16 -> printable (hex_digit d).
Proof. intros Hd. unfold printable, hex_digit. destruct (Z.ltb_spec d 10); lia. Qed.

(** What one turn of [AppendEscapedStringTo] appends for the byte
    [b]. *)
Lemma AppendEscapedStringTo_turn_spec str b :
  is_byte b ->
  exists out, AppendEscapedStringTo_turn str b = str ++ out /\
    Forall printable out /\
    (printable b -> out = [b]) /\
    (~ printable b -> out = [92; 120; hex_digit (b / 16); hex_digit (b mod 16)]).
Proof.
  unfold is_byte, AppendEscapedStringTo_turn, printable. intros Hb.
  assert (E : Z.land (uint32 (char_of_byte b)) 255 = b).
  { unfold char_of_byte, uint32. change 255 with (Z.ones 8). rewrite Z.land_ones by lia.
    rewrite Z.mod_mod_divide by (exists (2 ^ 24); reflexivity).
    destruct (Z.ltb_spec b 128).
    - apply Z.mod_small. lia.
    - replace (b - 256) with (b + (-1) * 2 ^ 8) by lia.
      rewrite Z.mod_add by lia. apply Z.mod_small. lia. }
  assert (Hc : ((32 <=? char_of_byte b) && (char_of_byte b <=? 126)) = true <-> 32 <= b <= 126).
  { unfold char_of_byte. destruct (Z.ltb_spec b 128); rewrite andb_true_iff; lia. }
  destruct ((32 <=? char_of_byte b) && (char_of_byte b <=? 126)).
  - assert (Hp : 32 <= b <= 126) by now apply Hc.
    exists [b]. split; [reflexivity|]. split; [repeat constructor; lia|].
    split; [reflexivity|]. intros H'. lia.
  - assert (Hp : ~ 32 <= b <= 126) by (intros H; apply Hc in H; discriminate).
    exists (snprintf_x02x (Z.land (uint32 (char_of_byte b)) 255)). split; [reflexivity|].
    rewrite E. unfold snprintf_x02x.
    split; [|split; [intros H; contradiction|reflexivity]].
    repeat constructor; try (unfold printable; lia);
      apply hex_digit_printable; Z.to_euclidean_division_equations; lia.
Qed.

Lemma AppendEscapedStringTo_app value : forall str,
  AppendEscapedStringTo str value = str ++ EscapeString value.
Proof.
  unfold EscapeString, AppendEscapedStringTo.
  induction value as [|b value IH]; intros str; cbn [fold_left].
  - now rewrite app_nil_r.
  - rewrite (IH (AppendEscapedStringTo_turn str b)), (IH (AppendEscapedStringTo_turn [] b)).
    unfold AppendEscapedStringTo_turn. destruct (_ && _); now rewrite <- app_assoc.
Qed.

Lemma hex_digit_nth d : 0 <= d < 16 -> hex_digit d = nth (Z.to_nat d) hex_digits 0.
Proof.
  intros Hd. assert (Hn : (Z.to_nat d < 16)%nat) by lia.
  rewrite <- (Z2Nat.id d) at 1 by lia. generalize dependent (Z.to_nat d). clear.
  intros n Hn. do 16 (destruct n as [|n]; [reflexivity|]). lia.
Qed.

Lemma AppendEscapedStringTo_turn_escaped str b :
  is_byte b -> AppendEscapedStringTo_turn str b = str ++ escaped b.
Proof.
  intros Hb. destruct (AppendEscapedStringTo_turn_spec str b Hb) as (o & E & _ & Hy & Hn).
  rewrite E. f_equal. unfold escaped, printable in *. unfold is_byte in Hb.
  destruct (Z.leb_spec 32 b), (Z.leb_spec b 126); cbn [andb];
    try (apply Hy; lia);
    rewrite Hn by lia;
    rewrite !hex_digit_nth by (Z.to_euclidean_division_equations; lia); reflexivity.
Qed.

(** X14: [EscapeString] returns, for the bytes of the value in their
    order, the characters of [escaped]: a printable byte stands for
    itself, every other byte becomes the four characters of a
    backslash, [x] and the two hexadecimal digits, in lower case, of
    the high and of the low four bits of that byte.  The result has
    printable characters only, three more for each byte that is not
    printable.  A printable value is returned as it is, and
    [AppendEscapedStringTo] appends the same characters to its
    string. *)
Theorem EscapeString_spec (str value : list Z) :
  bytes value ->
  EscapeString value = flat_map escaped value /\
  Forall printable (EscapeString value) /\
  slen (EscapeString value) = slen value + 3 * count_unprintable value /\
  (Forall printable value -> EscapeString value = value) /\
  AppendEscapedStringTo str value = str ++ EscapeString value.
Proof.
  intros Hb. split; [|split; [|split; [|split; [|apply AppendEscapedStringTo_app]]]].
  - induction Hb as [|b value Hb1 Hb2 IH]; [reflexivity|].
    unfold EscapeString. cbn [AppendEscapedStringTo fold_left flat_map].
    fold (AppendEscapedStringTo (AppendEscapedStringTo_turn [] b) value).
    rewrite AppendEscapedStringTo_app, IH.
    now rewrite (AppendEscapedStringTo_turn_escaped [] b Hb1).
  - induction Hb as [|b value Hb1 Hb2 IH]; [constructor|].
    unfold EscapeString. cbn [AppendEscapedStringTo fold_left].
    fold (AppendEscapedStringTo (AppendEscapedStringTo_turn [] b) value).
    rewrite AppendEscapedStringTo_app.
    destruct (AppendEscapedStringTo_turn_spec [] b Hb1) as (o & E & Hp & _).
    rewrite E. cbn [app]. apply Forall_app. now split.
  - induction Hb as [|b value Hb1 Hb2 IH]; [reflexivity|].
    unfold EscapeString. cbn [AppendEscapedStringTo fold_left].
    fold (AppendEscapedStringTo (AppendEscapedStringTo_turn [] b) value).
    rewrite AppendEscapedStringTo_app.
    destruct (AppendEscapedStringTo_turn_spec [] b Hb1) as (o & E & _ & Hy & Hn).
    rewrite E. cbn [app]. unfold slen in *. rewrite length_app, Nat2Z.inj_add, IH.
    unfold count_unprintable, slen, printable in *. cbn [List.filter length].
    destruct (Z.leb_spec 32 b), (Z.leb_spec b 126); cbn [andb negb length];
      try (rewrite Hy by lia; cbn [length]; lia);
      rewrite Hn by lia; cbn [length]; lia.
  - intros Hall. induction Hall as [|b value Ha1 Ha2 IH]; [reflexivity|].
    inversion Hb as [|? ? Hb1 Hb2]; subst.
    unfold EscapeString. cbn [AppendEscapedStringTo fold_left].
    fold (AppendEscapedStringTo (AppendEscapedStringTo_turn [] b) value).
    rewrite AppendEscapedStringTo_app.
    destruct (AppendEscapedStringTo_turn_spec [] b Hb1) as (o & E & _ & Hy & _).
    rewrite E, (Hy Ha1), (IH Hb2). reflexivity.
Qed.

Lemma EscapeString_spec_witness :
  EscapeString [104; 105; 10; 255] = bytes_of_string "hi\x0a\xff" /\
  flat_map escaped [104; 105; 10; 255] = bytes_of_string "hi\x0a\xff" /\
  Forall printable (EscapeString [104; 105; 10; 255]) /\
  slen (EscapeString [104; 105; 10; 255]) = 10.
Proof.
  assert (Hb : bytes [104; 105; 10; 255])
    by (unfold bytes, is_byte; repeat constructor; lia).
  destruct (EscapeString_spec [] [104; 105; 10; 255] Hb) as (H0 & H1 & H2 & _).
  split; [rewrite H0; reflexivity|]. split; [reflexivity|].
  split; [exact H1|]. rewrite H2. reflexivity.
Defined.

End LoggingFacts.

Module ArenaFacts.
Import Arena.

Lemma apart_sym x y : apart x y -> apart y x.
Proof. unfold apart. lia. Qed.

Lemma apart_inside x y z : apart x y -> inside z y -> apart x z.
Proof. unfold apart, inside. lia. Qed.

Lemma inside_refl x : inside x x.
Proof. unfold inside. lia. Qed.

Lemma all_apart_snoc l x :
  all_apart l -> Forall (fun b => apart b x) l -> all_apart (l ++ [x]).
Proof.
  induction l as [|y l IH]; intros Hl Hx; cbn [app all_apart].
  - split; [constructor|exact I].
  - destruct Hl as [Hy Hl]. inversion Hx as [|? ? Hx1 Hx2]; subst.
    split; [|now apply IH]. apply Forall_app. split; [exact Hy|].
    constructor; [exact Hx1|constructor].
Qed.

Lemma blocks_memory_snoc l b : blocks_memory (l ++ [b]) = blocks_memory l + snd b + 8.
Proof.
  unfold blocks_memory. induction l as [|y l IH]; cbn [app fold_right]; [lia|].
  rewrite IH. lia.
Qed.

Lemma land7 p : Z.land p 7 = p mod 8.
Proof. change 7 with (Z.ones 3). now rewrite Z.land_ones by lia. Qed.

(** The padding of [AllocateAligned] brings the pointer to a multiple
    of eight. *)
Lemma slop_aligns p :
  let slop := if Z.land p 7 =? 0 then 0 else 8 - Z.land p 7 in
  0 <= slop < 8 /\ (p + slop) mod 8 = 0.
Proof.
  cbv zeta. rewrite land7.
  pose proof (Z.mod_pos_bound p 8 ltac:(lia)) as Hm.
  destruct (Z.eqb_spec (p mod 8) 0) as [E|E].
  - split; [lia|]. now rewrite Z.add_0_r.
  - split; [lia|].
    rewrite (Z.div_mod p 8) at 1 by lia.
    replace (8 * (p / 8) + p mod 8 + (8 - p mod 8)) with (0 + (p / 8 + 1) * 8) by lia.
    now rewrite Z.mod_add by lia.
Qed.

Section Facts.
Variable new_char : list (Z * Z) -> Z -> Z.
Hypothesis Hnew : allocator_ok new_char.

Abbreviation AllocateNewBlock := (AllocateNewBlock new_char).
Abbreviation AllocateFallback := (AllocateFallback new_char).
Abbreviation Allocate := (Allocate new_char).
Abbreviation AllocateAligned := (AllocateAligned new_char).
Abbreviation serve := (serve new_char).
Abbreviation serve_all := (serve_all new_char).

(** A region taken from the head of the unused part of the current
    block, after [slop] bytes of padding. *)
Lemma take_ok a given slop bytes :
  arena_ok a given -> 0 <= slop -> 0 < bytes ->
  slop + bytes <= alloc_bytes_remaining_ a ->
  arena_ok {| alloc_ptr_ := alloc_ptr_ a + (slop + bytes);
              alloc_bytes_remaining_ := alloc_bytes_remaining_ a - (slop + bytes);
              blocks_ := blocks_ a; memory_usage_ := memory_usage_ a |}
           ((alloc_ptr_ a + slop, bytes) :: given).
Proof.
  intros [Hb Hbs Hr Hu Hg Ha] Hs Hbytes Hfit.
  destruct Hu as [(b & Hin & Hins)|[_ Hz]]; [|lia].
  unfold unused, inside in Hins. cbn [fst snd] in Hins.
  unfold unused in Hg.
  assert (Hgiven : Forall (fun g => apart g (alloc_ptr_ a, alloc_bytes_remaining_ a)) given).
  { eapply List.Forall_impl; [|exact Hg]. intros g (_ & H & _). exact H. }
  constructor; unfold unused in *;
    cbn [alloc_ptr_ alloc_bytes_remaining_ blocks_ memory_usage_].
  - exact Hb.
  - exact Hbs.
  - lia.
  - left. exists b. split; [exact Hin|]. unfold inside. cbn [fst snd]. lia.
  - constructor.
    + cbn [fst snd]. split; [lia|]. split; [unfold apart; cbn [fst snd]; lia|].
      exists b. split; [exact Hin|]. unfold inside. cbn [fst snd]. lia.
    + eapply List.Forall_impl; [|exact Hg]. intros g (Hg1 & Hg2 & Hg3).
      split; [exact Hg1|]. split; [|exact Hg3].
      eapply apart_inside; [exact Hg2|]. unfold inside. cbn [fst snd]. lia.
  - cbn [all_apart]. split; [|exact Ha].
    eapply List.Forall_impl; [|exact Hgiven]. intros g H.
    apply apart_sym. eapply apart_inside; [exact H|]. unfold inside. cbn [fst snd]. lia.
Qed.

(** A new block of [n] bytes, of which [bytes] are returned; the rest
    becomes the unused part when [current] is set, and is not used
    otherwise. *)
Lemma new_block_ok a given n bytes (current : bool) :
  arena_ok a given -> 0 < bytes <= n ->
  (current = false -> bytes = n) ->
  let p := new_char (blocks_ a) n in
  arena_ok {| alloc_ptr_ := if current then p + bytes else alloc_ptr_ a;
              alloc_bytes_remaining_ :=
                if current then n - bytes else alloc_bytes_remaining_ a;
              blocks_ := blocks_ a ++ [(p, n)];
              memory_usage_ := uint64 (memory_usage_ a + n + 8) |}
           ((p, bytes) :: given).
Proof.
  intros [Hb Hbs Hr Hu Hg Ha] Hbytes Hcur p.
  destruct (Hnew (blocks_ a) n) as (Hpos & _ & Hap). fold p in Hpos, Hap.
  assert (HB : forall x, (exists b, In b (blocks_ a) /\ inside x b) -> apart (p, n) x).
  { intros x (b & Hin & Hins). eapply apart_inside; [apply Hap; exact Hin|exact Hins]. }
  assert (Hold : Forall (fun g => apart (p, n) g) given).
  { eapply List.Forall_impl; [|exact Hg]. intros g (_ & _ & H). now apply HB. }
  assert (Hun : apart (p, n) (unused a)).
  { destruct Hu as [H|[H1 H2]]; [now apply HB|].
    unfold apart, unused. rewrite H1, H2. cbn [fst snd]. lia. }
  assert (Hin_new : In (p, n) (blocks_ a ++ [(p, n)]))
    by (apply in_or_app; right; now left).
  assert (Hins : inside (p, bytes) (p, n)) by (unfold inside; cbn [fst snd]; lia).
  constructor; unfold unused in *;
    cbn [alloc_ptr_ alloc_bytes_remaining_ blocks_ memory_usage_].
  - apply all_apart_snoc; [exact Hb|].
    rewrite List.Forall_forall. intros b Hin. apply apart_sym. now apply Hap.
  - apply Forall_app. split; [exact Hbs|].
    constructor; [cbn [fst snd]; lia|constructor].
  - destruct current; lia.
  - destruct current.
    + left. exists (p, n). split; [exact Hin_new|].
      unfold inside. cbn [fst snd]. lia.
    + destruct Hu as [(b & Hin & Hib)|H]; [left|now right].
      exists b. split; [apply in_or_app; now left|exact Hib].
  - constructor.
    + cbn [fst snd]. split; [lia|]. split.
      * destruct current.
        -- unfold apart. cbn [fst snd]. lia.
        -- rewrite (Hcur eq_refl). exact Hun.
      * exists (p, n). now split.
    + rewrite List.Forall_forall in *. intros g Hing.
      destruct (Hg g Hing) as (Hg1 & Hg2 & b & Hinb & Hib).
      split; [exact Hg1|]. split.
      * destruct current; [|exact Hg2].
        eapply apart_inside; [apply apart_sym, Hold, Hing|].
        unfold inside. cbn [fst snd]. lia.
      * exists b. split; [apply in_or_app; now left|exact Hib].
  - cbn [all_apart]. split; [|exact Ha].
    rewrite List.Forall_forall in *. intros g Hing.
    apply apart_sym. eapply apart_inside; [apply apart_sym, Hold, Hing|exact Hins].
Qed.

Lemma uint64_add_idemp a b : uint64 (uint64 a + b) = uint64 (a + b).
Proof. unfold uint64. now rewrite Zplus_mod_idemp_l. Qed.

Lemma serve_ok a given q :
  arena_ok a given -> usage_ok a -> 0 < request_bytes q < 2 ^ 63 ->
  exists p a', serve a q = Some (p, request_bytes q, a') /\
    arena_ok a' ((p, request_bytes q) :: given) /\ usage_ok a' /\
    (forall bytes, q = Aligned bytes -> p mod 8 = 0).
Proof.
  intros Hok [Hm Hs] Hq.
  assert (Hnb : forall n bytes (current : bool), 0 < n ->
            (n = kBlockSize \/ kBlockSize / 4 < n) ->
            usage_ok {| alloc_ptr_ := if current then new_char (blocks_ a) n + bytes
                                       else alloc_ptr_ a;
                         alloc_bytes_remaining_ :=
                           if current then n - bytes else alloc_bytes_remaining_ a;
                         blocks_ := blocks_ a ++ [(new_char (blocks_ a) n, n)];
                         memory_usage_ := uint64 (memory_usage_ a + n + 8) |}).
  { intros n bytes current Hn Hsize. split; cbn [memory_usage_ blocks_].
    - rewrite blocks_memory_snoc, Hm. cbn [snd].
      rewrite <- Z.add_assoc, uint64_add_idemp. f_equal. lia.
    - apply Forall_app. split; [exact Hs|]. constructor; [exact Hsize|constructor]. }
  assert (Hfb : forall bytes, 0 < bytes < 2 ^ 63 ->
            exists p a', AllocateFallback a bytes = (p, a') /\
              arena_ok a' ((p, bytes) :: given) /\ usage_ok a' /\ p mod 8 = 0).
  { intros bytes Hb. unfold AllocateFallback, Arena.AllocateNewBlock, MemoryUsage.
    destruct (Hnew (blocks_ a) bytes) as (_ & Hal1 & _).
    destruct (Hnew (blocks_ a) kBlockSize) as (_ & Hal2 & _).
    destruct (Z.gtb_spec bytes (kBlockSize / 4)) as [Hbig|Hsmall].
    - eexists _, _. split; [reflexivity|].
      split; [|split; [|exact Hal1]].
      + apply (new_block_ok a given bytes bytes false Hok); [lia|reflexivity].
      + apply (Hnb bytes bytes false); [lia|now right].
    - cbn [blocks_ memory_usage_].
      eexists _, _. split; [reflexivity|].
      split; [|split; [|exact Hal2]].
      + apply (new_block_ok a given kBlockSize bytes true Hok); [|discriminate].
        change (kBlockSize / 4) with 1024 in Hsmall. unfold kBlockSize. lia.
      + apply (Hnb kBlockSize bytes true); [reflexivity|now left]. }
  destruct q as [bytes|bytes]; cbn [request_bytes serve] in *.
  - unfold Arena.Allocate. destruct (Z.gtb_spec bytes 0); [|lia].
    destruct (Z.leb_spec bytes (alloc_bytes_remaining_ a)) as [Hfit|Hnofit].
    + eexists _, _. split; [reflexivity|]. split; [|split; [|discriminate]].
      * pose proof (take_ok a given 0 bytes Hok ltac:(lia) ltac:(lia) ltac:(lia)) as Ht.
        rewrite !Z.add_0_l, !Z.add_0_r in Ht. exact Ht.
      * split; assumption.
    + destruct (Hfb bytes Hq) as (p & a' & E & H1 & H2 & _). rewrite E.
      exists p, a'. split; [reflexivity|]. split; [exact H1|]. split; [exact H2|discriminate].
  - unfold Arena.AllocateAligned. change (8 - 1) with 7.
    destruct (slop_aligns (alloc_ptr_ a)) as [Hslop Hal]. cbv zeta in Hslop, Hal.
    set (slop := if Z.land (alloc_ptr_ a) 7 =? 0 then 0 else 8 - Z.land (alloc_ptr_ a) 7) in *.
    assert (Hu : uint64 (bytes + slop) = bytes + slop).
    { unfold uint64. apply Z.mod_small.
      split; [lia|]. apply Z.lt_le_trans with (2 ^ 63 + 8); [lia|]. now vm_compute. }
    rewrite Hu.
    destruct (Z.leb_spec (bytes + slop) (alloc_bytes_remaining_ a)) as [Hfit|Hnofit].
    + rewrite land7, Hal. cbn [Z.eqb].
      eexists _, _. split; [reflexivity|]. split; [|split; [split; assumption|]].
      * pose proof (take_ok a given slop bytes Hok ltac:(lia) ltac:(lia) ltac:(lia)) as Ht.
        replace (bytes + slop) with (slop + bytes) by lia. exact Ht.
      * intros _ _. exact Hal.
    + destruct (Hfb bytes Hq) as (p & a' & E & H1 & H2 & H3). rewrite E.
      rewrite land7, H3. cbn [Z.eqb].
      exists p, a'. split; [reflexivity|]. split; [exact H1|]. split; [exact H2|].
      intros _ _. exact H3.
Qed.

Lemma NewArena_ok : arena_ok NewArena [].
Proof.
  constructor; cbn [NewArena blocks_ alloc_bytes_remaining_ alloc_ptr_ all_apart].
  - exact I.
  - constructor.
  - lia.
  - right. now split.
  - constructor.
  - exact I.
Qed.

Lemma NewArena_usage_ok : usage_ok NewArena.
Proof. split; [reflexivity|constructor]. Qed.

Lemma serve_all_ok qs : forall a given,
  arena_ok a given -> usage_ok a ->
  Forall (fun q => 0 < request_bytes q < 2 ^ 63) qs ->
  exists new a', serve_all a given qs = Some (new ++ given, a') /\
    arena_ok a' (new ++ given) /\ usage_ok a' /\
    Forall2 (fun q g => snd g = request_bytes q /\
                        forall bytes, q = Aligned bytes -> fst g mod 8 = 0)
            qs (rev new).
Proof.
  induction qs as [|q qs IH]; intros a given Hok Hacc Hqs; cbn [serve_all].
  - exists [], a. cbn [app rev]. split; [reflexivity|]. split; [exact Hok|].
    split; [exact Hacc|constructor].
  - inversion Hqs as [|? ? Hq Hqs']; subst.
    destruct (serve_ok a given q Hok Hacc Hq) as (p & a1 & E & Hok1 & Hacc1 & Hal).
    rewrite E.
    destruct (IH a1 ((p, request_bytes q) :: given) Hok1 Hacc1 Hqs')
      as (new & a' & E' & Hok' & Hacc' & HF).
    exists (new ++ [(p, request_bytes q)]), a'.
    rewrite <- app_assoc. cbn [app].
    split; [exact E'|]. split; [exact Hok'|]. split; [exact Hacc'|].
    rewrite rev_app_distr. cbn [rev app]. constructor; [|exact HF].
    cbn [fst snd]. split; [reflexivity|exact Hal].
Qed.

(** X15: the regions that an arena returns, whatever the requests to
    [Allocate] and [AllocateAligned], each for at least one byte and
    for fewer than 2^63 bytes, lie each in one block of the arena and
    share no byte with one another; the region of the [i]-th request
    has the size that was asked for.  (With more bytes [bytes + slop]
    of [AllocateAligned] can wrap.) *)
Theorem regions_are_apart (qs : list Request) :
  Forall (fun q => 0 < request_bytes q < 2 ^ 63) qs ->
  exists given a, serve_all NewArena [] qs = Some (given, a) /\
    map snd (rev given) = map request_bytes qs /\
    all_apart given /\
    Forall (fun g => exists b, In b (blocks_ a) /\ inside g b) given /\
    all_apart (blocks_ a).
Proof.
  intros Hqs.
  destruct (serve_all_ok qs NewArena [] NewArena_ok NewArena_usage_ok Hqs)
    as (new & a & E & Hok & _ & HF).
  rewrite app_nil_r in *. exists new, a. split; [exact E|].
  split; [|split; [exact (ok_apart _ _ Hok)|split; [|exact (ok_blocks _ _ Hok)]]].
  - clear - HF. induction HF as [|q g qs gs [H _] _ IH]; [reflexivity|].
    cbn [map]. now rewrite H, IH.
  - eapply List.Forall_impl; [|exact (ok_given _ _ Hok)]. intros g (_ & _ & H). exact H.
Qed.

(** X16: [AllocateAligned] returns an address that is a multiple of
    eight from every state of the arena: its last [assert] holds. *)
Theorem AllocateAligned_is_aligned (a : t) (bytes : Z) :
  exists p a', AllocateAligned a bytes = Some (p, a') /\ p mod 8 = 0.
Proof.
  unfold Arena.AllocateAligned. change (8 - 1) with 7.
  destruct (slop_aligns (alloc_ptr_ a)) as [_ Hal]. cbv zeta in Hal.
  destruct (_ <=? alloc_bytes_remaining_ a).
  - rewrite land7, Hal. cbn [Z.eqb]. eexists _, _. split; [reflexivity|exact Hal].
  - unfold Arena.AllocateFallback, Arena.AllocateNewBlock.
    destruct (bytes >? kBlockSize / 4).
    + destruct (Hnew (blocks_ a) bytes) as (_ & H & _).
      rewrite land7, H. cbn [Z.eqb]. eexists _, _. split; [reflexivity|exact H].
    + destruct (Hnew (blocks_ a) kBlockSize) as (_ & H & _).
      rewrite land7, H. cbn [Z.eqb]. eexists _, _. split; [reflexivity|exact H].
Qed.

(** X17: [MemoryUsage] is, modulo 2^64, the sum of the sizes of the
    blocks of the arena and of eight bytes for each; every block has
    [kBlockSize] bytes, or more than a quarter of [kBlockSize]. *)
Theorem MemoryUsage_counts_the_blocks (qs : list Request) :
  Forall (fun q => 0 < request_bytes q < 2 ^ 63) qs ->
  exists given a, serve_all NewArena [] qs = Some (given, a) /\
    MemoryUsage a = uint64 (blocks_memory (blocks_ a)) /\
    Forall (fun b => snd b = kBlockSize \/ kBlockSize / 4 < snd b) (blocks_ a).
Proof.
  intros Hqs.
  destruct (serve_all_ok qs NewArena [] NewArena_ok NewArena_usage_ok Hqs)
    as (new & a & E & _ & [Hm Hs] & _).
  rewrite app_nil_r in E. exists new, a. now repeat split.
Qed.

End Facts.

Lemma bump_ok : allocator_ok bump.
Proof.
  intros blocks n. unfold bump.
  set (f := fun (b : Z * Z) acc => Z.max acc (8 * ((fst b + snd b + 7) / 8))).
  assert (H : 0 < fold_right f 8 blocks /\ fold_right f 8 blocks mod 8 = 0 /\
              forall b, In b blocks -> fst b + snd b <= fold_right f 8 blocks).
  { induction blocks as [|b blocks (IH1 & IH2 & IH3)]; cbn [fold_right].
    - split; [lia|]. split; [reflexivity|]. intros b [].
    - unfold f at 1 3 5.
      assert (Hb : fst b + snd b <= 8 * ((fst b + snd b + 7) / 8))
        by (Z.to_euclidean_division_equations; lia).
      assert (Hm : (8 * ((fst b + snd b + 7) / 8)) mod 8 = 0)
        by (rewrite Z.mul_comm; apply Z.mod_mul; lia).
      split; [lia|]. split.
      + destruct (Z.max_spec (fold_right f 8 blocks) (8 * ((fst b + snd b + 7) / 8)))
          as [[_ ->]|[_ ->]]; assumption.
      + intros x [<-|Hx]; [lia|]. specialize (IH3 x Hx). lia. }
  destruct H as (H1 & H2 & H3). split; [exact H1|]. split; [exact H2|].
  intros b Hb. unfold apart. cbn [fst snd]. right. now apply H3.
Qed.

Lemma regions_are_apart_witness :
  exists given a,
    serve_all bump NewArena [] [Plain 100; Aligned 30; Plain 5000; Aligned 8]
    = Some (given, a) /\
    given = [(144, 8); (4104, 5000); (112, 30); (8, 100)] /\
    all_apart given /\
    Forall (fun g => exists b, In b (blocks_ a) /\ inside g b) given.
Proof.
  destruct (regions_are_apart bump bump_ok [Plain 100; Aligned 30; Plain 5000; Aligned 8])
    as (given & a & E & _ & H1 & H2 & _).
  - repeat constructor.
  - exists given, a. split; [exact E|]. split; [|split; assumption].
    vm_compute in E. now injection E as <- _.
Defined.

(** Past the bound: a request of 2^64 - 1 bytes to [AllocateAligned]
    when seven bytes of slop are due.  [bytes + slop] wraps to 6, and
    the arena returns an address of the block of 4096 bytes that it
    has. *)
Lemma AllocateAligned_wraps :
  exists a,
    serve_all bump NewArena [] [Plain 1; Aligned (2 ^ 64 - 1)]
    = Some ([(16, 2 ^ 64 - 1); (8, 1)], a) /\
    blocks_ a = [(8, 4096)].
Proof. eexists. split; vm_compute; reflexivity. Qed.

Lemma AllocateAligned_is_aligned_witness :
  exists p a', AllocateAligned bump NewArena 24 = Some (p, a') /\ p mod 8 = 0.
Proof. apply (AllocateAligned_is_aligned bump bump_ok). Defined.

Lemma MemoryUsage_counts_the_blocks_witness :
  exists given a,
    serve_all bump NewArena [] [Plain 100; Aligned 30; Plain 5000; Aligned 8]
    = Some (given, a) /\
    MemoryUsage a = uint64 (blocks_memory (blocks_ a)) /\
    Forall (fun b => snd b = kBlockSize \/ kBlockSize / 4 < snd b) (blocks_ a).
Proof.
  apply (MemoryUsage_counts_the_blocks bump bump_ok). repeat constructor.
Defined.

End ArenaFacts.

Module CacheUseFacts.
Import Cache CacheFacts.

Lemma unlink_elem_of e l l' : unlink e l = Some l' -> e ∈ l.
Proof. intros H. rewrite (unlink_Permutation _ _ _ H). now left. Qed.

(** [Lookup] finds the entry that has the key, and only that one. *)
Lemma Lookup_present c hs key hash p h :
  cache_ok c hs -> p ∈ entries (table_ c) ->
  deref (heap c) p = Some h -> has_key h key hash ->
  exists c', Lookup c key hash = Some (c', Some p).
Proof.
  intros Hok Hp Hh Hk.
  destruct (Lookup_spec c hs key hash Hok) as (c' & r & HL & _ & _ & _ & Hr).
  destruct r as [e|].
  - destruct Hr as ((h' & Hh' & Hk') & (l & Hun & _) & _).
    assert (He : e ∈ entries (table_ c))
      by (apply (ok_listed _ _ Hok); exact (unlink_elem_of _ _ _ Hun)).
    assert (p = e) as ->.
    { apply (ok_unique _ _ (proj1 (ok_table _ _ Hok)) p e h h' Hp He Hh Hh').
      - destruct Hk as [_ ->], Hk' as [_ ->]. reflexivity.
      - destruct Hk as [-> _], Hk' as [-> _]. reflexivity. }
    exists c'. exact HL.
  - destruct Hr as [_ Habs]. exfalso. exact (Habs p h Hp Hh Hk).
Qed.

Lemma Lookup_absent c hs key hash :
  cache_ok c hs -> absent (heap c) (table_ c) key hash ->
  Lookup c key hash = Some (c, None).
Proof.
  intros Hok Habs.
  destruct (Lookup_spec c hs key hash Hok) as (c' & r & HL & _ & _ & _ & Hr).
  destruct r as [e|].
  - destruct Hr as ((h' & Hh' & Hk') & (l & Hun & _) & _). exfalso.
    apply (Habs e h'); [|exact Hh'|exact Hk'].
    apply (ok_listed _ _ Hok). exact (unlink_elem_of _ _ _ Hun).
  - destruct Hr as [-> _]. exact HL.
Qed.

(** What [Lookup] returns for a key is the entry of the table that has
    the key, if there is one. *)
Lemma Lookup_result c hs key hash c' r :
  cache_ok c hs -> Lookup c key hash = Some (c', r) ->
  match r with
  | Some p => p ∈ entries (table_ c) /\
              exists h, deref (heap c) p = Some h /\ has_key h key hash
  | None => absent (heap c) (table_ c) key hash
  end.
Proof.
  intros Hok HL.
  destruct (Lookup_spec c hs key hash Hok) as (c1 & r1 & HL1 & _ & _ & _ & Hr).
  rewrite HL in HL1. inversion HL1; subst c1 r1. destruct r as [p|].
  - destruct Hr as (Hh & (l & Hun & _) & _). split; [|exact Hh].
    apply (ok_listed _ _ Hok). exact (unlink_elem_of _ _ _ Hun).
  - now destruct Hr.
Qed.

(** [Erase] in detail: the entry with the key, if there is one, leaves
    the table and the list; no other handle changes. *)
Lemma Erase_detail c hs key hash :
  cache_ok c hs ->
  exists c', Erase c key hash = Some c' /\ cache_ok c' hs /\
    ((c' = c /\ absent (heap c) (table_ c) key hash) \/
     (exists p h, deref (heap c) p = Some h /\ has_key h key hash /\
        unlink p (lru_ c) = Some (lru_ c') /\
        entries (table_ c) ≡ₚ p :: entries (table_ c') /\
        (forall q, q <> p -> deref (heap c') q = deref (heap c) q))).
Proof.
  intros Hok. unfold Erase.
  destruct (HandleTable_Remove_spec (heap c) (table_ c) key hash (ok_table _ _ Hok))
    as (t' & r & -> & Hr).
  cbn [mbind option_bind]. destruct r as [p|].
  - destruct Hr as ((h & Hh & Hk) & Hperm & Ht').
    assert (Hp : p ∈ lru_ c).
    { apply (ok_listed _ _ Hok). rewrite Hperm. now left. }
    destruct (unlink_elem _ _ Hp) as [lru' Hun].
    unfold LRU_Remove. simpl_cache. rewrite Hun. cbn [mbind option_bind].
    destruct (Unref_detached c hs p lru' t' Hok (unlink_Permutation _ _ _ Hun) Hperm Ht')
      as (c' & HU & Hok' & _ & Hl & Ht & _ & Hframe).
    exists c'. split; [exact HU|]. split; [exact Hok'|]. right.
    exists p, h. rewrite Hl, Ht. auto.
  - destruct Hr as [-> Habs]. exists c. split; [now destruct c|].
    split; [exact Hok|]. now left.
Qed.

Lemma last_of_app {A} (l l' : list A) (x : A) (ev : list A) :
  l ++ [x] = ev ++ l' -> l' <> [] -> x ∈ l'.
Proof.
  intros E Hne.
  destruct (exists_last Hne) as (l0 & y & ->).
  rewrite app_assoc in E. apply app_inj_tail in E as [_ ->].
  apply elem_of_app. right. now left.
Qed.

(** X18: [Lookup] after [Insert].  The handle that [Insert] returns is
    allocated and holds the key, the hash, the value, the charge and
    the deleter that were given.  A [Lookup] with the key and the hash
    then returns this handle, and no older entry of the key; it returns
    NULL only when [Insert] has emptied the list, the new entry
    included, to make room. *)
Theorem Lookup_after_Insert c hs key hash value charge deleter c' e :
  reachable c hs -> may_hold hs -> elems_ (table_ c) < 2 ^ 31 ->
  Insert c key hash value charge deleter = Some (c', e) ->
  (exists h, deref (heap c') e = Some h /\
     LRUHandle.key h = key /\ LRUHandle.hash h = hash /\
     LRUHandle.value h = value /\ LRUHandle.charge h = charge /\
     LRUHandle.deleter h = deleter) /\
  exists c'' r, Lookup c' key hash = Some (c'', r) /\
    (lru_ c' <> [] -> r = Some e) /\
    (lru_ c' = [] -> r = None /\ c'' = c').
Proof.
  intros Hreach Hmay Hel HI. pose proof (reachable_ok c hs Hreach) as Hok.
  destruct (Insert_spec c hs key hash value charge deleter Hok Hmay Hel)
    as (c1 & l & ev & u & HI1 & Hok' & _ & _ & _ & Hev & Hkept & _).
  rewrite HI in HI1. inversion HI1; subst c1 e. clear HI1.
  set (e := length (heap c)) in *.
  assert (Hlive : exists h, deref (heap c') e = Some h).
  { destruct (deref (heap c') e) as [h|] eqn:E; [eauto|]. exfalso.
    apply (proj2 (ok_refs _ _ Hok') e); [|exact E]. apply elem_of_app. left. now left. }
  destruct Hlive as [h Hh].
  destruct (Hkept e h Hh) as (h0 & Hh0 & Eh).
  unfold e in Hh0 at 1. rewrite deref_snoc, decide_True in Hh0 by reflexivity.
  inversion Hh0; subst h0. clear Hh0.
  assert (Hk : has_key h key hash) by (rewrite Eh; split; reflexivity).
  split; [exists h; split; [exact Hh|]; rewrite Eh; repeat (split; [reflexivity|]); reflexivity|].
  destruct (lru_ c') as [|x l'] eqn:El.
  - assert (Habs : absent (heap c') (table_ c') key hash).
    { intros p x Hp. apply (ok_listed _ _ Hok') in Hp. rewrite El in Hp.
      now apply elem_of_nil in Hp. }
    exists c', None. split; [exact (Lookup_absent c' _ key hash Hok' Habs)|].
    split; [congruence|]. now split.
  - assert (Hin : e ∈ lru_ c').
    { rewrite El. apply (last_of_app l (x :: l') e ev); [exact Hev|discriminate]. }
    apply (ok_listed _ _ Hok') in Hin.
    destruct (Lookup_present c' _ key hash e h Hok' Hin Hh Hk) as [c'' HL].
    exists c'', (Some e). split; [exact HL|]. split; [reflexivity|discriminate].
Qed.

Lemma Lookup_after_Insert_witness :
  (exists h, deref (heap cache_a) O = Some h /\
     LRUHandle.key h = bytes_of_string "a" /\ LRUHandle.hash h = 1 /\
     LRUHandle.value h = 100 /\ LRUHandle.charge h = 1 /\
     LRUHandle.deleter h = 0) /\
  exists c'' r, Lookup cache_a (bytes_of_string "a") 1 = Some (c'', r) /\
    (lru_ cache_a <> [] -> r = Some O) /\
    (lru_ cache_a = [] -> r = None /\ c'' = cache_a).
Proof.
  apply (Lookup_after_Insert cache_new [] (bytes_of_string "a") 1 100 1 0 cache_a O).
  - exact reachable_cache_new.
  - exact may_hold_nil.
  - cbn. lia.
  - exact Insert_a.
Defined.

(** X19: [Lookup] after [Erase] returns NULL for the key and leaves the
    cache as it is.  [Erase] frees no handle that a client holds: each
    stays allocated with the fields it had.  A [Lookup] of another key,
    or of the key with another hash, returns the handle that it would
    have returned before. *)
Theorem Lookup_after_Erase c hs key hash c' :
  reachable c hs ->
  Erase c key hash = Some c' ->
  Lookup c' key hash = Some (c', None) /\
  (forall p h, p ∈ hs -> deref (heap c) p = Some h ->
     exists h', deref (heap c') p = Some h' /\
       h' = LRUHandle.set_refs h (LRUHandle.refs h')) /\
  (forall key2 hash2 c1 r1 c2 r2,
     (key2, hash2) <> (key, hash) ->
     Lookup c key2 hash2 = Some (c1, r1) ->
     Lookup c' key2 hash2 = Some (c2, r2) ->
     r2 = r1).
Proof.
  intros Hreach HE. pose proof (reachable_ok c hs Hreach) as Hok.
  destruct (Erase_detail c hs key hash Hok) as (c1 & HE1 & Hok' & Hcase).
  rewrite HE in HE1. inversion HE1; subst c1. clear HE1.
  assert (Hkept : kept (heap c) (heap c')).
  { destruct (Erase_spec c hs key hash Hok) as (c1 & HE1 & _ & _ & Hk).
    rewrite HE in HE1. now inversion HE1; subst c1. }
  assert (Habs : absent (heap c') (table_ c') key hash).
  { destruct Hcase as [[-> Habs]|(p & h & Hh & Hk & Hun & Hperm & Hframe)]; [exact Habs|].
    intros q x Hq Hx Hkx.
    assert (Hnd : NoDup (p :: entries (table_ c'))).
    { rewrite <- Hperm. exact (ok_nodup _ _ (proj1 (ok_table _ _ Hok))). }
    apply NoDup_cons in Hnd as [Hp _].
    assert (Hqp : q <> p) by (intros ->; contradiction).
    rewrite Hframe in Hx by exact Hqp.
    apply Hqp.
    apply (ok_unique _ _ (proj1 (ok_table _ _ Hok)) q p x h); try assumption.
    - rewrite Hperm. now right.
    - rewrite Hperm. now left.
    - destruct Hk as [_ ->], Hkx as [_ ->]. reflexivity.
    - destruct Hk as [-> _], Hkx as [-> _]. reflexivity. }
  split; [exact (Lookup_absent c' hs key hash Hok' Habs)|]. split.
  - intros p h Hp Hh.
    destruct (deref (heap c') p) as [h'|] eqn:E.
    + exists h'. split; [reflexivity|].
      destruct (Hkept p h' E) as (h0 & Hh0 & Eh). rewrite Hh in Hh0.
      now inversion Hh0; subst h0.
    + exfalso. apply (proj2 (ok_refs _ _ Hok') p); [|exact E].
      apply elem_of_app. now left.
  - intros key2 hash2 c1 r1 c2 r2 Hne HL1 HL2.
    pose proof (Lookup_result c hs key2 hash2 c1 r1 Hok HL1) as H1.
    pose proof (Lookup_result c' hs key2 hash2 c2 r2 Hok' HL2) as H2.
    destruct Hcase as [[-> _]|(p & h & Hh & Hk & Hun & Hperm & Hframe)].
    { rewrite HL1 in HL2. now inversion HL2. }
    assert (Hother : forall q x, deref (heap c) q = Some x -> has_key x key2 hash2 -> q <> p).
    { intros q x Hx Hkx ->. rewrite Hh in Hx. inversion Hx; subst x.
      apply Hne. destruct Hk as [<- <-], Hkx as [<- <-]. reflexivity. }
    destruct r1 as [p1|], r2 as [p2|].
    + destruct H1 as (Hp1 & x1 & Hx1 & Hk1), H2 as (Hp2 & x2 & Hx2 & Hk2).
      assert (Hp2p : p2 <> p).
      { intros ->. assert (Hnd : NoDup (p :: entries (table_ c'))).
        { rewrite <- Hperm. exact (ok_nodup _ _ (proj1 (ok_table _ _ Hok))). }
        apply NoDup_cons in Hnd as [Hp _]. contradiction. }
      rewrite Hframe in Hx2 by exact Hp2p. f_equal.
      apply (ok_unique _ _ (proj1 (ok_table _ _ Hok)) p2 p1 x2 x1); try assumption.
      * rewrite Hperm. now right.
      * destruct Hk1 as [_ ->], Hk2 as [_ ->]. reflexivity.
      * destruct Hk1 as [-> _], Hk2 as [-> _]. reflexivity.
    + destruct H1 as (Hp1 & x1 & Hx1 & Hk1). exfalso.
      pose proof (Hother p1 x1 Hx1 Hk1) as Hp1p.
      apply (H2 p1 x1); [|now rewrite Hframe|exact Hk1].
      rewrite Hperm in Hp1. apply elem_of_cons in Hp1 as [->|Hp1]; [contradiction|exact Hp1].
    + destruct H2 as (Hp2 & x2 & Hx2 & Hk2). exfalso.
      assert (Hp2p : p2 <> p).
      { intros ->. assert (Hnd : NoDup (p :: entries (table_ c'))).
        { rewrite <- Hperm. exact (ok_nodup _ _ (proj1 (ok_table _ _ Hok))). }
        apply NoDup_cons in Hnd as [Hp _]. contradiction. }
      rewrite Hframe in Hx2 by exact Hp2p.
      apply (H1 p2 x2); [|exact Hx2|exact Hk2]. rewrite Hperm. now right.
    + reflexivity.
Qed.

Lemma Lookup_after_Erase_witness :
  Lookup cache_a_erased (bytes_of_string "a") 1 = Some (cache_a_erased, None) /\
  exists h', deref (heap cache_a_erased) O = Some h' /\
    h' = LRUHandle.set_refs (handle_a 2) (LRUHandle.refs h').
Proof.
  destruct (Lookup_after_Erase cache_a [O] (bytes_of_string "a") 1 cache_a_erased
              reachable_cache_a Erase_a) as (H1 & H2 & _).
  split; [exact H1|]. apply (H2 O (handle_a 2)); [now left|reflexivity].
Defined.

(** X20: [Release] gives up one reference.  A handle has one reference
    for each handle that clients hold of it and one more while its
    entry is on the list.  With the last reference the handle is freed:
    the deleter is called once, with the key and the value, and the
    charge leaves the usage; otherwise nothing but the counter of the
    handle changes.  No other handle, and neither the list nor the
    table, is touched. *)
Theorem Release_last_reference c hs handle :
  reachable c hs -> handle ∈ hs ->
  exists h c', deref (heap c) handle = Some h /\ Release c handle = Some c' /\
    LRUHandle.refs h
    = Z.of_nat (count handle hs) + (if decide (handle ∈ lru_ c) then 1 else 0) /\
    (LRUHandle.refs h = 1 ->
       deref (heap c') handle = None /\
       deleted c' = deleted c
                    ++ [(LRUHandle.deleter h, LRUHandle.key h, LRUHandle.value h)] /\
       usage_ c' = uint64 (usage_ c - LRUHandle.charge h)) /\
    (LRUHandle.refs h <> 1 ->
       deref (heap c') handle
       = Some (LRUHandle.set_refs h (LRUHandle.refs h - 1)) /\
       deleted c' = deleted c /\ usage_ c' = usage_ c) /\
    (forall q, q <> handle -> deref (heap c') q = deref (heap c) q) /\
    lru_ c' = lru_ c /\ table_ c' = table_ c /\ capacity_ c' = capacity_ c.
Proof.
  intros Hreach Hin. pose proof (reachable_ok c hs Hreach) as Hok.
  destruct (ok_refs _ _ Hok) as [Hrefs Hlive].
  destruct (deref (heap c) handle) as [h|] eqn:Hh;
    [|exfalso; apply (Hlive handle); [apply elem_of_app; now left|exact Hh]].
  destruct (Hrefs handle h Hh) as [Hr Hr1].
  pose proof (count_owner hs (lru_ c) handle (ok_lru _ _ Hok) (ok_handles _ _ Hok)) as Hb.
  pose proof (deref_lt _ _ _ Hh) as Hlt.
  assert (Hu : uint32 (LRUHandle.refs h - 1) = LRUHandle.refs h - 1)
    by (unfold uint32; apply Z.mod_small; lia).
  assert (Hcount : LRUHandle.refs h
                   = Z.of_nat (count handle hs) + (if decide (handle ∈ lru_ c) then 1 else 0)).
  { rewrite Hr, count_app. destruct (decide (handle ∈ lru_ c)) as [Hl|Hl].
    - rewrite (count_NoDup handle (lru_ c)) by (exact (ok_lru _ _ Hok) || exact Hl). lia.
    - rewrite (count_notin handle (lru_ c)) by exact Hl. lia. }
  unfold Release, Unref. rewrite Hh. cbn [mbind option_bind].
  destruct (Z.gtb_spec (LRUHandle.refs h) 0) as [_|]; [|lia].
  cbn [LRUHandle.refs LRUHandle.set_refs]. rewrite Hu.
  destruct (Z.leb_spec (LRUHandle.refs h - 1) 0) as [Hlast|Hmore].
  - eexists h, _. split; [reflexivity|]. split; [reflexivity|]. split; [exact Hcount|].
    simpl_cache. cbn [LRUHandle.charge LRUHandle.deleter LRUHandle.key LRUHandle.value
                      LRUHandle.key_data].
    split; [|split; [intros H; lia|]].
    + intros _. split; [|split; reflexivity].
      rewrite deref_free, decide_True; [reflexivity|reflexivity|].
      unfold store. now rewrite length_insert.
    + split; [|now repeat split].
      intros q Hq. rewrite deref_free by (unfold store; now rewrite length_insert).
      rewrite decide_False by congruence.
      rewrite deref_store by exact Hlt. now rewrite decide_False by congruence.
  - eexists h, _. split; [reflexivity|]. split; [reflexivity|]. split; [exact Hcount|].
    simpl_cache.
    split; [intros H; lia|]. split.
    + intros _. split; [|split; reflexivity].
      rewrite deref_store by exact Hlt. now rewrite decide_True.
    + split; [|now repeat split].
      intros q Hq. rewrite deref_store by exact Hlt. now rewrite decide_False by congruence.
Qed.

Lemma Release_last_reference_witness :
  exists h c', deref (heap cache_a_erased) O = Some h /\
    Release cache_a_erased O = Some c' /\
    LRUHandle.refs h = 1 /\
    deref (heap c') O = None /\
    deleted c' = [(0, bytes_of_string "a", 100)] /\
    usage_ c' = 0.
Proof.
  destruct (Release_last_reference cache_a_erased [O] O reachable_cache_a_erased)
    as (h & c' & Hh & HR & Hc & Hlast & _); [now left|].
  exists h, c'. split; [exact Hh|]. split; [exact HR|].
  assert (Hone : LRUHandle.refs h = 1) by (rewrite Hc; reflexivity).
  split; [exact Hone|].
  destruct (Hlast Hone) as (H1 & H2 & H3).
  split; [exact H1|]. inversion Hh; subst h. split; [exact H2|exact H3].
Defined.

(** The entries that a client holds stay on the list through the loop
    of [Prune]. *)
Lemma Prune_loop_keeps hs p rest : forall c c',
  cache_ok c hs -> NoDup rest -> (forall q, q ∈ rest -> q ∈ lru_ c) ->
  Prune_loop c rest = Some c' ->
  p ∈ lru_ c -> p ∈ hs -> p ∈ lru_ c'.
Proof.
  induction rest as [|e next IH]; intros c c' Hok Hnd Hsub HP Hp Hhs.
  - cbn in HP. now inversion HP; subst c'.
  - apply NoDup_cons in Hnd as [Hen Hnd].
    assert (Hin : e ∈ lru_ c) by (apply Hsub; now left).
    destruct (cache_ok_listed_live c hs e Hok Hin) as [h He].
    cbn [Prune_loop] in HP. rewrite He in HP. cbn [mbind option_bind] in HP.
    destruct (Z.eqb_spec (LRUHandle.refs h) 1) as [Hone|Hone].
    + destruct (unlink_elem _ _ Hin) as [lru' Hun].
      pose proof (unlink_Permutation _ _ _ Hun) as Hperm.
      destruct (evict_spec c hs e h lru' Hok Hperm He)
        as (t' & c1 & HR & HU & Hok1 & _ & Hl1 & _ & _).
      rewrite HR in HP. cbn [mbind option_bind] in HP.
      unfold LRU_Remove in HP. simpl_cache. rewrite Hun in HP.
      cbn [mbind option_bind] in HP.
      replace (Unref (set_lru_ (set_table_ c t') lru') e) with (Some c1) in HP
        by exact (eq_sym HU).
      cbn [mbind option_bind] in HP.
      destruct (Permutation_cons_NoDup _ _ _ Hperm (ok_lru _ _ Hok)) as (_ & Hel' & Hmem).
      assert (Hpe : p <> e).
      { intros ->. destruct (ok_refs _ _ Hok) as [Hr _]. destruct (Hr _ _ He) as [Hc _].
        rewrite count_app in Hc.
        rewrite (count_NoDup e (lru_ c)) in Hc by (exact (ok_lru _ _ Hok) || exact Hin).
        pose proof (count_elem e hs Hhs). lia. }
      apply (IH c1 c' Hok1 Hnd); [|exact HP| |exact Hhs].
      * intros q Hq. rewrite Hl1. apply Hmem. split; [apply Hsub; now right|].
        intros ->. contradiction.
      * rewrite Hl1. apply Hmem. now split.
    + apply (IH c c' Hok Hnd); [|exact HP|exact Hp|exact Hhs].
      intros q Hq. apply Hsub. now right.
Qed.

(** X21: [Prune] takes from the cache exactly the entries that no client
    holds: the entries that are left are those of which a client holds
    a handle.  No handle that a client holds is freed or changed. *)
Theorem Prune_keeps_the_entries_in_use c hs c' :
  reachable c hs ->
  Prune c = Some c' ->
  (forall p, p ∈ lru_ c' <-> p ∈ lru_ c /\ p ∈ hs) /\
  (forall p, p ∈ entries (table_ c') <-> p ∈ lru_ c') /\
  (forall p h, p ∈ hs -> deref (heap c) p = Some h -> deref (heap c') p = Some h) /\
  usage_ c' = uint64 (charge_of (heap c') (lru_ c' ++ off_list c' hs)).
Proof.
  intros Hreach HP. pose proof (reachable_ok c hs Hreach) as Hok.
  destruct (Prune_loop_spec hs (lru_ c) c Hok (ok_lru _ _ Hok) ltac:(auto))
    as (c1 & HP1 & Hok' & _ & Hkept & Hsub & Hrefs).
  unfold Prune in HP. rewrite HP in HP1. inversion HP1; subst c1. clear HP1.
  assert (Hheld : forall p, p ∈ lru_ c' -> p ∈ hs).
  { intros p Hp. destruct (cache_ok_listed_live c' hs p Hok' Hp) as [h Hh].
    pose proof (Hrefs p h (Hsub p Hp) Hp Hh) as Hne.
    destruct (ok_refs _ _ Hok') as [Hr _]. destruct (Hr _ _ Hh) as [Hc Hc1].
    rewrite count_app in Hc.
    rewrite (count_NoDup p (lru_ c')) in Hc by (exact (ok_lru _ _ Hok') || exact Hp).
    apply count_pos_elem. lia. }
  split; [|split; [|split]].
  - intros p. split.
    + intros Hp. split; [now apply Hsub|now apply Hheld].
    + intros [Hp Hhs].
      exact (Prune_loop_keeps hs p (lru_ c) c c' Hok (ok_lru _ _ Hok) ltac:(auto) HP Hp Hhs).
  - intros p. symmetry. exact (ok_listed _ _ Hok' p).
  - intros p h Hp Hh.
    destruct (deref (heap c') p) as [h'|] eqn:E.
    + destruct (Hkept p h' E) as (h0 & Hh0 & Eh). rewrite Hh in Hh0.
      inversion Hh0; subst h0. f_equal. rewrite Eh.
      destruct (ok_refs _ _ Hok') as [Hr' _]. destruct (Hr' _ _ E) as [Hc' _].
      destruct (ok_refs _ _ Hok) as [Hr _]. destruct (Hr _ _ Hh) as [Hc _].
      rewrite count_app in Hc, Hc'.
      assert (Hl : count p (lru_ c') = count p (lru_ c)).
      { destruct (decide (p ∈ lru_ c)) as [Hin|Hout].
        - rewrite !count_NoDup; try reflexivity;
            try exact (ok_lru _ _ Hok); try exact (ok_lru _ _ Hok'); try exact Hin.
          exact (Prune_loop_keeps hs p (lru_ c) c c' Hok (ok_lru _ _ Hok)
                   ltac:(auto) HP Hin Hp).
        - rewrite !count_notin; auto. }
      destruct h as [v d ch k r hsh]. unfold LRUHandle.set_refs.
      cbn [LRUHandle.value LRUHandle.deleter LRUHandle.charge LRUHandle.key_data
           LRUHandle.hash LRUHandle.refs] in *.
      f_equal. rewrite Eh in Hc'. cbn [LRUHandle.refs LRUHandle.set_refs] in Hc'. lia.
    + exfalso. apply (proj2 (ok_refs _ _ Hok') p); [|exact E].
      apply elem_of_app. now left.
  - rewrite (ok_usage _ _ Hok'). f_equal.
    rewrite (cache_ok_charges c' hs Hok'). now rewrite charge_of_app.
Qed.

Lemma Prune_keeps_the_entries_in_use_witness :
  Prune cache_a = Some cache_a /\
  (forall p, p ∈ lru_ cache_a <-> p ∈ lru_ cache_a /\ p ∈ [O]).
Proof.
  split; [reflexivity|].
  apply (Prune_keeps_the_entries_in_use cache_a [O] cache_a reachable_cache_a eq_refl).
Defined.

(** X22: a [Lookup] that finds the key makes the entry the newest of the
    list, the last one that [Insert] will evict, and adds the reference
    of the handle that it returns; the other entries keep their order.
    It changes neither the usage nor the table nor any other handle.
    A [Lookup] that does not find the key changes nothing. *)
Theorem Lookup_makes_the_entry_the_newest c hs key hash c' r :
  reachable c hs -> may_hold hs ->
  Lookup c key hash = Some (c', r) ->
  match r with
  | Some e =>
      exists h l, deref (heap c) e = Some h /\ has_key h key hash /\
        unlink e (lru_ c) = Some l /\ lru_ c' = l ++ [e] /\
        deref (heap c') e = Some (LRUHandle.set_refs h (LRUHandle.refs h + 1)) /\
        (forall q, q <> e -> deref (heap c') q = deref (heap c) q) /\
        usage_ c' = usage_ c /\ table_ c' = table_ c /\ capacity_ c' = capacity_ c /\
        deleted c' = deleted c
  | None => c' = c /\ absent (heap c) (table_ c) key hash
  end.
Proof.
  intros Hreach Hmay HL. pose proof (reachable_ok c hs Hreach) as Hok.
  pose proof (Lookup_result c hs key hash c' r Hok HL) as Hres.
  destruct r as [e|].
  - destruct Hres as (Hin & h & Hh & Hk).
    apply (ok_listed _ _ Hok) in Hin. destruct (unlink_elem _ _ Hin) as [l Hun].
    exists h, l. split; [exact Hh|]. split; [exact Hk|]. split; [exact Hun|].
    pose proof (deref_lt _ _ _ Hh) as Hlt.
    destruct (ok_refs _ _ Hok) as [Hrefs _].
    destruct (Hrefs e h Hh) as [Hr Hr1].
    pose proof (count_owner hs (lru_ c) e (ok_lru _ _ Hok) (ok_handles _ _ Hok)) as Hb.
    assert (Hu : uint32 (LRUHandle.refs h + 1) = LRUHandle.refs h + 1).
    { unfold uint32. apply Z.mod_small. rewrite count_app in *.
      rewrite (count_NoDup e (lru_ c)) in * by (exact (ok_lru _ _ Hok) || exact Hin).
      pose proof (count_le_length e hs). unfold may_hold in Hmay. lia. }
    unfold Lookup in HL.
    destruct (HandleTable_Lookup (heap c) (table_ c) key hash) as [[e'|]|] eqn:HT;
      cbn [mbind option_bind] in HL; try discriminate.
    destruct (deref (heap c) e') as [h'|] eqn:Hh'; cbn [mbind option_bind] in HL;
      [|discriminate].
    unfold LRU_Remove in HL. simpl_cache.
    destruct (unlink e' (lru_ c)) as [l'|] eqn:Hun'; cbn [mbind option_bind] in HL;
      [|discriminate].
    inversion HL; subst c' e'. clear HL.
    rewrite Hh in Hh'. inversion Hh'; subst h'. rewrite Hun in Hun'.
    inversion Hun'; subst l'. simpl_cache. rewrite Hu.
    split; [reflexivity|]. split.
    + rewrite deref_store by exact Hlt. now rewrite decide_True.
    + split; [|now repeat split].
      intros q Hq. rewrite deref_store by exact Hlt. now rewrite decide_False by congruence.
  - destruct (Lookup_spec c hs key hash Hok) as (c1 & r1 & HL1 & _ & _ & _ & Hr).
    rewrite HL in HL1. inversion HL1; subst c1 r1. exact Hr.
Qed.

Lemma Lookup_makes_the_entry_the_newest_witness :
  exists h l, deref (heap cache_a) O = Some h /\ has_key h (bytes_of_string "a") 1 /\
    unlink O (lru_ cache_a) = Some l /\
    deref (heap (set_heap cache_a [Some (handle_a 3)])) O
    = Some (LRUHandle.set_refs h (LRUHandle.refs h + 1)).
Proof.
  destruct (Lookup_makes_the_entry_the_newest cache_a [O] (bytes_of_string "a") 1
              (set_heap cache_a [Some (handle_a 3)]) (Some O) reachable_cache_a)
    as (h & l & H1 & H2 & H3 & _ & H5 & _).
  - unfold may_hold. cbn [length]. lia.
  - reflexivity.
  - exists h, l. auto.
Defined.

(** X23: the hash table of every cache that its clients reach.  It has a
    power of two of buckets, at least four, and as many entries as the
    list, never more than buckets; every entry is in the bucket that
    the low bits of its hash select; no two entries have the same key
    and hash. *)
Theorem table_invariants c hs :
  reachable c hs ->
  (exists k, 2 <= k <= 31 /\ length_ (table_ c) = 2 ^ k /\
             length (list_ (table_ c)) = Z.to_nat (2 ^ k)) /\
  elems_ (table_ c) = Z.of_nat (length (lru_ c)) /\
  elems_ (table_ c) <= length_ (table_ c) /\
  (forall b chain p, list_ (table_ c) !! b = Some chain -> p ∈ chain ->
     p ∈ lru_ c /\
     exists e, deref (heap c) p = Some e /\
       Z.of_nat b = LRUHandle.hash e mod length_ (table_ c)) /\
  (forall p q e1 e2, p ∈ lru_ c -> q ∈ lru_ c ->
     deref (heap c) p = Some e1 -> deref (heap c) q = Some e2 ->
     LRUHandle.key e1 = LRUHandle.key e2 -> LRUHandle.hash e1 = LRUHandle.hash e2 ->
     p = q).
Proof.
  intros Hreach. pose proof (reachable_ok c hs Hreach) as Hok.
  destruct (ok_table _ _ Hok) as [Hshape Hload].
  destruct (ok_length _ _ Hshape) as (k & Hk & Hlen).
  split; [exists k; split; [exact Hk|]; split; [exact Hlen|]|].
  { pose proof (ok_buckets _ _ Hshape). lia. }
  split.
  { rewrite (ok_elems _ _ Hshape). f_equal. apply Permutation_length.
    apply NoDup_Permutation; [exact (ok_nodup _ _ Hshape)|exact (ok_lru _ _ Hok)|].
    intros p. symmetry. exact (ok_listed _ _ Hok p). }
  split; [exact Hload|]. split.
  - intros b chain p Hb Hp.
    assert (Hin : p ∈ entries (table_ c)).
    { unfold entries. apply elem_of_concat. exists b, chain. now split. }
    split; [now apply (ok_listed _ _ Hok)|].
    destruct (ok_chain _ _ Hshape b chain p Hb Hp) as (e & He & Hbk).
    exists e. split; [exact He|]. unfold bucket_of in Hbk.
    destruct (bucket_index (LRUHandle.hash e) (length_ (table_ c)) k ltac:(lia) Hlen)
      as [Eb Hr].
    rewrite Eb in Hbk. rewrite Hlen, <- Hbk. lia.
  - intros p q e1 e2 Hp Hq. apply (ok_unique _ _ Hshape); now apply (ok_listed _ _ Hok).
Qed.

Lemma table_invariants_witness :
  elems_ (table_ cache_a) = Z.of_nat (length (lru_ cache_a)) /\
  elems_ (table_ cache_a) <= length_ (table_ cache_a).
Proof.
  destruct (table_invariants cache_a [O] reachable_cache_a) as (_ & H1 & H2 & _).
  now split.
Defined.

End CacheUseFacts.

Module ShardFacts.
Import ShardedLRUCache.

(** X24: the sharding of [ShardedLRUCache].  [Shard] maps every hash of
    32 bits to one of the sixteen shards, by its four high bits.  The
    capacity of each shard is the capacity of the cache divided by
    sixteen and rounded up, so that the shards together hold at least
    the capacity asked for; but a capacity within fifteen of 2^64 wraps
    around, and the shards get none. *)
Theorem Shard_spreads_the_capacity hash capacity :
  0 <= hash < 2 ^ 32 -> 0 <= capacity < 2 ^ 64 ->
  0 <= Shard hash < kNumShards /\ Shard hash = hash / 2 ^ 28 /\
  (capacity <= 2 ^ 64 - 16 ->
     capacity <= kNumShards * per_shard capacity < capacity + kNumShards) /\
  (2 ^ 64 - 16 < capacity -> per_shard capacity = 0).
Proof.
  intros Hh Hc. unfold Shard, per_shard, kNumShards, kNumShardBits, uint64.
  change (Z.shiftl 1 4) with 16. change (32 - 4) with 28.
  rewrite Z.shiftr_div_pow2 by lia.
  change (2 ^ 28) with 268435456. change (2 ^ 32) with 4294967296 in Hh.
  change (2 ^ 64) with 18446744073709551616 in *.
  split; [Z.to_euclidean_division_equations; lia|]. split; [reflexivity|]. split.
  - intros Hs. rewrite Z.mod_small by lia. Z.to_euclidean_division_equations; lia.
  - intros Hs.
    replace (capacity + (16 - 1)) with
      ((capacity + 15 - 18446744073709551616) + 1 * 18446744073709551616) by lia.
    rewrite Z.mod_add by lia. rewrite Z.mod_small by lia. apply Z.div_small. lia.
Qed.

Lemma Shard_spreads_the_capacity_witness :
  Shard 4026531840 = 15 /\ per_shard 100 = 7 /\ per_shard (2 ^ 64 - 1) = 0.
Proof.
  destruct (Shard_spreads_the_capacity 4026531840 100 ltac:(lia) ltac:(lia)) as (_ & H1 & _).
  destruct (Shard_spreads_the_capacity 0 (2 ^ 64 - 1) ltac:(lia) ltac:(lia)) as (_ & _ & _ & H2).
  split; [rewrite H1; reflexivity|]. split; [reflexivity|]. apply H2. lia.
Defined.

End ShardFacts.

Module LogRecordFacts.
Import Coding CodingFacts LogReader LogReaderFacts.

Ltac simpl_reader :=
  cbn [file_ reporter_ checksum_ buffer_ eof_ last_record_offset_
       end_of_buffer_offset_ initial_offset_ resyncing_
       set_file_ set_reporter_ set_buffer_ set_eof_ set_last_record_offset_
       set_end_of_buffer_offset_ set_resyncing_].

Ltac simpl_reader_all :=
  cbn [file_ reporter_ checksum_ buffer_ eof_ last_record_offset_
       end_of_buffer_offset_ initial_offset_ resyncing_
       set_file_ set_reporter_ set_buffer_ set_eof_ set_last_record_offset_
       set_end_of_buffer_offset_ set_resyncing_] in *.

Ltac eval_tests :=
  repeat match goal with
  | |- context [?a =? ?b] =>
      let v := eval vm_compute in (a =? b) in
      match v with
      | true => change (a =? b) with true
      | false => change (a =? b) with false
      end
  end; cbv iota.

Section Facts.
Variable crc32c_Value : list Z -> Z.
Variable crc32c_Unmask : Z -> Z.

Abbreviation RPR := (ReadPhysicalRecord crc32c_Value crc32c_Unmask).
Abbreviation parse := (ReadPhysicalRecord_parse crc32c_Value crc32c_Unmask).
Abbreviation turn := (ReadRecord_turn crc32c_Value crc32c_Unmask).
Abbreviation loop := (ReadRecord_loop crc32c_Value crc32c_Unmask).
Abbreviation stands_before := (stands_before crc32c_Value crc32c_Unmask).
Abbreviation fragments_from := (fragments_from crc32c_Value crc32c_Unmask).
Abbreviation logical_record := (logical_record crc32c_Value crc32c_Unmask).

Lemma steady_after_read r :
  steady r -> failing (file_ r) = false ->
  steady (after_read r) /\ record_offset (after_read r) = end_of_buffer_offset_ r.
Proof.
  intros ((Hi & Hb & He) & Hrs & Hio) Hf.
  destruct (after_read_fields r Hf) as (Hab & Had & Hae & _ & Hai & Har & _).
  pose proof (slen_nonneg (buffer_ r)). pose proof (slen_nonneg (data (file_ r))).
  assert (Hsplit : slen (firstn (Z.to_nat kBlockSize) (data (file_ r)))
                   + slen (skipn (Z.to_nat kBlockSize) (data (file_ r)))
                   = slen (data (file_ r))).
  { unfold slen. rewrite <- Nat2Z.inj_add, <- length_app, firstn_skipn. reflexivity. }
  pose proof (slen_nonneg (firstn (Z.to_nat kBlockSize) (data (file_ r)))).
  pose proof (slen_nonneg (skipn (Z.to_nat kBlockSize) (data (file_ r)))).
  assert (Heob : end_of_buffer_offset_ (after_read r)
                 = end_of_buffer_offset_ r
                   + slen (firstn (Z.to_nat kBlockSize) (data (file_ r)))).
  { rewrite Hae. apply uint64_small. lia. }
  unfold steady, offsets_ok, record_offset in *.
  rewrite Hab, Had, Heob, Hai, Har. repeat split; try lia; assumption.
Qed.

(** One turn of the loop of [ReadRecord] on a reader that stands before
    a physical record. *)
Lemma turn_stands_before r l type payload r' :
  steady r -> stands_before r type payload r' ->
  turn r l = Some (ReadRecord_switch r'
                     (set_fragment l payload) (record_offset r) type) /\
  steady r' /\ reporter_ r' = reporter_ r.
Proof.
  intros Hst Hsb. pose proof Hst as (Ho & Hrs & Hio).
  rewrite turn_unfold, (record_offset_uint64 r Ho).
  destruct Hsb as [rest Hrec ->|rest Hs He Hf Hrec ->].
  - rewrite (RPR_record_at crc32c_Value crc32c_Unmask r (fragment l) type payload rest Ho Hrec).
    destruct (Z.ltb_spec (record_offset r) (initial_offset_ r)); [lia|].
    simpl_reader. rewrite Hrs. split; [reflexivity|]. split; [|reflexivity].
    destruct (record_at_sizes crc32c_Value crc32c_Unmask _ _ _ _ _ Hrec) as (Hk & Hp & Hr).
    pose proof (header_length_range (buffer_ r)).
    pose proof (slen_nonneg rest).
    destruct Ho as (Hi & Hb & Hee).
    unfold steady, offsets_ok, record_offset in *. simpl_reader.
    unfold kHeaderSize in *. repeat split; try lia; assumption.
  - destruct (steady_after_read r Hst Hf) as [Hst' Hro].
    destruct (after_read_fields r Hf) as (_ & _ & _ & Hc & Hi' & Hrs' & Hrep & _).
    rewrite <- Hc in Hrec.
    destruct (record_at_sizes crc32c_Value crc32c_Unmask _ _ _ _ _ Hrec) as (Hk & Hp & Hr).
    rewrite RPR_read by assumption.
    destruct (Z.ltb_spec (slen (buffer_ (after_read r))) kHeaderSize); [lia|].
    rewrite (parse_record crc32c_Value crc32c_Unmask (after_read r) (fragment l)
               type payload rest (proj1 Hst') Hrec).
    destruct Hst' as (Ho' & Hrs'' & Hio').
    destruct (Z.ltb_spec (record_offset (after_read r)) (initial_offset_ (after_read r)));
      [lia|].
    simpl_reader. rewrite Hrs''. split; [reflexivity|]. split; [|exact Hrep].
    pose proof (header_length_range (buffer_ (after_read r))).
    pose proof (slen_nonneg rest).
    destruct Ho' as (Hi & Hb & Hee).
    unfold steady, offsets_ok, record_offset in *. simpl_reader.
    unfold kHeaderSize in *. repeat split; try lia; assumption.
Qed.

Lemma loop_fragments r acc result r' :
  fragments_from r acc result r' ->
  forall fuel l,
    (unread r < fuel)%nat -> steady r ->
    in_fragmented_record l = true -> scratch l = acc ->
    exists l', loop fuel r l
               = Some (true, l', set_last_record_offset_ r' (prospective_record_offset l)) /\
      record l' = result /\ scratch l' = result /\ reporter_ r' = reporter_ r.
Proof.
  induction 1 as [r acc payload r' Hsb|r acc payload r1 result r' Hsb _ IH];
    intros fuel l Hfuel Hst Hin Hacc.
  - destruct fuel as [|fuel]; [lia|]. rewrite loop_S.
    destruct (turn_stands_before r l kLastType payload r' Hst Hsb) as (-> & _ & Hrep).
    unfold ReadRecord_switch. eval_tests.
    cbn [set_fragment in_fragmented_record scratch fragment prospective_record_offset record].
    rewrite Hin. cbn [negb].
    eexists. split; [reflexivity|]. cbn [record scratch]. now rewrite Hacc.
  - destruct fuel as [|fuel]; [lia|]. rewrite loop_S.
    destruct (turn_stands_before r l kMiddleType payload r1 Hst Hsb) as (Ht & Hst1 & Hrep).
    pose proof Ht as Ht'. revert Ht'.
    unfold ReadRecord_switch. eval_tests.
    cbn [set_fragment in_fragmented_record scratch fragment prospective_record_offset record].
    rewrite Hin. cbn [negb]. intros Ht'.
    pose proof (turn_inr_progress crc32c_Value crc32c_Unmask _ _ _ _ Ht') as Hprog.
    rewrite Ht'.
    destruct (IH fuel {| record := record l; scratch := scratch l ++ payload;
                         in_fragmented_record := true;
                         prospective_record_offset := prospective_record_offset l;
                         fragment := payload |})
      as (l' & HL & H1 & H2 & H3); [lia|exact Hst1|reflexivity| |].
    + cbn [scratch]. now rewrite Hacc.
    + exists l'. split; [exact HL|]. split; [exact H1|]. split; [exact H2|]. congruence.
Qed.

(** X25: [ReadRecord] on a reader that stands before a record of the
    user, a FULL physical record or a FIRST fragment with MIDDLE ones
    and a LAST one, each at the head of the buffer or of the next block
    after a trailer of fewer than seven bytes: it returns [true] with
    the payloads of the fragments in their order, reports nothing, and
    leaves what follows the record in the buffer.  [LastRecordOffset]
    is then the offset at which the reader stood before the call: that
    of the record, or that of the trailer which precedes it. *)
Theorem ReadRecord_logical_record r record0 scratch0 result r' :
  offsets_ok r -> resyncing_ r = false ->
  initial_offset_ r <= last_record_offset_ r ->
  initial_offset_ r <= record_offset r ->
  logical_record r result r' ->
  exists scratch,
    ReadRecord crc32c_Value crc32c_Unmask r record0 scratch0
    = Some (true, result, scratch, set_last_record_offset_ r' (record_offset r)) /\
    LastRecordOffset (set_last_record_offset_ r' (record_offset r)) = record_offset r /\
    reports (set_last_record_offset_ r' (record_offset r)) = reports r.
Proof.
  intros Ho Hrs Hlast Hio Hlog.
  assert (Hst : steady r) by (split; [exact Ho|split; assumption]).
  unfold ReadRecord, ReadRecord_from.
  destruct (Z.ltb_spec (last_record_offset_ r) (initial_offset_ r)); [lia|].
  cbn [negb]. rewrite loop_S.
  set (l0 := {| record := []; scratch := []; in_fragmented_record := false;
                prospective_record_offset := 0; fragment := [] |}).
  destruct Hlog as [Hsb|(payload & r1 & Hsb & Hfr)].
  - destruct (turn_stands_before r l0 kFullType result r' Hst Hsb) as (-> & _ & Hrep).
    unfold ReadRecord_switch. eval_tests.
    cbn [l0 set_fragment in_fragmented_record scratch fragment
         prospective_record_offset record].
    eexists. split; [reflexivity|]. split; [reflexivity|].
    unfold reports. simpl_reader. now rewrite Hrep.
  - destruct (turn_stands_before r l0 kFirstType payload r1 Hst Hsb) as (Ht & Hst1 & Hrep).
    pose proof Ht as Ht'. revert Ht'.
    unfold ReadRecord_switch. eval_tests.
    cbn [l0 set_fragment in_fragmented_record scratch fragment
         prospective_record_offset record].
    intros Ht'. pose proof (turn_inr_progress crc32c_Value crc32c_Unmask _ _ _ _ Ht') as Hprog. rewrite Ht'.
    destruct (loop_fragments r1 payload result r' Hfr
                (length (buffer_ r) + length (data (file_ r)))
                {| record := []; scratch := payload; in_fragmented_record := true;
                   prospective_record_offset := record_offset r; fragment := payload |})
      as (l' & -> & H1 & H2 & H3); [unfold unread in *; lia|exact Hst1|reflexivity|reflexivity|].
    cbn [prospective_record_offset]. rewrite H1.
    eexists. split; [reflexivity|]. split; [reflexivity|].
    unfold reports. simpl_reader. rewrite H3, Hrep. reflexivity.
Qed.

(** X26: an error of [Skip] in the first call of [ReadRecord] on a
    new reader whose initial offset lies in or after the trailer of the
    first block: the call returns [false] before it clears [*record]
    and [*scratch], and the reporter is not told, because [ReportDrop]
    compares 0 with the initial offset. *)
Theorem skip_error_is_not_reported r record0 scratch0 :
  buffer_ r = [] ->
  last_record_offset_ r < initial_offset_ r ->
  kBlockSize - 6 < initial_offset_ r -> initial_offset_ r + kBlockSize < 2 ^ 64 ->
  failing (file_ r) = true ->
  exists r',
    ReadRecord crc32c_Value crc32c_Unmask r record0 scratch0
    = Some (false, record0, scratch0, r') /\
    reports r' = reports r /\
    LastRecordOffset r' = LastRecordOffset r.
Proof.
  intros Hb Hlast Hio Hmax Hf.
  unfold ReadRecord, ReadRecord_from.
  destruct (Z.ltb_spec (last_record_offset_ r) (initial_offset_ r)); [|lia].
  unfold SkipToInitialBlock.
  set (bsl := if _ >? kBlockSize - 6 then _ else _).
  assert (Hbsl : 0 < bsl < 2 ^ 64).
  { subst bsl. pose proof (Z.mod_pos_bound (initial_offset_ r) kBlockSize eq_refl) as Hm.
    pose proof (Z.div_mod (initial_offset_ r) kBlockSize ltac:(discriminate)) as Hd.
    assert (Hq : 0 <= initial_offset_ r / kBlockSize)
      by (apply Z.div_pos; unfold kBlockSize in *; lia).
    unfold kBlockSize in *.
    rewrite (uint64_small (initial_offset_ r - _)) by lia.
    destruct (Z.gtb_spec (initial_offset_ r mod 32768) (32768 - 6)).
    - rewrite uint64_small by lia. lia.
    - lia. }
  destruct (Z.gtb_spec bsl 0); [|lia].
  unfold file_Skip. simpl_reader. rewrite Hf. cbn [Status_ok negb].
  eexists. split; [reflexivity|]. split; [|unfold ReportDrop; simpl_reader;
    destruct (reporter_ r); [destruct (_ >=? _)|]; reflexivity].
  unfold reports, ReportDrop. simpl_reader. rewrite Hb.
  destruct (reporter_ r) as [calls|] eqn:Hr; [|simpl_reader; rewrite ?Hr; reflexivity].
  replace (bsl - slen [] - bsl) with 0 by (unfold slen; cbn [length]; lia).
  change (uint64 0) with 0.
  destruct (Z.geb_spec 0 (initial_offset_ r)); [unfold kBlockSize in *; lia|].
  simpl_reader. rewrite ?Hr. reflexivity.
Qed.

Lemma uint64_sub_idemp a b : uint64 (uint64 a - b) = uint64 (a - b).
Proof. unfold uint64. apply Zminus_mod_idemp_l. Qed.

(** X27: an error of [Read] where [ReadRecord] needs the next block
    ends the log: the stream delivers fewer than [kBlockSize] bytes and
    reports an error.  The call returns [false] with [*record] and
    [*scratch] empty and leaves the reader at the end of the file with
    an empty buffer, the offset of the end of the buffer advanced by
    the bytes that were delivered.  The reporter receives the status as
    a drop of [kBlockSize] bytes, unless that offset less [kBlockSize],
    taken modulo 2^64, is below the initial offset.  Every later call
    returns [false] and reports nothing. *)
Theorem read_error_ends_the_log r record0 scratch0 :
  initial_offset_ r <= last_record_offset_ r ->
  slen (buffer_ r) < kHeaderSize -> eof_ r = false ->
  failing (file_ r) = true -> slen (data (file_ r)) < kBlockSize ->
  exists r',
    ReadRecord crc32c_Value crc32c_Unmask r record0 scratch0
    = Some (false, [], [], r') /\
    eof_ r' = true /\ buffer_ r' = [] /\
    end_of_buffer_offset_ r'
    = uint64 (end_of_buffer_offset_ r + slen (data (file_ r))) /\
    reports r' =
      (match reporter_ r with
       | Some calls =>
           if uint64 (end_of_buffer_offset_ r + slen (data (file_ r)) - kBlockSize)
                >=? initial_offset_ r
           then calls ++ [(kBlockSize, fst (fst (file_Read (file_ r) kBlockSize)))]
           else calls
       | None => []
       end) /\
    forall record1 scratch1, exists r'',
      ReadRecord crc32c_Value crc32c_Unmask r' record1 scratch1
      = Some (false, [], [], r'') /\
      reports r'' = reports r'.
Proof.
  intros Hlast Hbuf Heof Hf Hshort.
  set (l0 := {| record := []; scratch := []; in_fragmented_record := false;
                prospective_record_offset := 0; fragment := [] |}).
  assert (Hcall : forall x rec scr b l y,
            initial_offset_ x <= last_record_offset_ x ->
            turn x l0 = Some (inl (b, l, y)) ->
            ReadRecord crc32c_Value crc32c_Unmask x rec scr
            = Some (b, record l, scratch l, y)).
  { intros x rec scr b l y Hx Ht. unfold ReadRecord, ReadRecord_from.
    destruct (Z.ltb_spec (last_record_offset_ x) (initial_offset_ x)); [lia|].
    cbn [negb]. fold l0. rewrite loop_S, Ht. reflexivity. }
  set (status := fst (fst (file_Read (file_ r) kBlockSize))).
  set (r0 := set_buffer_ (snd (ReadPhysicalRecord_read r)) []).
  set (r1 := set_resyncing_ (set_eof_ (ReportDrop r0 kBlockSize status) true) false).
  assert (Hread : ReadPhysicalRecord_read r = (status, snd (ReadPhysicalRecord_read r))).
  { subst status. unfold ReadPhysicalRecord_read. simpl_reader.
    destruct (file_Read (file_ r) kBlockSize) as [[st buf] f]. reflexivity. }
  assert (Hst : Status_ok status = false).
  { destruct (read_fields r) as (H1 & _). rewrite Hread in H1. cbn [fst] in H1.
    rewrite H1, Hf. destruct (Z.ltb_spec (slen (data (file_ r))) kBlockSize); [|lia].
    reflexivity. }
  assert (Hall : firstn (Z.to_nat kBlockSize) (data (file_ r)) = data (file_ r)).
  { apply firstn_all2. unfold slen in Hshort. revert Hshort. generalize kBlockSize. lia. }
  assert (H0 : buffer_ r0 = [] /\
               end_of_buffer_offset_ r0
               = uint64 (end_of_buffer_offset_ r + slen (data (file_ r))) /\
               reporter_ r0 = reporter_ r /\
               initial_offset_ r0 = initial_offset_ r /\
               last_record_offset_ r0 = last_record_offset_ r /\
               resyncing_ r0 = resyncing_ r).
  { destruct (read_fields r) as (_ & _ & _ & _ & He & _ & Hr & _ & Hi & Hl & Hs).
    rewrite Hall in He. subst r0. simpl_reader. repeat split; assumption. }
  destruct H0 as (Hb0 & He0 & Hr0 & Hi0 & Hl0 & Hs0).
  assert (H1 : eof_ r1 = true /\ buffer_ r1 = [] /\ resyncing_ r1 = false /\
               initial_offset_ r1 = initial_offset_ r /\
               last_record_offset_ r1 = last_record_offset_ r /\
               end_of_buffer_offset_ r1 = end_of_buffer_offset_ r0 /\
               reporter_ r1 = reporter_ (ReportDrop r0 kBlockSize status)).
  { subst r1. simpl_reader. unfold ReportDrop.
    destruct (reporter_ r0); [destruct (_ >=? _)|]; simpl_reader;
      repeat split; assumption. }
  destruct H1 as (Heof1 & Hbuf1 & Hrs1 & Hinit1 & Hlast1 & Heob1 & Hrep1).
  assert (Hrs : resyncing_ (set_eof_ (ReportDrop r0 kBlockSize status) true)
                = resyncing_ r).
  { simpl_reader. unfold ReportDrop.
    destruct (reporter_ r0); [destruct (_ >=? _)|]; simpl_reader; assumption. }
  assert (Hturn : turn r l0
                  = Some (inl (false, l0,
                               if resyncing_ r then r1
                               else set_eof_ (ReportDrop r0 kBlockSize status) true))).
  { rewrite turn_unfold. unfold ReadPhysicalRecord. rewrite RPR_loop_S.
    destruct (Z.ltb_spec (slen (buffer_ r)) kHeaderSize); [|lia].
    rewrite Heof. cbn [negb]. rewrite Hread, Hst. cbn [negb]. fold r0.
    rewrite Hrs. fold r1.
    destruct (resyncing_ r); eval_tests; unfold ReadRecord_switch; eval_tests;
      reflexivity. }
  set (r' := if resyncing_ r then r1 else _) in Hturn.
  assert (H' : eof_ r' = true /\ buffer_ r' = [] /\ resyncing_ r' = false /\
               initial_offset_ r' = initial_offset_ r /\
               last_record_offset_ r' = last_record_offset_ r /\
               end_of_buffer_offset_ r' = end_of_buffer_offset_ r0 /\
               reporter_ r' = reporter_ (ReportDrop r0 kBlockSize status)).
  { subst r'. destruct (resyncing_ r) eqn:Er.
    - repeat split; assumption.
    - simpl_reader. subst r1. simpl_reader_all.
      repeat split; assumption. }
  destruct H' as (Heof' & Hbuf' & Hrs' & Hinit' & Hlast' & Heob' & Hrep').
  exists r'. split; [exact (Hcall r record0 scratch0 _ _ _ Hlast Hturn)|].
  split; [exact Heof'|]. split; [exact Hbuf'|]. split; [now rewrite Heob'|]. split.
  { unfold reports. rewrite Hrep'. unfold ReportDrop.
    rewrite Hr0, He0, Hi0, Hb0. unfold slen at 1. cbn [length].
    rewrite Z.sub_0_r, uint64_sub_idemp.
    destruct (reporter_ r) as [calls|] eqn:Hr; [|now rewrite Hr0].
    destruct (_ >=? _); simpl_reader; [reflexivity|].
    rewrite Hr0. reflexivity. }
  intros record1 scratch1.
  assert (Hturn2 : turn r' l0 = Some (inl (false, l0, set_buffer_ r' []))).
  { rewrite turn_unfold. unfold ReadPhysicalRecord. rewrite RPR_loop_S.
    rewrite Hbuf'. change (slen [] <? kHeaderSize) with true. cbv iota.
    rewrite Heof'. cbn [negb]. simpl_reader. rewrite Hrs'.
    unfold ReadRecord_switch; eval_tests. reflexivity. }
  exists (set_buffer_ r' []). split.
  { apply (Hcall r' record1 scratch1 _ _ _ ltac:(lia) Hturn2). }
  reflexivity.
Qed.

End Facts.

(** A record written as [physical_record] is a whole record, when
    checksums are not verified. *)
Lemma physical_record_at crc unmask type payload rest :
  slen payload < 65536 -> 0 <= type < 128 ->
  ~ (type = kZeroType /\ payload = []) ->
  record_at crc unmask false (physical_record type payload ++ rest) type payload rest.
Proof.
  intros Hn Ht Hz. pose proof (slen_nonneg payload) as Hp.
  assert (Hl : header_length (physical_record type payload ++ rest) = slen payload).
  { unfold header_length, physical_record. cbn [app nth].
    change 255 with (Z.ones 8). rewrite !Z.land_ones by lia.
    rewrite Z.shiftr_div_pow2 by lia. change (2 ^ 8) with 256.
    rewrite !Z.mod_mod by lia.
    rewrite lor_shiftl_add; change (2 ^ 8) with 256.
    - rewrite (Z.mod_small (slen payload / 256)).
      + pose proof (Z.div_mod (slen payload) 256). lia.
      + split; [apply Z.div_pos; lia|apply Z.div_lt_upper_bound; lia].
    - lia.
    - apply Z.mod_pos_bound. lia.
    - apply Z.mod_pos_bound. lia. }
  unfold record_at. rewrite Hl. unfold physical_record, kHeaderSize.
  split; [unfold slen; rewrite !length_app; cbn [length]; lia|].
  split.
  { unfold header_type, uint_of_char. cbn [app nth].
    destruct (Z.ltb_spec type 128); [reflexivity|lia]. }
  split.
  { intros [E1 E2]. apply Hz. split; [exact E1|].
    destruct payload; [reflexivity|]. unfold slen in E2. cbn [length] in E2. lia. }
  split; [intros E; discriminate E|].
  change (Z.to_nat (4 + 2 + 1)) with 7%nat.
  replace (Z.to_nat (4 + 2 + 1 + slen payload)) with (7 + length payload)%nat
    by (unfold slen; lia).
  cbn [app]. split.
  - change (skipn 7 (?a :: ?b :: ?c :: ?d :: ?e :: ?f :: ?g :: ?l)) with l.
    unfold slen. rewrite Nat2Z.id, firstn_app, firstn_all, Nat.sub_diag.
    cbn [firstn]. now rewrite app_nil_r.
  - change (skipn (7 + ?n) (?a :: ?b :: ?c :: ?d :: ?e :: ?f :: ?g :: ?l))
      with (skipn n l).
    rewrite skipn_app, skipn_all, Nat.sub_diag. reflexivity.
Qed.

(** A first read takes the first block of a file that begins with a
    whole block. *)
Lemma after_read_block r block more :
  failing (file_ r) = false -> data (file_ r) = block ++ more ->
  slen block = kBlockSize ->
  buffer_ (after_read r) = block.
Proof.
  intros Hf Hd Hb. destruct (after_read_fields r Hf) as (-> & _).
  rewrite Hd. replace (Z.to_nat kBlockSize) with (length block) by (unfold slen in Hb; lia).
  rewrite firstn_app, firstn_all, Nat.sub_diag. cbn [firstn]. apply app_nil_r.
Qed.

Ltac small_record_at :=
  unfold record_at, checksum_ok;
  split; [vm_compute; discriminate|];
  split; [vm_compute; reflexivity|];
  split; [intros [E _]; discriminate E|];
  split; [intros E; vm_compute in E; discriminate E|];
  split; vm_compute; reflexivity.

Lemma skip_error_is_not_reported_witness :
  let r := NewReader {| data := []; failing := true |} (Some []) false 40000 in
  exists r',
    ReadRecord no_crc no_unmask r [1] [2] = Some (false, [1], [2], r') /\
    reports r' = [] /\ LastRecordOffset r' = 0.
Proof.
  intros r.
  destruct (skip_error_is_not_reported no_crc no_unmask r [1] [2] eq_refl
              ltac:(vm_compute; reflexivity) ltac:(vm_compute; reflexivity)
              ltac:(vm_compute; reflexivity) eq_refl)
    as (r' & H1 & H2 & H3).
  exists r'. split; [exact H1|]. split; [exact H2|exact H3].
Defined.

Lemma read_error_ends_the_log_witness :
  let r := NewReader {| data := bytes_of_string "abc"; failing := true |} (Some []) false 0 in
  exists r',
    ReadRecord no_crc no_unmask r [1] [2] = Some (false, [], [], r') /\
    eof_ r' = true /\ end_of_buffer_offset_ r' = 3 /\
    reports r' = [(kBlockSize, IOError "read")] /\
    exists r'', ReadRecord no_crc no_unmask r' [] [] = Some (false, [], [], r'') /\
                reports r'' = reports r'.
Proof.
  intros r.
  destruct (read_error_ends_the_log no_crc no_unmask r [1] [2]
              ltac:(vm_compute; discriminate) ltac:(vm_compute; reflexivity)
              eq_refl eq_refl ltac:(vm_compute; reflexivity))
    as (r' & H1 & H2 & _ & H3 & H4 & H5).
  exists r'. split; [exact H1|]. split; [exact H2|]. split; [exact H3|].
  split; [exact H4|]. exact (H5 [] []).
Defined.

(** A read error after a whole block, on a reader made with the initial
    offset 50.  The record of the first block starts before that
    offset and is passed over.  When the failing read delivers 100
    bytes, the drop is counted from the offset 100 and is reported;
    when it delivers 10 bytes, from the offset 10, and it is not. *)
Lemma read_error_after_a_block :
  let file n := {| data := physical_record kFullType (repeat 65 (Z.to_nat 32761))
                           ++ repeat 0 n;
                   failing := true |} in
  outcome (ReadRecord no_crc no_unmask (NewReader (file 100%nat) (Some []) false 50) [] [])
  = Some (false, [], [(kBlockSize, IOError "read")]) /\
  outcome (ReadRecord no_crc no_unmask (NewReader (file 10%nat) (Some []) false 50) [] [])
  = Some (false, [], []).
Proof. split; vm_compute; reflexivity. Qed.

Lemma ReadRecord_logical_record_witness :
  let r := reader_on two_blocks 0 in
  exists scratch r',
    ReadRecord no_crc no_unmask r [] []
    = Some (true, repeat 65 (Z.to_nat 32761) ++ bytes_of_string "y", scratch, r') /\
    buffer_ r' = physical_record kFullType (bytes_of_string "x") /\
    LastRecordOffset r' = 0 /\ reports r' = [].
Proof.
  intros r.
  set (r1 := set_buffer_ (after_read r) []).
  set (rest := physical_record kFullType (bytes_of_string "x")).
  set (r2 := set_buffer_ (after_read r1) rest).
  set (first := repeat 65 (Z.to_nat 32761)).
  assert (Ho : offsets_ok r) by (unfold offsets_ok; vm_compute; repeat split; congruence).
  assert (Hb : buffer_ (after_read r) = physical_record kFirstType first).
  { apply (after_read_block r _ (physical_record kLastType (bytes_of_string "y") ++ rest));
      [reflexivity|reflexivity|vm_compute; reflexivity]. }
  assert (H1 : stands_before no_crc no_unmask r kFirstType first r1).
  { apply (before_in_next_block no_crc no_unmask r kFirstType _ r1 []);
      [vm_compute; reflexivity|reflexivity|reflexivity| |reflexivity].
    rewrite Hb, <- (app_nil_r (physical_record kFirstType first)).
    apply physical_record_at.
    - vm_compute. reflexivity.
    - vm_compute. split; congruence.
    - intros [E _]. discriminate E. }
  assert (H2 : stands_before no_crc no_unmask r1 kLastType (bytes_of_string "y") r2).
  { apply (before_in_next_block no_crc no_unmask r1 kLastType _ r2 rest);
      [vm_compute; reflexivity|vm_compute; reflexivity|vm_compute; reflexivity|
      |reflexivity].
    small_record_at. }
  assert (Hlog : logical_record no_crc no_unmask r (first ++ bytes_of_string "y") r2).
  { right. exists first, r1. split; [exact H1|].
    apply fragments_last. exact H2. }
  destruct (ReadRecord_logical_record no_crc no_unmask r [] [] _ r2 Ho eq_refl
              ltac:(vm_compute; congruence) ltac:(vm_compute; congruence) Hlog)
    as (scratch & Hr & Hl & Hrep).
  exists scratch, (set_last_record_offset_ r2 (record_offset r)).
  split; [exact Hr|]. split; [vm_compute; reflexivity|].
  split; [exact Hl|exact Hrep].
Defined.

End LogRecordFacts.

Module TableSizeFacts.
Import Coding TableBuilder.

Ltac simpl_fields :=
  cbn [options index_block_options file offset status data_block index_block
       last_key num_entries closed filter_block pending_index_entry pending_handle
       compressed_output
       set_file set_offset set_status set_data_block set_index_block set_last_key
       set_num_entries set_closed set_filter_block set_pending_index_entry
       set_pending_handle set_compressed_output] in *.

Section Facts.
Variable crc32c_Value : list Z -> Z.
Variable crc32c_Extend : Z -> list Z -> Z.
Variable crc32c_Mask : Z -> Z.
Variable Snappy_Compress : list Z -> option (list Z).
Variable FilterPolicy : Type.
Variable FilterPolicy_Name : FilterPolicy -> list Z.
Variable FilterBlockBuilder : Type.
Variable NewFilterBlockBuilder : FilterPolicy -> FilterBlockBuilder.
Variable FilterBlockBuilder_StartBlock : FilterBlockBuilder -> Z -> FilterBlockBuilder.
Variable FilterBlockBuilder_AddKey : FilterBlockBuilder -> list Z -> FilterBlockBuilder.
Variable FilterBlockBuilder_Finish : FilterBlockBuilder -> list Z * FilterBlockBuilder.

Abbreviation Rep := (Rep FilterPolicy FilterBlockBuilder).
Abbreviation Add := (Add crc32c_Value crc32c_Extend crc32c_Mask Snappy_Compress
                   FilterPolicy FilterBlockBuilder FilterBlockBuilder_StartBlock
                   FilterBlockBuilder_AddKey).
Abbreviation Flush := (Flush crc32c_Value crc32c_Extend crc32c_Mask Snappy_Compress
                     FilterPolicy FilterBlockBuilder FilterBlockBuilder_StartBlock).
Abbreviation Finish := (Finish crc32c_Value crc32c_Extend crc32c_Mask Snappy_Compress
                      FilterPolicy FilterPolicy_Name FilterBlockBuilder
                      FilterBlockBuilder_StartBlock FilterBlockBuilder_Finish).
Abbreviation WriteRawBlock := (WriteRawBlock crc32c_Value crc32c_Extend crc32c_Mask
                             FilterPolicy FilterBlockBuilder).
Abbreviation WriteBlock := (WriteBlock crc32c_Value crc32c_Extend crc32c_Mask Snappy_Compress
                          FilterPolicy FilterBlockBuilder).
Abbreviation in_step := (in_step FilterPolicy FilterBlockBuilder).
Notation same_file r' r := (file _ _ r' = file _ _ r /\ offset _ _ r' = offset _ _ r).

Lemma in_step_same before (r r' : Rep) :
  same_file r' r -> in_step before r -> in_step before r'.
Proof.
  intros [Hf Ho] H. unfold TableBuilder.in_step, FileSize in *. now rewrite Hf, Ho.
Qed.

Lemma uint64_slen_app (written more : list Z) :
  uint64 (uint64 (slen written) + slen more) = uint64 (slen (written ++ more)).
Proof.
  unfold uint64, slen. rewrite length_app, Nat2Z.inj_add.
  now rewrite Zplus_mod_idemp_l.
Qed.

(** [WriteRawBlock] on a file that does not fail appends the block and
    its trailer of five bytes and advances [offset] by their size. *)
Lemma WriteRawBlock_in_step before (r : Rep) c t :
  in_step before r ->
  in_step before (fst (WriteRawBlock r c t)) /\
  status _ _ (fst (WriteRawBlock r c t)) = OK.
Proof.
  intros (Hw & written & Hc & Ho). unfold TableBuilder.in_step, FileSize in *.
  destruct r as [opt iopt f off st db ib lk ne cl fb pie ph co].
  simpl_fields. unfold TableBuilder.WriteRawBlock, file_Append. simpl_fields.
  rewrite Hw. cbn [Status_ok]. simpl_fields. cbn [write_fails Status_ok fst contents].
  simpl_fields. split; [|reflexivity].
  split; [reflexivity|]. simpl_fields. cbn [contents].
  set (trailer := _ :: EncodeFixed32 _).
  exists (written ++ c ++ trailer). split.
  - rewrite Hc, <- !app_assoc. reflexivity.
  - rewrite Ho, <- Z.add_assoc.
    replace (slen c + kBlockTrailerSize) with (slen (c ++ trailer)).
    + apply uint64_slen_app.
    + unfold slen. rewrite length_app. subst trailer.
      cbn [length EncodeFixed32]. unfold kBlockTrailerSize. lia.
Qed.

Lemma WriteBlock_in_step before (r : Rep) b :
  in_step before r ->
  in_step before (fst (fst (WriteBlock r b))) /\
  status _ _ (fst (fst (WriteBlock r b))) = OK.
Proof.
  intros H. unfold TableBuilder.WriteBlock.
  destruct (BlockBuilder_Finish b) as [raw b'].
  assert (Hgen : forall (r0 : Rep) c t,
            in_step before r0 ->
            in_step before
              (fst (fst (let '(r1, handle) := WriteRawBlock r0 c t in
                         (set_compressed_output _ _ r1 [], BlockBuilder_Reset b', handle))))
            /\ status _ _
                 (fst (fst (let '(r1, handle) := WriteRawBlock r0 c t in
                            (set_compressed_output _ _ r1 [], BlockBuilder_Reset b', handle))))
               = OK).
  { intros r0 c t H0. destruct (WriteRawBlock_in_step before r0 c t H0) as [H1 H2].
    destruct (WriteRawBlock r0 c t) as [r1 h]. cbn [fst] in *. simpl_fields.
    split; [|exact H2]. apply (in_step_same before r1); [split; reflexivity|exact H1]. }
  destruct (compression _ (options _ _ r)).
  - apply Hgen, H.
  - destruct (Snappy_Compress raw) as [compressed|]; [|apply Hgen, H].
    destruct (_ <? _); apply Hgen;
      (apply (in_step_same before r); [split; reflexivity|exact H]).
Qed.

Lemma file_Flush_ok (f : WritableFile) : write_fails f = false -> file_Flush f = OK.
Proof. intros H. unfold file_Flush. now rewrite H. Qed.

Lemma Flush_in_step before (r : Rep) :
  in_step before r ->
  in_step before (Flush r) /\ (status _ _ r = OK -> status _ _ (Flush r) = OK).
Proof.
  intros H. unfold TableBuilder.Flush, ok.
  destruct (Status_ok (status _ _ r)) eqn:Hs; cbn [negb];
    [|split; [exact H|intros E; rewrite E in Hs; discriminate Hs]].
  destruct (BlockBuilder_empty (data_block _ _ r)); [split; [exact H|tauto]|].
  destruct (WriteBlock_in_step before r (data_block _ _ r) H) as [H1 H2].
  destruct (WriteBlock r (data_block _ _ r)) as [[r1 block] handle].
  cbn [fst] in H1, H2. simpl_fields. rewrite H2. cbn [Status_ok].
  rewrite (file_Flush_ok _ (proj1 H1)). simpl_fields.
  destruct (filter_block _ _ r1); simpl_fields;
    (split; [apply (in_step_same before r1); [split; reflexivity|exact H1]|reflexivity]).
Qed.

Lemma Add_in_step before (r : Rep) key value :
  in_step before r ->
  in_step before (Add r key value) /\
  (status _ _ r = OK -> status _ _ (Add r key value) = OK).
Proof.
  intros H. unfold TableBuilder.Add, ok.
  destruct (Status_ok (status _ _ r)) eqn:Hs; cbn [negb];
    [|split; [exact H|intros E; rewrite E in Hs; discriminate Hs]].
  match goal with
  | |- context [if _ >=? _ then TableBuilder.Flush _ _ _ _ _ _ _ ?x else _] =>
      assert (Hx : in_step before x /\ status _ _ x = status _ _ r);
      [|set (r1 := x) in *]
  end.
  { destruct (pending_index_entry _ _ r); simpl_fields;
      destruct (filter_block _ _ r); simpl_fields;
      (split; [apply (in_step_same before r); [split; reflexivity|exact H]|reflexivity]). }
  destruct Hx as [Hx Hst].
  destruct (_ >=? _).
  - destruct (Flush_in_step before r1 Hx) as [H1 H2]. split; [exact H1|].
    intros E. apply H2. congruence.
  - split; [exact Hx|]. congruence.
Qed.

Lemma Finish_in_step before (r : Rep) :
  in_step before r ->
  in_step before (snd (Finish r)) /\ (status _ _ r = OK -> fst (Finish r) = OK).
Proof.
  intros H. unfold TableBuilder.Finish.
  destruct (Flush_in_step before r H) as [H1 S1].
  set (ra := set_closed _ _ (Flush r) true).
  assert (Ha : in_step before ra)
    by (apply (in_step_same before (Flush r)); [split; reflexivity|exact H1]).
  assert (Sa : status _ _ r = OK -> status _ _ ra = OK) by exact S1.
  clearbody ra. clear H1 S1.
  (* filter block *)
  assert (Hb : in_step before (fst (Finish_filter_block crc32c_Value crc32c_Extend
                                      crc32c_Mask _ _ FilterBlockBuilder_Finish ra)) /\
               (status _ _ r = OK ->
                status _ _ (fst (Finish_filter_block crc32c_Value crc32c_Extend
                                   crc32c_Mask _ _ FilterBlockBuilder_Finish ra)) = OK)).
  { unfold Finish_filter_block, ok.
    destruct (filter_block _ _ ra) as [fb|]; [|split; assumption].
    destruct (Status_ok (status _ _ ra)); [|split; assumption].
    destruct (FilterBlockBuilder_Finish fb) as [c fb'].
    destruct (WriteRawBlock_in_step before (set_filter_block _ _ ra (Some fb')) c
                kNoCompression) as [Hx Sx].
    - apply (in_step_same before ra); [split; reflexivity|exact Ha].
    - split; [exact Hx|intros _; exact Sx]. }
  destruct (Finish_filter_block _ _ _ _ _ _ ra) as [rb hb]. cbn [fst] in Hb.
  destruct Hb as [Hb Sb]. clear Ha Sa.
  (* metaindex block *)
  assert (Hc : in_step before (fst (Finish_metaindex_block crc32c_Value crc32c_Extend
                                      crc32c_Mask Snappy_Compress _ FilterPolicy_Name _
                                      rb hb)) /\
               (status _ _ r = OK ->
                status _ _ (fst (Finish_metaindex_block crc32c_Value crc32c_Extend
                                   crc32c_Mask Snappy_Compress _ FilterPolicy_Name _
                                   rb hb)) = OK)).
  { unfold Finish_metaindex_block, ok.
    destruct (Status_ok (status _ _ rb)); [|split; assumption].
    match goal with
    | |- context [TableBuilder.WriteBlock _ _ _ _ _ _ rb ?b] =>
        destruct (WriteBlock_in_step before rb b Hb) as [Hx Sx];
        destruct (WriteBlock rb b) as [[rx bx] hx]
    end.
    cbn [fst] in *. split; [exact Hx|intros _; exact Sx]. }
  destruct (Finish_metaindex_block _ _ _ _ _ _ _ rb hb) as [rc hc]. cbn [fst] in Hc.
  destruct Hc as [Hc Sc]. clear Hb Sb.
  (* index block *)
  assert (Hd : in_step before (fst (Finish_index_block crc32c_Value crc32c_Extend
                                      crc32c_Mask Snappy_Compress _ _ rc)) /\
               (status _ _ r = OK ->
                status _ _ (fst (Finish_index_block crc32c_Value crc32c_Extend
                                   crc32c_Mask Snappy_Compress _ _ rc)) = OK)).
  { unfold Finish_index_block, ok.
    destruct (Status_ok (status _ _ rc)); [|split; assumption].
    match goal with
    | |- context [TableBuilder.WriteBlock _ _ _ _ _ _ ?x ?b] =>
        assert (Hx0 : in_step before x)
          by (destruct (pending_index_entry _ _ rc); simpl_fields;
              [apply (in_step_same before rc); [split; reflexivity|exact Hc]|exact Hc]);
        destruct (WriteBlock_in_step before x b Hx0) as [Hx Sx];
        destruct (WriteBlock x b) as [[rx bx] hx]
    end.
    cbn [fst] in *. simpl_fields.
    split; [apply (in_step_same before rx); [split; reflexivity|exact Hx]|intros _; exact Sx]. }
  destruct (Finish_index_block _ _ _ _ _ _ rc) as [rd hd]. cbn [fst] in Hd.
  destruct Hd as [Hd Sd]. clear Hc Sc.
  (* footer *)
  cbn [fst snd]. unfold Finish_footer, ok.
  destruct (Status_ok (status _ _ rd)) eqn:Hs; [|split; [exact Hd|]].
  - destruct Hd as (Hw & written & Hcon & Hoff).
    unfold TableBuilder.in_step, FileSize in *. unfold file_Append. rewrite Hw. simpl_fields. cbn [Status_ok]. simpl_fields.
    split; [|reflexivity]. split; [reflexivity|]. cbn [contents].
    eexists (written ++ _). split.
    + rewrite Hcon, <- app_assoc. reflexivity.
    + rewrite Hoff. apply uint64_slen_app.
  - intros E. rewrite (Sd E) in Hs. discriminate Hs.
Qed.

(** X28: while the file does not fail, the offset of the builder is in
    step with the file: after [Add], after [Flush] and after [Finish]
    the file holds what it held when the builder was made and the bytes
    written since, and [FileSize] is their number modulo 2^64.  A
    builder without error stays without error, and [Finish] then
    returns OK. *)
Theorem FileSize_counts_the_bytes_written before (r : Rep) key value :
  in_step before r ->
  in_step before (Add r key value) /\
  in_step before (Flush r) /\
  in_step before (snd (Finish r)) /\
  (status _ _ r = OK ->
   status _ _ (Add r key value) = OK /\ status _ _ (Flush r) = OK /\
   fst (Finish r) = OK).
Proof.
  intros H.
  destruct (Add_in_step before r key value H) as [A1 A2].
  destruct (Flush_in_step before r H) as [F1 F2].
  destruct (Finish_in_step before r H) as [E1 E2].
  split; [exact A1|]. split; [exact F1|]. split; [exact E1|].
  intros Hs. split; [exact (A2 Hs)|]. split; [exact (F2 Hs)|exact (E2 Hs)].
Qed.

End Facts.

Lemma FileSize_counts_the_bytes_written_witness :
  let r := NewTableBuilder Empty_set unit (fun policy => match policy with end)
             (fun fb _ => fb) (plain_options Empty_set) empty_file in
  let r' := snd (Finish (fun _ => 0) (fun crc _ => crc) (fun crc => crc) (fun _ => None)
                   Empty_set (fun _ => []) unit (fun fb _ => fb) (fun fb => ([], fb)) r) in
  in_step Empty_set unit [] r' /\ FileSize _ _ r' = 74 /\
  slen (contents (file _ _ r')) = 74.
Proof.
  intros r r'.
  assert (H : in_step Empty_set unit [] r).
  { split; [reflexivity|]. exists []. split; reflexivity. }
  destruct (FileSize_counts_the_bytes_written
              (fun _ => 0) (fun crc _ => crc) (fun crc => crc) (fun _ => None)
              Empty_set (fun _ => []) unit (fun fb _ => fb) (fun fb _ => fb)
              (fun fb => ([], fb)) [] r [] [] H) as (_ & _ & H' & _).
  split; [exact H'|]. split; vm_compute; reflexivity.
Defined.

End TableSizeFacts.
